(** * Canvace engine (ladybug): spatial buckets, tile map, animations, A*

    A shallow embedding of the core of [src/index.html]:
    [Canvace.Matrix], [Canvace.MultiSet], [Canvace.FrameTable],
    [Canvace.View], [Canvace.Buckets], [Canvace.TileMap], [Canvace.Heap]
    and [Canvace.Astar].

    Conventions of the embedding.
    - JavaScript numbers that the code treats as integers (tile ids, cell
      coordinates, projected pixel coordinates after [Math.round], canvas
      sizes, frame durations) are [Z]; numbers that may be fractional
      (entity positions, the view origin, timestamps, collision spans,
      path costs) are exact rationals [Q].  No rounding error is modelled.
    - A JavaScript object used as a dictionary is a [gmap]; the string key
      [i + ' ' + j + ' ' + k] of [Canvace.Matrix] is the triple [(i, j, k)]
      (printing integers is injective and a printed integer has no space).
    - An exception is a [Throw] in the [result] monad; [undefined] is
      [None] of an [option]. *)

From Stdlib Require Import ZArith QArith Qround Qabs Lia Lqa List.
From stdpp Require Import base option list gmap.

Open Scope Z_scope.

(** ** Exceptions *)

(** The values thrown by the modelled code: the two object literals
    [{message: 'invalid tile ID', id: id}] and
    [{message: 'invalid entity ID', id: id}], and the engine's own
    [TypeError] (a property read or a method call on [undefined]). *)
Inductive exn : Type :=
| InvalidTileID (id : Z)
| InvalidEntityID (id : Z)
| TypeError.

(** How a call ends: it returns, it throws, or it never returns
    ([Diverges]: a loop that provably has no exit). *)
Inductive result (A : Type) : Type :=
| Ok (a : A)
| Throw (e : exn)
| Diverges.
Arguments Ok {A} a.
Arguments Throw {A} e.
Arguments Diverges {A}.

Definition bind {A B : Type} (r : result A) (f : A -> result B) : result B :=
  match r with
  | Ok a => f a
  | Throw e => Throw e
  | Diverges => Diverges
  end.

Notation "'let*' x ':=' r 'in' k" := (bind r (fun x => k))
  (at level 10, x pattern, r at level 100, k at level 200).

(** Code that mutates an object of type [S]: the outcome together with
    the object as the call leaves it.  A throw does not roll anything
    back, so the state at the throw is kept. *)
Definition M (S A : Type) : Type := S -> result A * S.

Definition ret {S A : Type} (a : A) : M S A := fun s => (Ok a, s).
Definition throw {S A : Type} (e : exn) : M S A := fun s => (Throw e, s).
Definition bindM {S A B : Type} (m : M S A) (f : A -> M S B) : M S B :=
  fun s =>
    match m s with
    | (Ok a, s') => f a s'
    | (Throw e, s') => (Throw e, s')
    | (Diverges, s') => (Diverges, s')
    end.
Definition gets {S A : Type} (f : S -> A) : M S A := fun s => (Ok (f s), s).
Definition modify {S : Type} (f : S -> S) : M S unit := fun s => (Ok tt, f s).
Definition lift {S A : Type} (r : result A) : M S A := fun s => (r, s).

Notation "'let!' x ':=' m 'in' k" := (bindM m (fun x => k))
  (at level 10, x pattern, m at level 100, k at level 200).

(** [for (x = lo; x <= hi; x++) body], threading the loop-carried state. *)
Fixpoint for_count {S : Type} (n : nat) (x : Z) (body : Z -> S -> result S) (s : S)
  : result S :=
  match n with
  | O => Ok s
  | Datatypes.S n' => let* s' := body x s in for_count n' (x + 1) body s'
  end.

Definition for_range {S : Type} (lo hi : Z) (body : Z -> S -> result S) (s : S)
  : result S :=
  for_count (Z.to_nat (hi - lo + 1)) lo body s.

(** ** Static stage data *)

Record frame : Type := Frame {
  frame_id : Z;
  frame_duration : option Z
}.

Record layout : Type := Layout {
  span_i : Z; span_j : Z;
  ref_i : Z; ref_j : Z
}.

(** Custom properties are opaque to the engine; only user callbacks read
    them. *)
Definition properties : Type := list (Z * Z).

Record tile : Type := Tile {
  tile_frames : list frame;
  tile_width : Z;
  tile_height : Z;
  tile_offset : Z * Z;
  tile_layout : layout;
  tile_solid : bool;
  tile_mutable : bool;
  tile_properties : properties
}.

Record entity : Type := Entity {
  entity_frames : list frame;
  entity_width : Z;
  entity_height : Z;
  entity_offset : Z * Z
}.

Record stage_data : Type := StageData {
  tiles : gmap Z tile;
  entities : gmap Z entity
}.

(** ** Canvace.Matrix *)

Module Matrix.

Record t (V : Type) : Type := Make {
  data : gmap (Z * Z * Z) V;
  layers : gset Z
}.
Arguments Make {V} data layers.
Arguments data {V} _.
Arguments layers {V} _.

Definition empty {V : Type} : t V := Make ∅ ∅.

Definition get {V : Type} (m : t V) (i j k : Z) : option V :=
  data m !! (i, j, k).

Definition put {V : Type} (m : t V) (i j k : Z) (value : V) : t V :=
  Make (<[(i, j, k) := value]> (data m)) ({[k]} ∪ layers m).

Definition has {V : Type} (m : t V) (i j k : Z) : bool :=
  bool_decide (is_Some (data m !! (i, j, k))).

Definition hasLayer {V : Type} (m : t V) (k : Z) : bool :=
  bool_decide (k ∈ layers m).

(** Returns the new matrix and the boolean the method returns. *)
Definition erase {V : Type} (m : t V) (i j k : Z) : t V * bool :=
  match data m !! (i, j, k) with
  | Some _ => (Make (delete (i, j, k) (data m)) (layers m), true)
  | None => (m, false)
  end.

End Matrix.

(** ** Numbers of the form [a + b * sqrt 2]

    [getGraphNode] computes with [Math.sqrt(2)]; on integer cell
    coordinates every number it produces is [a + b * sqrt 2] with
    rational (indeed integer) [a] and [b], represented exactly. *)
Module Root2.

Record t : Type := Make { rat : Q; irr : Q }.

Definition of_Z (a : Z) : t := Make (inject_Z a) 0.
Definition one : t := of_Z 1.
(** [Math.sqrt(2)]. *)
Definition sqrt2 : t := Make 0 1.
(** [Math.sqrt(Math.pow(m, 2) * 2)] for an integer [m >= 0]: [m * sqrt 2]. *)
Definition sqrt_2sq (m : Z) : t := Make 0 (inject_Z (Z.abs m)).
Definition add (x y : t) : t := Make (rat x + rat y) (irr x + irr y).
Definition sub (x y : t) : t := Make (rat x - rat y) (irr x - irr y).

(** [sqrt 2] is irrational: [a + b * sqrt 2] is zero exactly when [a] and
    [b] are.  This is the truthiness test [if (x)] on such a number. *)
Definition truthy (x : t) : bool :=
  negb (Qeq_bool (rat x) 0 && Qeq_bool (irr x) 0).

End Root2.

(** ** Canvace.FrameTable *)

Module FrameTable.

(** [while (b) { t = b; b = a % b; a = t; } return a;] on integers, where
    [%] is the remainder with the sign of the dividend ([Z.rem]).  The
    absolute value of [b] decreases, so [S (Z.abs_nat b)] turns suffice. *)
Fixpoint gcd_loop (fuel : nat) (a b : Z) : Z :=
  if b =? 0 then a
  else match fuel with
       | O => a
       | S fuel' => gcd_loop fuel' b (Z.rem a b)
       end.

Definition gcd (a b : Z) : Z := gcd_loop (S (Z.abs_nat b)) a b.

(** The function object [Animation(frames)] returns, with the variables
    its closure captures and its [static] property. *)
Record animation : Type := MkAnimation {
  frames : list frame;
  static : bool;
  partialUnit : Z;
  fullDuration : Z;
  looping : bool;
  lastFrameId : option Z;
  table : gmap Z Z;
  unit : Z
}.

Record scan : Type := Scan {
  s_partialUnit : Z; s_fullDuration : Z; s_looping : bool;
  s_lastFrameId : option Z
}.

(** The loop [for (var i in frames)] of [Animation]. *)
Definition scan_frames (fs : list frame) : scan :=
  fold_left
    (fun acc f =>
       match frame_duration f with
       | Some d => Scan (gcd (s_partialUnit acc) d) (s_fullDuration acc + d)
                        (s_looping acc) (s_lastFrameId acc)
       | None => Scan (s_partialUnit acc) (s_fullDuration acc) false
                      (Some (frame_id f))
       end)
    fs (Scan 0 0 true None).

(** The loop of [synchronize]:
    [for (var time = 0; time < fullDuration; time += unit, frameTime += unit)].
    [frameTime > undefined] is false, so a frame without duration is
    never left. *)
Fixpoint sync_loop (fuel : nat) (fs : list frame) (full u : Z)
    (time : Z) (frameIndex : nat) (frameTime : Z) (tbl : gmap Z Z)
  : result (gmap Z Z) :=
  if time <? full then
    match fuel with
    | O => Diverges
    | S fuel' =>
        match fs !! frameIndex with
        | None => Throw TypeError
        | Some f =>
            let advance :=
              match frame_duration f with
              | Some d => d <? frameTime
              | None => false
              end in
            let frameIndex' := if advance then S frameIndex else frameIndex in
            let frameTime' := if advance then 0 else frameTime in
            match fs !! frameIndex' with
            | None => Throw TypeError
            | Some f' =>
                sync_loop fuel' fs full u (time + u) frameIndex'
                  (frameTime' + u) (<[time := frame_id f']> tbl)
            end
        end
    end
  else Ok tbl.

(** [synchronize(period)] of one animation.  The loop runs at most
    [fullDuration] turns unless [unit <= 0], in which case it has no
    exit. *)
Definition synchronize1 (period : Z) (a : animation) : result animation :=
  let u := gcd (partialUnit a) period in
  let* tbl := sync_loop (Z.to_nat (fullDuration a)) (frames a) (fullDuration a) u
                0 0%nat 0 ∅ in
  Ok (MkAnimation (frames a) (static a) (partialUnit a) (fullDuration a)
        (looping a) (lastFrameId a) tbl u).

(** [new Animation(frames)]. *)
Definition Animation (fs : list frame) : result animation :=
  if (length fs <? 2)%nat then
    Ok (MkAnimation fs true 0 0 true None ∅ 0)
  else
    let sc := scan_frames fs in
    synchronize1 (s_partialUnit sc)
      (MkAnimation fs false (s_partialUnit sc) (s_fullDuration sc)
         (s_looping sc) (s_lastFrameId sc) ∅ 0).

(** [Math.trunc]: rounding towards zero. *)
Definition Qtrunc (x : Q) : Z :=
  if Qle_bool 0 x then Qfloor x else Qceiling x.

(** [x % m] on numbers, for [m <> 0]: the remainder has the sign of [x]. *)
Definition js_mod (x : Q) (m : Z) : Q :=
  (x - inject_Z m * inject_Z (Qtrunc (x / inject_Z m)))%Q.

(** [table[Math.floor(x / unit) * unit]]; a division by zero gives
    [NaN] or an infinity, and [table[NaN]] is [undefined]. *)
Definition lookup_slot (a : animation) (x : Q) : option Z :=
  if unit a =? 0 then None
  else table a !! (Qfloor (x / inject_Z (unit a)) * unit a).

(** Calling the animation function with a timestamp. *)
Definition getFrame (a : animation) (timestamp : Q) : result (option Z) :=
  if (length (frames a) <? 2)%nat then
    match frames a with
    | f :: _ => Ok (Some (frame_id f))
    | [] => Throw TypeError
    end
  else if looping a then
    if fullDuration a =? 0 then Ok None
    else Ok (lookup_slot a (js_mod timestamp (fullDuration a)))
  else if Qle_bool (inject_Z (fullDuration a)) timestamp then Ok (lastFrameId a)
  else Ok (lookup_slot a timestamp).

(** The [FrameTable] object: [tileSet], [entitySet], [table], [nextId]
    and the [synchronizers] (one per multi-frame animation, named by its
    key in [table]). *)
Record t : Type := Make {
  tileSet : gmap Z nat;
  entitySet : gmap Z nat;
  animations : gmap nat animation;
  nextId : nat;
  synchronizers : list nat
}.

Definition empty : t := Make ∅ ∅ ∅ 0 [].

Definition register (fs : list frame) (ft : t) : result (nat * t) :=
  let* a := Animation fs in
  let id := nextId ft in
  Ok (id, Make (tileSet ft) (entitySet ft) (<[id := a]> (animations ft)) (S id)
            (if (length fs <? 2)%nat then synchronizers ft
             else synchronizers ft ++ [id])).

(** [registerTile(id)] for an [id] of [data.tiles]. *)
Definition registerTile (id : Z) (fs : list frame) (ft : t) : result t :=
  let* (n, ft') := register fs ft in
  Ok (Make (<[id := n]> (tileSet ft')) (entitySet ft') (animations ft')
        (nextId ft') (synchronizers ft')).

(** [registerEntity(id)] for an [id] of [data.entities]. *)
Definition registerEntity (id : Z) (fs : list frame) (ft : t) : result t :=
  let* (n, ft') := register fs ft in
  Ok (Make (tileSet ft') (<[id := n]> (entitySet ft')) (animations ft')
        (nextId ft') (synchronizers ft')).

(** [getTileAnimation(id)]: the key of [table[tileSet[id]]], if any. *)
Definition getTileAnimation (ft : t) (id : Z) : option nat :=
  n ← tileSet ft !! id; _ ← animations ft !! n; Some n.

Definition getEntityAnimation (ft : t) (id : Z) : option nat :=
  n ← entitySet ft !! id; _ ← animations ft !! n; Some n.

(** [animation.static = v] on the animation object of key [n]. *)
Definition set_static (n : nat) (v : bool) (ft : t) : t :=
  Make (tileSet ft) (entitySet ft)
    (alter (fun a => MkAnimation (frames a) v (partialUnit a) (fullDuration a)
                       (looping a) (lastFrameId a) (table a) (unit a))
       n (animations ft))
    (nextId ft) (synchronizers ft).

(** [synchronize(period)]: every synchronizer in turn. *)
Fixpoint synchronize_all (period : Z) (ids : list nat) (ft : t) : result t :=
  match ids with
  | [] => Ok ft
  | n :: ids' =>
      match animations ft !! n with
      | None => synchronize_all period ids' ft
      | Some a =>
          let* a' := synchronize1 period a in
          synchronize_all period ids'
            (Make (tileSet ft) (entitySet ft) (<[n := a']> (animations ft))
               (nextId ft) (synchronizers ft))
      end
  end.

Definition synchronize (period : Z) (ft : t) : result t :=
  synchronize_all period (synchronizers ft) ft.

End FrameTable.

(** ** Canvace.MultiSet *)

Module MultiSet.

(** [elements] is an object keyed by the ids [0, 1, 2, ...]; such keys
    are enumerated in ascending order, which is insertion order. *)
Record t (A : Type) : Type := Make {
  elements : list (nat * A);
  nextId : nat;
  count : Z
}.
Arguments Make {A} elements nextId count.
Arguments elements {A} _.
Arguments nextId {A} _.
Arguments count {A} _.

Definition empty {A : Type} : t A := Make [] 0 0.

(** [add(element)]: the new multiset and the id the returned remover
    closes over. *)
Definition add {A : Type} (m : t A) (x : A) : t A * nat :=
  (Make (elements m ++ [(nextId m, x)]) (S (nextId m)) (count m + 1), nextId m).

Definition hasId {A : Type} (m : t A) (id : nat) : bool :=
  existsb (fun e => Nat.eqb (fst e) id) (elements m).

(** Calling the remover of id [id]. *)
Definition remove {A : Type} (m : t A) (id : nat) : t A * bool :=
  if hasId m id then
    (Make (filter (fun e => negb (Nat.eqb (fst e) id)) (elements m))
       (nextId m) (count m - 1), true)
  else (m, false).

(** The elements [fastForEach] passes to its action, in order. *)
Definition fastForEach {A : Type} (m : t A) : list A := map snd (elements m).

End MultiSet.

(** ** Canvace.View (the part the buckets use) *)

Module View.

Record t : Type := Make {
  mat : (Q * Q * Q) * (Q * Q * Q) * (Q * Q * Q);
  x0 : Q;
  y0 : Q;
  width : Z;
  height : Z
}.

(** [Math.round]: the nearest integer, halves up. *)
Definition round (x : Q) : Z := Qfloor (x + (1 # 2)).

Definition row (r : Q * Q * Q) (i j k : Q) : Q :=
  let '(a, b, c) := r in (a * i + b * j + c * k)%Q.

Definition projectElement (v : t) (offset : Z * Z) (i j k : Q) : Z * Z * Z :=
  let '(r0, r1, r2) := mat v in
  (round (row r0 i j k + inject_Z (fst offset)),
   round (row r1 i j k + inject_Z (snd offset)),
   round (row r2 i j k)).

End View.

(** ** Canvace.Buckets

    [prerender] (which draws on an off-screen canvas) is not modelled. *)

Module Buckets.

(** The object literal [Bucket.prototype.add] stores.  Its [p] is the
    very array [this.p] of the [Element] that registers it: the array is
    named by the address of that [Element], which allocated it, and is
    read through the heap of elements.  [getFrame] is the animation
    function, named by its key in the frame table. *)
Record entry : Type := Entry {
  e_p : nat;
  e_width : Z;
  e_height : Z;
  e_static : bool;
  e_getFrame : nat;
  e_timeOffset : Q
}.

Record bucket : Type := Bucket {
  sections : gmap Z (MultiSet.t entry);
  minS : Z;
  maxS : Z
}.

(** [new Bucket()]. *)
Definition newBucket : bucket := Bucket ∅ 0 0.

(** The closure a [MultiSet.add] returns: the multiset it belongs to
    (the section [r_section] of the bucket [r_key]; neither is ever
    replaced) and the id it deletes. *)
Record remover : Type := Remover {
  r_key : Z * Z;
  r_section : Z;
  r_id : nat
}.

(** What [Element] reads of a tile or entity descriptor. *)
Record descriptor : Type := Descriptor {
  d_frames : list frame;
  d_width : Z;
  d_height : Z;
  d_offset : Z * Z
}.

Definition of_tile (t : tile) : descriptor :=
  Descriptor (tile_frames t) (tile_width t) (tile_height t) (tile_offset t).
Definition of_entity (e : entity) : descriptor :=
  Descriptor (entity_frames e) (entity_width e) (entity_height e) (entity_offset e).

(** An [Element] object. *)
Record element : Type := Element {
  el_element : descriptor;
  el_animation : nat;
  el_i : Q; el_j : Q; el_k : Q;
  el_p : Z * Z * Z;
  el_bi : Z; el_bj : Z;
  el_removers : list remover;
  el_removed : bool;
  el_timeOffset : Q
}.

(** A reference to what [new Element(...)] evaluates to: an [Element] at
    an address of the heap, or a [MockElement]. *)
Inductive ref : Type :=
| Real (a : nat)
| Mock.

(** The closure [addTile] puts in [eraser] for a mutable tile: the bound
    [remover] and the captured variable [removed]. *)
Record closure : Type := Closure {
  c_remover : ref;
  c_removed : bool
}.

Record state : Type := State {
  frameTable : FrameTable.t;
  buckets : gmap (Z * Z) bucket;
  eraser : Matrix.t closure;
  heap : gmap nat element;
  nextElement : nat
}.

Definition set_frameTable (f : FrameTable.t -> FrameTable.t) (st : state) : state :=
  State (f (frameTable st)) (buckets st) (eraser st) (heap st) (nextElement st).
Definition set_buckets (f : gmap (Z * Z) bucket -> gmap (Z * Z) bucket) (st : state)
  : state :=
  State (frameTable st) (f (buckets st)) (eraser st) (heap st) (nextElement st).
Definition set_eraser (f : Matrix.t closure -> Matrix.t closure) (st : state) : state :=
  State (frameTable st) (buckets st) (f (eraser st)) (heap st) (nextElement st).
Definition set_heap (f : gmap nat element -> gmap nat element) (st : state) : state :=
  State (frameTable st) (buckets st) (eraser st) (f (heap st)) (nextElement st).

Definition set_p (p : Z * Z * Z) (el : element) : element :=
  Element (el_element el) (el_animation el) (el_i el) (el_j el) (el_k el) p
    (el_bi el) (el_bj el) (el_removers el) (el_removed el) (el_timeOffset el).
Definition set_ijk (i j k : Q) (el : element) : element :=
  Element (el_element el) (el_animation el) i j k (el_p el)
    (el_bi el) (el_bj el) (el_removers el) (el_removed el) (el_timeOffset el).
Definition set_b (bi bj : Z) (el : element) : element :=
  Element (el_element el) (el_animation el) (el_i el) (el_j el) (el_k el) (el_p el)
    bi bj (el_removers el) (el_removed el) (el_timeOffset el).
Definition set_removers (rs : list remover) (el : element) : element :=
  Element (el_element el) (el_animation el) (el_i el) (el_j el) (el_k el) (el_p el)
    (el_bi el) (el_bj el) rs (el_removed el) (el_timeOffset el).
Definition set_removed (b : bool) (el : element) : element :=
  Element (el_element el) (el_animation el) (el_i el) (el_j el) (el_k el) (el_p el)
    (el_bi el) (el_bj el) (el_removers el) b (el_timeOffset el).

Definition px (p : Z * Z * Z) : Z := fst (fst p).
Definition py (p : Z * Z * Z) : Z := snd (fst p).
Definition pz (p : Z * Z * Z) : Z := snd p.

(** [Bucket.prototype.add], given the value of [p[2]] at the call: the
    bucket afterwards and the id of the new multiset member. *)
Definition Bucket_add (b : bucket) (p2 : Z) (e : entry) : bucket * nat :=
  let '(ms, id) := MultiSet.add (default MultiSet.empty (sections b !! p2)) e in
  (Bucket (<[p2 := ms]> (sections b)) (Z.min (minS b) p2) (Z.max (maxS b) p2), id).

(** [Bucket.prototype.enumerateSection]: what its action is called on. *)
Definition enumerateSection (b : bucket) (s : Z) : list entry :=
  match sections b !! s with
  | Some ms => MultiSet.fastForEach ms
  | None => []
  end.

(** The integers [lo, lo + 1, ..., hi]. *)
Definition range (lo hi : Z) : list Z :=
  map (fun n => lo + Z.of_nat n) (seq 0 (Z.to_nat (hi - lo + 1))).

Definition ltQ (x y : Q) : bool := negb (Qle_bool y x).

Section WithView.

(** The buckets capture [view.getWidth()], [view.getHeight()] and use
    [view.projectElement]; the view's origin moves and is passed to
    [forEachElement] as it is at the call. *)
Variable view : View.t.
Variable data : stage_data.

Let width : Z := View.width view.
Let height : Z := View.height view.

(** [getBucket(i, j)]: the bucket of that key, created when missing. *)
Definition getBucket (key : Z * Z) : M state bucket :=
  fun st =>
    match buckets st !! key with
    | Some b => (Ok b, st)
    | None => (Ok newBucket, set_buckets (insert key newBucket) st)
    end.

(** [this] for a method called on the element at address [a]. *)
Definition this (a : nat) : M state element :=
  fun st =>
    match heap st !! a with
    | Some el => (Ok el, st)
    | None => (Throw TypeError, st)
    end.

Definition store (a : nat) (el : element) : M state unit :=
  modify (set_heap (insert a el)).

(** [Element.prototype.addToBucket]. *)
Definition addToBucket (a : nat) (key : Z * Z) : M state unit :=
  let! b := getBucket key in
  let! el := this a in
  let! ft := gets frameTable in
  match FrameTable.animations ft !! el_animation el with
  | None => throw TypeError
  | Some anim =>
      let '(b', id) :=
        Bucket_add b (pz (el_p el))
          (Entry a (d_width (el_element el)) (d_height (el_element el))
             (FrameTable.static anim) (el_animation el) (el_timeOffset el)) in
      let! _ := modify (set_buckets (insert key b')) in
      store a (set_removers (el_removers el ++ [Remover key (pz (el_p el)) id]) el)
  end.

(** [Element.prototype.addToBuckets]. *)
Definition addToBuckets (a : nat) : M state unit :=
  let! el := this a in
  let bi := el_bi el in
  let bj := el_bj el in
  let! _ := addToBucket a (bi, bj) in
  let bi1 := (py (el_p el) + d_height (el_element el)) / height in
  let bj1 := (px (el_p el) + d_width (el_element el)) / width in
  let! _ := (if bi <? bi1 then addToBucket a (bi + 1, bj) else ret tt) in
  let! _ := (if bj <? bj1 then addToBucket a (bi, bj + 1) else ret tt) in
  if (bi <? bi1) && (bj <? bj1) then addToBucket a (bi + 1, bj + 1) else ret tt.

(** [new Element(element, animation, i, j, k)]; [now] is what
    [Canvace.Timing.now()] returns. *)
Definition newElement (now : Q) (d : descriptor) (animation : nat) (i j k : Q)
  : M state ref :=
  if (length (d_frames d) =? 0)%nat then ret Mock
  else
    let! a := gets nextElement in
    let p := View.projectElement view (d_offset d) i j k in
    let el := Element d animation i j k p (py p / height) (px p / width) [] false now in
    let! _ := modify (fun st =>
                State (frameTable st) (buckets st) (eraser st)
                  (<[a := el]> (heap st)) (S a)) in
    let! _ := addToBuckets a in
    ret (Real a).

(** Calling a multiset remover. *)
Definition call_remover (r : remover) (st : state) : state :=
  match buckets st !! r_key r with
  | None => st
  | Some b =>
      match sections b !! r_section r with
      | None => st
      | Some ms =>
          set_buckets
            (insert (r_key r)
               (Bucket (<[r_section r := fst (MultiSet.remove ms (r_id r))]> (sections b))
                  (minS b) (maxS b)))
            st
      end
  end.

(** [Element.prototype.remove]. *)
Definition remove (a : nat) : M state bool :=
  let! el := this a in
  let! _ := modify (fun st => fold_left (fun s r => call_remover r s) (el_removers el) st) in
  let! _ := store a (set_removed true (set_removers [] el)) in
  ret true.

(** [Element.prototype.isRemoved]. *)
Definition isRemoved (a : nat) : M state bool :=
  let! el := this a in ret (el_removed el).

(** [Element.prototype.updatePosition]. *)
Definition updatePosition (a : nat) (i1 j1 k1 : Q) : M state unit :=
  let! el := this a in
  if el_removed el then ret tt
  else
    let el := set_ijk i1 j1 k1 el in
    let! _ := store a el in
    let p1 := View.projectElement view (d_offset (el_element el)) i1 j1 k1 in
    let bi1 := py (el_p el) / height in
    let bj1 := px (el_p el) / width in
    if negb (pz p1 =? pz (el_p el)) || negb (bi1 =? el_bi el) || negb (bj1 =? el_bj el)
    then
      let! _ := remove a in
      let! el := this a in
      let! _ := store a (set_b bi1 bj1 (set_p p1 (set_removed false el))) in
      addToBuckets a
    else
      store a (set_p p1 el).

(** [Element.prototype.replace]. *)
Definition replace (now : Q) (a : nat) (id : Z) : M state (option ref) :=
  let! el := this a in
  if el_removed el then ret None
  else
    match entities data !! id with
    | None => throw (InvalidEntityID id)
    | Some entity =>
        let! _ := remove a in
        let! ft := gets frameTable in
        match FrameTable.getEntityAnimation ft id with
        | None => throw TypeError
        | Some animation =>
            let! _ := modify (set_frameTable (FrameTable.set_static animation false)) in
            let! r := newElement now (of_entity entity) animation
                        (el_i el) (el_j el) (el_k el) in
            ret (Some r)
        end
    end.

(** Calling [remove], [updatePosition] or [replace] through a reference;
    the methods of [MockElement] do nothing and return [undefined]. *)
Definition ref_remove (r : ref) : M state (option bool) :=
  match r with
  | Real a => let! b := remove a in ret (Some b)
  | Mock => ret None
  end.

Definition ref_updatePosition (r : ref) (i j k : Q) : M state unit :=
  match r with
  | Real a => updatePosition a i j k
  | Mock => ret tt
  end.

Definition ref_replace (now : Q) (r : ref) (id : Z) : M state (option ref) :=
  match r with
  | Real a => replace now a id
  | Mock => ret None
  end.

(** [addTile(id, i, j, k)]: the remover it returns names the element it
    is bound to; [None] is [undefined]. *)
Definition addTile (now : Q) (id : Z) (i j k : Z) : M state (option ref) :=
  match tiles data !! id with
  | None => throw (InvalidTileID id)
  | Some tile =>
      let! ft := gets frameTable in
      match FrameTable.getTileAnimation ft id with
      | None => throw TypeError
      | Some animation =>
          let! _ := modify (set_frameTable (fun ft =>
                      match FrameTable.animations ft !! animation with
                      | Some an =>
                          FrameTable.set_static animation
                            (FrameTable.static an && negb (tile_mutable tile)) ft
                      | None => ft
                      end)) in
          let! element := newElement now (of_tile tile) animation
                            (inject_Z i) (inject_Z j) (inject_Z k) in
          if tile_mutable tile then
            let! _ := modify (set_eraser (fun e =>
                        Matrix.put e i j k (Closure element false))) in
            ret None
          else ret (Some element)
      end
  end.

(** [addEntity(id, i, j, k)]. *)
Definition addEntity (now : Q) (id : Z) (i j k : Q) : M state ref :=
  match entities data !! id with
  | None => throw (InvalidEntityID id)
  | Some entity =>
      let! ft := gets frameTable in
      match FrameTable.getEntityAnimation ft id with
      | None => throw TypeError
      | Some animation =>
          let! _ := modify (set_frameTable (FrameTable.set_static animation false)) in
          newElement now (of_entity entity) animation i j k
      end
  end.

(** Calling the closure [addTile] stored in [eraser] at [(i, j, k)].
    After [eraser.erase] nothing refers to the closure any more, so its
    assignment [removed = true] is not observable. *)
Definition call_eraser (i j k : Z) (c : closure) : M state bool :=
  let! _ := ref_remove (c_remover c) in
  if c_removed c then ret false
  else
    let! _ := modify (set_eraser (fun e => fst (Matrix.erase e i j k))) in
    ret true.

(** [removeTile(i, j, k)]. *)
Definition removeTile (i j k : Z) : M state bool :=
  let! e := gets eraser in
  match Matrix.get e i j k with
  | Some c => call_eraser i j k c
  | None => ret false
  end.

(** [replaceTile(i, j, k, newTileId)]. *)
Definition replaceTile (now : Q) (i j k : Z) (newTileId : Z) : M state (option ref) :=
  let! e := gets eraser in
  match Matrix.get e i j k with
  | Some c =>
      let! _ := call_eraser i j k c in
      addTile now newTileId i j k
  | None => ret None
  end.

(** *** forEachElement *)

(** The four buckets [forEachElement] reads, for the origin [(ox, oy)]. *)
Definition queried (ox oy : Q) : list (Z * Z) :=
  let i := Qfloor (- oy / inject_Z height) in
  let j := Qfloor (- ox / inject_Z width) in
  [(i, j); (i, j + 1); (i + 1, j); (i + 1, j + 1)].

(** The test of [yieldElement]; [element.p] is read through the heap. *)
Definition visible (st : state) (ox oy : Q) (e : entry) : bool :=
  match heap st !! e_p e with
  | None => false
  | Some el =>
      let p := el_p el in
      ltQ (inject_Z (px p)) (- ox + inject_Z width)
      && ltQ (inject_Z (py p)) (- oy + inject_Z height)
      && Qle_bool (- ox) (inject_Z (px p + e_width e))
      && Qle_bool (- oy) (inject_Z (py p + e_height e))
  end.

Definition bucketAt (st : state) (key : Z * Z) : bucket :=
  default newBucket (buckets st !! key).

Definition list_min (l : list Z) (d : Z) : Z := fold_right Z.min d l.
Definition list_max (l : list Z) (d : Z) : Z := fold_right Z.max d l.

(** The entries [yieldElement] passes on to [action], in order: for each
    [s] from [minS] to [maxS], the section [s] of each of the four
    buckets. *)
Definition yielded (st : state) (ox oy : Q) : list entry :=
  let bs := map (bucketAt st) (queried ox oy) in
  let lo := list_min (map minS bs) 0 in
  let hi := list_max (map maxS bs) 0 in
  flat_map
    (fun s => flat_map (fun b => filter (visible st ox oy) (enumerateSection b s)) bs)
    (range lo hi).

(** One call of [action]: [x], [y] and the frame ([None]: [undefined]). *)
Record call : Type := Call {
  call_x : Z;
  call_y : Z;
  call_frame : option Z
}.

Definition action_args (st : state) (timestamp : Q) (e : entry) : result call :=
  match heap st !! e_p e, FrameTable.animations (frameTable st) !! e_getFrame e with
  | Some el, Some an =>
      let* f := FrameTable.getFrame an (timestamp - e_timeOffset e) in
      Ok (Call (px (el_p el)) (py (el_p el)) f)
  | _, _ => Throw TypeError
  end.

Fixpoint mapR {A B : Type} (f : A -> result B) (l : list A) : result (list B) :=
  match l with
  | [] => Ok []
  | x :: l' => let* y := f x in let* ys := mapR f l' in Ok (y :: ys)
  end.

(** [forEachElement(action)]: the calls of [action], in order. *)
Definition forEachElement (now : Q) (ox oy : Q) : M state (list call) :=
  let! _ := getBucket (nth 0 (queried ox oy) (0, 0)) in
  let! _ := getBucket (nth 1 (queried ox oy) (0, 0)) in
  let! _ := getBucket (nth 2 (queried ox oy) (0, 0)) in
  let! _ := getBucket (nth 3 (queried ox oy) (0, 0)) in
  fun st => (mapR (action_args st now) (yielded st ox oy), st).

(** *** The constructor *)

Fixpoint register_all {D : Type} (reg : Z -> list frame -> FrameTable.t -> result FrameTable.t)
    (fs : D -> list frame) (l : list (Z * D)) (ft : FrameTable.t)
  : result FrameTable.t :=
  match l with
  | [] => Ok ft
  | (id, d) :: l' => let* ft' := reg id (fs d) ft in register_all reg fs l' ft'
  end.

(** [new Canvace.Buckets(view, data)]. *)
Definition create : result state :=
  let* ft := register_all FrameTable.registerTile tile_frames
               (map_to_list (tiles data)) FrameTable.empty in
  let* ft := register_all FrameTable.registerEntity entity_frames
               (map_to_list (entities data)) ft in
  Ok (State ft ∅ Matrix.empty ∅ 0).

End WithView.

End Buckets.

(** ** Canvace.TileMap: the matrix of cells and its read-only queries *)

Module TileMap.

(** A cell of the tile map's matrix holds a number (the tile id, at a
    reference cell) or a string naming the reference cell ([i + ' ' + j +
    ' ' + k] at load time, [i + ' ' + j] in [putAt]; only the first two
    components are ever read back). *)
Inductive cell : Type :=
| TileId (id : Z)
| Ref (i j : Z).

Section Queries.

Variable data : stage_data.
Variable matrix : Matrix.t cell.
Variable k : Z.

(** The shared idiom
    [var id = matrix.get(i, j, k);
     if (typeof id !== 'number') {
       var coordinates = id.split(' ');
       id = matrix.get(coordinates[0], coordinates[1], k);
     }
     ... data.tiles[id] ...]
    followed by a property read on [data.tiles[id]].  [undefined.split]
    and a property of [undefined] raise [TypeError]. *)
Definition tileAt (i j : Z) : result tile :=
  let* id := match Matrix.get matrix i j k with
              | Some (TileId n) => Ok (Some (TileId n))
              | Some (Ref i0 j0) => Ok (Matrix.get matrix i0 j0 k)
              | None => Throw TypeError
              end in
  match id with
  | Some (TileId n) =>
      match tiles data !! n with
      | Some t => Ok t
      | None => Throw TypeError
      end
  | _ => Throw TypeError
  end.

(** [walkable] of [getGraphNode]. *)
Definition walkable (i j : Z) : result bool :=
  if Matrix.has matrix i j k then
    let* t := tileAt i j in Ok (negb (tile_solid t))
  else Ok false.

(** [solidTileAt] of [rectangleCollision]; [collides] is the optional
    user callback. *)
Definition solidTileAt (collides : option (bool -> properties -> bool))
    (i j : Z) : result bool :=
  if Matrix.has matrix i j k then
    let* t := tileAt i j in
    match collides with
    | None => Ok (tile_solid t)
    | Some f => Ok (f (tile_solid t) (tile_properties t))
    end
  else Ok false.

(** *** getGraphNode *)

Record node : Type := Node {
  node_id : Z * Z * Z;
  heuristic : Root2.t;
  (** Edge label (the index 0..8) and the cell the edge's thunk builds a
      node for, in the order the labels are enumerated. *)
  neighbors : list (Z * (Z * Z))
}.

(** [node.distance]: [parseInt(index, 10) % 2 ? 1 : Math.sqrt(2)]. *)
Definition distance (index : Z) : Root2.t :=
  if negb (Z.rem index 2 =? 0) then Root2.one else Root2.sqrt2.

Definition offset_i (index : Z) : Z :=
  nth (Z.to_nat index) [-1; -1; -1; 0; 0; 0; 1; 1; 1] 0.
Definition offset_j (index : Z) : Z :=
  nth (Z.to_nat index) [-1; 0; 1; -1; 0; 1; -1; 0; 1] 0.

(** The body of the loop [for (var index = 0; index < 9; index++)]. *)
Definition neighbor_step (i j : Z) (index : Z) (acc : list (Z * (Z * Z)))
  : result (list (Z * (Z * Z))) :=
  let i1 := i + offset_i index in
  let j1 := j + offset_j index in
  if negb (i1 =? i) || negb (j1 =? j) then
    let* w := walkable i1 j1 in
    if w then
      if negb (Z.rem index 2 =? 0) then Ok (acc ++ [(index, (i1, j1))])
      else
        let* w1 := walkable i j1 in
        if w1 then
          let* w2 := walkable i1 j in
          if w2 then Ok (acc ++ [(index, (i1, j1))]) else Ok acc
        else Ok acc
    else Ok acc
  else Ok acc.

(** [makeNode(i, j)] for the target cell [(i1, j1)]. *)
Definition makeNode (i1 j1 : Z) (i j : Z) : result node :=
  let di := Z.abs (i1 - i) in
  let dj := Z.abs (j1 - j) in
  let* ns := for_range 0 8 (neighbor_step i j) [] in
  Ok (Node (i, j, k)
        (Root2.add (Root2.sqrt_2sq (Z.min di dj))
           (Root2.sub (Root2.of_Z (Z.max di dj)) (Root2.of_Z (Z.min di dj))))
        ns).

(** *** rectangleCollision *)

Record vec : Type := Vec { vec_i : Q; vec_j : Q }.

(** Truthiness of a number: non-zero. *)
Definition truthyQ (x : Q) : bool := negb (Qeq_bool x 0).

Definition gtQ (x y : Q) : bool := negb (Qle_bool x y).

Record corrections : Type := Corr { viu : Q; vio : Q; vju : Q; vjo : Q }.

Section Collision.

Variable collides : option (bool -> properties -> bool).
Variables i j di dj : Q.

Definition i0 : Z := Qfloor i.
Definition j0 : Z := Qfloor j.
Definition i1 : Z := Qceiling (i + di) - 1.
Definition j1 : Z := Qceiling (j + dj) - 1.

(** Body of [for (var j2 = j0; j2 <= j1; j2++)]. *)
Definition scan_j (j2 : Z) (c : corrections) : result corrections :=
  let* s := solidTileAt collides i0 j2 in
  let* c := (if s then
         let* free := (if i0 =? i1 then Ok true
                 else let* s' := solidTileAt collides (i0 + 1) j2 in Ok (negb s')) in
         Ok (if free then Corr (inject_Z (i0 + 1) - i)%Q (vio c) (vju c) (vjo c) else c)
       else Ok c) in
  let* s := solidTileAt collides i1 j2 in
  if s then
    let* free := (if i0 =? i1 then Ok true
            else let* s' := solidTileAt collides (i1 - 1) j2 in Ok (negb s')) in
    Ok (if free then Corr (viu c) (inject_Z i1 - i - di)%Q (vju c) (vjo c) else c)
  else Ok c.

(** Body of [for (var i2 = i0; i2 <= i1; i2++)]. *)
Definition scan_i (i2 : Z) (c : corrections) : result corrections :=
  let* s := solidTileAt collides i2 j0 in
  let* c := (if s then
         let* free := (if j0 =? j1 then Ok true
                 else let* s' := solidTileAt collides i2 (j0 + 1) in Ok (negb s')) in
         Ok (if free then Corr (viu c) (vio c) (inject_Z (j0 + 1) - j)%Q (vjo c) else c)
       else Ok c) in
  let* s := solidTileAt collides i2 j1 in
  if s then
    let* free := (if j0 =? j1 then Ok true
            else let* s' := solidTileAt collides i2 (j1 - 1) in Ok (negb s')) in
    Ok (if free then Corr (viu c) (vio c) (vju c) (inject_Z j1 - j - dj)%Q else c)
  else Ok c.

(** The choice of one correction per axis. *)
Definition pick (u o : Q) : Q :=
  if truthyQ u && truthyQ o then 0%Q else if truthyQ u then u else o.

(** The clamp against the actual displacement. *)
Definition clamp (v D : Q) : Q :=
  if gtQ (Qabs v) (Qabs D + (1 # 1000))%Q then 0%Q else v.

Definition rectangleCollision (Di Dj : Q) : result vec :=
  let* c := (if Matrix.hasLayer matrix k then
         let* c := for_range j0 j1 scan_j (Corr 0 0 0 0) in
         for_range i0 i1 scan_i c
       else Ok (Corr 0 0 0 0)) in
  Ok (Vec (clamp (pick (viu c) (vio c)) Di) (clamp (pick (vju c) (vjo c)) Dj)).

End Collision.

End Queries.

(** *** The tile map and the buckets it was built on *)

Record state : Type := State {
  matrix : Matrix.t cell;
  buckets : Buckets.state
}.

Section Ops.

Variable view : View.t.
Variable data : stage_data.

(** A call of a method of the [buckets] object. *)
Definition on_buckets {A : Type} (m : M Buckets.state A) : M state A :=
  fun st =>
    let '(r, b) := m (buckets st) in (r, State (matrix st) b).

Definition set_matrix (f : Matrix.t cell -> Matrix.t cell) : M state unit :=
  modify (fun st => State (f (matrix st)) (buckets st)).

(** The cells of the box of a tile of layout [l] whose reference cell is
    at [(i, j)], in the order the two nested loops visit them. *)
Definition covered (l : layout) (i j : Z) : list (Z * Z) :=
  flat_map
    (fun i1 => map (fun j1 => (i1, j1))
                 (Buckets.range (j - ref_j l) (j - ref_j l + span_j l - 1)))
    (Buckets.range (i - ref_i l) (i - ref_i l + span_i l - 1)).

(** [canClear(i, j)] of [putAt]. *)
Definition canClear (k : Z) (c : Z * Z) : M state bool :=
  let! m := gets matrix in
  let! t := lift (tileAt data m k (fst c) (snd c)) in
  ret (tile_mutable t).

(** [clear(i, j)] of [putAt]. *)
Definition clear (k : Z) (c : Z * Z) : M state bool :=
  let! m := gets matrix in
  let! r := (match Matrix.get m (fst c) (snd c) k with
             | Some (TileId _) => ret c
             | Some (Ref i0 j0) => ret (i0, j0)
             | None => throw TypeError
             end) in
  let! removed := on_buckets (Buckets.removeTile (fst r) (snd r) k) in
  if removed then
    let! _ := set_matrix (fun m => fst (Matrix.erase m (fst r) (snd r) k)) in
    ret true
  else ret false.

(** The first pair of loops of [putAt]: [false] as soon as a cell cannot
    be cleared. *)
Fixpoint check_all (k : Z) (cells : list (Z * Z)) : M state bool :=
  match cells with
  | [] => ret true
  | c :: cells' =>
      let! ok := canClear k c in
      if ok then check_all k cells' else ret false
  end.

(** The second pair of loops of [putAt]. *)
Fixpoint clear_all (k : Z) (i j : Z) (cells : list (Z * Z)) : M state bool :=
  match cells with
  | [] => ret true
  | c :: cells' =>
      let! ok := clear k c in
      if ok then
        let! _ := set_matrix (fun m => Matrix.put m (fst c) (snd c) k (Ref i j)) in
        clear_all k i j cells'
      else ret false
  end.

(** [putAt(i, j, k, id)]. *)
Definition putAt (now : Q) (i j k : Z) (id : Z) : M state bool :=
  match tiles data !! id with
  | None => throw (InvalidTileID id)
  | Some t =>
      let cells := covered (tile_layout t) i j in
      let! ok := check_all k cells in
      if ok then
        let! ok := clear_all k i j cells in
        if ok then
          let! _ := set_matrix (fun m => Matrix.put m i j k (TileId id)) in
          let! _ := on_buckets (Buckets.addTile view data now id i j k) in
          ret true
        else ret false
      else ret false
  end.

(** One turn of the constructor's innermost loop: the tile [id] of
    [data.map[k][i][j]]. *)
Definition load_tile (now : Q) (k i j id : Z) : M state unit :=
  match tiles data !! id with
  | None => throw TypeError
  | Some t =>
      let! _ := set_matrix (fun m =>
                  fold_left (fun m c => Matrix.put m (fst c) (snd c) k (Ref i j))
                    (covered (tile_layout t) i j) m) in
      let! _ := set_matrix (fun m => Matrix.put m i j k (TileId id)) in
      let! _ := on_buckets (Buckets.addTile view data now id i j k) in
      ret tt
  end.

(** [new Canvace.TileMap(data, buckets)] for the placements of [data.map]
    in enumeration order, each [(k, i, j, id)]. *)
Fixpoint load (now : Q) (placements : list (Z * Z * Z * Z)) : M state unit :=
  match placements with
  | [] => ret tt
  | (k, i, j, id) :: rest =>
      let! _ := load_tile now k i j id in load now rest
  end.

(** [getGraphNode(i, j, k, i1, j1)]. *)
Definition getGraphNode (st : state) (i j k i1 j1 : Z) : result node :=
  makeNode data (matrix st) k i1 j1 i j.

End Ops.

End TileMap.

(** ** Canvace.Heap *)

Module Heap.

Section Heap.

Context {A : Type}.

(** The constructor's [compare] and [same].  [Canvace.Astar] passes a
    [compare] that reads a table it keeps changing, so every operation
    takes the comparison as it stands when the operation runs. *)
Variable compare : A -> A -> Z.
Variable same : A -> A -> bool.

Definition left (i : nat) : nat := (i * 2 + 1)%nat.
Definition right (i : nat) : nat := (i * 2 + 2)%nat.
(** [Math.floor((i - 1) / 2)], used for [i > 0] only. *)
Definition parent (i : nat) : nat := ((i - 1) / 2)%nat.

(** [smaller(i, j)] for indices within the array. *)
Definition smaller (heap : list A) (i j : nat) : bool :=
  match heap !! i, heap !! j with
  | Some x, Some y => compare x y <? 0
  | _, _ => false
  end.

Definition swap (heap : list A) (i j : nat) : list A :=
  match heap !! i, heap !! j with
  | Some x, Some y => <[j := x]> (<[i := y]> heap)
  | _, _ => heap
  end.

(** [heapify(i)]; every recursive call is on a larger index below the
    length, so [length heap] turns suffice. *)
Fixpoint heapify (fuel : nat) (heap : list A) (i : nat) : list A :=
  match fuel with
  | O => heap
  | S fuel' =>
      let l := left i in
      let r := right i in
      let min := if (l <? length heap)%nat && smaller heap l i then l else i in
      let min := if (r <? length heap)%nat && smaller heap r min then r else min in
      if (i <? min)%nat then heapify fuel' (swap heap i min) min else heap
  end.

(** The loop
    [while (index && smaller(index, parentIndex)) { swap; index = parentIndex; ... }]
    shared by [push] and [decreaseKey]; the index decreases. *)
Fixpoint siftUp (fuel : nat) (heap : list A) (index : nat) : list A :=
  match fuel with
  | O => heap
  | S fuel' =>
      if negb (index =? 0)%nat && smaller heap index (parent index)
      then siftUp fuel' (swap heap index (parent index)) (parent index)
      else heap
  end.

Definition push (heap : list A) (element : A) : list A :=
  siftUp (length heap) (heap ++ [element]) (length heap).

(** [pop()]: the value returned ([None]: [undefined], on an empty heap)
    and the array afterwards. *)
Definition pop (heap : list A) : option A * list A :=
  match heap with
  | [] => (None, [])
  | result :: _ =>
      let last := List.last heap result in
      let heap' := removelast heap in
      match heap' with
      | [] => (Some result, [])
      | _ => (Some result, heapify (length heap') (<[0%nat := last]> heap') 0)
      end
  end.

Definition isEmpty (heap : list A) : bool :=
  match heap with [] => true | _ => false end.

(** The inner [find(element, index, callback)]: the index the callback
    is called with, if the search succeeds. *)
Fixpoint find (fuel : nat) (heap : list A) (element : A) (index : nat) : option nat :=
  match fuel with
  | O => None
  | S fuel' =>
      match heap !! index with
      | None => None
      | Some x =>
          if same element x then Some index
          else if compare element x <? 0 then None
          else
            match find fuel' heap element (left index) with
            | Some i => Some i
            | None => find fuel' heap element (right index)
            end
      end
  end.

Definition contains (heap : list A) (element : A) : bool :=
  bool_decide (is_Some (find (length heap) heap element 0)).

End Heap.

(** [decreaseKey(element, decrease)]: [decrease] changes the table [T]
    that [compare] reads; the search compares with the table as it was,
    the loop that follows with the table as [decrease] left it. *)
Definition decreaseKey {A T : Type} (compare : T -> A -> A -> Z) (same : A -> A -> bool)
    (heap : list A) (element : A) (decrease : A -> T -> T) (tbl : T)
  : T * list A * bool :=
  match find (compare tbl) same (length heap) heap element 0 with
  | Some index =>
      match heap !! index with
      | Some x =>
          let tbl' := decrease x tbl in
          (tbl', siftUp (compare tbl') index heap index, true)
      | None => (tbl, heap, false)
      end
  | None => (tbl, heap, false)
  end.

End Heap.

(** ** Canvace.Astar *)

Module Astar.

Section Astar.

(** Node ids and edge labels (strings in the source). *)
Context {ID : Type} `{Countable ID}.
Context {E : Type}.

(** The node interface: [id], [heuristic], [neighbors] and [distance].
    A node is any value [N] these can be read from; calling the function
    stored under an edge label of [neighbors] yields the neighbour, so
    [neighbors n] lists each label with the node its function returns,
    in enumeration order. *)
Variable N : Type.
Variable id : N -> ID.
Variable heuristic : N -> Q.
Variable neighbors : N -> list (E * N).
Variable distance : N -> E -> Q.

Variable epsilon : Q.

(** The tables of one [findPath] call. *)
Record state : Type := State {
  closedSet : gset ID;
  openScore : gmap ID Q;
  backLink : gmap ID (N * E);
  heap : list N
}.

Record tables : Type := Tables {
  t_openScore : gmap ID Q;
  t_backLink : gmap ID (N * E)
}.

(** The heap's [compare]; an [undefined] score makes both comparisons
    false. *)
Definition compare (os : gmap ID Q) (u v : N) : Z :=
  match os !! id u, os !! id v with
  | Some gu, Some gv =>
      let fu := (gu + heuristic u * (1 + epsilon))%Q in
      let fv := (gv + heuristic v * (1 + epsilon))%Q in
      if Buckets.ltQ fu fv then -1
      else if Buckets.ltQ fv fu then 1
      else 0
  | _, _ => 0
  end.

Definition same (u v : N) : bool := bool_decide (id u = id v).

(** The body of [for (var edge in currentNode.neighbors)]. *)
Definition relax (currentNode : N) (score : Q) (st : state) (en : E * N) : state :=
  let '(edge, node) := en in
  if bool_decide (id node ∈ closedSet st) then st
  else
    let cost := (score + distance currentNode edge)%Q in
    match openScore st !! id node with
    | Some old =>
        if Buckets.ltQ cost old then
          let '(t, h, _) :=
            Heap.decreaseKey (fun t => compare (t_openScore t)) same (heap st) node
              (fun node t =>
                 Tables (<[id node := cost]> (t_openScore t))
                        (<[id node := (currentNode, edge)]> (t_backLink t)))
              (Tables (openScore st) (backLink st)) in
          State (closedSet st) (t_openScore t) (t_backLink t) h
        else st
    | None =>
        let os := <[id node := cost]> (openScore st) in
        State (closedSet st) os (<[id node := (currentNode, edge)]> (backLink st))
          (Heap.push (compare os) (heap st) node)
    end.

(** The loop that rebuilds the path:
    [for (node = currentNode; backLink.hasOwnProperty(node.id);
          node = backLink[node.id].parent) path.push(backLink[node.id].edge);]
    with the edges pushed so far in [path], most recent first. *)
Fixpoint walk_back (fuel : nat) (bl : gmap ID (N * E)) (node : N) (path : list E)
  : option (list E) :=
  match bl !! id node with
  | None => Some path
  | Some (parent, edge) =>
      match fuel with
      | O => None
      | S fuel' => walk_back fuel' bl parent (edge :: path)
      end
  end.

(** The main loop [while (!heap.isEmpty())].  [None]: the turns allowed
    by [fuel] did not suffice; [Some None]: [null]; [Some (Some path)]:
    the path.  A popped node always has a score (it was given one when it
    was pushed) and [pop] on a heap that is not empty returns a node; the
    model stops with [None] otherwise, as it does when rebuilding the
    path would not end. *)
Fixpoint loop (fuel : nat) (st : state) : option (option (list E)) :=
  match fuel with
  | O => None
  | S fuel' =>
      if Heap.isEmpty (heap st) then Some None
      else
        match Heap.pop (compare (openScore st)) (heap st) with
        | (None, _) => None
        | (Some currentNode, h) =>
            match openScore st !! id currentNode with
            | None => None
            | Some score =>
                let os := delete (id currentNode) (openScore st) in
                if negb (Qeq_bool (heuristic currentNode) 0) then
                  let st1 := State ({[id currentNode]} ∪ closedSet st) os (backLink st) h in
                  loop fuel' (fold_left (relax currentNode score) (neighbors currentNode) st1)
                else
                  match walk_back (size (backLink st)) (backLink st) currentNode [] with
                  | Some path => Some (Some path)
                  | None => None
                  end
            end
        end
  end.

(** [findPath(startNode)], allowed [fuel] turns of the main loop. *)
Definition findPath (fuel : nat) (startNode : N) : option (option (list E)) :=
  let os := {[id startNode := 0%Q]} in
  loop fuel (State ∅ os ∅ (Heap.push (compare os) [] startNode)).

End Astar.

End Astar.

(** * Properties *)

(** ** Generic facts about the monads and loops *)

Lemma bind_Ok {A B : Type} (r : result A) (f : A -> result B) (b : B) :
  bind r f = Ok b -> exists a, r = Ok a /\ f a = Ok b.
Proof. destruct r; simpl; intros Hb; try discriminate. eauto. Qed.

Lemma for_count_invariant {St : Type} (P : Z -> St -> Prop) (body : Z -> St -> result St) :
  (forall x s s', P x s -> body x s = Ok s' -> P (x + 1) s') ->
  forall n x s s', P x s -> for_count n x body s = Ok s' -> P (x + Z.of_nat n) s'.
Proof.
  intros Hstep n. induction n as [|n IH]; intros x s s' HP Hrun; simpl in Hrun.
  - injection Hrun as <-. now replace (x + Z.of_nat 0) with x by lia.
  - apply bind_Ok in Hrun as (s1 & Hb & Hrest).
    replace (x + Z.of_nat (S n)) with (x + 1 + Z.of_nat n) by lia.
    eapply IH; [|exact Hrest]. eauto.
Qed.

(** ** The collision clamp (tile layer) *)

Module TileMapFacts.

Import TileMap.

Lemma gtQ_false (x y : Q) : gtQ x y = false -> (x <= y)%Q.
Proof.
  unfold gtQ. intros Hb. apply negb_false_iff in Hb. now apply Qle_bool_iff.
Qed.

Lemma clamp_bound (v D : Q) : (Qabs (clamp v D) <= Qabs D + (1 # 1000))%Q.
Proof.
  unfold clamp. destruct (gtQ (Qabs v) (Qabs D + (1 # 1000))) eqn:Hgt.
  - pose proof (Qabs_nonneg D) as HD. change (Qabs 0) with 0%Q. lra.
  - now apply gtQ_false.
Qed.

Lemma rectangleCollision_bounded data m k collides i j di dj Di Dj v :
  rectangleCollision data m k collides i j di dj Di Dj = Ok v ->
  (Qabs (vec_i v) <= Qabs Di + (1 # 1000))%Q /\
  (Qabs (vec_j v) <= Qabs Dj + (1 # 1000))%Q.
Proof.
  unfold rectangleCollision. intros Hrun.
  apply bind_Ok in Hrun as (c & _ & Hv). injection Hv as <-. simpl.
  split; apply clamp_bound.
Qed.

(** A stage with one solid tile, placed at cell (0, 0) of layer 0. *)
Definition solid_tile : tile :=
  Tile [Frame 0 None] 32 32 (0, 0) (Layout 1 1 0 0) true false [].
Definition one_tile_data : stage_data := StageData {[1 := solid_tile]} ∅.
Definition one_tile_matrix : Matrix.t cell := Matrix.put Matrix.empty 0 0 0 (TileId 1).

(** The corrections the two loops of [rectangleCollision] leave in
    [viu], [vio], [vju] and [vjo] (all zero when the layer does not
    exist); the correction computed for an axis is the [pick] among its
    two. *)
Definition scanned (data : stage_data) (m : Matrix.t cell) (k : Z)
    (collides : option (bool -> properties -> bool)) (i j di dj : Q)
  : result corrections :=
  if Matrix.hasLayer m k then
    let* c := for_range (j0 j) (j1 j dj) (scan_j data m k collides i di) (Corr 0 0 0 0) in
    for_range (i0 i) (i1 i di) (scan_i data m k collides j dj) c
  else Ok (Corr 0 0 0 0).

Lemma rectangleCollision_scanned data m k collides i j di dj Di Dj :
  rectangleCollision data m k collides i j di dj Di Dj =
  (let* c := scanned data m k collides i j di dj in
   Ok (Vec (clamp (pick (viu c) (vio c)) Di) (clamp (pick (vju c) (vjo c)) Dj))).
Proof. reflexivity. Qed.

(** The clamp against no displacement: zero above the tolerance, the
    correction itself up to it. *)
Lemma clamp_at_rest (v D : Q) :
  (D == 0)%Q ->
  ((1 # 1000 < Qabs v)%Q -> clamp v D = 0%Q) /\
  ((Qabs v <= 1 # 1000)%Q -> clamp v D = v).
Proof.
  intros HD. unfold clamp, gtQ.
  assert (HaD : (Qabs D + (1 # 1000) == 1 # 1000)%Q).
  { rewrite HD. reflexivity. }
  destruct (Qle_bool (Qabs v) (Qabs D + (1 # 1000))) eqn:Hle; simpl.
  - apply Qle_bool_iff in Hle. rewrite HaD in Hle. split; [intros Hgt; lra | reflexivity].
  - split; [reflexivity|]. intros Hsmall.
    assert (Hle' : Qle_bool (Qabs v) (Qabs D + (1 # 1000)) = true).
    { apply Qle_bool_iff. rewrite HaD. exact Hsmall. }
    congruence.
Qed.

(** C3, as amended: with actual displacement [Di = Dj = 0] a call of
    [rectangleCollision] that returns has computed a correction for
    each axis (the choice among [viu], [vio] and among [vju], [vjo]
    that its loops left), and each component of the vector it returns
    is that correction clamped: 0 when the computed correction is larger
    than the tolerance 0.001, the computed correction as it is when it
    is at most 0.001.  So every component of the returned vector has
    magnitude at most 0.001. *)
Theorem rectangleCollision_at_rest data m k collides i j di dj Di Dj v :
  (Di == 0)%Q -> (Dj == 0)%Q ->
  rectangleCollision data m k collides i j di dj Di Dj = Ok v ->
  exists c,
    scanned data m k collides i j di dj = Ok c /\
    ((1 # 1000 < Qabs (pick (viu c) (vio c)))%Q -> vec_i v = 0%Q) /\
    ((Qabs (pick (viu c) (vio c)) <= 1 # 1000)%Q -> vec_i v = pick (viu c) (vio c)) /\
    ((1 # 1000 < Qabs (pick (vju c) (vjo c)))%Q -> vec_j v = 0%Q) /\
    ((Qabs (pick (vju c) (vjo c)) <= 1 # 1000)%Q -> vec_j v = pick (vju c) (vjo c)) /\
    (Qabs (vec_i v) <= 1 # 1000)%Q /\ (Qabs (vec_j v) <= 1 # 1000)%Q.
Proof.
  intros HDi HDj Hrun.
  pose proof (rectangleCollision_bounded _ _ _ _ _ _ _ _ _ _ _ Hrun) as [Hi Hj].
  rewrite HDi in Hi. rewrite HDj in Hj. change (Qabs 0) with 0%Q in Hi, Hj.
  rewrite rectangleCollision_scanned in Hrun.
  apply bind_Ok in Hrun as (c & Hc & Hv). injection Hv as <-. cbn [vec_i vec_j] in *.
  exists c. split; [exact Hc|].
  destruct (clamp_at_rest (pick (viu c) (vio c)) Di HDi) as [Hi0 Hi1].
  destruct (clamp_at_rest (pick (vju c) (vjo c)) Dj HDj) as [Hj0 Hj1].
  repeat split; auto; lra.
Qed.

(** A box resting 0.0005 inside the solid tile at (0, 0): the computed
    correction 0.0005 along [i] is returned as it is. *)
Lemma rectangleCollision_at_rest_witness :
  exists v,
    rectangleCollision one_tile_data one_tile_matrix 0 None (9995 # 10000) 0 1 1 0 0 = Ok v /\
    exists c,
      scanned one_tile_data one_tile_matrix 0 None (9995 # 10000) 0 1 1 = Ok c /\
      ((1 # 1000 < Qabs (pick (viu c) (vio c)))%Q -> vec_i v = 0%Q) /\
      ((Qabs (pick (viu c) (vio c)) <= 1 # 1000)%Q -> vec_i v = pick (viu c) (vio c)) /\
      ((1 # 1000 < Qabs (pick (vju c) (vjo c)))%Q -> vec_j v = 0%Q) /\
      ((Qabs (pick (vju c) (vjo c)) <= 1 # 1000)%Q -> vec_j v = pick (vju c) (vjo c)) /\
      (Qabs (vec_i v) <= 1 # 1000)%Q /\ (Qabs (vec_j v) <= 1 # 1000)%Q.
Proof.
  eexists. split; [vm_compute; reflexivity|].
  apply (rectangleCollision_at_rest one_tile_data one_tile_matrix 0 None
           (9995 # 10000) 0 1 1 0 0); [reflexivity | reflexivity | vm_compute; reflexivity].
Defined.

(** A box resting half a cell inside the same tile: the computed
    correction 1/2 along [i] is larger than the tolerance and is
    replaced by 0. *)
Example rectangleCollision_at_rest_discarded :
  scanned one_tile_data one_tile_matrix 0 None (1 # 2) 0 1 1 = Ok (Corr (1 # 2) 0 1 (- (1))) /\
  pick (1 # 2) 0 = (1 # 2)%Q /\
  rectangleCollision one_tile_data one_tile_matrix 0 None (1 # 2) 0 1 1 0 0 = Ok (Vec 0 0).
Proof. vm_compute. repeat split. Qed.

(** C3 as stated fails: a box resting 0.0005 inside the solid tile at
    (0, 0), with no displacement at all, is pushed out by 0.0005. *)
Lemma rectangleCollision_at_rest_nonzero :
  exists v,
    rectangleCollision one_tile_data one_tile_matrix 0 None (9995 # 10000) 0 1 1 0 0 = Ok v /\
    ~ (vec_i v == 0)%Q.
Proof.
  eexists. split; [vm_compute; reflexivity|].
  simpl. intros Heq. discriminate Heq.
Qed.

(** ** The graph of [getGraphNode] *)

Section Graph.

Variable data : stage_data.
Variable m : Matrix.t cell.
Variable k : Z.
Variables i j : Z.

(** The condition under which the loop of [makeNode] adds the edge
    [index]. *)
Definition edge_ok (index : Z) : Prop :=
  let ci := i + offset_i index in
  let cj := j + offset_j index in
  (ci <> i \/ cj <> j) /\
  walkable data m k ci cj = Ok true /\
  (Z.rem index 2 <> 0 \/
   (walkable data m k i cj = Ok true /\ walkable data m k ci j = Ok true)).

Lemma neighbor_step_spec index acc acc' :
  neighbor_step data m k i j index acc = Ok acc' ->
  (edge_ok index /\ acc' = acc ++ [(index, (i + offset_i index, j + offset_j index))]) \/
  (~ edge_ok index /\ acc' = acc).
Proof.
  unfold neighbor_step, edge_ok. cbv zeta.
  set (ci := i + offset_i index). set (cj := j + offset_j index).
  destruct (Z.eqb_spec ci i) as [Hi|Hi]; destruct (Z.eqb_spec cj j) as [Hj|Hj]; simpl;
    try (intros [= <-]; right; split; [intros ([?|?] & _); contradiction | reflexivity]).
  all: destruct (walkable data m k ci cj) as [[|]| |] eqn:Hw; simpl; try discriminate;
    try (intros [= <-]; right; split; [intros (_ & [=] & _) | reflexivity]).
  all: destruct (Z.eqb_spec (Z.rem index 2) 0) as [Hr|Hr]; simpl;
    try (intros [= <-]; left; split; [repeat split; auto | reflexivity]).
  all: destruct (walkable data m k i cj) as [[|]| |] eqn:Hw1; simpl; try discriminate;
    try (intros [= <-]; right; split;
         [intros (_ & _ & [?|[[=] _]]); contradiction | reflexivity]).
  all: destruct (walkable data m k ci j) as [[|]| |] eqn:Hw2; simpl; try discriminate;
    try (intros [= <-]; right; split;
         [intros (_ & _ & [?|[_ [=]]]); contradiction | reflexivity]).
  all: intros [= <-]; left; split; [repeat split; auto | reflexivity].
Qed.

Lemma neighbors_spec ns :
  for_range 0 8 (neighbor_step data m k i j) [] = Ok ns ->
  forall index c,
    (index, c) ∈ ns <->
    (0 <= index <= 8 /\ edge_ok index /\ c = (i + offset_i index, j + offset_j index)).
Proof.
  intros Hrun.
  pose (P := fun (x : Z) (l : list (Z * (Z * Z))) =>
               0 <= x /\
               forall index c,
                 (index, c) ∈ l <->
                 (0 <= index < x /\ edge_ok index /\
                  c = (i + offset_i index, j + offset_j index))).
  assert (HP : P (0 + Z.of_nat (Z.to_nat (8 - 0 + 1))) ns).
  { apply (for_count_invariant P (neighbor_step data m k i j)) with (s := []);
      [|unfold P; split; [lia|]; intros; rewrite elem_of_nil; intuition lia | exact Hrun].
    intros x s s' [Hx Hs] Hstep. split; [lia|]. intros index c.
    apply neighbor_step_spec in Hstep as [[Hok ->]|[Hno ->]].
    - rewrite elem_of_app, list_elem_of_singleton, (Hs index c). split.
      + intros [(Hr & He & Hc)|[= -> ->]]; [intuition lia|].
        intuition lia.
      + intros (Hr & He & ->).
        destruct (decide (index = x)) as [->|Hne]; [now right|].
        left. intuition lia.
    - rewrite (Hs index c). split.
      + intros (Hr & He & Hc). intuition lia.
      + intros (Hr & He & Hc).
        destruct (decide (index = x)) as [->|Hne]; [contradiction|].
        intuition lia. }
  destruct HP as [_ HP].
  intros index c. rewrite (HP index c). change (0 + Z.of_nat (Z.to_nat (8 - 0 + 1))) with 9.
  intuition lia.
Qed.

End Graph.

Ltac eval_offsets :=
  repeat match goal with
         | |- context [offset_i ?n] =>
             let v := eval vm_compute in (offset_i n) in change (offset_i n) with v
         | |- context [offset_j ?n] =>
             let v := eval vm_compute in (offset_j n) in change (offset_j n) with v
         end.

Definition orthogonal (index : Z) : Prop := index ∈ [1; 3; 5; 7].
Definition diagonal (index : Z) : Prop := index ∈ [0; 2; 6; 8].

Lemma heuristic_zero (i1 j1 i j : Z) :
  let di := Z.abs (i1 - i) in
  let dj := Z.abs (j1 - j) in
  Root2.truthy
    (Root2.add (Root2.sqrt_2sq (Z.min di dj))
       (Root2.sub (Root2.of_Z (Z.max di dj)) (Root2.of_Z (Z.min di dj)))) = false
  <-> i = i1 /\ j = j1.
Proof.
  intros di dj. unfold Root2.truthy. rewrite negb_false_iff, andb_true_iff.
  rewrite !Qeq_bool_iff. simpl.
  unfold Qeq, Qplus, Qminus, Qopp, inject_Z. simpl.
  subst di dj. split; [intros [H1 H2]|intros [-> ->]]; lia.
Qed.

(** C8: in the graph of [getGraphNode(i, j, k, i1, j1)], at every node
    (the node of any cell [(i, j)]): an orthogonal edge (labels 1, 3, 5,
    7) is present exactly when its cell is walkable and weighs 1; a
    diagonal edge (labels 0, 2, 6, 8) is present exactly when its cell
    and the two orthogonal cells next to it are walkable and weighs
    [sqrt 2]; there is no other edge; and the heuristic is zero exactly
    at the target cell. *)
Theorem getGraphNode_graph (data : stage_data) (st : state) (k i1 j1 i j : Z) (n : node) :
  getGraphNode data st i j k i1 j1 = Ok n ->
  let w := walkable data (matrix st) k in
  (forall index, orthogonal index ->
     let ci := i + offset_i index in
     let cj := j + offset_j index in
     ((index, (ci, cj)) ∈ neighbors n <-> w ci cj = Ok true) /\
     distance index = Root2.one) /\
  (forall index, diagonal index ->
     let ci := i + offset_i index in
     let cj := j + offset_j index in
     ((index, (ci, cj)) ∈ neighbors n <->
      w ci cj = Ok true /\ w i cj = Ok true /\ w ci j = Ok true) /\
     distance index = Root2.sqrt2) /\
  (forall index c, (index, c) ∈ neighbors n ->
     (orthogonal index \/ diagonal index) /\
     c = (i + offset_i index, j + offset_j index)) /\
  (Root2.truthy (heuristic n) = false <-> i = i1 /\ j = j1).
Proof.
  unfold getGraphNode, makeNode. intros Hrun.
  apply bind_Ok in Hrun as (ns & Hns & Hn). injection Hn as <-. simpl.
  pose proof (neighbors_spec data (matrix st) k i j ns Hns) as Hspec.
  unfold orthogonal, diagonal. split; [|split; [|split]].
  - intros index Hin. cbv zeta. split; [rewrite Hspec; unfold edge_ok; split|].
    + intros (_ & (_ & Hw & _) & _). exact Hw.
    + intros Hw.
      repeat (apply elem_of_cons in Hin as [->|Hin]);
        try (apply elem_of_nil in Hin; contradiction);
        (split; [lia|split; [|reflexivity]]; split;
         [eval_offsets; lia|split; [exact Hw|left; discriminate]]).
    + repeat (apply elem_of_cons in Hin as [->|Hin]);
        try (apply elem_of_nil in Hin; contradiction); reflexivity.
  - intros index Hin. cbv zeta. split; [rewrite Hspec; unfold edge_ok; split|].
    + intros (_ & (_ & Hw & [Hodd|[Hw1 Hw2]]) & _); [|now repeat split].
      repeat (apply elem_of_cons in Hin as [->|Hin]);
        try (apply elem_of_nil in Hin; contradiction); now elim Hodd.
    + intros (Hw & Hw1 & Hw2).
      repeat (apply elem_of_cons in Hin as [->|Hin]);
        try (apply elem_of_nil in Hin; contradiction);
        (split; [lia|split; [|reflexivity]]; split;
         [eval_offsets; lia|split; [exact Hw|right; now split]]).
    + repeat (apply elem_of_cons in Hin as [->|Hin]);
        try (apply elem_of_nil in Hin; contradiction); reflexivity.
  - intros index c Hin. apply Hspec in Hin as (Hr & (Hne & _) & ->).
    split; [|reflexivity].
    assert (Hcases : index = 0 \/ index = 1 \/ index = 2 \/ index = 3 \/ index = 4 \/
                     index = 5 \/ index = 6 \/ index = 7 \/ index = 8) by lia.
    destruct Hcases as [->|[->|[->|[->|[->|[->|[->|[->| ->]]]]]]]];
      try (left; solve [repeat constructor]); try (right; solve [repeat constructor]).
    revert Hne. eval_offsets. lia.
  - apply heuristic_zero.
Qed.

(** A 2 x 2 patch of floor around one wall: cells (0,0), (0,1), (1,0)
    are walkable, (1,1) is solid. *)
Definition floor_tile : tile :=
  Tile [Frame 0 None] 32 32 (0, 0) (Layout 1 1 0 0) false false [].
Definition corner_data : stage_data :=
  StageData {[1 := solid_tile; 2 := floor_tile]} ∅.
Definition corner_matrix : Matrix.t cell :=
  Matrix.put (Matrix.put (Matrix.put (Matrix.put Matrix.empty 0 0 0 (TileId 2))
    0 1 0 (TileId 2)) 1 0 0 (TileId 2)) 1 1 0 (TileId 1).

Lemma getGraphNode_graph_witness :
  exists n,
    getGraphNode corner_data (State corner_matrix (Buckets.State FrameTable.empty ∅ Matrix.empty ∅ 0))
      0 0 0 1 1 = Ok n /\
    ((5, (0, 1)) ∈ neighbors n <->
     walkable corner_data corner_matrix 0 0 1 = Ok true) /\
    (Root2.truthy (heuristic n) = false <-> 0 = 1 /\ 0 = 1).
Proof.
  eexists. split; [vm_compute; reflexivity|].
  pose proof (getGraphNode_graph corner_data
                (State corner_matrix (Buckets.State FrameTable.empty ∅ Matrix.empty ∅ 0))
                0 1 1 0 0 _ eq_refl) as (Ho & _ & _ & Hh).
  split; [|exact Hh].
  apply (Ho 5). unfold orthogonal. repeat constructor.
Defined.

End TileMapFacts.

(** ** Animations *)

Module FrameTableFacts.

Import FrameTable.

Lemma gcd_loop_divide (fuel : nat) : forall a b : Z,
  (Z.abs_nat b < fuel)%nat ->
  (gcd_loop fuel a b | a) /\ (gcd_loop fuel a b | b).
Proof.
  induction fuel as [|fuel IH]; intros a b Hfuel; [lia|].
  simpl. destruct (Z.eqb_spec b 0) as [->|Hb].
  - split; [apply Z.divide_refl | apply Z.divide_0_r].
  - pose proof (Z.rem_bound_abs a b Hb) as Hrem.
    destruct (IH b (Z.rem a b)) as [Hd1 Hd2]; [lia|].
    split; [|exact Hd1].
    rewrite (Z.quot_rem' a b) at 2.
    apply Z.divide_add_r; [now apply Z.divide_mul_l | exact Hd2].
Qed.

Lemma gcd_divide (a b : Z) : (gcd a b | a) /\ (gcd a b | b).
Proof. apply gcd_loop_divide. lia. Qed.

(** The sum of the declared durations. *)
Definition total_duration (fs : list frame) : Z :=
  fold_right (fun f acc => default 0 (frame_duration f) + acc) 0 fs.

Definition timed (f : frame) : Prop :=
  exists d, frame_duration f = Some d /\ 0 <= d.

Lemma scan_frames_timed (fs : list frame) : forall acc,
  Forall timed fs ->
  let sc := fold_left
    (fun acc f =>
       match frame_duration f with
       | Some d => Scan (gcd (s_partialUnit acc) d) (s_fullDuration acc + d)
                        (s_looping acc) (s_lastFrameId acc)
       | None => Scan (s_partialUnit acc) (s_fullDuration acc) false
                      (Some (frame_id f))
       end) fs acc in
  (s_partialUnit acc | s_fullDuration acc) ->
  s_fullDuration sc = s_fullDuration acc + total_duration fs /\
  s_looping sc = s_looping acc /\
  (s_partialUnit sc | s_fullDuration sc).
Proof.
  induction fs as [|f fs IH]; intros acc Hall; simpl; intros Hdiv.
  - repeat split; [lia | exact Hdiv].
  - inversion Hall as [|? ? (d & Hd & Hpos) Hall']; subst.
    rewrite Hd. simpl.
    destruct (gcd_divide (s_partialUnit acc) d) as [Hg1 Hg2].
    destruct (IH (Scan (gcd (s_partialUnit acc) d) (s_fullDuration acc + d)
                    (s_looping acc) (s_lastFrameId acc)) Hall') as (H1 & H2 & H3).
    + simpl. apply Z.divide_add_r; [|exact Hg2].
      destruct Hdiv as [c Hc]. destruct Hg1 as [e He].
      exists (c * e). rewrite Hc. rewrite He at 1. ring.
    + simpl in *. repeat split; [lia | exact H2 | exact H3].
Qed.

Lemma total_duration_nonneg (fs : list frame) :
  Forall timed fs -> 0 <= total_duration fs.
Proof.
  induction 1 as [|f fs (d & Hd & Hpos) _ IH]; simpl; [lia|].
  rewrite Hd. simpl. lia.
Qed.

(** With a unit that is not positive the loop of [synchronize] has no
    exit. *)
Lemma sync_loop_exit (fuel : nat) : forall fs full u time idx ft tbl tbl',
  sync_loop fuel fs full u time idx ft tbl = Ok tbl' ->
  time < full -> 0 < u.
Proof.
  induction fuel as [|fuel IH]; intros fs full u time idx ft tbl tbl' Hrun Hlt; simpl in Hrun.
  - destruct (Z.ltb_spec time full); [discriminate | lia].
  - destruct (Z.ltb_spec time full); [|lia].
    destruct (fs !! idx) as [f|]; [|discriminate].
    destruct (fs !! _) as [f'|]; [|discriminate].
    destruct (Z_lt_le_dec 0 u) as [Hu|Hu]; [exact Hu|].
    eapply IH; [exact Hrun | lia].
Qed.

(** What [synchronize] establishes for a looping animation. *)
Record synchronized (fs : list frame) (a : animation) : Prop := {
  sync_frames : frames a = fs;
  sync_looping : looping a = true;
  sync_full : fullDuration a = total_duration fs;
  sync_partial : (partialUnit a | fullDuration a);
  sync_unit : 0 < fullDuration a -> 0 < unit a /\ (unit a | fullDuration a)
}.

Lemma synchronize1_synchronized fs period a a' :
  frames a = fs -> looping a = true -> fullDuration a = total_duration fs ->
  (partialUnit a | fullDuration a) ->
  synchronize1 period a = Ok a' ->
  synchronized fs a'.
Proof.
  intros Hf Hl Hfull Hdiv Hrun. unfold synchronize1 in Hrun.
  apply bind_Ok in Hrun as (tbl & Hloop & Ha'). injection Ha' as <-.
  split; simpl; auto.
  intros Hpos. split.
  - eapply sync_loop_exit; [exact Hloop | exact Hpos].
  - eapply Z.divide_trans; [|exact Hdiv]. apply gcd_divide.
Qed.

(** The animation functions a [FrameTable] can hold for the frame list
    [fs]: the one [Animation(fs)] builds, synchronized any number of
    times. *)
Inductive registered (fs : list frame) : animation -> Prop :=
| registered_new a : Animation fs = Ok a -> registered fs a
| registered_sync period a a' :
    registered fs a -> synchronize1 period a = Ok a' -> registered fs a'.

Lemma registered_frames fs a : registered fs a -> frames a = fs.
Proof.
  induction 1 as [a Hnew|period a a' _ IH Hsync].
  - unfold Animation in Hnew. destruct (length fs <? 2)%nat.
    + now injection Hnew as <-.
    + unfold synchronize1 in Hnew. apply bind_Ok in Hnew as (tbl & _ & Ha).
      now injection Ha as <-.
  - unfold synchronize1 in Hsync. apply bind_Ok in Hsync as (tbl & _ & Ha).
    now injection Ha as <-.
Qed.

Lemma registered_synchronized fs a :
  Forall timed fs -> (2 <= length fs)%nat -> registered fs a -> synchronized fs a.
Proof.
  intros Hall Hlen. induction 1 as [a Hnew|period a a' _ IH Hsync].
  - unfold Animation in Hnew.
    destruct (Nat.ltb_spec (length fs) 2) as [Hlt|_]; [lia|].
    destruct (scan_frames_timed fs (Scan 0 0 true None) Hall) as (H1 & H2 & H3);
      [apply Z.divide_0_r|].
    fold (scan_frames fs) in H1, H2, H3. simpl in H1, H2.
    eapply synchronize1_synchronized; [| | | |exact Hnew]; simpl; auto.
  - destruct IH as [Hf Hl Hfull Hdiv _].
    eapply synchronize1_synchronized; eauto.
Qed.

(** *** Slots of the lookup table *)

Lemma Qfloor_unique (x : Q) (n : Z) :
  (inject_Z n <= x)%Q -> (x < inject_Z (n + 1))%Q -> Qfloor x = n.
Proof.
  intros Hlo Hhi.
  pose proof (Qfloor_le x) as H1. pose proof (Qlt_floor x) as H2.
  assert (Ha : (inject_Z n < inject_Z (Qfloor x + 1))%Q) by lra.
  assert (Hb : (inject_Z (Qfloor x) < inject_Z (n + 1))%Q) by lra.
  rewrite <- Zlt_Qlt in Ha, Hb. lia.
Qed.

(** The index [Math.floor((t % T) / U)] of the slot a looping animation
    reads: for [T = n * U] it is [k mod n] throughout [[k U, (k + 1) U)]. *)
Lemma slot_interval (T U n k : Z) (t : Q) :
  0 < U -> 0 < n -> T = n * U -> 0 <= k ->
  (inject_Z k * inject_Z U <= t)%Q -> (t < inject_Z (k + 1) * inject_Z U)%Q ->
  Qfloor (js_mod t T / inject_Z U) = k mod n.
Proof.
  intros HU Hn HT Hk Hlo Hhi.
  assert (HUq : (0 < inject_Z U)%Q) by (now rewrite (Zlt_Qlt 0 U) in HU).
  assert (Hnq : (0 < inject_Z n)%Q) by (now rewrite (Zlt_Qlt 0 n) in Hn).
  assert (HTq : (inject_Z T == inject_Z n * inject_Z U)%Q)
    by (rewrite HT, inject_Z_mult; reflexivity).
  assert (HTpos : (0 < inject_Z T)%Q) by (rewrite HTq; now apply Qmult_lt_0_compat).
  assert (Hkq : (0 <= inject_Z k)%Q) by (now rewrite (Zle_Qle 0 k) in Hk).
  assert (Ht : (0 <= t)%Q).
  { apply Qle_trans with (inject_Z k * inject_Z U)%Q; [|exact Hlo].
    apply Qmult_le_0_compat; [exact Hkq | lra]. }
  pose proof (Z.div_mod k n ltac:(lia)) as Hdm.
  pose proof (Z.mod_pos_bound k n Hn) as Hr.
  set (q := k / n) in *. set (r := k mod n) in *.
  assert (Hkqr : (inject_Z k == inject_Z n * inject_Z q + inject_Z r)%Q).
  { rewrite Hdm at 1. now rewrite inject_Z_plus, inject_Z_mult. }
  assert (Hrq : (0 <= inject_Z r)%Q) by (rewrite (Zle_Qle 0 r) in Hr; tauto).
  assert (Hrn : (inject_Z r + 1 <= inject_Z n)%Q).
  { change 1%Q with (inject_Z 1). rewrite <- inject_Z_plus, <- Zle_Qle. lia. }
  assert (Hk1 : (inject_Z (k + 1) == inject_Z k + 1)%Q)
    by (rewrite inject_Z_plus; reflexivity).
  assert (Hr1 : (inject_Z (r + 1) == inject_Z r + 1)%Q)
    by (rewrite inject_Z_plus; reflexivity).
  assert (Hq1 : (inject_Z (q + 1) == inject_Z q + 1)%Q)
    by (rewrite inject_Z_plus; reflexivity).
  (* the quotient t / T lies in [q, q + 1) *)
  assert (Hfloor : Qfloor (t / inject_Z T) = q).
  { apply Qfloor_unique.
    - apply Qle_shift_div_l; [exact HTpos|]. rewrite HTq.
      assert (0 <= inject_Z r * inject_Z U)%Q by (apply Qmult_le_0_compat; lra).
      rewrite Hkqr in Hlo. lra.
    - apply Qlt_shift_div_r; [exact HTpos|]. rewrite HTq, Hq1.
      assert ((inject_Z r + 1) * inject_Z U <= inject_Z n * inject_Z U)%Q
        by (apply Qmult_le_compat_r; lra).
      rewrite Hk1, Hkqr in Hhi. lra. }
  assert (Hdiv0 : (0 <= t / inject_Z T)%Q).
  { apply Qle_shift_div_l; [exact HTpos | lra]. }
  unfold js_mod, Qtrunc.
  apply Qle_bool_iff in Hdiv0. rewrite Hdiv0, Hfloor.
  apply Qfloor_unique.
  - apply Qle_shift_div_l; [exact HUq|]. rewrite HTq. rewrite Hkqr in Hlo. lra.
  - apply Qlt_shift_div_r; [exact HUq|]. rewrite HTq, Hr1. rewrite Hk1, Hkqr in Hhi. lra.
Qed.

Lemma getFrame_interval fs a (k : Z) (t : Q) :
  Forall timed fs -> registered fs a ->
  0 <= k ->
  (inject_Z k * inject_Z (unit a) <= t)%Q ->
  (t < inject_Z (k + 1) * inject_Z (unit a))%Q ->
  getFrame a t =
  if (length fs <? 2)%nat then
    match fs with f :: _ => Ok (Some (frame_id f)) | [] => Throw TypeError end
  else if total_duration fs =? 0 then Ok None
  else Ok (table a !! (k mod (total_duration fs / unit a) * unit a)).
Proof.
  intros Hall Hreg Hk Hlo Hhi. unfold getFrame.
  rewrite (registered_frames fs a Hreg).
  destruct (Nat.ltb_spec (length fs) 2) as [Hlt|Hge]; [reflexivity|].
  destruct (registered_synchronized fs a Hall Hge Hreg) as [_ Hl Hfull _ Hunit].
  rewrite Hl, Hfull.
  destruct (Z.eqb_spec (total_duration fs) 0) as [Hz|Hnz]; [reflexivity|].
  pose proof (total_duration_nonneg fs Hall) as Hnn.
  destruct Hunit as [HU [n Hn]]; [lia|].
  unfold lookup_slot.
  destruct (Z.eqb_spec (unit a) 0) as [?|_]; [lia|].
  rewrite Hfull in Hn.
  assert (Hnpos : 0 < n) by nia.
  assert (Hquot : total_duration fs / unit a = n).
  { rewrite Hn. apply Z.div_mul. lia. }
  rewrite Hquot.
  now rewrite (slot_interval (total_duration fs) (unit a) n k t).
Qed.

(** C9: a registered animation whose frames all declare a duration,
    with total duration [T] and sampling unit [U]: [animation(t) =
    animation(t + T)] for every [t >= 0], and [animation] is constant on
    every interval [[k U, (k + 1) U)]. *)
Theorem animation_periodic_stepwise (fs : list frame) (a : animation) :
  Forall timed fs ->
  registered fs a ->
  let T := total_duration fs in
  let U := unit a in
  (forall t : Q, (0 <= t)%Q -> getFrame a t = getFrame a (t + inject_Z T)) /\
  (forall (k : Z) (t t' : Q),
     0 <= k ->
     (inject_Z k * inject_Z U <= t)%Q -> (t < inject_Z (k + 1) * inject_Z U)%Q ->
     (inject_Z k * inject_Z U <= t')%Q -> (t' < inject_Z (k + 1) * inject_Z U)%Q ->
     getFrame a t = getFrame a t').
Proof.
  intros Hall Hreg T U. split.
  - intros t Ht.
    destruct (Nat.ltb_spec (length fs) 2) as [Hlt|Hge].
    { unfold getFrame. rewrite (registered_frames fs a Hreg).
      apply Nat.ltb_lt in Hlt. now rewrite Hlt. }
    destruct (registered_synchronized fs a Hall Hge Hreg) as [Hf Hl Hfull _ Hunit].
    pose proof (total_duration_nonneg fs Hall) as Hnn.
    destruct (Z.eq_dec T 0) as [Hz|Hnz].
    { unfold getFrame. apply Nat.ltb_ge in Hge. rewrite Hf, Hge, Hl, Hfull.
      fold T. rewrite Hz. reflexivity. }
    destruct Hunit as [HU [n Hn]]; [fold T in Hfull; lia|].
    fold U in HU, Hn. rewrite Hfull in Hn. fold T in Hn.
    assert (Hnpos : 0 < n) by nia.
    assert (HUq : (0 < inject_Z U)%Q) by (now rewrite (Zlt_Qlt 0 U) in HU).
    set (k := Qfloor (t / inject_Z U)).
    assert (Hk : 0 <= k).
    { subst k. change 0 with (Qfloor 0). apply Qfloor_resp_le.
      apply Qle_shift_div_l; [exact HUq | lra]. }
    assert (Hlo : (inject_Z k * inject_Z U <= t)%Q).
    { pose proof (Qfloor_le (t / inject_Z U)) as Hle. fold k in Hle.
      apply (Qmult_le_compat_r _ _ (inject_Z U)) in Hle; [|lra].
      rewrite Qmult_comm in Hle at 1.
      assert (Heq : (t / inject_Z U * inject_Z U == t)%Q) by (field; lra).
      rewrite Heq in Hle. lra. }
    assert (Hhi : (t < inject_Z (k + 1) * inject_Z U)%Q).
    { pose proof (Qlt_floor (t / inject_Z U)) as Hlt. fold k in Hlt.
      apply (Qmult_lt_compat_r _ _ (inject_Z U)) in Hlt; [|lra].
      assert (Heq : (t / inject_Z U * inject_Z U == t)%Q) by (field; lra).
      rewrite Heq in Hlt. exact Hlt. }
    assert (HTq : (inject_Z T == inject_Z n * inject_Z U)%Q)
      by (rewrite Hn, inject_Z_mult; reflexivity).
    rewrite (getFrame_interval fs a k t Hall Hreg Hk Hlo Hhi).
    rewrite (getFrame_interval fs a (k + n) (t + inject_Z T) Hall Hreg).
    + fold T U. rewrite Hn at 2 4. rewrite (Z.div_mul n U) by lia.
      replace ((k + n) mod n) with (k mod n); [reflexivity|].
      rewrite <- (Z.mul_1_l n) at 2. now rewrite Z.mod_add by lia.
    + lia.
    + fold U. rewrite inject_Z_plus, HTq. lra.
    + fold U. replace (k + n + 1) with ((k + 1) + n) by lia.
      rewrite inject_Z_plus, HTq. lra.
  - intros k t t' Hk Hlo Hhi Hlo' Hhi'.
    rewrite (getFrame_interval fs a k t Hall Hreg Hk Hlo Hhi).
    now rewrite (getFrame_interval fs a k t' Hall Hreg Hk Hlo' Hhi').
Qed.

(** A three-frame loop: 100 ms, 200 ms, 100 ms. *)
Definition blink : list frame :=
  [Frame 10 (Some 100); Frame 11 (Some 200); Frame 12 (Some 100)].

Lemma blink_timed : Forall timed blink.
Proof. repeat constructor; eexists; (split; [reflexivity | lia]). Qed.

Lemma animation_periodic_stepwise_witness :
  exists a,
    Animation blink = Ok a /\
    getFrame a 150 = getFrame a (150 + inject_Z (total_duration blink)).
Proof.
  destruct (Animation blink) as [a| |] eqn:Ha; try (vm_compute in Ha; discriminate).
  exists a. split; [reflexivity|].
  apply (animation_periodic_stepwise blink a blink_timed (registered_new blink a Ha)).
  discriminate.
Defined.

End FrameTableFacts.

(** ** A small stage used in the examples *)

Module Scene.

(** The identity projection on a 100 x 100 canvas, origin at (0, 0). *)
Definition view : View.t :=
  View.Make ((1, 0, 0), (0, 1, 0), (0, 0, 1))%Q 0 0 100 100.

(** Tiles: 1 is a fixed solid block, 2 a fixed floor tile, 3 a mutable
    block, 4 a mutable block two cells wide along J.  Entities: 1 is a
    10 x 10 sprite, 2 a 250 x 10 banner (wider than two buckets). *)
Definition data : stage_data :=
  StageData
    {[ 1 := Tile [Frame 0 None] 32 32 (0, 0) (Layout 1 1 0 0) true false [];
       2 := Tile [Frame 1 None] 32 32 (0, 0) (Layout 1 1 0 0) false false [];
       3 := Tile [Frame 2 None] 32 32 (0, 0) (Layout 1 1 0 0) true true [];
       4 := Tile [Frame 3 None] 64 32 (0, 0) (Layout 1 2 0 0) true true [] ]}
    {[ 1 := Entity [Frame 20 None] 10 10 (0, 0);
       2 := Entity [Frame 21 None] 250 10 (0, 0) ]}.

(** The buckets of the empty stage. *)
Definition buckets0 : Buckets.state :=
  match Buckets.create data with
  | Ok st => st
  | _ => Buckets.State FrameTable.empty ∅ Matrix.empty ∅ 0
  end.

Definition run {S A : Type} (m : M S A) (s : S) : S := snd (m s).

End Scene.

(** ** Invalid ids *)

Module BucketsFacts.

Import Buckets.

(** C7 fails on the code for mutable tiles: [addTile] has no [return] on
    that branch, so whenever it returns for a mutable tile it returns
    [undefined] and not a remover. *)
Theorem addTile_mutable_returns_undefined view data now id i j k tile st r st' :
  tiles data !! id = Some tile ->
  tile_mutable tile = true ->
  addTile view data now id i j k st = (Ok r, st') ->
  r = None.
Proof.
  intros Hid Hmut. unfold addTile. rewrite Hid, Hmut.
  unfold bindM, gets, modify, ret.
  destruct (FrameTable.getTileAnimation (frameTable st) id); [|discriminate].
  match goal with |- context [newElement ?v ?n ?d ?a ?x ?y ?z ?s] =>
    destruct (newElement v n d a x y z s) as [[el| |] st1] end; try discriminate.
  now intros [= <- _].
Qed.

Lemma addTile_mutable_returns_undefined_witness :
  fst (addTile Scene.view Scene.data 0 3 0 0 0 Scene.buckets0) = Ok None.
Proof.
  destruct (addTile Scene.view Scene.data 0 3 0 0 0 Scene.buckets0) as [[r| |] st'] eqn:Hrun;
    try (vm_compute in Hrun; discriminate).
  simpl. f_equal.
  apply (addTile_mutable_returns_undefined Scene.view Scene.data 0 3 0 0 0 _
           Scene.buckets0 r st' eq_refl eq_refl Hrun).
Defined.

Section InvalidIds.

Variable view : View.t.
Variable data : stage_data.

Lemma addTile_invalid now id i j k st :
  tiles data !! id = None ->
  addTile view data now id i j k st = (Throw (InvalidTileID id), st).
Proof. intros Hid. unfold addTile. now rewrite Hid. Qed.

Lemma addEntity_invalid now id i j k st :
  entities data !! id = None ->
  addEntity view data now id i j k st = (Throw (InvalidEntityID id), st).
Proof. intros Hid. unfold addEntity. now rewrite Hid. Qed.

Lemma putAt_invalid now i j k id ts :
  tiles data !! id = None ->
  TileMap.putAt view data now i j k id ts = (Throw (InvalidTileID id), ts).
Proof. intros Hid. unfold TileMap.putAt. now rewrite Hid. Qed.

Lemma replace_invalid now a id st el :
  entities data !! id = None ->
  heap st !! a = Some el ->
  replace view data now a id st =
  if el_removed el then (Ok None, st) else (Throw (InvalidEntityID id), st).
Proof.
  intros Hid Ha. unfold replace, bindM, this. rewrite Ha.
  destruct (el_removed el); [reflexivity|]. now rewrite Hid.
Qed.

Lemma remove_returns a st el :
  heap st !! a = Some el -> exists st', remove a st = (Ok true, st').
Proof.
  intros Ha. unfold remove, bindM, this, modify, store, ret. rewrite Ha. eauto.
Qed.

Lemma replaceTile_invalid now i j k id st :
  tiles data !! id = None ->
  match Matrix.get (eraser st) i j k with
  | None => replaceTile view data now i j k id st = (Ok None, st)
  | Some c =>
      (forall a, c_remover c = Real a -> is_Some (heap st !! a)) ->
      fst (replaceTile view data now i j k id st) = Throw (InvalidTileID id)
  end.
Proof.
  intros Hid. unfold replaceTile, bindM, gets.
  destruct (Matrix.get (eraser st) i j k) as [c|] eqn:Hc; [|reflexivity].
  intros Hheap. unfold call_eraser, bindM.
  destruct (c_remover c) as [a|] eqn:Hr; unfold ref_remove, bindM.
  - destruct (Hheap a eq_refl) as [el Hel].
    destruct (remove_returns a st el Hel) as [st' ->]. unfold ret.
    destruct (c_removed c); unfold modify; now rewrite addTile_invalid.
  - unfold ret. destruct (c_removed c); unfold modify; now rewrite addTile_invalid.
Qed.

(** C6, as amended: a call that names a tile or entity id missing from
    the static data throws at once, with that id, and leaves the buckets
    and the tile map as they were, when the call is [addTile],
    [addEntity], [putAt], or [replace] on an element that has not been
    removed.  [replace] on a removed element and [replaceTile] at a
    position without a mutable tile do nothing and return [undefined];
    [replaceTile] at a position with a mutable tile throws with the id
    (what it leaves of the state is not part of this statement). *)
Theorem invalid_id_throws :
  (forall now id i j k st,
     tiles data !! id = None ->
     addTile view data now id i j k st = (Throw (InvalidTileID id), st)) /\
  (forall now id i j k st,
     entities data !! id = None ->
     addEntity view data now id i j k st = (Throw (InvalidEntityID id), st)) /\
  (forall now i j k id ts,
     tiles data !! id = None ->
     TileMap.putAt view data now i j k id ts = (Throw (InvalidTileID id), ts)) /\
  (forall now a id st el,
     entities data !! id = None ->
     heap st !! a = Some el ->
     replace view data now a id st =
     if el_removed el then (Ok None, st) else (Throw (InvalidEntityID id), st)) /\
  (forall now i j k id st,
     tiles data !! id = None ->
     match Matrix.get (eraser st) i j k with
     | None => replaceTile view data now i j k id st = (Ok None, st)
     | Some c =>
         (forall a, c_remover c = Real a -> is_Some (heap st !! a)) ->
         fst (replaceTile view data now i j k id st) = Throw (InvalidTileID id)
     end).
Proof.
  repeat split; intros.
  - now apply addTile_invalid.
  - now apply addEntity_invalid.
  - now apply putAt_invalid.
  - now apply replace_invalid.
  - now apply replaceTile_invalid.
Qed.

End InvalidIds.

Lemma invalid_id_throws_witness :
  addTile Scene.view Scene.data 0 99 0 0 0 Scene.buckets0
  = (Throw (InvalidTileID 99), Scene.buckets0).
Proof.
  apply (invalid_id_throws Scene.view Scene.data). reflexivity.
Defined.

(** C6 as stated fails: [replaceTile] with an unknown tile id, at a
    position where no mutable tile is registered, signals nothing. *)
Lemma replaceTile_invalid_id_silent :
  tiles Scene.data !! 99 = None /\
  replaceTile Scene.view Scene.data 0 0 0 0 99 Scene.buckets0 = (Ok None, Scene.buckets0).
Proof. split; reflexivity. Qed.

(** ** Which elements [forEachElement] enumerates *)

Lemma filter_flat_map_length {A B : Type} (P : B -> Prop) `{forall x, Decision (P x)}
    (f : A -> list B) (l : list A) :
  length (filter P (flat_map f l)) = sum_list_with (fun x => length (filter P (f x))) l.
Proof.
  induction l as [|x l IH]; simpl; [reflexivity|].
  now rewrite filter_app, length_app, IH.
Qed.

Lemma sum_list_with_indicator {A : Type} `{EqDecision A} (x : A) (n : nat) (l : list A) :
  NoDup l ->
  sum_list_with (fun y => if decide (y = x) then n else 0%nat) l =
  if decide (x ∈ l) then n else 0%nat.
Proof.
  induction 1 as [|y l Hy Hnd IH]; simpl.
  - destruct (decide (x ∈ [])) as [Hin|_]; [|reflexivity]. now apply elem_of_nil in Hin.
  - rewrite IH. destruct (decide (y = x)) as [->|Hne].
    + destruct (decide (x ∈ l)) as [?|_]; [contradiction|].
      destruct (decide (x ∈ x :: l)) as [_|Hn]; [lia|]. elim Hn. constructor.
    + destruct (decide (x ∈ l)) as [Hin|Hnin].
      * destruct (decide (x ∈ y :: l)) as [_|Hn]; [lia|]. elim Hn. now constructor.
      * destruct (decide (x ∈ y :: l)) as [Hin|_]; [|lia].
        apply elem_of_cons in Hin as [->|?]; contradiction.
Qed.

Lemma filter_none {A : Type} (P : A -> Prop) `{forall x, Decision (P x)} (l : list A) :
  (forall x, x ∈ l -> ~ P x) -> filter P l = [].
Proof.
  induction l as [|x l IH]; intros Hno; [reflexivity|].
  rewrite filter_cons, decide_False by (apply Hno; constructor).
  apply IH. intros y Hy. apply Hno. now constructor.
Qed.

Lemma sum_list_with_pointwise {A : Type} (f g : A -> nat) (l : list A) :
  (forall x, f x = g x) -> sum_list_with f l = sum_list_with g l.
Proof. intros Hfg. induction l as [|x l IH]; simpl; [reflexivity|]. now rewrite Hfg, IH. Qed.

Lemma range_elem (lo hi x : Z) : x ∈ range lo hi <-> lo <= x <= hi.
Proof.
  unfold range. rewrite list_elem_of_fmap. split.
  - intros (n & -> & Hn). apply elem_of_seq in Hn. lia.
  - intros Hx. exists (Z.to_nat (x - lo)). split; [lia|]. apply elem_of_seq. lia.
Qed.

Lemma range_NoDup (lo hi : Z) : NoDup (range lo hi).
Proof.
  unfold range. apply NoDup_fmap_2; [|apply NoDup_seq].
  intros n1 n2 Heq. lia.
Qed.

Lemma list_min_le (l : list Z) (d x : Z) : x ∈ l -> list_min l d <= x.
Proof.
  induction l as [|y l IH]; simpl; intros Hin; [now apply elem_of_nil in Hin|].
  apply elem_of_cons in Hin as [->|Hin]; [lia|]. specialize (IH Hin). lia.
Qed.

Lemma list_max_ge (l : list Z) (d x : Z) : x ∈ l -> x <= list_max l d.
Proof.
  induction l as [|y l IH]; simpl; intros Hin; [now apply elem_of_nil in Hin|].
  apply elem_of_cons in Hin as [->|Hin]; [lia|]. specialize (IH Hin). lia.
Qed.

Section Enumeration.

Variable view : View.t.

Let W : Z := View.width view.
Let H : Z := View.height view.

(** How many times the element at address [a] is registered in the
    section [s] of the bucket [key]. *)
Definition registrations (st : state) (a : nat) (key : Z * Z) (s : Z) : nat :=
  length (filter (fun e => e_p e = a) (enumerateSection (bucketAt st key) s)).

(** The buckets [addToBuckets] registers an element in, as it stands. *)
Definition target_keys (el : element) : list (Z * Z) :=
  let bi := el_bi el in
  let bj := el_bj el in
  let bi1 := (py (el_p el) + d_height (el_element el)) / H in
  let bj1 := (px (el_p el) + d_width (el_element el)) / W in
  (bi, bj)
  :: (if bi <? bi1 then [(bi + 1, bj)] else [])
  ++ (if bj <? bj1 then [(bi, bj + 1)] else [])
  ++ (if (bi <? bi1) && (bj <? bj1) then [(bi + 1, bj + 1)] else []).

(** The element at [a] is placed: its registrations are the ones
    [addToBuckets] makes for its current projected position, one in the
    section [p[2]] of each target bucket, and [bi], [bj] are the bucket
    of its current position. *)
Record placed (st : state) (a : nat) (el : element) : Prop := {
  placed_heap : heap st !! a = Some el;
  placed_bi : el_bi el = py (el_p el) / H;
  placed_bj : el_bj el = px (el_p el) / W;
  placed_regs : forall key s,
    registrations st a key s =
    if decide (key ∈ target_keys el /\ s = pz (el_p el)) then 1%nat else 0%nat;
  placed_dims : forall key s e,
    e ∈ enumerateSection (bucketAt st key) s -> e_p e = a ->
    e_width e = d_width (el_element el) /\ e_height e = d_height (el_element el);
  placed_range : forall key,
    key ∈ target_keys el ->
    minS (bucketAt st key) <= pz (el_p el) <= maxS (bucketAt st key)
}.

(** The projected box of [el] meets the viewport at origin [(ox, oy)]:
    the test of [yieldElement]. *)
Definition in_viewport (el : element) (ox oy : Q) : Prop :=
  (inject_Z (px (el_p el)) < - ox + inject_Z W)%Q /\
  (inject_Z (py (el_p el)) < - oy + inject_Z H)%Q /\
  (- ox <= inject_Z (px (el_p el) + d_width (el_element el)))%Q /\
  (- oy <= inject_Z (py (el_p el) + d_height (el_element el)))%Q.

#[export] Instance in_viewport_dec el ox oy : Decision (in_viewport el ox oy).
Proof.
  unfold in_viewport.
  repeat apply and_dec;
    first [apply Qlt_alt_dec | idtac].
  all: match goal with
       | |- Decision (?x < ?y)%Q => destruct (Qlt_le_dec x y); [left | right]; [assumption | lra]
       | |- Decision (?x <= ?y)%Q => destruct (Qlt_le_dec y x); [right | left]; [lra | assumption]
       end.
Defined.

Lemma ltQ_spec (x y : Q) : ltQ x y = true <-> (x < y)%Q.
Proof.
  unfold ltQ. rewrite negb_true_iff. split.
  - intros Hb. destruct (Qlt_le_dec x y) as [?|Hle]; [assumption|].
    apply Qle_bool_iff in Hle. congruence.
  - intros Hlt. destruct (Qle_bool y x) eqn:Hb; [|reflexivity].
    apply Qle_bool_iff in Hb. lra.
Qed.

Lemma visible_spec st a el ox oy e :
  heap st !! a = Some el -> e_p e = a ->
  e_width e = d_width (el_element el) -> e_height e = d_height (el_element el) ->
  (visible view st ox oy e <-> in_viewport el ox oy).
Proof.
  intros Ha Hp Hw Hh. unfold visible, in_viewport. rewrite Hp, Ha, Hw, Hh.
  fold W H. rewrite !andb_True, !Is_true_true, !ltQ_spec, !Qle_bool_iff. tauto.
Qed.

(** The box of [el] reaches into the bucket [key]: the bucket's row lies
    between the rows of the box's top and bottom edges, and likewise for
    the columns. *)
Definition overlaps (el : element) (key : Z * Z) : Prop :=
  py (el_p el) / H <= fst key <= (py (el_p el) + d_height (el_element el)) / H /\
  px (el_p el) / W <= snd key <= (px (el_p el) + d_width (el_element el)) / W.

#[export] Instance overlaps_dec el key : Decision (overlaps el key).
Proof. unfold overlaps. apply _. Defined.

(** The box is no larger than a bucket. *)
Definition fits (el : element) : Prop :=
  0 <= d_width (el_element el) <= W /\ 0 <= d_height (el_element el) <= H.

Lemma target_keys_overlaps el key :
  0 < W -> 0 < H -> fits el ->
  el_bi el = py (el_p el) / H -> el_bj el = px (el_p el) / W ->
  (key ∈ target_keys el <-> overlaps el key).
Proof.
  intros HW HH [[Hw0 Hw1] [Hh0 Hh1]] Hbi Hbj. unfold target_keys, overlaps.
  rewrite Hbi, Hbj. cbv zeta.
  set (y := py (el_p el)) in *. set (x := px (el_p el)) in *.
  set (h := d_height (el_element el)) in *. set (w := d_width (el_element el)) in *.
  assert (Hy1 : y / H <= (y + h) / H) by (apply Z.div_le_mono; lia).
  assert (Hy2 : (y + h) / H <= y / H + 1).
  { replace (y / H + 1) with ((y + 1 * H) / H) by (rewrite Z.div_add; lia).
    apply Z.div_le_mono; lia. }
  assert (Hx1 : x / W <= (x + w) / W) by (apply Z.div_le_mono; lia).
  assert (Hx2 : (x + w) / W <= x / W + 1).
  { replace (x / W + 1) with ((x + 1 * W) / W) by (rewrite Z.div_add; lia).
    apply Z.div_le_mono; lia. }
  destruct key as [r c]. simpl.
  destruct (Z.ltb_spec (y / H) ((y + h) / H)); destruct (Z.ltb_spec (x / W) ((x + w) / W));
    simpl; rewrite ?elem_of_cons, ?elem_of_nil; split;
    try (intros [[= -> ->]|Hrest]; [lia|]);
    try (destruct Hrest as [[= -> ->]|Hrest]; [lia|]);
    try (destruct Hrest as [[= -> ->]|Hrest]; [lia|]);
    try (destruct Hrest as [[= -> ->]|Hrest]; [lia|]);
    try contradiction.
  all: intros [Hr Hc].
  all: assert (Hrr : r = y / H \/ r = y / H + 1) by lia.
  all: assert (Hcc : c = x / W \/ c = x / W + 1) by lia.
  all: destruct Hrr as [-> | ->]; destruct Hcc as [-> | ->]; try lia; auto 6.
Qed.

Lemma count_visible st a el ox oy (l : list entry) :
  heap st !! a = Some el ->
  (forall e, e ∈ l -> e_p e = a ->
     e_width e = d_width (el_element el) /\ e_height e = d_height (el_element el)) ->
  length (filter (fun e => e_p e = a) (filter (visible view st ox oy) l)) =
  if decide (in_viewport el ox oy) then length (filter (fun e => e_p e = a) l) else 0%nat.
Proof.
  intros Ha. induction l as [|e l IH]; intros Hdims.
  - now destruct (decide _).
  - rewrite (filter_cons (visible view st ox oy)), (filter_cons (fun e => e_p e = a) e l).
    assert (IH' := IH (fun e' Hin => Hdims e' (list_elem_of_further _ _ _ Hin))).
    destruct (decide (e_p e = a)) as [Hp|Hp].
    + destruct (Hdims e (list_elem_of_here _ _) Hp) as [Hw Hh].
      pose proof (visible_spec st a el ox oy e Ha Hp Hw Hh) as Hvis.
      destruct (decide (visible view st ox oy e)) as [Hv|Hv].
      * rewrite filter_cons, decide_True by exact Hp. simpl. rewrite IH'.
        destruct (decide (in_viewport el ox oy)) as [_|Hn]; [reflexivity|]. tauto.
      * rewrite IH'. destruct (decide (in_viewport el ox oy)) as [Hy|_]; [tauto|reflexivity].
    + destruct (decide (visible view st ox oy e)) as [Hv|Hv]; [|exact IH'].
      rewrite filter_cons, decide_False by exact Hp. exact IH'.
Qed.

Lemma queried_NoDup ox oy : NoDup (queried view ox oy).
Proof.
  unfold queried. cbv zeta.
  generalize (Qfloor (- oy / inject_Z (View.height view))).
  generalize (Qfloor (- ox / inject_Z (View.width view))). intros j i.
  repeat (apply NoDup_cons_2;
          [rewrite ?not_elem_of_cons; repeat split;
           try (intros [= ? ?]; lia); try (intros [= ?]; lia); apply not_elem_of_nil|]).
  apply NoDup_nil_2.
Qed.

(** How often [forEachElement] passes a placed element on to [action]. *)
Lemma yielded_count st a el ox oy :
  placed st a el ->
  length (filter (fun e => e_p e = a) (yielded view st ox oy)) =
  if decide (in_viewport el ox oy)
  then length (filter (fun key => key ∈ target_keys el) (queried view ox oy))
  else 0%nat.
Proof.
  intros [Ha Hbi Hbj Hregs Hdims Hrange]. unfold yielded. cbv zeta.
  set (qs := queried view ox oy).
  set (lo := list_min (map minS (map (bucketAt st) qs)) 0).
  set (hi := list_max (map maxS (map (bucketAt st) qs)) 0).
  rewrite filter_flat_map_length.
  (* each section *)
  assert (Hsec : forall s,
    length (filter (fun e => e_p e = a)
      (flat_map (fun b => filter (visible view st ox oy) (enumerateSection b s))
         (map (bucketAt st) qs))) =
    if decide (s = pz (el_p el))
    then (if decide (in_viewport el ox oy)
          then length (filter (fun key => key ∈ target_keys el) qs) else 0%nat)
    else 0%nat).
  { intros s. rewrite filter_flat_map_length.
    clearbody qs. clear lo hi. induction qs as [|key qs IH]; simpl.
    - now repeat destruct (decide _).
    - rewrite IH. rewrite (count_visible st a el ox oy _ Ha (Hdims key s)).
      fold (registrations st a key s). rewrite Hregs, (filter_cons _ key qs).
      destruct (decide (s = pz (el_p el))) as [->|Hs];
        destruct (decide (in_viewport el ox oy)) as [Hv|Hv];
        destruct (decide (key ∈ target_keys el)) as [Hk|Hk];
        repeat (destruct (decide _) as [?|?]); simpl; try tauto; try lia. }
  rewrite (sum_list_with_pointwise _ _ _ Hsec).
  rewrite (sum_list_with_indicator (pz (el_p el)) _ (range lo hi) (range_NoDup lo hi)).
  destruct (decide (pz (el_p el) ∈ range lo hi)) as [Hin|Hnin]; [reflexivity|].
  destruct (decide (in_viewport el ox oy)) as [Hv|Hv]; [|reflexivity].
  destruct (filter (fun key => key ∈ target_keys el) qs) as [|key l] eqn:Hf; [reflexivity|].
  exfalso. apply Hnin. apply range_elem.
  assert (Hkey : key ∈ filter (fun key => key ∈ target_keys el) qs)
    by (rewrite Hf; constructor).
  apply list_elem_of_filter in Hkey as [Hk Hq].
  destruct (Hrange key Hk) as [Hlo Hhi].
  assert (Hb : bucketAt st key ∈ map (bucketAt st) qs) by (apply list_elem_of_fmap; eauto).
  split.
  - etransitivity; [|exact Hlo]. apply list_min_le. apply list_elem_of_fmap. eauto.
  - etransitivity; [exact Hhi|]. apply list_max_ge. apply list_elem_of_fmap. eauto.
Qed.

(** *** Geometry: a box that meets the viewport reaches a queried bucket *)

Lemma Qfloor_ge (x : Q) (n : Z) : (inject_Z n <= x)%Q -> n <= Qfloor x.
Proof.
  intros Hle. pose proof (Qlt_floor x) as Hlt.
  assert (Hn : (inject_Z n < inject_Z (Qfloor x + 1))%Q) by lra.
  rewrite <- Zlt_Qlt in Hn. lia.
Qed.

Lemma row_reached (y h S : Z) (o : Q) :
  0 < S -> 0 <= h ->
  (inject_Z y < - o + inject_Z S)%Q -> (- o <= inject_Z (y + h))%Q ->
  let i := Qfloor (- o / inject_Z S) in
  exists r, (r = i \/ r = i + 1) /\ y / S <= r <= (y + h) / S.
Proof.
  intros HS Hh Hlt Hle i.
  assert (HSq : (0 < inject_Z S)%Q) by (now rewrite (Zlt_Qlt 0 S) in HS).
  assert (Ha : y / S <= i + 1).
  { assert (Hge : y / S - 1 <= i); [|lia].
    apply Qfloor_ge. apply Qle_shift_div_l; [exact HSq|].
    pose proof (Z.mul_div_le y S HS) as Hm.
    assert (Hq : (inject_Z ((y / S - 1) * S) <= inject_Z (y + - S))%Q)
      by (rewrite <- Zle_Qle; lia).
    rewrite inject_Z_mult, (inject_Z_plus y), inject_Z_opp in Hq. lra. }
  assert (Hb : i <= (y + h) / S).
  { apply Z.div_le_lower_bound; [exact HS|].
    pose proof (Qfloor_le (- o / inject_Z S)) as Hf. fold i in Hf.
    apply (Qmult_le_compat_r _ _ (inject_Z S)) in Hf; [|lra].
    assert (Heq : (- o / inject_Z S * inject_Z S == - o)%Q) by (field; lra).
    rewrite Heq in Hf.
    assert (Hq : (inject_Z (S * i) <= inject_Z (y + h))%Q).
    { rewrite inject_Z_mult. lra. }
    now rewrite <- Zle_Qle in Hq. }
  assert (Hc : y / S <= (y + h) / S) by (apply Z.div_le_mono; lia).
  destruct (Z_le_gt_dec (y / S) i) as [Hd|Hd].
  - exists i. split; [now left | lia].
  - exists (i + 1). split; [now right | lia].
Qed.

Lemma viewport_reaches_bucket el ox oy :
  0 < W -> 0 < H -> fits el -> in_viewport el ox oy ->
  exists key, key ∈ queried view ox oy /\ overlaps el key.
Proof.
  intros HW HH [[Hw0 _] [Hh0 _]] (Hx1 & Hy1 & Hx2 & Hy2).
  destruct (row_reached (py (el_p el)) (d_height (el_element el)) H oy HH Hh0 Hy1 Hy2)
    as (r & Hr & Hrow).
  destruct (row_reached (px (el_p el)) (d_width (el_element el)) W ox HW Hw0 Hx1 Hx2)
    as (c & Hc & Hcol).
  exists (r, c). split; [|split; assumption].
  unfold queried. cbv zeta. fold W H.
  destruct Hr as [-> | ->]; destruct Hc as [-> | ->];
    rewrite !elem_of_cons; auto 6.
Qed.

(** *** [forEachElement] creates buckets and changes nothing else *)

Lemma getBucket_spec key st :
  exists st1,
    getBucket key st = (Ok (bucketAt st key), st1) /\
    heap st1 = heap st /\ frameTable st1 = frameTable st /\
    eraser st1 = eraser st /\ nextElement st1 = nextElement st /\
    (forall key', bucketAt st1 key' = bucketAt st key').
Proof.
  unfold getBucket, bucketAt. destruct (buckets st !! key) as [b|] eqn:Hb.
  - exists st. repeat split; reflexivity.
  - eexists. split; [reflexivity|]. repeat split. intros key'. simpl.
    destruct (decide (key = key')) as [<-|Hne].
    + now rewrite lookup_insert_eq, Hb.
    + now rewrite lookup_insert_ne.
Qed.

Lemma yielded_ext st st1 ox oy :
  heap st1 = heap st -> (forall key, bucketAt st1 key = bucketAt st key) ->
  yielded view st1 ox oy = yielded view st ox oy.
Proof.
  intros Hh Hb. unfold yielded. cbv zeta.
  assert (Hbs : map (bucketAt st1) (queried view ox oy) = map (bucketAt st) (queried view ox oy))
    by (apply map_ext; intros; apply Hb).
  rewrite Hbs. apply flat_map_ext. intros s. apply flat_map_ext. intros b.
  apply list_filter_iff. intros e. unfold visible. now rewrite Hh.
Qed.

Lemma placed_ext st st1 a el :
  heap st1 = heap st -> (forall key, bucketAt st1 key = bucketAt st key) ->
  placed st a el -> placed st1 a el.
Proof.
  intros Hh Hb [Ha Hbi Hbj Hregs Hdims Hrange].
  split; auto.
  - now rewrite Hh.
  - intros key s. unfold registrations. rewrite Hb. apply Hregs.
  - intros key s e. rewrite Hb. apply Hdims.
  - intros key. rewrite Hb. apply Hrange.
Qed.

Lemma forEachElement_spec now ox oy st :
  exists st',
    forEachElement view now ox oy st =
      (mapR (action_args st' now) (yielded view st' ox oy), st') /\
    heap st' = heap st /\ frameTable st' = frameTable st /\
    (forall key, bucketAt st' key = bucketAt st key).
Proof.
  unfold forEachElement, bindM.
  destruct (getBucket_spec (nth 0 (queried view ox oy) (0, 0)) st)
    as (st1 & -> & Hh1 & Hf1 & _ & _ & Hb1).
  destruct (getBucket_spec (nth 1 (queried view ox oy) (0, 0)) st1)
    as (st2 & -> & Hh2 & Hf2 & _ & _ & Hb2).
  destruct (getBucket_spec (nth 2 (queried view ox oy) (0, 0)) st2)
    as (st3 & -> & Hh3 & Hf3 & _ & _ & Hb3).
  destruct (getBucket_spec (nth 3 (queried view ox oy) (0, 0)) st3)
    as (st4 & -> & Hh4 & Hf4 & _ & _ & Hb4).
  exists st4. split; [reflexivity|]. repeat split; try congruence.
Qed.

(** The entries one call of [forEachElement] passes to [action], and how
    many of them belong to a placed element that fits in a bucket. *)
Lemma forEachElement_count now ox oy st a el r st' :
  0 < W -> 0 < H -> placed st a el -> fits el ->
  forEachElement view now ox oy st = (r, st') ->
  r = mapR (action_args st' now) (yielded view st' ox oy) /\
  length (filter (fun e => e_p e = a) (yielded view st' ox oy)) =
    (if decide (in_viewport el ox oy)
     then length (filter (overlaps el) (queried view ox oy)) else 0%nat).
Proof.
  intros HW HH Hpl Hfit Hrun.
  destruct (forEachElement_spec now ox oy st) as (st1 & Hrun1 & Hh & _ & Hb).
  rewrite Hrun in Hrun1. injection Hrun1 as -> ->.
  split; [reflexivity|].
  rewrite (yielded_count st1 a el ox oy (placed_ext st st1 a el Hh Hb Hpl)).
  destruct (decide (in_viewport el ox oy)); [|reflexivity].
  f_equal. apply list_filter_iff. intros key.
  apply target_keys_overlaps; auto; apply Hpl.
Qed.

(** A box that fits in a bucket and meets the viewport reaches into one
    of the queried buckets. *)
Lemma queried_reached el ox oy :
  0 < W -> 0 < H -> fits el -> in_viewport el ox oy ->
  (1 <= length (filter (overlaps el) (queried view ox oy)))%nat.
Proof.
  intros HW HH Hfit Hv.
  destruct (viewport_reaches_bucket el ox oy HW HH Hfit Hv) as (key & Hq & Ho).
  assert (Hin : key ∈ filter (overlaps el) (queried view ox oy))
    by (apply list_elem_of_filter; auto).
  destruct (filter (overlaps el) (queried view ox oy)); [|simpl; lia].
  now apply elem_of_nil in Hin.
Qed.

(** C10, as amended: one call of [forEachElement] calls [action] on the
    entries [yielded]; for a placed element whose box is no larger than
    a bucket, the number of these entries that are the element's is the
    number [n] of queried buckets its box reaches into when the box
    meets the viewport (then [1 <= n <= 4]), and 0 when it does not. *)
Theorem forEachElement_once_per_bucket now ox oy st a el r st' :
  0 < W -> 0 < H -> placed st a el -> fits el ->
  forEachElement view now ox oy st = (r, st') ->
  let n := length (filter (overlaps el) (queried view ox oy)) in
  r = mapR (action_args st' now) (yielded view st' ox oy) /\
  length (filter (fun e => e_p e = a) (yielded view st' ox oy)) =
    (if decide (in_viewport el ox oy) then n else 0%nat) /\
  (in_viewport el ox oy -> (1 <= n <= 4)%nat).
Proof.
  intros HW HH Hpl Hfit Hrun n.
  destruct (forEachElement_count now ox oy st a el r st' HW HH Hpl Hfit Hrun)
    as [Hr Hcount].
  split; [exact Hr|]. split; [exact Hcount|].
  intros Hv. subst n. split.
  - now apply queried_reached.
  - etransitivity; [apply length_filter|]. reflexivity.
Qed.

(** C1, as amended: for a placed element whose box is no larger than a
    bucket, one call of [forEachElement] calls [action] for it at least
    once if and only if its projected box meets the viewport. *)
Theorem forEachElement_iff_in_viewport now ox oy st a el r st' :
  0 < W -> 0 < H -> placed st a el -> fits el ->
  forEachElement view now ox oy st = (r, st') ->
  r = mapR (action_args st' now) (yielded view st' ox oy) /\
  ((exists e, e ∈ yielded view st' ox oy /\ e_p e = a) <-> in_viewport el ox oy).
Proof.
  intros HW HH Hpl Hfit Hrun.
  destruct (forEachElement_count now ox oy st a el r st' HW HH Hpl Hfit Hrun)
    as [Hr Hcount].
  pose proof (queried_reached el ox oy HW HH Hfit) as Hn.
  split; [exact Hr|]. split.
  - intros (e & Hin & Hp).
    destruct (decide (in_viewport el ox oy)) as [Hv|Hv]; [exact Hv|].
    assert (Hin' : e ∈ filter (fun e => e_p e = a) (yielded view st' ox oy))
      by (apply list_elem_of_filter; auto).
    destruct (filter (fun e => e_p e = a) (yielded view st' ox oy)); [|discriminate].
    now apply elem_of_nil in Hin'.
  - intros Hv. rewrite decide_True in Hcount by exact Hv. specialize (Hn Hv).
    destruct (filter (fun e => e_p e = a) (yielded view st' ox oy)) as [|e l] eqn:Hf;
      [simpl in Hcount; lia|].
    assert (Hin : e ∈ filter (fun e => e_p e = a) (yielded view st' ox oy))
      by (rewrite Hf; constructor).
    apply list_elem_of_filter in Hin as [Hp Hin]. eauto.
Qed.

(** *** Placing an element *)

(** The entry [addToBucket] registers for the element [el] at [a]. *)
Definition entry_of (a : nat) (el : element) (an : FrameTable.animation) : entry :=
  Entry a (d_width (el_element el)) (d_height (el_element el))
    (FrameTable.static an) (el_animation el) (el_timeOffset el).

(** Two [Element] objects that differ in their removers only. *)
Definition same_shape (el el' : element) : Prop :=
  el_element el' = el_element el /\ el_animation el' = el_animation el /\
  el_p el' = el_p el /\ el_bi el' = el_bi el /\ el_bj el' = el_bj el /\
  el_timeOffset el' = el_timeOffset el /\ el_removed el' = el_removed el.

Lemma enumerateSection_Bucket_add b p2 e s :
  enumerateSection (fst (Bucket_add b p2 e)) s =
  enumerateSection b s ++ (if decide (s = p2) then [e] else []).
Proof.
  unfold Bucket_add, enumerateSection, MultiSet.add, MultiSet.fastForEach. simpl.
  destruct (decide (s = p2)) as [->|Hne].
  - rewrite lookup_insert_eq. simpl. rewrite map_app. simpl.
    now destruct (sections b !! p2).
  - rewrite lookup_insert_ne by congruence. now rewrite app_nil_r.
Qed.

Lemma addToBucket_run a key st el an :
  heap st !! a = Some el ->
  FrameTable.animations (frameTable st) !! el_animation el = Some an ->
  exists st' el',
    addToBucket a key st = (Ok tt, st') /\
    heap st' = <[a := el']> (heap st) /\ same_shape el el' /\
    frameTable st' = frameTable st /\ eraser st' = eraser st /\
    nextElement st' = nextElement st /\
    (forall key', bucketAt st' key' =
       if decide (key' = key)
       then fst (Bucket_add (bucketAt st key) (pz (el_p el)) (entry_of a el an))
       else bucketAt st key').
Proof.
  intros Ha Han. unfold addToBucket, bindM.
  destruct (getBucket_spec key st) as (st1 & -> & Hh & Hf & He & Hn & Hb).
  unfold this, gets. rewrite Hh, Ha, Hf, Han.
  fold (entry_of a el an).
  destruct (Bucket_add (bucketAt st key) (pz (el_p el)) (entry_of a el an)) as [b' id] eqn:Hadd.
  unfold modify, store, modify. simpl.
  eexists _, _. split; [reflexivity|]. simpl. rewrite Hh, Hf, He, Hn.
  repeat split. intros key'. unfold bucketAt at 1. simpl.
  destruct (decide (key' = key)) as [->|Hne].
  - now rewrite lookup_insert_eq.
  - rewrite lookup_insert_ne by congruence. apply Hb.
Qed.

(** [addToBucket] for each key of a list in turn. *)
Fixpoint add_all (a : nat) (keys : list (Z * Z)) : M state unit :=
  match keys with
  | [] => ret tt
  | key :: keys' => let! _ := addToBucket a key in add_all a keys'
  end.

Lemma addToBuckets_add_all a st el :
  heap st !! a = Some el ->
  addToBuckets view a st = add_all a (target_keys el) st.
Proof.
  intros Ha. unfold addToBuckets, target_keys, bindM, this. rewrite Ha. cbv zeta.
  fold W H.
  destruct (el_bi el <? (py (el_p el) + d_height (el_element el)) / H);
    destruct (el_bj el <? (px (el_p el) + d_width (el_element el)) / W);
    simpl; unfold bindM, ret;
    repeat (match goal with
            | |- context [addToBucket ?x ?y ?z] =>
                destruct (addToBucket x y z) as [[[]| |] ?]
            end; try reflexivity).
Qed.

Lemma add_all_run a (keys : list (Z * Z)) : forall st el an,
  NoDup keys ->
  heap st !! a = Some el ->
  FrameTable.animations (frameTable st) !! el_animation el = Some an ->
  exists st' el',
    add_all a keys st = (Ok tt, st') /\
    heap st' = <[a := el']> (heap st) /\ same_shape el el' /\
    frameTable st' = frameTable st /\ eraser st' = eraser st /\
    nextElement st' = nextElement st /\
    (forall key' s,
       enumerateSection (bucketAt st' key') s =
       enumerateSection (bucketAt st key') s ++
       (if decide (key' ∈ keys /\ s = pz (el_p el)) then [entry_of a el an] else [])) /\
    (forall key', key' ∈ keys ->
       minS (bucketAt st' key') <= pz (el_p el) <= maxS (bucketAt st' key')) /\
    (forall key', key' ∉ keys -> bucketAt st' key' = bucketAt st key').
Proof.
  induction keys as [|key keys IH]; intros st el an Hnd Ha Han.
  - exists st, el. cbn [add_all]. unfold ret.
    split; [reflexivity|]. split; [now rewrite insert_id|].
    split; [unfold same_shape; tauto|].
    split; [reflexivity|]. split; [reflexivity|]. split; [reflexivity|].
    split; [|split].
    + intros key' s. rewrite decide_False; [now rewrite app_nil_r|].
      intros [Hin _]. now apply elem_of_nil in Hin.
    + intros key' Hin. now apply elem_of_nil in Hin.
    + reflexivity.
  - apply NoDup_cons in Hnd as [Hkey Hnd].
    destruct (addToBucket_run a key st el an Ha Han)
      as (st1 & el1 & Hrun1 & Hh1 & Hs1 & Hf1 & He1 & Hn1 & Hb1).
    assert (Ha1 : heap st1 !! a = Some el1) by (rewrite Hh1; apply lookup_insert_eq).
    destruct Hs1 as (Hs1a & Hs1b & Hs1c & Hs1d & Hs1e & Hs1f & Hs1g).
    assert (Han1 : FrameTable.animations (frameTable st1) !! el_animation el1 = Some an)
      by (now rewrite Hf1, Hs1b).
    destruct (IH st1 el1 an Hnd Ha1 Han1)
      as (st2 & el2 & Hrun2 & Hh2 & Hs2 & Hf2 & He2 & Hn2 & Hsec2 & Hrng2 & Hoth2).
    exists st2, el2. cbn [add_all]. unfold bindM. rewrite Hrun1. split; [exact Hrun2|].
    split; [rewrite Hh2, Hh1; apply insert_insert_eq|].
    split; [unfold same_shape in *; intuition congruence|].
    split; [congruence|]. split; [congruence|]. split; [congruence|].
    split; [|split].
    + intros key' s. rewrite Hsec2, Hb1, Hs1c.
      assert (Hentry : entry_of a el1 an = entry_of a el an)
        by (unfold entry_of; now rewrite Hs1a, Hs1b, Hs1f).
      rewrite Hentry.
      destruct (decide (key' = key)) as [->|Hne].
      * rewrite enumerateSection_Bucket_add.
        rewrite (decide_False (P := key ∈ keys /\ _)) by tauto.
        rewrite app_nil_r.
        destruct (decide (s = pz (el_p el))) as [->|Hs].
        -- rewrite decide_True; [reflexivity|]. split; [constructor | reflexivity].
        -- rewrite decide_False by tauto. reflexivity.
      * destruct (decide (key' ∈ keys /\ s = pz (el_p el))) as [[Hin Hs]|Hn].
        -- rewrite decide_True; [reflexivity|]. split; [now constructor | exact Hs].
        -- rewrite decide_False; [reflexivity|].
           intros [Hin Hs]. apply elem_of_cons in Hin as [?|Hin]; tauto.
    + intros key' Hin. apply elem_of_cons in Hin as [->|Hin].
      * rewrite (Hoth2 key Hkey), Hb1, decide_True by reflexivity.
        unfold Bucket_add. simpl. lia.
      * rewrite <- Hs1c. now apply Hrng2.
    + intros key' Hnin. apply not_elem_of_cons in Hnin as [Hne Hnin].
      rewrite (Hoth2 key' Hnin), Hb1. now rewrite decide_False.
Qed.

Lemma target_keys_NoDup el : NoDup (target_keys el).
Proof.
  unfold target_keys. cbv zeta.
  generalize (el_bi el) (el_bj el). intros bi bj.
  destruct (bi <? _); destruct (bj <? _); simpl;
  repeat (apply NoDup_cons_2;
          [rewrite ?not_elem_of_cons; repeat split;
           try (intros [= ? ?]; lia); try (intros [= ?]; lia); apply not_elem_of_nil|]);
  apply NoDup_nil_2.
Qed.

(** No entry of [st] refers to the address the next element gets. *)
Definition fresh (st : state) : Prop :=
  forall key s e, e ∈ enumerateSection (bucketAt st key) s -> e_p e <> nextElement st.

(** [new Element(...)] on a descriptor with frames places the element. *)
Lemma newElement_placed now d animation i j k st r st' :
  fresh st ->
  newElement view now d animation i j k st = (Ok r, st') ->
  d_frames d <> [] ->
  exists el,
    r = Real (nextElement st) /\ placed st' (nextElement st) el /\
    el_element el = d /\ el_p el = View.projectElement view (d_offset d) i j k /\
    el_removed el = false.
Proof.
  intros Hfresh Hrun Hframes. unfold newElement in Hrun.
  destruct (Nat.eqb_spec (length (d_frames d)) 0) as [Hlen|_].
  { destruct (d_frames d); [contradiction | discriminate]. }
  unfold bindM, gets, modify, ret in Hrun. fold W H in Hrun.
  set (a := nextElement st) in *.
  set (p := View.projectElement view (d_offset d) i j k) in *.
  set (el0 := Element d animation i j k p (py p / H) (px p / W) [] false now) in *.
  set (st0 := State (frameTable st) (buckets st) (eraser st) (<[a := el0]> (heap st)) (S a)) in *.
  assert (Ha0 : heap st0 !! a = Some el0) by apply lookup_insert_eq.
  rewrite (addToBuckets_add_all a st0 el0 Ha0) in Hrun.
  destruct (FrameTable.animations (frameTable st0) !! el_animation el0) as [an|] eqn:Han.
  - destruct (add_all_run a (target_keys el0) st0 el0 an (target_keys_NoDup el0) Ha0 Han)
      as (st1 & el1 & Hrun1 & Hh1 & Hs1 & _ & _ & _ & Hsec & Hrng & _).
    rewrite Hrun1 in Hrun. injection Hrun as <- <-.
    destruct Hs1 as (Hs1a & Hs1b & Hs1c & Hs1d & Hs1e & Hs1f & Hs1g).
    assert (Htk : target_keys el1 = target_keys el0)
      by (unfold target_keys; now rewrite Hs1a, Hs1c, Hs1d, Hs1e).
    exists el1. split; [reflexivity|]. split; [|now rewrite Hs1a, Hs1c, Hs1g].
    assert (Hold : forall key s,
              filter (fun e => e_p e = a) (enumerateSection (bucketAt st0 key) s) = []).
    { intros key s. apply filter_none. intros e Hin.
      apply (Hfresh key s e). exact Hin. }
    split.
    + rewrite Hh1. apply lookup_insert_eq.
    + now rewrite Hs1d, Hs1c.
    + now rewrite Hs1e, Hs1c.
    + intros key s. unfold registrations. rewrite Hsec, filter_app, Hold, Htk, Hs1c.
      destruct (decide (key ∈ target_keys el0 /\ s = pz (el_p el0))); [|reflexivity].
      rewrite filter_cons, decide_True by reflexivity. reflexivity.
    + intros key s e. rewrite Hsec, elem_of_app. intros [Hin|Hin] Hp.
      * elim (Hfresh key s e Hin Hp).
      * destruct (decide _); [|now apply elem_of_nil in Hin].
        apply list_elem_of_singleton in Hin as ->. rewrite Hs1a. split; reflexivity.
    + intros key Hk. rewrite Htk in Hk. rewrite Hs1c. now apply Hrng.
  - exfalso. destruct (target_keys el0) as [|key keys] eqn:Hk;
      [unfold target_keys in Hk; discriminate|].
    simpl in Hrun. unfold bindM, addToBucket, bindM in Hrun.
    destruct (getBucket_spec key st0) as (st1 & Hg & Hh & Hf & _).
    rewrite Hg in Hrun. unfold this, gets in Hrun. rewrite Hh, Ha0, Hf, Han in Hrun.
    discriminate.
Qed.

Lemma set_frameTable_fresh f st : fresh st -> fresh (set_frameTable f st).
Proof. intros Hf key s e. apply (Hf key s e). Qed.

Lemma addEntity_placed (data : stage_data) now id i j k st r st' entity :
  fresh st ->
  entities data !! id = Some entity -> entity_frames entity <> [] ->
  addEntity view data now id i j k st = (Ok r, st') ->
  exists el,
    r = Real (nextElement st) /\ placed st' (nextElement st) el /\
    el_element el = of_entity entity /\
    el_p el = View.projectElement view (entity_offset entity) i j k /\
    el_removed el = false.
Proof.
  intros Hfresh Hid Hframes Hrun. unfold addEntity in Hrun. rewrite Hid in Hrun.
  unfold bindM, gets, modify in Hrun.
  destruct (FrameTable.getEntityAnimation (frameTable st) id) as [an|]; [|discriminate].
  eapply (newElement_placed now (of_entity entity) an i j k
            (set_frameTable (FrameTable.set_static an false) st));
    [now apply set_frameTable_fresh | exact Hrun | exact Hframes].
Qed.

End Enumeration.

(** *** Examples on the small stage *)

Lemma buckets0_fresh : fresh Scene.buckets0.
Proof. intros key s e Hin. vm_compute in Hin. now apply elem_of_nil in Hin. Qed.

(** The 10 x 10 sprite at (5, 5), seen from the origin. *)
Lemma forEachElement_iff_in_viewport_witness :
  exists st el r st',
    addEntity Scene.view Scene.data 0 1 5 5 0 Scene.buckets0 = (Ok (Real 0), st) /\
    heap st !! 0%nat = Some el /\
    forEachElement Scene.view 0 0 0 st = (r, st') /\
    ((exists e, e ∈ yielded Scene.view st' 0 0 /\ e_p e = 0%nat) <->
     in_viewport Scene.view el 0 0).
Proof.
  destruct (addEntity Scene.view Scene.data 0 1 5 5 0 Scene.buckets0) as [[r0| |] st] eqn:Hadd;
    try (vm_compute in Hadd; discriminate).
  destruct (addEntity_placed Scene.view Scene.data 0 1 5 5 0 Scene.buckets0 r0 st _
              buckets0_fresh eq_refl ltac:(discriminate) Hadd)
    as (el & -> & Hpl & Hel & Hp & _).
  change (nextElement Scene.buckets0) with 0%nat in Hadd, Hpl.
  destruct (forEachElement Scene.view 0 0 0 st) as [r st'] eqn:Hrun.
  exists st, el, r, st'. split; [reflexivity|]. split; [apply Hpl|]. split; [exact Hrun|].
  apply (forEachElement_iff_in_viewport Scene.view 0 0 0 st 0%nat el r st');
    [reflexivity | reflexivity | exact Hpl | | exact Hrun].
  unfold fits. rewrite Hel. simpl. lia.
Defined.

Lemma forEachElement_once_per_bucket_witness :
  exists st el r st',
    addEntity Scene.view Scene.data 0 1 95 5 0 Scene.buckets0 = (Ok (Real 0), st) /\
    heap st !! 0%nat = Some el /\
    forEachElement Scene.view 0 0 0 st = (r, st') /\
    length (filter (fun e => e_p e = 0%nat) (yielded Scene.view st' 0 0)) =
    (if decide (in_viewport Scene.view el 0 0)
     then length (filter (overlaps Scene.view el) (queried Scene.view 0 0)) else 0%nat).
Proof.
  destruct (addEntity Scene.view Scene.data 0 1 95 5 0 Scene.buckets0) as [[r0| |] st] eqn:Hadd;
    try (vm_compute in Hadd; discriminate).
  destruct (addEntity_placed Scene.view Scene.data 0 1 95 5 0 Scene.buckets0 r0 st _
              buckets0_fresh eq_refl ltac:(discriminate) Hadd)
    as (el & -> & Hpl & Hel & Hp & _).
  change (nextElement Scene.buckets0) with 0%nat in Hadd, Hpl.
  destruct (forEachElement Scene.view 0 0 0 st) as [r st'] eqn:Hrun.
  exists st, el, r, st'. split; [reflexivity|]. split; [apply Hpl|]. split; [exact Hrun|].
  apply (forEachElement_once_per_bucket Scene.view 0 0 0 st 0%nat el r st');
    [reflexivity | reflexivity | exact Hpl | | exact Hrun].
  unfold fits. rewrite Hel. simpl. lia.
Defined.

(** The state after [addEntity(id, i, j, 0)] on the empty stage. *)
Definition with_entity (id : Z) (i j : Q) : state :=
  Scene.run (addEntity Scene.view Scene.data 0 id i j 0) Scene.buckets0.

(** C1 as stated fails: the 250-pixel banner placed at (0, 0) reaches
    x = 250, and the viewport [200, 300) x [0, 100) meets it, but the
    banner is registered in the buckets of columns 0 and 1 only and the
    call reads columns 2 and 3: [action] is not called at all. *)
Lemma wide_element_not_enumerated :
  exists el,
    heap (with_entity 2 0 0) !! 0%nat = Some el /\
    el_removed el = false /\
    in_viewport Scene.view el (-200) 0 /\
    forEachElement Scene.view 0 (-200) 0 (with_entity 2 0 0) =
      (Ok [], Scene.run (forEachElement Scene.view 0 (-200) 0) (with_entity 2 0 0)) /\
    yielded Scene.view
      (Scene.run (forEachElement Scene.view 0 (-200) 0) (with_entity 2 0 0)) (-200) 0 = [].
Proof.
  eexists. split; [vm_compute; reflexivity|]. split; [reflexivity|].
  split; [|split; vm_compute; reflexivity].
  unfold in_viewport. simpl. repeat split; vm_compute; congruence.
Qed.

(** C10 as stated fails: the banner placed at (50, 0) covers x from 50
    to 300 and so reaches into two of the buckets read for the viewport
    [100, 200) x [0, 100) (columns 1 and 2 of row 0); it is registered
    in one of them only, and [action] is called for it once. *)
Lemma wide_element_enumerated_once :
  exists el,
    heap (with_entity 2 50 0) !! 0%nat = Some el /\
    in_viewport Scene.view el (-100) 0 /\
    length (filter (overlaps Scene.view el) (queried Scene.view (-100) 0)) = 2%nat /\
    length (filter (fun e => e_p e = 0%nat)
              (yielded Scene.view
                 (Scene.run (forEachElement Scene.view 0 (-100) 0) (with_entity 2 50 0))
                 (-100) 0)) = 1%nat.
Proof.
  eexists. split; [vm_compute; reflexivity|].
  split; [|split; vm_compute; reflexivity].
  unfold in_viewport. simpl. repeat split; vm_compute; congruence.
Qed.

(** C2 fails on the code: [updatePosition] computes [bi1] and [bj1] from
    the old [this.p], not from [p1].  The sprite placed at (0, 0) and
    moved to (150, 0) keeps its single registration in bucket (0, 0),
    while its box now lies in bucket (0, 1) alone; a viewport over
    [100, 200) x [0, 100), which contains the box, does not show it. *)
Theorem updatePosition_stale_bucket :
  let st := Scene.run (updatePosition Scene.view 0 150 0 0) (with_entity 1 0 0) in
  exists el,
    heap st !! 0%nat = Some el /\
    el_removed el = false /\
    el_p el = (150, 0, 0) /\
    filter (overlaps Scene.view el) [(0, 0); (0, 1); (1, 0); (1, 1)] = [(0, 1)] /\
    map e_p (enumerateSection (bucketAt st (0, 0)) 0) = [0%nat] /\
    enumerateSection (bucketAt st (0, 1)) 0 = [] /\
    in_viewport Scene.view el (-100) 0 /\
    fst (forEachElement Scene.view 0 (-100) 0 st) = Ok [].
Proof.
  eexists. split; [vm_compute; reflexivity|].
  repeat split; try (vm_compute; reflexivity); vm_compute; congruence.
Qed.

End BucketsFacts.

(** ** putAt *)

Module PutAtFacts.

Import TileMap.

Section CheckPhase.

Variable view : View.t.
Variable data : stage_data.

(** The first pair of loops of [putAt] writes nothing. *)
Lemma check_all_pure k cells : forall ts r ts',
  check_all data k cells ts = (r, ts') -> ts' = ts.
Proof.
  induction cells as [|c cells IH]; intros ts r ts' Hrun; simpl in Hrun.
  - now injection Hrun as _ <-.
  - unfold bindM, canClear, bindM, gets, lift, ret in Hrun.
    destruct (tileAt data (matrix ts) k (fst c) (snd c)) as [t| |].
    + destruct (tile_mutable t); [now apply IH in Hrun | now injection Hrun as _ <-].
    + now injection Hrun as _ <-.
    + now injection Hrun as _ <-.
Qed.

(** A covered cell holding a tile that is not mutable. *)
Definition blocked (ts : state) (k : Z) (cells : list (Z * Z)) : Prop :=
  exists c t, c ∈ cells /\ tileAt data (matrix ts) k (fst c) (snd c) = Ok t /\
              tile_mutable t = false.

Lemma check_all_blocked k cells ts :
  blocked ts k cells -> fst (check_all data k cells ts) <> Ok true.
Proof.
  intros (c & t & Hin & Ht & Hm). induction cells as [|c' cells IH]; simpl.
  - now apply elem_of_nil in Hin.
  - unfold bindM, canClear, bindM, gets, lift, ret.
    apply elem_of_cons in Hin as [<-|Hin].
    + rewrite Ht, Hm. discriminate.
    + destruct (tileAt data (matrix ts) k (fst c') (snd c')) as [t'| |]; try discriminate.
      destruct (tile_mutable t'); [now apply IH | discriminate].
Qed.

(** What does hold of C4: when a covered cell holds a tile that is not
    mutable, [putAt] never returns [true] and leaves the tile map and
    the buckets as they were; it returns [false] or it throws. *)
Lemma putAt_blocked now i j k id t ts :
  tiles data !! id = Some t ->
  blocked ts k (covered (tile_layout t) i j) ->
  putAt view data now i j k id ts = (Ok false, ts) \/
  exists e, putAt view data now i j k id ts = (Throw e, ts).
Proof.
  intros Hid Hblocked. unfold putAt. rewrite Hid. unfold bindM.
  pose proof (check_all_blocked k _ ts Hblocked) as Hno.
  destruct (check_all data k (covered (tile_layout t) i j) ts) as [r ts'] eqn:Hcheck.
  pose proof (check_all_pure k _ ts r ts' Hcheck) as ->. simpl in Hno.
  destruct r as [[|]|e|].
  - congruence.
  - now left.
  - right. eauto.
  - exfalso. clear Hno. revert Hcheck. generalize (covered (tile_layout t) i j).
    intros cells. induction cells as [|c cells IH]; simpl; [discriminate|].
    unfold bindM, canClear, bindM, gets, lift, ret.
    destruct (tileAt data (matrix ts) k (fst c) (snd c)) as [t'| |] eqn:Ht; try discriminate.
    + destruct (tile_mutable t'); [exact IH | discriminate].
    + unfold tileAt, bind in Ht.
      destruct (Matrix.get (matrix ts) (fst c) (snd c) k) as [[n|i0 j0]|]; try discriminate.
      * destruct (tiles data !! n); discriminate.
      * destruct (Matrix.get (matrix ts) i0 j0 k) as [[n|? ?]|]; try discriminate.
        destruct (tiles data !! n); discriminate.
Qed.

End CheckPhase.

(** The stage with the fixed block (tile 1) at cell (0, 1) of layer 0. *)
Definition one_block : state :=
  Scene.run (load Scene.view Scene.data 0 [(0, 0, 1, 1)])
    (State Matrix.empty Scene.buckets0).

(** Tile 4 placed on the fixed block at (0, 1): nothing is written. *)
Lemma putAt_blocked_witness :
  putAt Scene.view Scene.data 0 0 1 0 4 one_block = (Ok false, one_block) \/
  exists e, putAt Scene.view Scene.data 0 0 1 0 4 one_block = (Throw e, one_block).
Proof.
  apply (putAt_blocked Scene.view Scene.data 0 0 1 0 4
           (Tile [Frame 3 None] 64 32 (0, 0) (Layout 1 2 0 0) true true [])).
  - vm_compute. reflexivity.
  - exists (0, 1), (Tile [Frame 0 None] 32 32 (0, 0) (Layout 1 1 0 0) true false []).
    split; [|split; vm_compute; reflexivity].
    vm_compute. repeat constructor.
Defined.

(** C4 fails on the code: [canClear] calls [split] on the value of the
    cell without asking [matrix.has] first (as [walkable] and
    [solidTileAt] do), so an empty covered cell raises [TypeError].
    Placing the two-cell tile 4 at (0, 0) covers the empty cell (0, 0)
    and then the fixed block at (0, 1): [putAt] throws instead of
    returning [false] (the map is left as it was).  Placed at (0, 1),
    where the fixed block comes first, it returns [false]. *)
Theorem putAt_empty_cell_throws :
  blocked Scene.data one_block 0 (covered (Layout 1 2 0 0) 0 0) /\
  putAt Scene.view Scene.data 0 0 0 0 4 one_block = (Throw TypeError, one_block) /\
  putAt Scene.view Scene.data 0 0 1 0 4 one_block = (Ok false, one_block).
Proof.
  split; [|split; vm_compute; reflexivity].
  exists (0, 1), (Tile [Frame 0 None] 32 32 (0, 0) (Layout 1 1 0 0) true false []).
  split; [|split; vm_compute; reflexivity].
  vm_compute. repeat constructor.
Qed.

End PutAtFacts.

(** ** The binary heap *)

Module HeapFacts.

Import Heap.

Lemma parent_cases (j i : nat) :
  (0 < j)%nat -> parent j = i <-> (j = left i \/ j = right i).
Proof.
  unfold parent, left, right. intros Hj. split.
  - intros <-. pose proof (Nat.div_mod_eq (j - 1) 2) as Hd.
    pose proof (Nat.mod_upper_bound (j - 1) 2 ltac:(lia)). lia.
  - intros [-> | ->].
    + replace (i * 2 + 1 - 1)%nat with (i * 2)%nat by lia. apply Nat.div_mul. lia.
    + replace (i * 2 + 2 - 1)%nat with (1 + i * 2)%nat by lia.
      rewrite Nat.div_add by lia. reflexivity.
Qed.

Lemma parent_lt (j : nat) : (0 < j)%nat -> (parent j < j)%nat.
Proof.
  intros Hj. destruct (proj1 (parent_cases j (parent j) Hj) eq_refl) as [Hc|Hc];
    unfold left, right in Hc; lia.
Qed.

Section Order.

Context {A : Type}.
Variable compare : A -> A -> Z.
Variable same : A -> A -> bool.

(** The order [compare] decides, on the elements it is used on. *)
Variable key : A -> Q.
Variable valid : A -> Prop.
Hypothesis compare_lt : forall x y,
  valid x -> valid y -> ((compare x y <? 0) = true <-> (key x < key y)%Q).

(** Every element is at least its parent. *)
Definition is_heap (h : list A) : Prop :=
  forall j x y, (0 < j)%nat ->
    h !! parent j = Some x -> h !! j = Some y -> (key x <= key y)%Q.

Lemma swap_lookup (h : list A) (i j k : nat) (x y : A) :
  h !! i = Some x -> h !! j = Some y ->
  swap h i j !! k =
  if decide (k = j) then Some x else if decide (k = i) then Some y else h !! k.
Proof.
  intros Hi Hj. unfold swap. rewrite Hi, Hj.
  pose proof (lookup_lt_Some _ _ _ Hi). pose proof (lookup_lt_Some _ _ _ Hj).
  destruct (decide (k = j)) as [->|Hkj].
  - apply list_lookup_insert_eq. now rewrite length_insert.
  - rewrite list_lookup_insert_ne by congruence.
    destruct (decide (k = i)) as [->|Hki].
    + now apply list_lookup_insert_eq.
    + now rewrite list_lookup_insert_ne by congruence.
Qed.

Lemma swap_perm (h : list A) (i j : nat) : swap h i j ≡ₚ h.
Proof.
  unfold swap. destruct (h !! i) as [x|] eqn:Hi; [|reflexivity].
  destruct (h !! j) as [y|] eqn:Hj; [|reflexivity].
  now apply Permutation_insert_swap.
Qed.

Lemma swap_length (h : list A) (i j : nat) : length (swap h i j) = length h.
Proof. apply Permutation_length, swap_perm. Qed.

Lemma smaller_spec (h : list A) (i j : nat) :
  Forall valid h ->
  smaller compare h i j = true <->
  exists x y, h !! i = Some x /\ h !! j = Some y /\ (key x < key y)%Q.
Proof.
  intros Hv. unfold smaller.
  destruct (h !! i) as [x|] eqn:Hi; [|split; [discriminate | intros (? & ? & [=] & _)]].
  destruct (h !! j) as [y|] eqn:Hj; [|split; [discriminate | intros (? & ? & _ & [=] & _)]].
  assert (Hx : valid x) by (eapply Forall_lookup_1; eauto).
  assert (Hy : valid y) by (eapply Forall_lookup_1; eauto).
  rewrite (compare_lt x y Hx Hy). split; [eauto|].
  now intros (? & ? & [= <-] & [= <-] & Hlt).
Qed.

(** *** Sifting up *)

(** [h] is a heap except perhaps between [i] and its parent, and the
    children of [i] are at least the parent of [i]. *)
Definition up_ok (h : list A) (i : nat) : Prop :=
  (forall j x y, (0 < j)%nat -> j <> i ->
     h !! parent j = Some x -> h !! j = Some y -> (key x <= key y)%Q) /\
  (forall c x y, (0 < i)%nat -> (0 < c)%nat -> parent c = i ->
     h !! parent i = Some x -> h !! c = Some y -> (key x <= key y)%Q).

Lemma siftUp_is_heap (fuel : nat) : forall (h : list A) (i : nat),
  Forall valid h -> up_ok h i -> (i <= fuel)%nat ->
  is_heap (siftUp compare fuel h i).
Proof.
  induction fuel as [|fuel IH]; intros h i Hv [Hpairs Hgrand] Hfuel.
  - simpl. intros j x y Hj. apply Hpairs; [exact Hj | lia].
  - simpl. destruct (Nat.eqb_spec i 0) as [->|Hi0]; simpl.
    { intros j x y Hj. apply Hpairs; [exact Hj | lia]. }
    destruct (smaller compare h i (parent i)) eqn:Hsm.
    + apply (smaller_spec h i (parent i) Hv) in Hsm as (x & y & Hx & Hy & Hlt).
      pose proof (parent_lt i ltac:(lia)) as Hpi.
      apply IH; [now rewrite swap_perm | | lia].
      split.
      * intros j a b Hj Hne.
        rewrite !(swap_lookup h i (parent i) _ x y Hx Hy).
        pose proof (parent_lt j Hj) as Hpj.
        destruct (decide (parent j = parent i)) as [Hpp|Hpp];
          destruct (decide (j = parent i)) as [?|_]; try contradiction.
        -- destruct (decide (j = i)) as [->|Hji].
           ++ intros [= <-] [= <-]. lra.
           ++ intros [= <-] Hb. rewrite <- Hpp in Hy.
              pose proof (Hpairs j y b Hj Hji Hy Hb). lra.
        -- destruct (decide (parent j = i)) as [Hpji|Hpji].
           ++ destruct (decide (j = i)) as [->|Hji]; [lia|].
              intros [= <-] Hb. apply (Hgrand j y b); auto; lia.
           ++ destruct (decide (j = i)) as [->|Hji]; [contradiction|].
              intros Ha Hb. apply (Hpairs j a b); auto.
      * intros c a b Hp0 Hc Hpc.
        rewrite !(swap_lookup h i (parent i) _ x y Hx Hy).
        pose proof (parent_lt (parent i) Hp0) as Hppi.
        destruct (decide (parent (parent i) = parent i)) as [?|_]; [lia|].
        destruct (decide (parent (parent i) = i)) as [?|_]; [lia|].
        destruct (decide (c = parent i)) as [?|_]; [pose proof (parent_lt c Hc); lia|].
        intros Ha. pose proof (Hpairs (parent i) a y Hp0 ltac:(lia) Ha Hy) as Hay.
        destruct (decide (c = i)) as [->|Hci].
        -- intros [= <-]. exact Hay.
        -- intros Hb. rewrite <- Hpc in Hy.
           pose proof (Hpairs c y b Hc Hci Hy Hb). lra.
    + intros j a b Hj Ha Hb.
      destruct (decide (j = i)) as [->|Hji]; [|now apply (Hpairs j a b)].
      destruct (Qlt_le_dec (key b) (key a)) as [Hlt|Hle]; [|exact Hle].
      assert (Htrue : smaller compare h i (parent i) = true)
        by (apply (smaller_spec h i (parent i) Hv); eauto).
      congruence.
Qed.

Lemma siftUp_perm (fuel : nat) : forall (h : list A) (i : nat),
  siftUp compare fuel h i ≡ₚ h.
Proof.
  induction fuel as [|fuel IH]; intros h i; simpl; [reflexivity|].
  destruct (negb (i =? 0)%nat && smaller compare h i (parent i)); [|reflexivity].
  now rewrite IH, swap_perm.
Qed.

Lemma is_heap_up_ok_last (h : list A) (x : A) :
  is_heap h -> up_ok (h ++ [x]) (length h).
Proof.
  intros Hh. split.
  - intros j a b Hj Hne Ha Hb.
    assert (Hlt : (j < length h)%nat).
    { apply lookup_lt_Some in Hb. rewrite length_app in Hb. simpl in Hb. lia. }
    pose proof (parent_lt j Hj).
    rewrite lookup_app_l in Ha, Hb by lia. now apply (Hh j).
  - intros c a b Hi Hc Hpc _ Hb.
    apply lookup_lt_Some in Hb. rewrite length_app in Hb. simpl in Hb.
    pose proof (parent_lt c Hc). lia.
Qed.

Lemma push_is_heap (h : list A) (x : A) :
  Forall valid h -> valid x -> is_heap h -> is_heap (push compare h x).
Proof.
  intros Hv Hx Hh. unfold push. apply siftUp_is_heap.
  - apply Forall_app. split; [exact Hv | now constructor].
  - now apply is_heap_up_ok_last.
  - lia.
Qed.

Lemma push_perm (h : list A) (x : A) : push compare h x ≡ₚ x :: h.
Proof.
  unfold push. rewrite siftUp_perm. symmetry. apply Permutation_cons_append.
Qed.

(** *** Sifting down *)

(** [h] is a heap except perhaps between [i] and its children, and the
    children of [i] are at least the parent of [i]. *)
Definition down_ok (h : list A) (i : nat) : Prop :=
  (forall j x y, (0 < j)%nat -> parent j <> i ->
     h !! parent j = Some x -> h !! j = Some y -> (key x <= key y)%Q) /\
  (forall c x y, (0 < i)%nat -> (0 < c)%nat -> parent c = i ->
     h !! parent i = Some x -> h !! c = Some y -> (key x <= key y)%Q).

Lemma heapify_is_heap (fuel : nat) : forall (h : list A) (i : nat),
  Forall valid h -> down_ok h i -> (length h <= fuel + i)%nat ->
  is_heap (heapify compare fuel h i).
Proof.
  induction fuel as [|fuel IH]; intros h i Hv [Hpairs Hgrand] Hfuel.
  - simpl. intros j x y Hj Hx Hy.
    apply (Hpairs j x y); auto.
    apply lookup_lt_Some in Hx. lia.
  - simpl.
    set (l := left i). set (r := right i).
    set (c1 := (l <? length h)%nat && smaller compare h l i).
    set (min1 := if c1 then l else i).
    set (c2 := (r <? length h)%nat && smaller compare h r min1).
    set (min := if c2 then r else min1).
    assert (Hl : l = (i * 2 + 1)%nat) by reflexivity.
    assert (Hr : r = (i * 2 + 2)%nat) by reflexivity.
    (* what the two tests establish *)
    assert (Hmin1 : forall a b, h !! min1 = Some a -> h !! l = Some b -> (key a <= key b)%Q).
    { intros a b Ha Hb. subst min1. destruct c1 eqn:Hc1.
      - rewrite Ha in Hb. injection Hb as <-. lra.
      - destruct (Qlt_le_dec (key b) (key a)) as [Hlt|Hle]; [|exact Hle].
        subst c1. apply andb_false_iff in Hc1 as [Hc1|Hc1].
        + apply Nat.ltb_ge in Hc1. apply lookup_lt_Some in Hb. lia.
        + assert (smaller compare h l i = true)
            by (apply (smaller_spec h l i Hv); eauto).
          congruence. }
    assert (Hmin1i : forall a b, h !! min1 = Some a -> h !! i = Some b -> (key a <= key b)%Q).
    { intros a b Ha Hb. subst min1. destruct c1 eqn:Hc1.
      - subst c1. apply andb_true_iff in Hc1 as [_ Hc1].
        apply (smaller_spec h l i Hv) in Hc1 as (a' & b' & Ha' & Hb' & Hlt).
        rewrite Ha in Ha'. rewrite Hb in Hb'. injection Ha' as <-. injection Hb' as <-. lra.
      - rewrite Ha in Hb. injection Hb as <-. lra. }
    assert (Hmin_l : forall a b, h !! min = Some a -> h !! l = Some b -> (key a <= key b)%Q).
    { intros a b Ha Hb. subst min. destruct c2 eqn:Hc2.
      - subst c2. apply andb_true_iff in Hc2 as [_ Hc2].
        apply (smaller_spec h r min1 Hv) in Hc2 as (a' & m & Ha' & Hm & Hlt).
        rewrite Ha in Ha'. injection Ha' as <-.
        pose proof (Hmin1 m b Hm Hb). lra.
      - now apply Hmin1. }
    assert (Hmin_r : forall a b, h !! min = Some a -> h !! r = Some b -> (key a <= key b)%Q).
    { intros a b Ha Hb. subst min. destruct c2 eqn:Hc2.
      - rewrite Ha in Hb. injection Hb as <-. lra.
      - destruct (Qlt_le_dec (key b) (key a)) as [Hlt|Hle]; [|exact Hle].
        subst c2. apply andb_false_iff in Hc2 as [Hc2|Hc2].
        + apply Nat.ltb_ge in Hc2. apply lookup_lt_Some in Hb. lia.
        + assert (smaller compare h r min1 = true)
            by (apply (smaller_spec h r min1 Hv); eauto).
          congruence. }
    assert (Hmin_i : forall a b, h !! min = Some a -> h !! i = Some b -> (key a <= key b)%Q).
    { intros a b Ha Hb. subst min. destruct c2 eqn:Hc2.
      - subst c2. apply andb_true_iff in Hc2 as [_ Hc2].
        apply (smaller_spec h r min1 Hv) in Hc2 as (a' & m & Ha' & Hm & Hlt).
        rewrite Ha in Ha'. injection Ha' as <-.
        pose proof (Hmin1i m b Hm Hb). lra.
      - now apply Hmin1i. }
    assert (Hmin_cases : min = i \/ (min = l /\ (l < length h)%nat) \/ (min = r /\ (r < length h)%nat)).
    { subst min min1. destruct c2 eqn:Hc2.
      - subst c2. apply andb_true_iff in Hc2 as [Hc2 _]. apply Nat.ltb_lt in Hc2. auto.
      - destruct c1 eqn:Hc1; [|auto].
        subst c1. apply andb_true_iff in Hc1 as [Hc1 _]. apply Nat.ltb_lt in Hc1. auto. }
    destruct (Nat.ltb_spec i min) as [Hlt|Hge].
    + (* swap and go down *)
      assert (Hmin_child : parent min = i /\ (min < length h)%nat /\ (0 < min)%nat).
      { destruct Hmin_cases as [?|[[-> ?]|[-> ?]]]; [lia| |];
          (split; [apply parent_cases; [lia|]; auto | lia]). }
      destruct Hmin_child as (Hpm & Hml & Hm0).
      destruct (lookup_lt_is_Some_2 h min Hml) as [xm Hxm].
      destruct (lookup_lt_is_Some_2 h i ltac:(lia)) as [xi Hxi].
      apply IH; [now rewrite swap_perm | | rewrite swap_length; lia].
      split.
      * intros j a b Hj Hne.
        rewrite !(swap_lookup h i min _ xi xm Hxi Hxm).
        pose proof (parent_lt j Hj) as Hpj.
        destruct (decide (parent j = min)) as [?|_]; [contradiction|].
        destruct (decide (j = min)) as [->|Hjm].
        -- rewrite Hpm. rewrite decide_True by reflexivity.
           intros [= <-] [= <-]. now apply Hmin_i.
        -- destruct (decide (parent j = i)) as [Hpji|Hpji].
           ++ destruct (decide (j = i)) as [->|Hji]; [lia|].
              intros [= <-] Hb.
              apply (parent_cases j i Hj) in Hpji as [Hjl|Hjr].
              ** apply Hmin_l; [exact Hxm | unfold l; now rewrite <- Hjl].
              ** apply Hmin_r; [exact Hxm | unfold r; now rewrite <- Hjr].
           ++ destruct (decide (j = i)) as [->|Hji].
              ** intros Ha [= <-]. apply (Hgrand min a xm); auto; lia.
              ** intros Ha Hb. apply (Hpairs j a b); auto.
      * intros c a b _ Hc Hpc.
        rewrite !(swap_lookup h i min _ xi xm Hxi Hxm).
        pose proof (parent_lt c Hc) as Hpcl.
        rewrite Hpm. rewrite (decide_False (P := i = min)) by lia.
        rewrite decide_True by reflexivity.
        destruct (decide (c = min)) as [?|_]; [lia|].
        destruct (decide (c = i)) as [?|_]; [lia|].
        intros [= <-] Hb. apply (Hpairs c xm b); auto; [lia | now rewrite Hpc].
    + (* [i] is the least of the three *)
      assert (Hmi : min = i).
      { destruct Hmin_cases as [?|[[-> ?]|[-> ?]]]; [assumption | lia | lia]. }
      intros j a b Hj Ha Hb.
      destruct (decide (parent j = i)) as [Hpji|Hpji]; [|now apply (Hpairs j a b)].
      rewrite Hpji in Ha. rewrite <- Hmi in Ha.
      apply (parent_cases j i Hj) in Hpji as [Hjl|Hjr].
      * apply Hmin_l; [exact Ha | unfold l; now rewrite <- Hjl].
      * apply Hmin_r; [exact Ha | unfold r; now rewrite <- Hjr].
Qed.

Lemma heapify_perm (fuel : nat) : forall (h : list A) (i : nat),
  heapify compare fuel h i ≡ₚ h.
Proof.
  induction fuel as [|fuel IH]; intros h i; simpl; [reflexivity|].
  match goal with |- context [if ?c then _ else h] => destruct c end; [|reflexivity].
  now rewrite IH, swap_perm.
Qed.

(** *** The root is the least element *)

Lemma heap_root_min (h : list A) (x : A) :
  is_heap h -> h !! 0%nat = Some x ->
  forall i y, h !! i = Some y -> (key x <= key y)%Q.
Proof.
  intros Hh Hx i. induction i as [i IH] using lt_wf_ind. intros y Hy.
  destruct (Nat.eq_dec i 0%nat) as [->|Hi].
  - rewrite Hx in Hy. injection Hy as <-. lra.
  - pose proof (parent_lt i ltac:(lia)) as Hp.
    destruct (lookup_lt_is_Some_2 h (parent i)) as [z Hz].
    { apply lookup_lt_Some in Hy. lia. }
    pose proof (IH (parent i) Hp z Hz).
    pose proof (Hh i z y ltac:(lia) Hz Hy). lra.
Qed.

Lemma pop_spec (h : list A) :
  Forall valid h -> is_heap h -> h <> [] ->
  exists x h',
    pop compare h = (Some x, h') /\ x :: h' ≡ₚ h /\ is_heap h' /\
    (forall y, y ∈ h -> (key x <= key y)%Q).
Proof.
  intros Hv Hh Hne. destruct h as [|x t]; [contradiction|].
  assert (Hmin : forall y, y ∈ x :: t -> (key x <= key y)%Q).
  { intros y Hy. apply list_elem_of_lookup in Hy as [i Hi].
    now apply (heap_root_min (x :: t) x Hh eq_refl i y). }
  unfold pop.
  destruct (removelast (x :: t)) as [|x' t'] eqn:Hrl.
  - exists x, []. assert (t = []) as ->.
    { destruct t; [reflexivity|]. simpl in Hrl. discriminate. }
    repeat split; auto. intros j a b _ Ha. now rewrite lookup_nil in Ha.
  - assert (Hx' : x' = x).
    { destruct t; simpl in Hrl; [discriminate|]. now injection Hrl as <- _. }
    subst x'.
    assert (Hsplit : x :: t = (x :: t') ++ [List.last (x :: t) x]).
    { rewrite <- Hrl. apply app_removelast_last. discriminate. }
    set (lst := List.last (x :: t) x) in *.
    exists x, (heapify compare (length (x :: t')) (<[0%nat := lst]> (x :: t')) 0).
    split; [reflexivity|]. split; [|split; [|exact Hmin]].
    + rewrite heapify_perm. simpl. rewrite Hsplit. simpl.
      apply Permutation_skip. apply Permutation_cons_append.
    + apply heapify_is_heap.
      * simpl. rewrite Hsplit in Hv. apply Forall_app in Hv as [Hv1 Hv2].
        inversion Hv1; inversion Hv2; subst. now constructor.
      * split; [|intros; lia].
        intros j a b Hj Hpj Ha Hb.
        pose proof (parent_lt j Hj).
        assert (Hjl : (j < length (x :: t'))%nat).
        { apply lookup_lt_Some in Hb. now rewrite length_insert in Hb. }
        rewrite list_lookup_insert_ne in Ha, Hb by lia.
        apply (Hh j a b Hj); rewrite Hsplit, lookup_app_l; auto; lia.
      * rewrite length_insert. lia.
Qed.

(** *** Searching *)

(** [t] lies [n] levels below [i]. *)
Inductive below : nat -> nat -> nat -> Prop :=
| below_here i : below 0 i i
| below_left n i t : below n (left i) t -> below (S n) i t
| below_right n i t : below n (right i) t -> below (S n) i t.

Lemma below_snoc n i t :
  below n i t -> below (S n) i (left t) /\ below (S n) i (right t).
Proof.
  induction 1 as [i|n i t _ [IH1 IH2]|n i t _ [IH1 IH2]].
  - split; [apply below_left | apply below_right]; constructor.
  - split; now apply below_left.
  - split; now apply below_right.
Qed.

Lemma below_root (t : nat) : exists n, (n <= t)%nat /\ below n 0 t.
Proof.
  induction t as [t IH] using lt_wf_ind.
  destruct (Nat.eq_dec t 0%nat) as [->|Ht].
  - exists 0%nat. split; [lia | constructor].
  - pose proof (parent_lt t ltac:(lia)) as Hp.
    destruct (IH (parent t) Hp) as (n & Hn & Hb).
    exists (S n). split; [lia|].
    destruct (proj1 (parent_cases t (parent t) ltac:(lia)) eq_refl) as [-> | ->];
      now apply below_snoc.
Qed.

Lemma below_le (h : list A) n i t x y :
  is_heap h -> below n i t -> h !! i = Some x -> h !! t = Some y -> (key x <= key y)%Q.
Proof.
  intros Hh Hb. revert x. induction Hb as [i|n i t Hb IH|n i t Hb IH]; intros x Hx Hy.
  - rewrite Hx in Hy. injection Hy as <-. lra.
  - assert (Hlt : (left i <= t)%nat).
    { clear -Hb. induction Hb; unfold left, right in *; lia. }
    destruct (lookup_lt_is_Some_2 h (left i)) as [z Hz].
    { apply lookup_lt_Some in Hy. lia. }
    pose proof (IH z Hz Hy).
    assert (Hp : parent (left i) = i) by (apply parent_cases; [unfold left; lia | auto]).
    pose proof (Hh (left i) x z ltac:(unfold left; lia)) as Hxz.
    rewrite Hp in Hxz. specialize (Hxz Hx Hz). lra.
  - assert (Hlt : (right i <= t)%nat).
    { clear -Hb. induction Hb; unfold left, right in *; lia. }
    destruct (lookup_lt_is_Some_2 h (right i)) as [z Hz].
    { apply lookup_lt_Some in Hy. lia. }
    pose proof (IH z Hz Hy).
    assert (Hp : parent (right i) = i) by (apply parent_cases; [unfold right; lia | auto]).
    pose proof (Hh (right i) x z ltac:(unfold right; lia)) as Hxz.
    rewrite Hp in Hxz. specialize (Hxz Hx Hz). lra.
Qed.

Lemma find_sound (fuel : nat) : forall (h : list A) (el : A) (i t : nat),
  find compare same fuel h el i = Some t ->
  exists y, h !! t = Some y /\ same el y = true.
Proof.
  induction fuel as [|fuel IH]; intros h el i t; simpl; [discriminate|].
  destruct (h !! i) as [x|] eqn:Hx; [|discriminate].
  destruct (same el x) eqn:Hs; [intros [= <-]; eauto|].
  destruct (compare el x <? 0); [discriminate|].
  destruct (find compare same fuel h el (left i)) as [t'|] eqn:Hl.
  - intros [= <-]. eapply IH; eauto.
  - apply IH.
Qed.

Lemma find_below (fuel : nat) : forall (h : list A) (el : A) (n i t : nat) (y : A),
  Forall valid h -> valid el -> is_heap h ->
  below n i t -> (n < fuel)%nat ->
  h !! t = Some y -> same el y = true -> (key y <= key el)%Q ->
  (forall j z, h !! j = Some z -> same el z = true -> j = t) ->
  find compare same fuel h el i = Some t.
Proof.
  induction fuel as [|fuel IH]; intros h el n i t y Hv Hel Hh Hb Hn Hy Hs Hle Huniq; [lia|].
  simpl.
  assert (Hit : (i <= t)%nat) by (clear -Hb; induction Hb; unfold left, right in *; lia).
  destruct (lookup_lt_is_Some_2 h i) as [x Hx].
  { apply lookup_lt_Some in Hy. lia. }
  rewrite Hx. destruct (same el x) eqn:Hsx.
  { f_equal. now apply (Huniq i x). }
  assert (Hxy : (key x <= key y)%Q) by (eapply below_le; eauto).
  assert (Hcmp : (compare el x <? 0) = false).
  { destruct (compare el x <? 0) eqn:Hc; [|reflexivity].
    apply (compare_lt el x Hel) in Hc; [lra|]. eapply Forall_lookup_1; eauto. }
  rewrite Hcmp.
  inversion Hb as [i'|n' i' t' Hb'|n' i' t' Hb']; subst.
  - rewrite Hx in Hy. injection Hy as <-. congruence.
  - now rewrite (IH h el n' (left i) t y Hv Hel Hh Hb' ltac:(lia) Hy Hs Hle Huniq).
  - destruct (find compare same fuel h el (left i)) as [t'|] eqn:Hl.
    + apply find_sound in Hl as (z & Hz & Hsz). f_equal. now apply (Huniq t' z).
    + now apply (IH h el n' (right i) t y Hv Hel Hh Hb' ltac:(lia) Hy Hs Hle Huniq).
Qed.

(** [find] from the root reaches the one element that is [same]. *)
Lemma find_complete (h : list A) (el : A) (t : nat) (y : A) :
  Forall valid h -> valid el -> is_heap h ->
  h !! t = Some y -> same el y = true -> (key y <= key el)%Q ->
  (forall j z, h !! j = Some z -> same el z = true -> j = t) ->
  find compare same (length h) h el 0 = Some t.
Proof.
  intros Hv Hel Hh Hy Hs Hle Huniq.
  destruct (below_root t) as (n & Hn & Hb).
  apply (find_below (length h) h el n 0 t y); auto.
  apply lookup_lt_Some in Hy. lia.
Qed.

(** *** A heap filled by [push] *)

Lemma push_all_spec (l : list A) : forall h,
  Forall valid h -> Forall valid l -> is_heap h ->
  Forall valid (fold_left (push compare) l h) /\
  is_heap (fold_left (push compare) l h) /\
  fold_left (push compare) l h ≡ₚ l ++ h.
Proof.
  induction l as [|x l IH]; intros h Hh Hl Hheap; simpl.
  - repeat split; auto.
  - apply Forall_cons in Hl as [Hx Hl].
    destruct (IH (push compare h x)) as (Hv & Hheap' & Hperm).
    + rewrite push_perm. now constructor.
    + exact Hl.
    + now apply push_is_heap.
    + repeat split; auto. rewrite Hperm, push_perm. symmetry. apply Permutation_middle.
Qed.

(** After any sequence of [push] on a new heap, [pop] returns a least
    element of those pushed and leaves the others in the heap. *)
Theorem pop_after_push_minimum (l : list A) :
  Forall valid l -> l <> [] ->
  exists x h',
    pop compare (fold_left (push compare) l []) = (Some x, h') /\
    x :: h' ≡ₚ l /\ is_heap h' /\
    (forall y, y ∈ l -> (key x <= key y)%Q).
Proof.
  intros Hl Hne.
  destruct (push_all_spec l [] (Forall_nil_2 _) Hl) as (Hv & Hheap & Hperm).
  { intros j x y _ Hx. now rewrite lookup_nil in Hx. }
  rewrite app_nil_r in Hperm.
  destruct (pop_spec (fold_left (push compare) l []) Hv Hheap) as (x & h' & Hpop & Hp & Hh' & Hmin).
  { intros Heq. rewrite Heq in Hperm. apply Permutation_nil_l in Hperm. now apply Hne. }
  exists x, h'. split; [exact Hpop|]. split; [now rewrite Hp|]. split; [exact Hh'|].
  intros y Hy. apply Hmin. now rewrite Hperm.
Qed.

End Order.

(** The numbers 5, 3, 8, 1 pushed in this order: [pop] returns 1. *)
Lemma pop_after_push_minimum_witness :
  exists x h',
    pop (fun x y => x - y) (fold_left (push (fun x y => x - y)) [5; 3; 8; 1] [])
      = (Some x, h') /\
    x :: h' ≡ₚ [5; 3; 8; 1] /\ is_heap inject_Z h' /\
    (forall y, y ∈ [5; 3; 8; 1] -> (inject_Z x <= inject_Z y)%Q).
Proof.
  apply (pop_after_push_minimum (fun x y => x - y) inject_Z (fun _ => True)).
  - intros x y _ _. rewrite Z.ltb_lt, <- Zlt_Qlt. lia.
  - repeat constructor.
  - discriminate.
Defined.

End HeapFacts.

(** ** A*: the cost of the path found *)

Module AstarFacts.

Import Astar.

Section Optimality.

Context {ID : Type} `{Countable ID}.
Context {E : Type}.
Variable N : Type.
Variable id : N -> ID.
Variable heuristic : N -> Q.
Variable neighbors : N -> list (E * N).
Variable distance : N -> E -> Q.
Variable epsilon : Q.

(** The weight [1 + epsilon] of the heuristic. *)
Definition weight : Q := (1 + epsilon)%Q.

(** A path: the labels of its edges, its cost, and the node it ends at. *)
Inductive path : N -> list E -> Q -> N -> Prop :=
| path_nil u : path u [] 0 u
| path_cons u e v p c t :
    (e, v) ∈ neighbors u -> path v p c t ->
    path u (e :: p) (distance u e + c) t.

(** The assumptions on the graph: different nodes have different ids,
    no edge has a negative weight, and the heuristic is consistent
    (it drops by at most the weight of the edge along every edge). *)
Hypothesis id_inj : forall u v, id u = id v -> u = v.
Hypothesis epsilon_nonneg : (0 <= epsilon)%Q.
Hypothesis distance_nonneg : forall u e v, (e, v) ∈ neighbors u -> (0 <= distance u e)%Q.
Hypothesis consistent : forall u e v,
  (e, v) ∈ neighbors u -> (heuristic u <= distance u e + heuristic v)%Q.

Lemma path_snoc u p c t e v :
  path u p c t -> (e, v) ∈ neighbors t ->
  exists c', path u (p ++ [e]) c' v /\ (c' == c + distance t e)%Q.
Proof.
  induction 1 as [u|u e0 v0 p c t He0 Hp IH]; intros He.
  - exists (distance u e + 0)%Q. split; [|lra].
    simpl. apply path_cons with (v := v); [exact He | constructor].
  - destruct (IH He) as (c' & Hp' & Hc').
    exists (distance u e0 + c')%Q. split; [|lra].
    simpl. now apply path_cons with (v := v0).
Qed.

Lemma path_cost_nonneg u p c t : path u p c t -> (0 <= c)%Q.
Proof.
  induction 1 as [u|u e v p c t He Hp IH]; [lra|].
  pose proof (distance_nonneg u e v He). lra.
Qed.

Lemma path_consistent u p c t : path u p c t -> (heuristic u <= c + heuristic t)%Q.
Proof.
  induction 1 as [u|u e v p c t He Hp IH]; [lra|].
  pose proof (consistent u e v He). lra.
Qed.

(** The priority of a node in the heap. *)
Definition fval (os : gmap ID Q) (u : N) : Q :=
  (default 0%Q (os !! id u) + heuristic u * weight)%Q.

Definition scored (os : gmap ID Q) (u : N) : Prop := is_Some (os !! id u).

Lemma ltQ_iff (x y : Q) : Buckets.ltQ x y = true <-> (x < y)%Q.
Proof.
  unfold Buckets.ltQ. rewrite negb_true_iff. split.
  - intros Hb. destruct (Qlt_le_dec x y) as [?|Hle]; [assumption|].
    apply Qle_bool_iff in Hle. congruence.
  - intros Hlt. destruct (Qle_bool y x) eqn:Hb; [|reflexivity].
    apply Qle_bool_iff in Hb. lra.
Qed.

Lemma compare_fval (os : gmap ID Q) (u v : N) :
  scored os u -> scored os v ->
  ((compare N id heuristic epsilon os u v <? 0) = true <-> (fval os u < fval os v)%Q).
Proof.
  intros [gu Hu] [gv Hv]. unfold compare, fval, weight. rewrite Hu, Hv. simpl.
  destruct (Buckets.ltQ (gu + heuristic u * (1 + epsilon)) (gv + heuristic v * (1 + epsilon)))
    eqn:Hlt.
  - apply ltQ_iff in Hlt. split; [intros _; exact Hlt | reflexivity].
  - split; [|intros Hc; apply ltQ_iff in Hc; congruence].
    intros Hc. destruct (Buckets.ltQ _ _) in Hc; discriminate Hc.
Qed.

Lemma is_heap_ext (k1 k2 : N -> Q) (h : list N) :
  (forall x, x ∈ h -> k1 x = k2 x) ->
  HeapFacts.is_heap k1 h -> HeapFacts.is_heap k2 h.
Proof.
  intros Hk Hh j x y Hj Hx Hy.
  rewrite <- (Hk x), <- (Hk y); [now apply (Hh j) | |];
    apply list_elem_of_lookup; eauto.
Qed.

(** *** Back links *)

(** The chain of back links from a node to the start node [s], through
    closed nodes, with the labels in path order and the cost. *)
Inductive chain (cs : gset ID) (bl : gmap ID (N * E)) (s : N) : N -> list E -> Q -> Prop :=
| chain_start : chain cs bl s s [] 0
| chain_step v u e p c :
    bl !! id v = Some (u, e) -> id u ∈ cs -> (e, v) ∈ neighbors u ->
    chain cs bl s u p c ->
    chain cs bl s v (p ++ [e]) (c + distance u e).

Lemma chain_path cs bl s v p c :
  chain cs bl s v p c -> exists c', path s p c' v /\ (c' == c)%Q.
Proof.
  induction 1 as [|v u e p c Hbl Hu He Hch (c' & Hp & Hc)].
  - exists 0%Q. split; [constructor | reflexivity].
  - destruct (path_snoc s p c' u e v Hp He) as (c'' & Hp' & Hc'').
    exists c''. split; [exact Hp' | lra].
Qed.

Lemma chain_mono cs bl cs' bl' s v p c :
  (forall k, k ∈ cs -> k ∈ cs') ->
  (forall k, k ∈ cs -> bl' !! k = bl !! k) ->
  bl' !! id v = bl !! id v ->
  chain cs bl s v p c -> chain cs' bl' s v p c.
Proof.
  intros Hcs Hbl Hv Hch. revert Hv.
  induction Hch as [|v u e p c Hlk Hu He Hch IH]; intros Hv.
  - constructor.
  - apply chain_step; [congruence | now apply Hcs | exact He | apply IH; now apply Hbl].
Qed.

Lemma walk_back_chain cs bl s v p c :
  chain cs bl s v p c -> bl !! id s = None ->
  forall fuel acc r,
    walk_back N id fuel bl v acc = Some r -> r = p ++ acc.
Proof.
  induction 1 as [|v u e p c Hlk Hu He Hch IH]; intros Hs fuel acc r Hrun.
  - destruct fuel; simpl in Hrun; rewrite Hs in Hrun; now injection Hrun as <-.
  - destruct fuel as [|fuel]; simpl in Hrun; rewrite Hlk in Hrun; [discriminate|].
    rewrite (IH Hs fuel (e :: acc) r Hrun). now rewrite <- app_assoc.
Qed.

(** *** The invariant of the main loop *)

(** [G] records the score every open or closed node was last given
    ([openScore] forgets the score of a node when the node is popped).
    [pending] marks the edges of the node being expanded that the [for]
    loop has not processed yet. *)
Record inv (s : N) (pending : N -> E -> N -> Prop) (st : state N) (G : gmap ID Q) : Prop := {
  inv_heap : HeapFacts.is_heap (fval (openScore N st)) (heap N st);
  inv_nodup : NoDup (map id (heap N st));
  inv_open : forall k,
    is_Some (openScore N st !! k) <-> exists u, u ∈ heap N st /\ id u = k;
  inv_disjoint : forall k, k ∈ closedSet N st -> openScore N st !! k = None;
  inv_G_open : forall k x, openScore N st !! k = Some x -> G !! k = Some x;
  inv_G_dom : forall k,
    is_Some (G !! k) -> is_Some (openScore N st !! k) \/ k ∈ closedSet N st;
  inv_closed_G : forall k, k ∈ closedSet N st -> is_Some (G !! k);
  inv_start : G !! id s = Some 0%Q /\ backLink N st !! id s = None;
  inv_start_closed :
    id s ∈ closedSet N st \/ (forall x, x ∈ heap N st -> x = s);
  inv_nongoal : forall u, id u ∈ closedSet N st -> ~ (heuristic u == 0)%Q;
  inv_chain : forall v g,
    G !! id v = Some g ->
    exists p c, chain (closedSet N st) (backLink N st) s v p c /\ (c <= g)%Q;
  inv_closed_opt : forall u g,
    id u ∈ closedSet N st -> G !! id u = Some g ->
    forall p c, path s p c u -> (g <= weight * c)%Q;
  inv_closed_edges : forall u g e v,
    id u ∈ closedSet N st -> G !! id u = Some g -> (e, v) ∈ neighbors u ->
    pending u e v \/
    id v ∈ closedSet N st \/
    exists gv, openScore N st !! id v = Some gv /\ (gv <= g + distance u e)%Q
}.

Definition none : N -> E -> N -> Prop := fun _ _ _ => False.

Lemma weight_ge_1 : (1 <= weight)%Q.
Proof. unfold weight. lra. Qed.

Lemma weight_scale (c : Q) : (0 <= c)%Q -> (c <= weight * c)%Q.
Proof.
  intros Hc. pose proof weight_ge_1 as Hw.
  assert (0 <= (weight - 1) * c)%Q by (apply Qmult_le_0_compat; lra). lra.
Qed.

(** Along any path from the start to a node that is not closed there is
    an open node whose score is within the bound. *)
Lemma frontier s st G :
  inv s none st G ->
  forall a p c t, path a p c t ->
  forall p0 c0 ga,
    path s p0 c0 a -> G !! id a = Some ga -> (ga <= weight * c0)%Q ->
    id t ∉ closedSet N st ->
    exists v gv c1 p2 c2,
      openScore N st !! id v = Some gv /\ (gv <= weight * c1)%Q /\
      path v p2 c2 t /\ (c1 + c2 == c0 + c)%Q.
Proof.
  intros Hinv a p c t Hp.
  induction Hp as [a|a e b p c t He Hp IH]; intros p0 c0 ga Hp0 Hga Hle Ht.
  - destruct (inv_G_dom _ _ _ _ Hinv (id a) (mk_is_Some _ _ Hga)) as [[x Hx]|Hcl];
      [|contradiction].
    pose proof (inv_G_open _ _ _ _ Hinv _ _ Hx) as Hx'.
    rewrite Hga in Hx'. injection Hx' as <-.
    exists a, ga, c0, [], 0%Q.
    split; [exact Hx|]. split; [exact Hle|]. split; [constructor | lra].
  - destruct (inv_G_dom _ _ _ _ Hinv (id a) (mk_is_Some _ _ Hga)) as [[x Hx]|Hcl].
    + pose proof (inv_G_open _ _ _ _ Hinv _ _ Hx) as Hx'.
      rewrite Hga in Hx'. injection Hx' as <-.
      exists a, ga, c0, (e :: p), (distance a e + c)%Q.
      split; [exact Hx|]. split; [exact Hle|].
      split; [now apply path_cons with (v := b) | lra].
    + destruct (path_snoc s p0 c0 a e b Hp0 He) as (c0' & Hp0' & Hc0').
      pose proof (distance_nonneg a e b He) as Hd.
      pose proof (weight_scale (distance a e) Hd) as Hwd.
      destruct (inv_closed_edges _ _ _ _ Hinv a ga e b Hcl Hga He)
        as [[]|[Hbcl|(gb & Hgb & Hgble)]].
      * destruct (inv_closed_G _ _ _ _ Hinv _ Hbcl) as [gb Hgb].
        pose proof (inv_closed_opt _ _ _ _ Hinv b gb Hbcl Hgb _ _ Hp0') as Hopt.
        destruct (IH (p0 ++ [e]) c0' gb Hp0' Hgb Hopt Ht) as (v & gv & c1 & p2 & c2 & H1 & H2 & H3 & H4).
        exists v, gv, c1, p2, c2.
        split; [exact H1|]. split; [exact H2|]. split; [exact H3|]. rewrite H4, Hc0'. lra.
      * pose proof (inv_G_open _ _ _ _ Hinv _ _ Hgb) as HGb.
        assert (Hopt : (gb <= weight * c0')%Q).
        { rewrite Hc0'. lra. }
        destruct (IH (p0 ++ [e]) c0' gb Hp0' HGb Hopt Ht)
          as (v & gv & c1 & p2 & c2 & H1 & H2 & H3 & H4).
        exists v, gv, c1, p2, c2.
        split; [exact H1|]. split; [exact H2|]. split; [exact H3|]. rewrite H4, Hc0'. lra.
Qed.

(** The node the heap gives out is within the bound of every path from
    the start to any node that is not closed. *)
Lemma popped_bound s st G u gu :
  inv s none st G ->
  openScore N st !! id u = Some gu ->
  (forall y, y ∈ heap N st -> (fval (openScore N st) u <= fval (openScore N st) y)%Q) ->
  forall p c t, path s p c t -> id t ∉ closedSet N st ->
  (gu + heuristic u * weight <= weight * c + heuristic t * weight)%Q.
Proof.
  intros Hinv Hgu Hmin p c t Hp Ht.
  destruct (inv_start _ _ _ _ Hinv) as [Hs _].
  destruct (frontier s st G Hinv s p c t Hp [] 0%Q 0%Q (path_nil s) Hs ltac:(lra) Ht)
    as (v & gv & c1 & p2 & c2 & Hgv & Hle & Hp2 & Hsum).
  assert (Hv : v ∈ heap N st).
  { destruct (proj1 (inv_open _ _ _ _ Hinv (id v)) (mk_is_Some _ _ Hgv)) as (v' & Hin & Hid).
    now rewrite <- (id_inj _ _ Hid). }
  pose proof (Hmin v Hv) as Hf. unfold fval in Hf. rewrite Hgu, Hgv in Hf. simpl in Hf.
  pose proof (path_consistent v p2 c2 t Hp2) as Hcons.
  pose proof weight_ge_1 as Hw.
  assert (Hh : (heuristic v * weight <= (c2 + heuristic t) * weight)%Q)
    by (apply Qmult_le_compat_r; lra).
  assert (Hc : (weight * c == weight * c1 + weight * c2)%Q).
  { assert (Hcc : (c == c1 + c2)%Q) by lra. rewrite Hcc. ring. }
  rewrite Hc. lra.
Qed.

(** *** The invariant is kept *)

Lemma inv_weaken s (P P' : N -> E -> N -> Prop) st G :
  (forall u e v, P u e v -> P' u e v) -> inv s P st G -> inv s P' st G.
Proof.
  intros HP [H1 H2 H3 H4 H5 H6 H7 H8 H9 H10 H11 H12 H13].
  split; auto. intros u g e v Hu Hg He.
  destruct (H13 u g e v Hu Hg He) as [Hp|Hr]; [left; now apply HP | now right].
Qed.

(** The edges of [u] in the list [l] are pending. *)
Definition pend (u : N) (l : list (E * N)) : N -> E -> N -> Prop :=
  fun u' e v => u' = u /\ (e, v) ∈ l.

Lemma heap_scored s P st G : inv s P st G -> Forall (scored (openScore N st)) (heap N st).
Proof.
  intros Hinv. apply Forall_forall. intros x Hx.
  apply (inv_open _ _ _ _ Hinv). eauto.
Qed.

(** The initial state of [findPath]. *)
Lemma inv_init (s : N) :
  inv s none
    (State N ∅ {[id s := 0%Q]} ∅
       (Heap.push (compare N id heuristic epsilon {[id s := 0%Q]}) [] s))
    {[id s := 0%Q]}.
Proof.
  assert (Hpush : Heap.push (compare N id heuristic epsilon {[id s := 0%Q]}) [] s = [s])
    by reflexivity.
  rewrite Hpush. split; simpl.
  - intros j x y Hj Hx Hy. destruct j; [lia|]. now rewrite lookup_cons_ne_0 in Hy by lia.
  - repeat constructor. apply not_elem_of_nil.
  - intros k. split.
    + intros [x Hx]. apply lookup_singleton_Some in Hx as [<- _].
      exists s. split; [constructor | reflexivity].
    + intros (u & Hu & <-). apply list_elem_of_singleton in Hu as ->.
      rewrite lookup_singleton_eq. eauto.
  - intros k Hk. now apply elem_of_empty in Hk.
  - auto.
  - intros k Hk. now left.
  - intros k Hk. now apply elem_of_empty in Hk.
  - split; [apply lookup_singleton_eq | apply lookup_empty].
  - right. intros x Hx. now apply list_elem_of_singleton in Hx.
  - intros u Hu. now apply elem_of_empty in Hu.
  - intros v g Hg. apply lookup_singleton_Some in Hg as [Hid <-].
    apply id_inj in Hid as <-. exists [], 0%Q. split; [constructor | lra].
  - intros u g Hu. now apply elem_of_empty in Hu.
  - intros u g e v Hu. now apply elem_of_empty in Hu.
Qed.

(** Popping the least node [u] and closing it. *)
Lemma inv_pop s st G u h' gu :
  inv s none st G ->
  u :: h' ≡ₚ heap N st ->
  HeapFacts.is_heap (fval (openScore N st)) h' ->
  (forall y, y ∈ heap N st -> (fval (openScore N st) u <= fval (openScore N st) y)%Q) ->
  openScore N st !! id u = Some gu ->
  ~ (heuristic u == 0)%Q ->
  inv s (pend u (neighbors u))
    (State N ({[id u]} ∪ closedSet N st) (delete (id u) (openScore N st))
       (backLink N st) h') G /\
  id s ∈ {[id u]} ∪ closedSet N st.
Proof.
  intros Hinv Hperm Hheap Hmin Hgu Hgoal.
  pose proof (inv_nodup _ _ _ _ Hinv) as Hnd.
  rewrite <- Hperm in Hnd. simpl in Hnd. apply NoDup_cons in Hnd as [Hu_notin Hnd'].
  assert (Hmem : forall x, x ∈ heap N st <-> x = u \/ x ∈ h').
  { intros x. rewrite <- Hperm. apply elem_of_cons. }
  assert (Hids : forall x, x ∈ h' -> id x <> id u).
  { intros x Hx Heq. apply Hu_notin. rewrite <- Heq. apply list_elem_of_fmap. eauto. }
  assert (Hstart : id s ∈ {[id u]} ∪ closedSet N st).
  { destruct (inv_start_closed _ _ _ _ Hinv) as [Hs|Hs]; [set_solver|].
    rewrite (Hs u); [set_solver|]. apply Hmem. now left. }
  split; [|exact Hstart].
  assert (Hcl : is_Some (G !! id u)) by (eexists; eapply inv_G_open; eauto).
  split; simpl.
  - apply (is_heap_ext (fval (openScore N st))); [|exact Hheap].
    intros x Hx. unfold fval. now rewrite lookup_delete_ne by (symmetry; now apply Hids).
  - exact Hnd'.
  - intros k. rewrite lookup_delete_is_Some, (inv_open _ _ _ _ Hinv k). split.
    + intros (Hne & x & Hx & Hid). exists x. split; [|exact Hid].
      apply Hmem in Hx as [->|Hx]; [congruence | exact Hx].
    + intros (x & Hx & Hid). split; [rewrite <- Hid; symmetry; now apply Hids|].
      exists x. split; [apply Hmem; now right | exact Hid].
  - intros k Hk. apply elem_of_union in Hk as [Hk|Hk].
    + apply elem_of_singleton in Hk as ->. apply lookup_delete_eq.
    + rewrite lookup_delete_None. right. now apply (inv_disjoint _ _ _ _ Hinv).
  - intros k x Hx. apply lookup_delete_Some in Hx as [_ Hx].
    now apply (inv_G_open _ _ _ _ Hinv).
  - intros k Hk. destruct (decide (k = id u)) as [->|Hne]; [right; set_solver|].
    destruct (inv_G_dom _ _ _ _ Hinv k Hk) as [Ho|Hc]; [left | right; set_solver].
    now rewrite lookup_delete_ne by congruence.
  - intros k Hk. apply elem_of_union in Hk as [Hk|Hk].
    + now apply elem_of_singleton in Hk as ->.
    + now apply (inv_closed_G _ _ _ _ Hinv).
  - apply (inv_start _ _ _ _ Hinv).
  - now left.
  - intros x Hx. apply elem_of_union in Hx as [Hx|Hx].
    + apply elem_of_singleton in Hx. now rewrite (id_inj _ _ Hx).
    + now apply (inv_nongoal _ _ _ _ Hinv).
  - intros v g Hg. destruct (inv_chain _ _ _ _ Hinv v g Hg) as (p & c & Hch & Hc).
    exists p, c. split; [|exact Hc].
    eapply chain_mono; [| | |exact Hch]; auto. set_solver.
  - intros x g Hx Hg p c Hp. apply elem_of_union in Hx as [Hx|Hx].
    + apply elem_of_singleton in Hx. apply id_inj in Hx as ->.
      pose proof (inv_G_open _ _ _ _ Hinv _ _ Hgu) as Hgu'.
      rewrite Hg in Hgu'. injection Hgu' as ->.
      assert (Hnc : id u ∉ closedSet N st).
      { intros Hc. apply (inv_disjoint _ _ _ _ Hinv) in Hc. congruence. }
      pose proof (popped_bound s st G u gu Hinv Hgu Hmin p c u Hp Hnc). lra.
    + exact (inv_closed_opt _ _ _ _ Hinv x g Hx Hg p c Hp).
  - intros x g e v Hx Hg He. apply elem_of_union in Hx as [Hx|Hx].
    + apply elem_of_singleton in Hx. apply id_inj in Hx as ->. left. now split.
    + right. destruct (inv_closed_edges _ _ _ _ Hinv x g e v Hx Hg He)
        as [[]|[Hv|(gv & Hgv & Hle)]]; [left; set_solver|].
      destruct (decide (id v = id u)) as [Heq|Hne]; [left; set_solver|].
      right. exists gv. split; [|exact Hle]. now rewrite lookup_delete_ne by congruence.
Qed.

(** Giving the node [v], which is not closed, the score [cost] and the
    back link to the closed node [u]. *)
Lemma inv_update s u gu e v l st G h' :
  let cost := (gu + distance u e)%Q in
  inv s (pend u ((e, v) :: l)) st G ->
  id s ∈ closedSet N st -> id u ∈ closedSet N st -> G !! id u = Some gu ->
  (e, v) ∈ neighbors u -> id v ∉ closedSet N st ->
  (forall gv, openScore N st !! id v = Some gv -> (cost < gv)%Q) ->
  HeapFacts.is_heap (fval (<[id v := cost]> (openScore N st))) h' ->
  NoDup (map id h') ->
  (forall k, (exists x, x ∈ h' /\ id x = k) <->
             k = id v \/ exists x, x ∈ heap N st /\ id x = k) ->
  inv s (pend u l)
    (State N (closedSet N st) (<[id v := cost]> (openScore N st))
       (<[id v := (u, e)]> (backLink N st)) h')
    (<[id v := cost]> G).
Proof.
  intros cost Hinv Hs Hu Hgu He Hv Hdec Hheap Hnd Hmem.
  assert (Hvs : id v <> id s) by (intros Heq; rewrite Heq in Hv; contradiction).
  assert (Hvu : id v <> id u) by (intros Heq; rewrite Heq in Hv; contradiction).
  assert (Hvc : forall k, k ∈ closedSet N st -> id v <> k)
    by (intros k Hk Heq; rewrite Heq in Hv; contradiction).
  split; simpl.
  - exact Hheap.
  - exact Hnd.
  - intros k. rewrite Hmem, lookup_insert_is_Some, (inv_open _ _ _ _ Hinv k).
    split; [intros [->|[_ Hr]]; auto | intros [->|Hr]; auto].
    destruct (decide (id v = k)); auto.
  - intros k Hk. rewrite lookup_insert_ne by now apply Hvc.
    now apply (inv_disjoint _ _ _ _ Hinv).
  - intros k x. destruct (decide (id v = k)) as [<-|Hne].
    + now rewrite !lookup_insert_eq.
    + rewrite !lookup_insert_ne by exact Hne. apply (inv_G_open _ _ _ _ Hinv).
  - intros k. destruct (decide (id v = k)) as [<-|Hne].
    + intros _. left. rewrite lookup_insert_eq. eauto.
    + rewrite !lookup_insert_ne by exact Hne. apply (inv_G_dom _ _ _ _ Hinv).
  - intros k Hk. rewrite lookup_insert_ne by now apply Hvc.
    now apply (inv_closed_G _ _ _ _ Hinv).
  - rewrite !lookup_insert_ne by exact Hvs. apply (inv_start _ _ _ _ Hinv).
  - now left.
  - apply (inv_nongoal _ _ _ _ Hinv).
  - intros x g Hg.
    assert (Htrans : forall y p c,
              id y <> id v ->
              chain (closedSet N st) (backLink N st) s y p c ->
              chain (closedSet N st) (<[id v := (u, e)]> (backLink N st)) s y p c).
    { intros y p c Hy Hch. eapply chain_mono; [| | |exact Hch]; auto.
      - intros k Hk. rewrite lookup_insert_ne; [reflexivity | now apply Hvc].
      - now rewrite lookup_insert_ne by congruence. }
    destruct (decide (id x = id v)) as [Heq|Hne].
    + apply id_inj in Heq as ->. rewrite lookup_insert_eq in Hg. injection Hg as <-.
      destruct (inv_chain _ _ _ _ Hinv u gu Hgu) as (p & c & Hch & Hc).
      exists (p ++ [e]), (c + distance u e)%Q. split; [|unfold cost; lra].
      apply chain_step; [apply lookup_insert_eq | exact Hu | exact He|].
      apply Htrans; [congruence | exact Hch].
    + rewrite lookup_insert_ne in Hg by congruence.
      destruct (inv_chain _ _ _ _ Hinv x g Hg) as (p & c & Hch & Hc).
      exists p, c. split; [|exact Hc]. now apply Htrans.
  - intros x g Hx Hg. rewrite lookup_insert_ne in Hg by now apply Hvc.
    exact (inv_closed_opt _ _ _ _ Hinv x g Hx Hg).
  - intros x g e' v' Hx Hg He'. rewrite lookup_insert_ne in Hg by now apply Hvc.
    destruct (inv_closed_edges _ _ _ _ Hinv x g e' v' Hx Hg He')
      as [[-> Hin]|[Hcl|(gv & Hgv & Hle)]].
    + apply elem_of_cons in Hin as [[= -> ->]|Hin]; [|left; now split].
      right. right. exists cost. split; [apply lookup_insert_eq|].
      rewrite Hgu in Hg. injection Hg as <-. unfold cost. lra.
    + right. now left.
    + right. right. destruct (decide (id v' = id v)) as [Heq|Hne].
      * exists cost. rewrite Heq. split; [apply lookup_insert_eq|].
        rewrite Heq in Hgv. pose proof (Hdec gv Hgv). lra.
      * exists gv. split; [|exact Hle]. now rewrite lookup_insert_ne by congruence.
Qed.

(** An edge of [u] is settled without any change of state. *)
Lemma inv_resolve s u gu e v l st G :
  inv s (pend u ((e, v) :: l)) st G ->
  G !! id u = Some gu ->
  (id v ∈ closedSet N st \/
   exists gv, openScore N st !! id v = Some gv /\ (gv <= gu + distance u e)%Q) ->
  inv s (pend u l) st G.
Proof.
  intros [H1 H2 H3 H4 H5 H6 H7 H8 H9 H10 H11 H12 H13] Hgu Hres.
  split; auto. intros x g e' v' Hx Hg He'.
  destruct (H13 x g e' v' Hx Hg He') as [[-> Hin]|Hr]; [|now right].
  apply elem_of_cons in Hin as [[= -> ->]|Hin]; [|left; now split].
  right. rewrite Hgu in Hg. now injection Hg as <-.
Qed.

Lemma index_unique (h : list N) (i j : nat) (x y : N) :
  NoDup (map id h) -> h !! i = Some x -> h !! j = Some y -> id x = id y -> i = j.
Proof.
  intros Hnd Hi Hj Heq.
  apply (NoDup_lookup (map id h) i j (id x) Hnd).
  - change (map id h) with (id <$> h). now rewrite list_lookup_fmap, Hi.
  - change (map id h) with (id <$> h). now rewrite list_lookup_fmap, Hj, Heq.
Qed.

(** [decreaseKey] finds the node and restores the heap for the lowered
    score. *)
Lemma decreaseKey_run s P st G u e v old cost :
  inv s P st G ->
  openScore N st !! id v = Some old -> (cost < old)%Q ->
  exists h',
    Heap.decreaseKey (fun t => compare N id heuristic epsilon (t_openScore N t))
      (same N id) (heap N st) v
      (fun node t =>
         Tables N (<[id node := cost]> (t_openScore N t))
                  (<[id node := (u, e)]> (t_backLink N t)))
      (Tables N (openScore N st) (backLink N st))
    = (Tables N (<[id v := cost]> (openScore N st))
                (<[id v := (u, e)]> (backLink N st)), h', true) /\
    h' ≡ₚ heap N st /\
    HeapFacts.is_heap (fval (<[id v := cost]> (openScore N st))) h'.
Proof.
  intros Hinv Hold Hlt.
  set (os := openScore N st) in *. set (os' := <[id v := cost]> os).
  pose proof (inv_heap _ _ _ _ Hinv) as Hheap. fold os in Hheap.
  pose proof (inv_nodup _ _ _ _ Hinv) as Hnd.
  pose proof (heap_scored _ _ _ _ Hinv) as Hsc. fold os in Hsc.
  destruct (proj1 (inv_open _ _ _ _ Hinv (id v)) (mk_is_Some _ _ Hold)) as (v' & Hin & Hid).
  apply id_inj in Hid as ->.
  apply list_elem_of_lookup in Hin as [t Ht].
  assert (Hsame : same N id v v = true) by (unfold same; now apply bool_decide_eq_true).
  assert (Hfind : Heap.find (compare N id heuristic epsilon os) (same N id)
                    (length (heap N st)) (heap N st) v 0 = Some t).
  { apply (HeapFacts.find_complete (compare N id heuristic epsilon os) (same N id)
             (fval os) (scored os) (compare_fval os) (heap N st) v t v); auto.
    - now exists old.
    - lra.
    - intros j z Hz Hs. unfold same in Hs. apply bool_decide_eq_true in Hs.
      now apply (index_unique (heap N st) j t z v Hnd Hz Ht). }
  unfold Heap.decreaseKey. simpl. fold os. rewrite Hfind, Ht. fold os'.
  eexists. split; [reflexivity|]. split; [apply HeapFacts.siftUp_perm|].
  assert (Hother : forall j y, heap N st !! j = Some y -> j <> t -> fval os' y = fval os y).
  { intros j y Hy Hne. unfold fval, os'. rewrite lookup_insert_ne; [reflexivity|].
    intros Heq. apply Hne. now apply (index_unique (heap N st) j t y v Hnd Hy Ht). }
  assert (Hv' : (fval os' v <= fval os v)%Q).
  { unfold fval, os'. rewrite lookup_insert_eq, Hold. simpl. lra. }
  apply (HeapFacts.siftUp_is_heap (compare N id heuristic epsilon os') (fval os')
           (scored os') (compare_fval os')); [| |lia].
  - eapply Forall_impl; [exact Hsc|]. intros x [g Hg]. unfold scored, os'.
    rewrite lookup_insert_is_Some. destruct (decide (id v = id x)); eauto.
  - split.
    + intros j x y Hj Hne Hx Hy. rewrite (Hother j y Hy Hne).
      pose proof (Hheap j x y Hj Hx Hy) as Hxy.
      destruct (decide (Heap.parent j = t)) as [Hpt|Hpt].
      * rewrite Hpt, Ht in Hx. injection Hx as <-. lra.
      * now rewrite (Hother _ x Hx Hpt).
    + intros c x y Ht0 Hc Hpc Hx Hy.
      pose proof (HeapFacts.parent_lt t Ht0) as Hpt.
      pose proof (HeapFacts.parent_lt c Hc) as Hpcl.
      rewrite (Hother _ x Hx ltac:(lia)), (Hother c y Hy ltac:(lia)).
      pose proof (Hheap t x v Ht0 Hx Ht).
      rewrite <- Hpc in Ht. pose proof (Hheap c v y Hc Ht Hy). lra.
Qed.

(** The back links lead to closed nodes, and from a closed node to one
    that was closed earlier: [rank] numbers the closed nodes in the order
    they were closed. *)
Definition ranked (rank : ID -> nat) (st : state (ID := ID) (E := E) N) : Prop :=
  (forall k, k ∈ closedSet N st -> (rank k < size (closedSet N st))%nat) /\
  (forall k (u : N) (e : E), backLink N st !! k = Some (u, e) ->
     id u ∈ closedSet N st /\ (k ∈ closedSet N st -> (rank (id u) < rank k)%nat)).

Lemma ranked_link rank st u e v os h :
  ranked rank st -> id v ∉ closedSet N st -> id u ∈ closedSet N st ->
  ranked rank (State N (closedSet N st) os (<[id v := (u, e)]> (backLink N st)) h).
Proof.
  intros [Hr1 Hr2] Hv Hu. split; simpl; [exact Hr1|].
  intros k u' e' Hk. destruct (decide (k = id v)) as [->|Hne].
  - rewrite lookup_insert_eq in Hk. injection Hk as <- <-.
    split; [exact Hu | intros Hc; contradiction].
  - rewrite lookup_insert_ne in Hk by congruence. exact (Hr2 k u' e' Hk).
Qed.

Lemma ranked_close rank st u os h :
  ranked rank st -> id u ∉ closedSet N st ->
  ranked (fun k => if decide (k = id u) then size (closedSet N st) else rank k)
    (State N ({[id u]} ∪ closedSet N st) os (backLink N st) h).
Proof.
  intros [Hr1 Hr2] Hu.
  assert (Hsize : size ({[id u]} ∪ closedSet N st) = Datatypes.S (size (closedSet N st))).
  { rewrite size_union by (apply disjoint_singleton_l; exact Hu).
    now rewrite size_singleton. }
  split; simpl.
  - intros k Hk. rewrite Hsize. destruct (decide (k = id u)); [lia|].
    apply elem_of_union in Hk as [Hk|Hk]; [apply elem_of_singleton in Hk; contradiction|].
    specialize (Hr1 k Hk). lia.
  - intros k w e Hk. destruct (Hr2 k w e Hk) as [Hw Hlt].
    split; [now apply elem_of_union_r|]. intros Hc.
    destruct (decide (id w = id u)) as [Heq|_]; [rewrite Heq in Hw; contradiction|].
    destruct (decide (k = id u)) as [_|Hne]; [now apply Hr1|].
    apply Hlt. apply elem_of_union in Hc as [Hc|Hc]; [|exact Hc].
    apply elem_of_singleton in Hc. contradiction.
Qed.

(** One turn of the loop over the edges of the node being expanded. *)
Lemma inv_relax s u gu e v l st G :
  inv s (pend u ((e, v) :: l)) st G ->
  id s ∈ closedSet N st -> id u ∈ closedSet N st -> G !! id u = Some gu ->
  (e, v) ∈ neighbors u ->
  let st' := relax N id heuristic distance epsilon u gu st (e, v) in
  exists G',
    inv s (pend u l) st' G' /\ closedSet N st' = closedSet N st /\
    G' !! id u = Some gu /\
    (forall rank, ranked rank st -> ranked rank st').
Proof.
  intros Hinv Hs Hu Hgu He. unfold relax. cbv zeta.
  destruct (bool_decide (id v ∈ closedSet N st)) eqn:Hclosed.
  { apply bool_decide_eq_true in Hclosed. exists G.
    split; [|split; [reflexivity | split; [exact Hgu | auto]]].
    apply (inv_resolve s u gu e v l st G Hinv Hgu). now left. }
  apply bool_decide_eq_false in Hclosed.
  assert (Hvu : id v <> id u) by (intros Heq; rewrite Heq in Hclosed; contradiction).
  destruct (openScore N st !! id v) as [old|] eqn:Hold.
  - destruct (Buckets.ltQ (gu + distance u e) old) eqn:Hlt.
    + apply ltQ_iff in Hlt.
      destruct (decreaseKey_run s _ st G u e v old (gu + distance u e)%Q Hinv Hold Hlt)
        as (h' & -> & Hperm & Hheap).
      exists (<[id v := (gu + distance u e)%Q]> G). simpl.
      split; [|split; [reflexivity | split; [now rewrite lookup_insert_ne|]]];
        [|intros rank Hr; now apply ranked_link].
      apply (inv_update s u gu e v l st G h'); auto.
      * intros gv Hgv. rewrite Hold in Hgv. now injection Hgv as <-.
      * rewrite Hperm. apply (inv_nodup _ _ _ _ Hinv).
      * intros k. split.
        -- intros (x & Hx & Hid). right. exists x. split; [now rewrite <- Hperm | exact Hid].
        -- intros [->|(x & Hx & Hid)].
           ++ destruct (proj1 (inv_open _ _ _ _ Hinv (id v)) (mk_is_Some _ _ Hold))
                as (x & Hx & Hid).
              exists x. split; [now rewrite Hperm | exact Hid].
           ++ exists x. split; [now rewrite Hperm | exact Hid].
    + exists G. split; [|split; [reflexivity | split; [exact Hgu | auto]]].
      apply (inv_resolve s u gu e v l st G Hinv Hgu). right. exists old.
      split; [exact Hold|].
      destruct (Qlt_le_dec (gu + distance u e) old) as [Hc|Hc]; [|exact Hc].
      apply ltQ_iff in Hc. congruence.
  - exists (<[id v := (gu + distance u e)%Q]> G). simpl.
    split; [|split; [reflexivity | split; [now rewrite lookup_insert_ne|]]];
      [|intros rank Hr; now apply ranked_link].
    set (os' := <[id v := (gu + distance u e)%Q]> (openScore N st)).
    assert (Hnotin : forall x, x ∈ heap N st -> id x <> id v).
    { intros x Hx Heq.
      assert (Hsome : is_Some (openScore N st !! id v))
        by (apply (inv_open _ _ _ _ Hinv); eauto).
      rewrite Hold in Hsome. now destruct Hsome. }
    apply (inv_update s u gu e v l st G); auto.
    + intros gv Hgv. congruence.
    + apply (HeapFacts.push_is_heap (compare N id heuristic epsilon os') (fval os')
               (scored os') (compare_fval os')).
      * eapply Forall_impl; [exact (heap_scored _ _ _ _ Hinv)|].
        intros x [g Hg]. unfold scored, os'. rewrite lookup_insert_is_Some.
        destruct (decide (id v = id x)); eauto.
      * unfold scored, os'. rewrite lookup_insert_eq. eauto.
      * apply (is_heap_ext (fval (openScore N st))); [|apply (inv_heap _ _ _ _ Hinv)].
        intros x Hx. unfold fval, os'.
        now rewrite lookup_insert_ne by (symmetry; now apply Hnotin).
    + rewrite HeapFacts.push_perm. simpl. apply NoDup_cons. split.
      * intros Hin. apply list_elem_of_fmap in Hin as (x & Hid & Hx).
        now apply (Hnotin x Hx).
      * apply (inv_nodup _ _ _ _ Hinv).
    + intros k. split.
      * intros (x & Hx & Hid). rewrite HeapFacts.push_perm in Hx.
        apply elem_of_cons in Hx as [->|Hx]; [now left | right; eauto].
      * intros [->|(x & Hx & Hid)].
        -- exists v. split; [|reflexivity]. rewrite HeapFacts.push_perm. constructor.
        -- exists x. split; [|exact Hid]. rewrite HeapFacts.push_perm. now constructor.
Qed.

Lemma inv_relax_all s u gu (l : list (E * N)) : forall st G,
  inv s (pend u l) st G ->
  id s ∈ closedSet N st -> id u ∈ closedSet N st -> G !! id u = Some gu ->
  (forall en, en ∈ l -> en ∈ neighbors u) ->
  exists G',
    inv s none (fold_left (relax N id heuristic distance epsilon u gu) l st) G' /\
    closedSet N (fold_left (relax N id heuristic distance epsilon u gu) l st)
      = closedSet N st /\
    (forall rank,
        ranked rank st ->
        ranked rank (fold_left (relax N id heuristic distance epsilon u gu) l st)).
Proof.
  induction l as [|[e v] l IH]; intros st G Hinv Hs Hu Hgu Hsub.
  - exists G. simpl. split; [|auto]. eapply inv_weaken; [|exact Hinv].
    intros u' e v [_ Hin]. now apply elem_of_nil in Hin.
  - simpl.
    destruct (inv_relax s u gu e v l st G Hinv Hs Hu Hgu (Hsub _ (list_elem_of_here _ _)))
      as (G' & Hinv' & Hcs & Hgu' & Hrk).
    destruct (IH _ G' Hinv') as (G'' & Hinv'' & Hcs'' & Hrk'');
      [now rewrite Hcs | now rewrite Hcs | exact Hgu' | |].
    { intros en Hen. apply Hsub. now constructor. }
    exists G''. split; [exact Hinv''|]. split; [exact (eq_trans Hcs'' Hcs)|].
    intros rank Hr. apply Hrk'', Hrk, Hr.
Qed.

(** *** The path returned *)

Lemma loop_bound s (fuel : nat) : forall st G pth,
  inv s none st G ->
  loop N id heuristic neighbors distance epsilon fuel st = Some (Some pth) ->
  exists c t,
    path s pth c t /\ (heuristic t == 0)%Q /\
    forall p' c' t', path s p' c' t' -> (heuristic t' == 0)%Q -> (c <= weight * c')%Q.
Proof.
  induction fuel as [|fuel IH]; intros st G pth Hinv Hrun; [discriminate|].
  simpl in Hrun.
  destruct (Heap.isEmpty (heap N st)) eqn:Hempty; [discriminate|].
  assert (Hne : heap N st <> []) by (intros Heq; rewrite Heq in Hempty; discriminate).
  destruct (HeapFacts.pop_spec (compare N id heuristic epsilon (openScore N st))
              (fval (openScore N st)) (scored (openScore N st))
              (compare_fval (openScore N st)) (heap N st)
              (heap_scored _ _ _ _ Hinv) (inv_heap _ _ _ _ Hinv) Hne)
    as (u & h' & Hpop & Hperm & Hheap' & Hmin).
  rewrite Hpop in Hrun.
  assert (Hu : u ∈ heap N st) by (rewrite <- Hperm; constructor).
  destruct (proj2 (inv_open _ _ _ _ Hinv (id u)) (ex_intro _ u (conj Hu eq_refl)))
    as [gu Hgu].
  rewrite Hgu in Hrun.
  destruct (Qeq_bool (heuristic u) 0) eqn:Hgoal; simpl in Hrun.
  - (* the goal *)
    apply Qeq_bool_iff in Hgoal.
    destruct (walk_back N id (size (backLink N st)) (backLink N st) u []) as [r|] eqn:Hwalk;
      [|discriminate].
    injection Hrun as <-.
    pose proof (inv_G_open _ _ _ _ Hinv _ _ Hgu) as HGu.
    destruct (inv_chain _ _ _ _ Hinv u gu HGu) as (p & c & Hch & Hc).
    pose proof (walk_back_chain _ _ s u p c Hch (proj2 (inv_start _ _ _ _ Hinv)) _ _ _ Hwalk)
      as ->.
    rewrite app_nil_r.
    destruct (chain_path _ _ s u p c Hch) as (c' & Hp & Hc').
    exists c', u. split; [exact Hp|]. split; [exact Hgoal|].
    intros p' cp t' Hp' Ht'.
    assert (Hnc : id t' ∉ closedSet N st).
    { intros Hcl. now apply (inv_nongoal _ _ _ _ Hinv t' Hcl). }
    pose proof (popped_bound s st G u gu Hinv Hgu Hmin p' cp t' Hp' Hnc) as Hb.
    rewrite Hgoal, Ht' in Hb. lra.
  - (* expansion *)
    assert (Hng : ~ (heuristic u == 0)%Q).
    { intros Heq. apply Qeq_bool_iff in Heq. congruence. }
    destruct (inv_pop s st G u h' gu Hinv Hperm Hheap' Hmin Hgu Hng) as [Hinv1 Hs1].
    destruct (inv_relax_all s u gu (neighbors u) _ G Hinv1 Hs1) as (G' & Hinv' & _).
    + simpl. apply elem_of_union_l, elem_of_singleton. reflexivity.
    + now apply (inv_G_open _ _ _ _ Hinv).
    + auto.
    + exact (IH _ G' pth Hinv' Hrun).
Qed.

(** *** No path returned *)

Lemma loop_null s (fuel : nat) : forall st G,
  inv s none st G ->
  loop N id heuristic neighbors distance epsilon fuel st = Some None ->
  forall p c t, path s p c t -> ~ (heuristic t == 0)%Q.
Proof.
  induction fuel as [|fuel IH]; intros st G Hinv Hrun; [discriminate|].
  simpl in Hrun.
  destruct (Heap.isEmpty (heap N st)) eqn:Hempty.
  - intros p c t Hp Ht.
    assert (Hnc : id t ∉ closedSet N st).
    { intros Hcl. now apply (inv_nongoal _ _ _ _ Hinv t Hcl). }
    destruct (inv_start _ _ _ _ Hinv) as [Hs _].
    destruct (frontier s st G Hinv s p c t Hp [] 0%Q 0%Q (path_nil s) Hs ltac:(lra) Hnc)
      as (v & gv & _ & _ & _ & Hgv & _).
    destruct (proj1 (inv_open _ _ _ _ Hinv (id v)) (mk_is_Some _ _ Hgv)) as (x & Hx & _).
    destruct (heap N st); [now apply elem_of_nil in Hx | discriminate].
  - assert (Hne : heap N st <> []) by (intros Heq; rewrite Heq in Hempty; discriminate).
    destruct (HeapFacts.pop_spec (compare N id heuristic epsilon (openScore N st))
                (fval (openScore N st)) (scored (openScore N st))
                (compare_fval (openScore N st)) (heap N st)
                (heap_scored _ _ _ _ Hinv) (inv_heap _ _ _ _ Hinv) Hne)
      as (u & h' & Hpop & Hperm & Hheap' & Hmin).
    rewrite Hpop in Hrun.
    assert (Hu : u ∈ heap N st) by (rewrite <- Hperm; constructor).
    destruct (proj2 (inv_open _ _ _ _ Hinv (id u)) (ex_intro _ u (conj Hu eq_refl)))
      as [gu Hgu].
    rewrite Hgu in Hrun.
    destruct (Qeq_bool (heuristic u) 0) eqn:Hgoal; simpl in Hrun.
    + destruct (walk_back N id (size (backLink N st)) (backLink N st) u []);
        discriminate.
    + assert (Hng : ~ (heuristic u == 0)%Q).
      { intros Heq. apply Qeq_bool_iff in Heq. congruence. }
      destruct (inv_pop s st G u h' gu Hinv Hperm Hheap' Hmin Hgu Hng) as [Hinv1 Hs1].
      destruct (inv_relax_all s u gu (neighbors u) _ G Hinv1 Hs1) as (G' & Hinv' & _).
      * simpl. apply elem_of_union_l, elem_of_singleton. reflexivity.
      * now apply (inv_G_open _ _ _ _ Hinv).
      * auto.
      * exact (IH _ G' Hinv' Hrun).
Qed.

(** [findPath] returns [null] only when no node whose heuristic is zero
    can be reached from the start node. *)
Theorem findPath_null_unreachable (fuel : nat) (s : N) :
  findPath N id heuristic neighbors distance epsilon fuel s = Some None ->
  forall p c t, path s p c t -> ~ (heuristic t == 0)%Q.
Proof.
  unfold findPath. cbv zeta. intros Hrun.
  exact (loop_null s fuel _ _ (inv_init s) Hrun).
Qed.

(** *** Termination *)

Lemma walk_back_eq (fuel : nat) (bl : gmap ID (N * E)) (node : N) (acc : list E) :
  walk_back N id fuel bl node acc =
  match bl !! id node with
  | None => Some acc
  | Some (parent, edge) =>
      match fuel with
      | O => None
      | Datatypes.S fuel' => walk_back N id fuel' bl parent (edge :: acc)
      end
  end.
Proof. destruct fuel; reflexivity. Qed.

(** The closed nodes that have a back link and were closed no later than
    the [n]-th. *)
Definition earlier (rank : ID -> nat) (st : state (ID := ID) (E := E) N) (n : nat)
  : gset ID :=
  filter (fun k => k ∈ closedSet N st /\ (rank k <= n)%nat) (dom (backLink N st)).

Lemma walk_back_closed rank st :
  ranked rank st ->
  forall fuel node acc,
    id node ∈ closedSet N st ->
    (size (earlier rank st (rank (id node))) <= fuel)%nat ->
    is_Some (walk_back N id fuel (backLink N st) node acc).
Proof.
  intros [Hr1 Hr2]. induction fuel as [|fuel IH]; intros node acc Hc Hsize;
    rewrite walk_back_eq;
    destruct (backLink N st !! id node) as [[w e]|] eqn:Hbl; eauto.
  - assert (Hin : id node ∈ earlier rank st (rank (id node))).
    { apply elem_of_filter. split; [split; [exact Hc | lia]|].
      apply elem_of_dom. eauto. }
    assert (Hpos : size (earlier rank st (rank (id node))) <> 0%nat).
    { intros Hz. apply size_empty_iff in Hz. now apply Hz in Hin. }
    lia.
  - destruct (Hr2 _ _ _ Hbl) as [Hw Hlt]. specialize (Hlt Hc).
    apply IH; [exact Hw|].
    assert (Hsub : earlier rank st (rank (id w)) ⊂ earlier rank st (rank (id node))).
    { split.
      - intros k Hk. apply elem_of_filter in Hk as [[Hkc Hkr] Hkd].
        apply elem_of_filter. split; [split; [exact Hkc | lia] | exact Hkd].
      - intros Hsub.
        assert (Hin : id node ∈ earlier rank st (rank (id node))).
        { apply elem_of_filter. split; [split; [exact Hc | lia]|].
          apply elem_of_dom. eauto. }
        apply Hsub in Hin. apply elem_of_filter in Hin as [[_ Hle] _]. lia. }
    apply subset_size in Hsub. lia.
Qed.

Lemma walk_back_open rank st (u : N) :
  ranked rank st -> id u ∉ closedSet N st ->
  is_Some (walk_back N id (size (backLink N st)) (backLink N st) u []).
Proof.
  intros Hr Hu. rewrite walk_back_eq.
  destruct (backLink N st !! id u) as [[w e]|] eqn:Hbl; [|eauto].
  destruct (proj2 Hr _ _ _ Hbl) as [Hw _].
  assert (Hsub : earlier rank st (rank (id w)) ⊂ dom (backLink N st)).
  { split.
    - intros k Hk. now apply elem_of_filter in Hk as [_ Hkd].
    - intros Hsub.
      assert (Hin : id u ∈ dom (backLink N st)) by (apply elem_of_dom; eauto).
      apply Hsub in Hin. apply elem_of_filter in Hin as [[Hc _] _]. contradiction. }
  apply subset_size in Hsub. rewrite size_dom in Hsub.
  destruct (size (backLink N st)) as [|n]; [lia|].
  apply (walk_back_closed rank st Hr); [exact Hw | lia].
Qed.

Lemma loop_total (all : gset ID) (s : N) :
  (forall u, id u ∈ all) ->
  forall fuel st G rank,
    inv s none st G -> ranked rank st ->
    (size (all ∖ closedSet N st) < fuel)%nat ->
    is_Some (loop N id heuristic neighbors distance epsilon fuel st).
Proof.
  intros Hall. induction fuel as [|fuel IH]; intros st G rank Hinv Hrk Hsize; [lia|].
  simpl.
  destruct (Heap.isEmpty (heap N st)) eqn:Hempty; [eauto|].
  assert (Hne : heap N st <> []) by (intros Heq; rewrite Heq in Hempty; discriminate).
  destruct (HeapFacts.pop_spec (compare N id heuristic epsilon (openScore N st))
              (fval (openScore N st)) (scored (openScore N st))
              (compare_fval (openScore N st)) (heap N st)
              (heap_scored _ _ _ _ Hinv) (inv_heap _ _ _ _ Hinv) Hne)
    as (u & h' & Hpop & Hperm & Hheap' & Hmin).
  rewrite Hpop.
  assert (Hu : u ∈ heap N st) by (rewrite <- Hperm; constructor).
  destruct (proj2 (inv_open _ _ _ _ Hinv (id u)) (ex_intro _ u (conj Hu eq_refl)))
    as [gu Hgu].
  rewrite Hgu.
  assert (Hnc : id u ∉ closedSet N st).
  { intros Hc. rewrite (inv_disjoint _ _ _ _ Hinv _ Hc) in Hgu. discriminate. }
  destruct (Qeq_bool (heuristic u) 0) eqn:Hgoal; simpl.
  - destruct (walk_back_open rank st u Hrk Hnc) as [r ->]. eauto.
  - assert (Hng : ~ (heuristic u == 0)%Q).
    { intros Heq. apply Qeq_bool_iff in Heq. congruence. }
    destruct (inv_pop s st G u h' gu Hinv Hperm Hheap' Hmin Hgu Hng) as [Hinv1 Hs1].
    destruct (inv_relax_all s u gu (neighbors u) _ G Hinv1 Hs1) as (G' & Hinv' & Hcs & Hrk').
    + simpl. apply elem_of_union_l, elem_of_singleton. reflexivity.
    + now apply (inv_G_open _ _ _ _ Hinv).
    + auto.
    + apply (IH _ G' _ Hinv' (Hrk' _ (ranked_close rank st u _ h' Hrk Hnc))).
      rewrite Hcs. simpl.
      assert (Hsub : all ∖ ({[id u]} ∪ closedSet N st) ⊂ all ∖ closedSet N st).
      { split.
        - intros k Hk. apply elem_of_difference in Hk as [Hk Hn].
          apply elem_of_difference. split; [exact Hk|].
          intros Hc. apply Hn. now apply elem_of_union_r.
        - intros Hsub.
          assert (Hin : id u ∈ all ∖ closedSet N st)
            by (apply elem_of_difference; split; [apply Hall | exact Hnc]).
          apply Hsub in Hin. apply elem_of_difference in Hin as [_ Hn].
          apply Hn. apply elem_of_union_l, elem_of_singleton. reflexivity. }
      apply subset_size in Hsub. lia.
Qed.

(** On a graph with finitely many nodes [findPath] returns: the main loop
    takes at most one turn per node and one more. *)
Theorem findPath_returns (all : gset ID) (fuel : nat) (s : N) :
  (forall u, id u ∈ all) -> (size all < fuel)%nat ->
  is_Some (findPath N id heuristic neighbors distance epsilon fuel s).
Proof.
  intros Hall Hfuel. unfold findPath. cbv zeta.
  apply (loop_total all s Hall fuel _ _ (fun _ => 0%nat) (inv_init s)).
  - split; simpl.
    + intros k Hk. now apply not_elem_of_empty in Hk.
    + intros k u e Hk. now rewrite lookup_empty in Hk.
  - simpl. rewrite difference_empty_L. exact Hfuel.
Qed.

(** C5, with the assumption the code needs: when every edge has a
    non-negative weight, the ids tell the nodes apart, [epsilon] is not
    negative and the heuristic is consistent (along every edge it drops by
    at most the weight of the edge), a path returned by [findPath] is a
    path of the graph from the start node to a node whose heuristic is
    zero, and its cost is at most [1 + epsilon] times the cost of any path
    from the start node to any node whose heuristic is zero; for
    [epsilon = 0] no such path is cheaper. *)
Theorem findPath_bounded (fuel : nat) (s : N) (pth : list E) :
  findPath N id heuristic neighbors distance epsilon fuel s = Some (Some pth) ->
  exists c t,
    path s pth c t /\ (heuristic t == 0)%Q /\
    (forall p' c' t',
        path s p' c' t' -> (heuristic t' == 0)%Q -> (c <= (1 + epsilon) * c')%Q) /\
    ((epsilon == 0)%Q ->
     forall p' c' t', path s p' c' t' -> (heuristic t' == 0)%Q -> (c <= c')%Q).
Proof.
  unfold findPath. cbv zeta. intros Hrun.
  destruct (loop_bound s fuel _ _ pth (inv_init s) Hrun) as (c & t & Hp & Ht & Hb).
  exists c, t. split; [exact Hp|]. split; [exact Ht|]. split.
  - exact Hb.
  - intros He p' c' t' Hp' Ht'. pose proof (Hb p' c' t' Hp' Ht') as Hc.
    unfold weight in Hc. rewrite He in Hc. lra.
Qed.

End Optimality.

End AstarFacts.

(** ** A graph of four nodes *)

Module AstarExample.

Import Astar AstarFacts.

(** The edges are [S -a-> A] of weight 1, [S -b-> B] of weight 3,
    [A -c-> B] of weight 1 and [B -g-> G] of weight 5. *)
Inductive node : Type := S | A | B | G.

Definition id (u : node) : Z :=
  match u with S => 0 | A => 1 | B => 2 | G => 3 end.

Inductive label : Type := a | b | c | g.

Definition neighbors (u : node) : list (label * node) :=
  match u with
  | S => [(a, A); (b, B)]
  | A => [(c, B)]
  | B => [(g, G)]
  | G => []
  end.

Definition distance (u : node) (e : label) : Q :=
  match u, e with
  | S, a => 1
  | S, b => 3
  | A, c => 1
  | B, g => 5
  | _, _ => 0
  end.

(** A heuristic that never overestimates the distance to [G], but drops by
    4 along the edge [c] of weight 1. *)
Definition steep (u : node) : Q :=
  match u with S => 1 | A => 5 | B => 1 | G => 0 end.

(** A consistent heuristic. *)
Definition gentle (u : node) : Q :=
  match u with S => 1 | A => 1 | B => 1 | G => 0 end.

Ltac edges H :=
  repeat (apply elem_of_cons in H as [H|H]; [injection H as -> ->|]);
  try (apply elem_of_nil in H; destruct H).

Lemma id_inj (u v : node) : id u = id v -> u = v.
Proof. destruct u, v; simpl; intros Heq; congruence. Qed.

Lemma distance_nonneg (u : node) (e : label) (v : node) :
  (e, v) ∈ neighbors u -> (0 <= distance u e)%Q.
Proof. destruct u; simpl; intros Hin; edges Hin; vm_compute; discriminate. Qed.

Lemma gentle_consistent (u : node) (e : label) (v : node) :
  (e, v) ∈ neighbors u -> (gentle u <= distance u e + gentle v)%Q.
Proof. destruct u; simpl; intros Hin; edges Hin; vm_compute; discriminate. Qed.

Lemma from_G p k t : path node neighbors distance G p k t -> (0 <= k)%Q.
Proof.
  inversion 1 as [|? e v ? ? ? He]; subst; [lra|]. simpl in He. edges He.
Qed.

Lemma from_B p k t : path node neighbors distance B p k t -> t = G -> (5 <= k)%Q.
Proof.
  inversion 1 as [|? e v ? k' ? He Hp]; subst; [discriminate|]. intros _.
  simpl in He. edges He. apply from_G in Hp. simpl. lra.
Qed.

Lemma from_A p k t : path node neighbors distance A p k t -> t = G -> (6 <= k)%Q.
Proof.
  inversion 1 as [|? e v ? k' ? He Hp]; subst; [discriminate|]. intros Ht.
  simpl in He. edges He. apply from_B in Hp; [|exact Ht]. simpl. lra.
Qed.

Lemma from_S p k t : path node neighbors distance S p k t -> t = G -> (7 <= k)%Q.
Proof.
  inversion 1 as [|? e v ? k' ? He Hp]; subst; [discriminate|]. intros Ht.
  simpl in He. edges He.
  - apply from_A in Hp; [|exact Ht]. simpl. lra.
  - apply from_B in Hp; [|exact Ht]. simpl. lra.
Qed.

(** C5, an instance: with the consistent heuristic and [epsilon = 1/2] the
    path found costs at most [3/2] times any path to the goal. *)
Lemma findPath_bounded_witness :
  exists k t,
    path node neighbors distance S [a; c; g] k t /\ (gentle t == 0)%Q /\
    (forall p' k' t',
        path node neighbors distance S p' k' t' -> (gentle t' == 0)%Q ->
        (k <= (1 + (1 # 2)) * k')%Q) /\
    (((1 # 2) == 0)%Q ->
     forall p' k' t', path node neighbors distance S p' k' t' -> (gentle t' == 0)%Q ->
                      (k <= k')%Q).
Proof.
  apply (findPath_bounded node id gentle neighbors distance (1 # 2)
           id_inj ltac:(vm_compute; discriminate) distance_nonneg gentle_consistent
           10%nat S [a; c; g]).
  vm_compute. reflexivity.
Defined.

(** With a heuristic that is zero nowhere, [findPath] returns [null]. *)
Lemma findPath_null_unreachable_witness :
  findPath node id (fun _ => 1%Q) neighbors distance 0 10 S = Some None /\
  (forall p k t, path node neighbors distance S p k t -> ~ (1 == 0)%Q).
Proof.
  split; [vm_compute; reflexivity|].
  apply (findPath_null_unreachable node id (fun _ => 1%Q) neighbors distance 0
           id_inj ltac:(vm_compute; discriminate) distance_nonneg
           ltac:(intros u e v Hin; pose proof (distance_nonneg u e v Hin); cbv beta; lra)
           10%nat S).
  vm_compute. reflexivity.
Defined.

(** On the four nodes five turns suffice. *)
Lemma findPath_returns_witness :
  is_Some (findPath node id gentle neighbors distance (1 # 2) 5 S).
Proof.
  apply (findPath_returns node id gentle neighbors distance (1 # 2)
           id_inj ltac:(vm_compute; discriminate) distance_nonneg gentle_consistent
           {[0; 1; 2; 3]} 5%nat S).
  - intros u. destruct u; simpl; set_solver.
  - vm_compute. lia.
Defined.

(** C5 as stated fails: [steep] never overestimates the cost of a path to
    [G] and is zero at [G] only, yet with [epsilon = 0] the path returned
    costs 8 while the path [a; c; g] costs 7. *)
Lemma findPath_admissible_not_shortest :
  (forall u p k, path node neighbors distance u p k G -> (steep u <= k)%Q) /\
  (forall u, (steep u == 0)%Q <-> u = G) /\
  findPath node id steep neighbors distance 0 10 S = Some (Some [b; g]) /\
  path node neighbors distance S [b; g] (3 + (5 + 0)) G /\
  path node neighbors distance S [a; c; g] (1 + (1 + (5 + 0))) G /\
  ~ (3 + (5 + 0) <= (1 + 0) * (1 + (1 + (5 + 0))))%Q.
Proof.
  split; [|split; [|split; [|split; [|split]]]].
  - intros u p k Hp. destruct u; simpl.
    + apply from_S in Hp; [lra | reflexivity].
    + apply from_A in Hp; [lra | reflexivity].
    + apply from_B in Hp; [lra | reflexivity].
    + apply from_G in Hp. lra.
  - intros u. destruct u; simpl; split; intros Hu; try discriminate Hu; reflexivity.
  - vm_compute. reflexivity.
  - apply (path_cons node neighbors distance S b B [g] (5 + 0) G); [simpl; set_solver|].
    apply (path_cons node neighbors distance B g G [] 0 G); [simpl; set_solver|].
    constructor.
  - apply (path_cons node neighbors distance S a A [c; g] (1 + (5 + 0)) G);
      [simpl; set_solver|].
    apply (path_cons node neighbors distance A c B [g] (5 + 0) G); [simpl; set_solver|].
    apply (path_cons node neighbors distance B g G [] 0 G); [simpl; set_solver|].
    constructor.
  - vm_compute. intros Hle. now apply Hle.
Qed.

End AstarExample.

(** * More of the engine

    The rest of this file covers what the properties above left out of
    [Canvace.Heap], [Canvace.MultiSet], [Canvace.Matrix],
    [Canvace.FrameTable], [Canvace.Buckets], [Canvace.TileMap] and
    [Canvace.View], and the classes [Canvace.List],
    [Canvace.RenderLoop] and [Canvace.Animator] and the instances of
    [Canvace.Stage]. *)

(** ** Canvace.Heap: searching, re-keying and emptying *)

From Stdlib Require Import Sorted.

Module HeapUse.

Import Heap.

(** The loop of the example in the documentation of [push] and [pop],
    [while (!heap.isEmpty()) { alert(heap.pop()); }]: the values popped,
    in order.  Every turn shortens the array. *)
Fixpoint popAll {A : Type} (compare : A -> A -> Z) (fuel : nat) (heap : list A)
  : option (list A) :=
  match fuel with
  | O => None
  | S fuel' =>
      if isEmpty heap then Some []
      else
        match pop compare heap with
        | (Some x, heap') => option_map (cons x) (popAll compare fuel' heap')
        | (None, _) => None
        end
  end.

Section Order.

Context {A : Type}.
Variable compare : A -> A -> Z.
Variable same : A -> A -> bool.
Variable key : A -> Q.
Variable valid : A -> Prop.
Hypothesis compare_lt : forall x y,
  valid x -> valid y -> ((compare x y <? 0) = true <-> (key x < key y)%Q).

(** The search goes down to any element that is [same], as long as no
    such element has a key above the one searched for. *)
Lemma find_reaches (fuel : nat) : forall (h : list A) (el : A) (n i t : nat) (y : A),
  Forall valid h -> valid el -> HeapFacts.is_heap key h ->
  HeapFacts.below n i t -> (n < fuel)%nat ->
  h !! t = Some y -> same el y = true ->
  (forall z, z ∈ h -> same el z = true -> (key z <= key el)%Q) ->
  is_Some (find compare same fuel h el i).
Proof.
  induction fuel as [|fuel IH]; intros h el n i t y Hv Hel Hh Hb Hn Hy Hs Hle; [lia|].
  simpl.
  assert (Hit : (i <= t)%nat) by (clear -Hb; induction Hb; unfold left, right in *; lia).
  destruct (lookup_lt_is_Some_2 h i) as [x Hx].
  { apply lookup_lt_Some in Hy. lia. }
  rewrite Hx. destruct (same el x) eqn:Hsx; [eauto|].
  assert (Hxy : (key x <= key y)%Q)
    by (eapply (HeapFacts.below_le key); eauto).
  assert (Hyel : (key y <= key el)%Q).
  { apply Hle; [|exact Hs]. eapply list_elem_of_lookup_2; eauto. }
  assert (Hcmp : (compare el x <? 0) = false).
  { destruct (compare el x <? 0) eqn:Hc; [|reflexivity].
    apply (compare_lt el x Hel) in Hc; [lra|]. eapply Forall_lookup_1; eauto. }
  rewrite Hcmp.
  inversion Hb as [i'|n' i' t' Hb'|n' i' t' Hb']; subst.
  - rewrite Hx in Hy. injection Hy as <-. congruence.
  - destruct (IH h el n' (left i) t y Hv Hel Hh Hb' ltac:(lia) Hy Hs Hle) as [r ->].
    eauto.
  - destruct (find compare same fuel h el (left i)) as [t'|]; [eauto|].
    exact (IH h el n' (right i) t y Hv Hel Hh Hb' ltac:(lia) Hy Hs Hle).
Qed.

(** [contains(element)] on a heap tells whether the array holds an
    element that is [same], provided [same] elements do not have a key
    above the key of the one searched for (as when [same] elements have
    equal keys). *)
Theorem contains_iff_same_element (h : list A) (el : A) :
  Forall valid h -> valid el -> HeapFacts.is_heap key h ->
  (forall z, z ∈ h -> same el z = true -> (key z <= key el)%Q) ->
  contains compare same h el = true <-> exists y, y ∈ h /\ same el y = true.
Proof.
  intros Hv Hel Hh Hle. unfold contains. rewrite bool_decide_eq_true. split.
  - intros [t Ht]. apply HeapFacts.find_sound in Ht as (y & Hy & Hs).
    exists y. split; [|exact Hs]. eapply list_elem_of_lookup_2; eauto.
  - intros (y & Hy & Hs). apply list_elem_of_lookup in Hy as [t Ht].
    destruct (HeapFacts.below_root t) as (n & Hn & Hb).
    apply lookup_lt_Some in Ht as Hlt.
    apply (find_reaches (length h) h el n 0 t y); auto. lia.
Qed.

(** Emptying a heap with [pop] yields its elements by ascending key. *)
Lemma popAll_sorted (fuel : nat) : forall (h : list A),
  Forall valid h -> HeapFacts.is_heap key h -> (length h < fuel)%nat ->
  exists out,
    popAll compare fuel h = Some out /\ out ≡ₚ h /\
    StronglySorted (fun x y => (key x <= key y)%Q) out.
Proof.
  induction fuel as [|fuel IH]; intros h Hv Hh Hlen; [lia|].
  simpl. destruct h as [|x0 h0] eqn:Heq.
  { exists []. simpl. repeat split; constructor. }
  rewrite <- Heq in *. assert (Hne : h <> []) by (rewrite Heq; discriminate).
  replace (isEmpty h) with false by (rewrite Heq; reflexivity).
  destruct (HeapFacts.pop_spec compare key valid compare_lt h Hv Hh Hne)
    as (x & h' & -> & Hperm & Hh' & Hmin).
  assert (Hv' : Forall valid h').
  { rewrite <- Hperm in Hv. now apply Forall_cons in Hv as [_ ?]. }
  destruct (IH h' Hv' Hh') as (out & -> & Hout & Hs).
  { apply Permutation_length in Hperm. simpl in Hperm. lia. }
  exists (x :: out). simpl. split; [reflexivity|]. split.
  - now rewrite Hout.
  - constructor; [exact Hs|]. apply Forall_forall. intros y Hy.
    apply Hmin. rewrite <- Hperm, <- Hout. now constructor.
Qed.

(** Whatever is pushed on a new heap, in any order, comes out of the
    loop [while (!heap.isEmpty()) heap.pop()] by ascending key. *)
Theorem push_then_popAll_sorted (l : list A) :
  Forall valid l ->
  exists out,
    popAll compare (S (length l)) (fold_left (push compare) l []) = Some out /\
    out ≡ₚ l /\
    StronglySorted (fun x y => (key x <= key y)%Q) out.
Proof.
  intros Hl.
  destruct (HeapFacts.push_all_spec compare key valid compare_lt l [] (Forall_nil_2 _) Hl)
    as (Hv & Hheap & Hperm).
  { intros j x y _ Hx. now rewrite lookup_nil in Hx. }
  rewrite app_nil_r in Hperm.
  destruct (popAll_sorted (S (length l)) _ Hv Hheap) as (out & Hrun & Hout & Hs).
  { apply Permutation_length in Hperm. lia. }
  exists out. split; [exact Hrun|]. split; [now rewrite Hout | exact Hs].
Qed.

End Order.

(** [5, 3, 8, 1] come out as [1, 3, 5, 8]. *)
Lemma push_then_popAll_sorted_witness :
  exists out,
    popAll (fun x y => x - y) 5 (fold_left (push (fun x y => x - y)) [5; 3; 8; 1] [])
      = Some out /\
    out ≡ₚ [5; 3; 8; 1] /\
    StronglySorted (fun x y => (inject_Z x <= inject_Z y)%Q) out.
Proof.
  apply (push_then_popAll_sorted (fun x y => x - y) inject_Z (fun _ => True)
           ltac:(intros x y _ _; rewrite Z.ltb_lt, <- Zlt_Qlt; lia) [5; 3; 8; 1]).
  repeat constructor.
Defined.

(** The number 3 is found among [5, 3, 8, 1]. *)
Lemma contains_iff_same_element_witness :
  contains (fun x y => x - y) Z.eqb
    (fold_left (push (fun x y => x - y)) [5; 3; 8; 1] []) 3 = true <->
  exists y, y ∈ fold_left (push (fun x y => x - y)) [5; 3; 8; 1] [] /\ (3 =? y) = true.
Proof.
  apply (contains_iff_same_element (fun x y => x - y) Z.eqb inject_Z (fun _ => True)
           ltac:(intros x y _ _; rewrite Z.ltb_lt, <- Zlt_Qlt; lia)
           (fold_left (push (fun x y => x - y)) [5; 3; 8; 1] []) 3).
  - vm_compute. repeat constructor.
  - exact I.
  - apply (HeapFacts.push_all_spec (fun x y => x - y) inject_Z (fun _ => True)
             ltac:(intros x y _ _; rewrite Z.ltb_lt, <- Zlt_Qlt; lia) [5; 3; 8; 1] []).
    + constructor.
    + repeat constructor.
    + intros j x y _ Hx. now rewrite lookup_nil in Hx.
  - intros z _ Hz. apply Z.eqb_eq in Hz. subst z. apply Qle_refl.
Defined.

(** *** decreaseKey *)

Section Rekey.

Context {A T : Type}.
Variable compare : T -> A -> A -> Z.
Variable same : A -> A -> bool.
Variable key : T -> A -> Q.
Variable valid : A -> Prop.
Hypothesis compare_key : forall tbl x y,
  valid x -> valid y -> ((compare tbl x y <? 0) = true <-> (key tbl x < key tbl y)%Q).

(** [decreaseKey(element, decrease)] has no effect and returns [false]
    when no element of the heap is [same] as the argument.  When exactly
    one is, its key is not above the key of the argument (as when the
    argument is the stored element itself, or [same] elements compare
    equal: the search prunes the subtrees whose root the argument
    compares below), and [decrease] lowers its key and no other, the
    call returns [true] and the array holds the same elements and is a
    heap for the new keys. *)
Theorem decreaseKey_restores_heap (h : list A) (el : A) (decrease : A -> T -> T) (tbl : T) :
  Forall valid h -> valid el -> HeapFacts.is_heap (key tbl) h ->
  ((forall z, z ∈ h -> same el z = false) ->
   decreaseKey compare same h el decrease tbl = (tbl, h, false)) /\
  (forall t y,
      h !! t = Some y -> same el y = true -> (key tbl y <= key tbl el)%Q ->
      (forall j z, h !! j = Some z -> same el z = true -> j = t) ->
      (key (decrease y tbl) y <= key tbl y)%Q ->
      (forall j z, h !! j = Some z -> j <> t -> key (decrease y tbl) z = key tbl z) ->
      exists h',
        decreaseKey compare same h el decrease tbl = (decrease y tbl, h', true) /\
        h' ≡ₚ h /\ HeapFacts.is_heap (key (decrease y tbl)) h').
Proof.
  intros Hv Hel Hheap. split.
  - intros Hno. unfold decreaseKey.
    destruct (find (compare tbl) same (length h) h el 0) as [t|] eqn:Hfind; [|reflexivity].
    apply HeapFacts.find_sound in Hfind as (y & Hy & Hs).
    rewrite (Hno y) in Hs; [discriminate|]. eapply list_elem_of_lookup_2; eauto.
  - intros t y Ht Hs Hle Huniq Hlow Hother.
    assert (Hfind : find (compare tbl) same (length h) h el 0 = Some t).
    { apply (HeapFacts.find_complete (compare tbl) same (key tbl) valid
               (compare_key tbl) h el t y); auto. }
    unfold decreaseKey. rewrite Hfind, Ht.
    eexists. split; [reflexivity|]. split; [apply HeapFacts.siftUp_perm|].
    apply (HeapFacts.siftUp_is_heap (compare (decrease y tbl)) (key (decrease y tbl))
             valid (compare_key (decrease y tbl))); [exact Hv | | lia].
    split.
    + intros j a b Hj Hne Ha Hb. rewrite (Hother j b Hb Hne).
      pose proof (Hheap j a b Hj Ha Hb) as Hab.
      destruct (decide (parent j = t)) as [Hpt|Hpt].
      * rewrite Hpt, Ht in Ha. injection Ha as <-. lra.
      * now rewrite (Hother _ a Ha Hpt).
    + intros c a b Ht0 Hc Hpc Ha Hb.
      pose proof (HeapFacts.parent_lt t Ht0) as Hpt.
      pose proof (HeapFacts.parent_lt c Hc) as Hpcl.
      rewrite (Hother _ a Ha ltac:(lia)), (Hother c b Hb ltac:(lia)).
      pose proof (Hheap t a y Ht0 Ha Ht).
      rewrite <- Hpc in Ht. pose proof (Hheap c y b Hc Ht Hb). lra.
Qed.

End Rekey.

(** Three tasks [0], [1], [2] of priorities 1, 5, 7 (a table from task to
    priority): the priority of task 2 is lowered to 0. *)
Lemma decreaseKey_restores_heap_witness :
  let tbl := fun n : nat => match n with O => 1 | S O => 5 | _ => 7 end in
  let lower := fun (x : nat) (tb : nat -> Z) (n : nat) => if (n =? x)%nat then 0 else tb n in
  exists h',
    decreaseKey (fun tb x y => tb x - tb y) Nat.eqb [0; 1; 2]%nat 2%nat lower tbl
      = (lower 2%nat tbl, h', true) /\
    h' ≡ₚ [0; 1; 2]%nat /\
    HeapFacts.is_heap (fun x => inject_Z (lower 2%nat tbl x)) h'.
Proof.
  intros tbl lower.
  refine (proj2 (decreaseKey_restores_heap (fun tb x y => tb x - tb y) Nat.eqb
                   (fun tb x => inject_Z (tb x)) (fun _ => True) _
                   [0; 1; 2]%nat 2%nat lower tbl _ I _) 2%nat 2%nat eq_refl eq_refl _ _ _ _).
  - intros tb x y _ _. rewrite Z.ltb_lt, <- Zlt_Qlt. lia.
  - repeat constructor.
  - intros j x y Hj. destruct j as [|[|[|j]]]; simpl; intros Hx Hy; simplify_eq;
      try lia; vm_compute; discriminate.
  - apply Qle_refl.
  - intros j z. destruct j as [|[|[|j]]]; simpl; intros Hz Hs; simplify_eq;
      reflexivity.
  - vm_compute. discriminate.
  - intros j z. destruct j as [|[|[|j]]]; simpl; intros Hz Hne; simplify_eq;
      reflexivity.
Defined.

(** The condition on the argument's key is needed: elements that carry
    their key (an id and a key, [same] by the id), the heap
    [(0, 3); (1, 5)] and the argument [(1, 2)], whose key is below the
    key 5 of the stored element with its id.  The argument compares
    below the root, the search stops there, and [decreaseKey] returns
    [false] although the heap holds the element. *)
Example decreaseKey_stale_argument_not_found :
  decreaseKey (fun (_ : unit) (x y : Z * Z) => snd x - snd y)
    (fun x y : Z * Z => fst x =? fst y)
    [(0, 3); (1, 5)] (1, 2) (fun _ t => t) tt
  = (tt, [(0, 3); (1, 5)], false).
Proof. reflexivity. Qed.

End HeapUse.

(** ** Canvace.MultiSet: counting and removers *)

Module MultiSetUse.

Import MultiSet.

(** [count()], [isEmpty()] and [clear()]; [clear] does not reset
    [nextId]. *)
Definition isEmpty {A : Type} (m : t A) : bool := count m =? 0.

Definition clear {A : Type} (m : t A) : t A := Make [] (nextId m) 0.

(** A call on the multiset: [add(x)], a call of the remover an earlier
    [add] returned (named by the id it closes over) or [clear()]. *)
Inductive op (A : Type) : Type :=
| Add (x : A)
| Remove (id : nat)
| Clear.
Arguments Add {A} x.
Arguments Remove {A} id.
Arguments Clear {A}.

Definition step {A : Type} (m : t A) (o : op A) : t A :=
  match o with
  | Add x => fst (add m x)
  | Remove id => fst (remove m id)
  | Clear => clear m
  end.

(** The ids in use are below [nextId] and distinct, and [count] is the
    number of elements. *)
Record wf {A : Type} (m : t A) : Prop := {
  wf_fresh : forall e, e ∈ elements m -> (fst e < nextId m)%nat;
  wf_nodup : NoDup (map fst (elements m));
  wf_count : count m = Z.of_nat (length (elements m))
}.

Lemma hasId_spec {A : Type} (m : t A) (id : nat) :
  hasId m id = true <-> id ∈ map fst (elements m).
Proof.
  unfold hasId. rewrite existsb_exists. split.
  - intros (e & He & Heq). apply Nat.eqb_eq in Heq. subst id.
    apply list_elem_of_fmap. exists e. split; [reflexivity|]. now apply list_elem_of_In.
  - intros Hin. apply list_elem_of_fmap in Hin as (e & -> & He).
    exists e. split; [now apply list_elem_of_In | apply Nat.eqb_refl].
Qed.

Lemma keeps_spec {A : Type} (id : nat) (e : nat * A) :
  Is_true (negb (Nat.eqb (fst e) id)) <-> fst e <> id.
Proof.
  destruct (Nat.eqb_spec (fst e) id) as [Heq|Hne]; simpl; split; auto; contradiction.
Qed.

Lemma filter_id_other {A : Type} (l : list (nat * A)) (id : nat) :
  id ∉ map fst l -> filter (fun e => negb (Nat.eqb (fst e) id)) l = l.
Proof.
  induction l as [|[k x] l IH]; intros Hin; [reflexivity|].
  rewrite filter_cons_True.
  - f_equal. apply IH. intros Hin'. apply Hin. simpl. now constructor.
  - apply keeps_spec. simpl. intros ->. apply Hin. simpl. constructor.
Qed.

Lemma filter_id_length {A : Type} (l : list (nat * A)) (id : nat) :
  NoDup (map fst l) -> id ∈ map fst l ->
  length (filter (fun e => negb (Nat.eqb (fst e) id)) l) = pred (length l).
Proof.
  induction l as [|[k x] l IH]; simpl; intros Hnd Hin; [now apply elem_of_nil in Hin|].
  apply NoDup_cons in Hnd as [Hk Hnd].
  destruct (decide (k = id)) as [->|Hne].
  - rewrite filter_cons_False by (rewrite keeps_spec; simpl; auto).
    now rewrite (filter_id_other l id Hk).
  - rewrite filter_cons_True by (rewrite keeps_spec; simpl; auto).
    apply elem_of_cons in Hin as [->|Hin]; [contradiction|].
    simpl. rewrite (IH Hnd Hin). destruct l; [now apply elem_of_nil in Hin | reflexivity].
Qed.

Lemma filter_id_sub {A : Type} (l : list (nat * A)) (id : nat) (e : nat * A) :
  e ∈ filter (fun e => negb (Nat.eqb (fst e) id)) l -> e ∈ l /\ fst e <> id.
Proof.
  intros He. apply list_elem_of_filter in He as [Hk He].
  split; [exact He | now apply keeps_spec].
Qed.

Lemma wf_empty {A : Type} : wf (@empty A).
Proof. split; simpl; [intros e He; now apply elem_of_nil in He | constructor | reflexivity]. Qed.

Lemma wf_step {A : Type} (m : t A) (o : op A) : wf m -> wf (step m o).
Proof.
  intros [Hf Hnd Hc]. destruct o as [x|id|]; simpl.
  - split; simpl.
    + intros e He. apply elem_of_app in He as [He|He].
      * specialize (Hf e He). lia.
      * apply list_elem_of_singleton in He. subst e. simpl. lia.
    + rewrite map_app. simpl. apply NoDup_app. split; [exact Hnd|]. split.
      * intros k Hk Hk'. apply list_elem_of_singleton in Hk'. subst k.
        apply list_elem_of_fmap in Hk as (e & Heq & He). specialize (Hf e He). lia.
      * repeat constructor. apply not_elem_of_nil.
    + rewrite length_app. simpl. lia.
  - unfold remove. destruct (hasId m id) eqn:Hhas; simpl; [|now split].
    apply hasId_spec in Hhas. split; simpl.
    + intros e He. apply filter_id_sub in He as [He _]. now apply Hf.
    + clear -Hnd. induction (elements m) as [|[k x] l IH]; [constructor|].
      simpl in Hnd. apply NoDup_cons in Hnd as [Hk Hnd].
      destruct (decide (k = id)) as [->|Hne].
      * rewrite filter_cons_False by (rewrite keeps_spec; simpl; auto). now apply IH.
      * rewrite filter_cons_True by (rewrite keeps_spec; simpl; auto).
        simpl. apply NoDup_cons. split; [|now apply IH].
        intros Hin. apply Hk. apply list_elem_of_fmap in Hin as (e & Heq & He).
        apply filter_id_sub in He as [He _]. apply list_elem_of_fmap. eauto.
    + rewrite (filter_id_length _ id Hnd Hhas), Hc.
      destruct (elements m); [now apply elem_of_nil in Hhas | simpl; lia].
  - split; simpl; [intros e He; now apply elem_of_nil in He | constructor | reflexivity].
Qed.

Lemma wf_run {A : Type} (ops : list (op A)) : forall m, wf m -> wf (fold_left step ops m).
Proof.
  induction ops as [|o ops IH]; intros m Hm; simpl; [exact Hm|].
  apply IH. now apply wf_step.
Qed.

(** After any calls of [add], of removers (each any number of times) and
    of [clear] on a new multiset, [count()] is the number of elements
    [fastForEach] enumerates, and [isEmpty()] tells whether there is
    none. *)
Theorem count_is_number_enumerated {A : Type} (ops : list (op A)) :
  let m := fold_left step ops empty in
  count m = Z.of_nat (length (fastForEach m)) /\
  (isEmpty m = true <-> fastForEach m = []).
Proof.
  intros m. pose proof (wf_run ops empty wf_empty) as [_ _ Hc]. fold m in Hc.
  unfold fastForEach, isEmpty. rewrite length_map. split; [exact Hc|].
  rewrite Hc, Z.eqb_eq. destruct (elements m); simpl; split; intros Heq;
    try reflexivity; try discriminate; lia.
Qed.

(** The remover [add(x)] returns, called at any later time at which it
    has not been called yet and the multiset has not been cleared: it
    returns [true] and takes [x], and nothing else, out of the
    enumeration; any further call returns [false] and changes nothing. *)
Theorem remover_removes_once {A : Type} (before after : list (op A)) (x : A) :
  let m0 := fold_left step before empty in
  let id := snd (add m0 x) in
  let m := fold_left step after (fst (add m0 x)) in
  (forall o, o ∈ after -> o <> Remove id /\ o <> Clear) ->
  exists l1 l2,
    fastForEach m = l1 ++ x :: l2 /\
    remove m id = (fst (remove m id), true) /\
    fastForEach (fst (remove m id)) = l1 ++ l2 /\
    remove (fst (remove m id)) id = (fst (remove m id), false).
Proof.
  intros m0 id m Hafter.
  pose proof (wf_run before empty wf_empty) as Hwf0. fold m0 in Hwf0.
  assert (Hwf : wf m) by (apply wf_run, (wf_step m0 (Add x) Hwf0)).
  (* the element added is still there, under its id *)
  assert (Hin : exists l1 l2, elements m = l1 ++ (id, x) :: l2 /\ (id < nextId m)%nat).
  { subst m. revert Hafter.
    assert (Hstart : exists l1 l2,
               elements (fst (add m0 x)) = l1 ++ (id, x) :: l2 /\
               (id < nextId (fst (add m0 x)))%nat).
    { exists (elements m0), []. simpl. split; [reflexivity | unfold id; simpl; lia]. }
    revert Hstart. generalize (fst (add m0 x)). clear.
    induction after as [|o after IH]; intros m1 Hstart Hafter; simpl; [exact Hstart|].
    apply IH; [|intros o' Ho'; apply Hafter; now constructor].
    destruct Hstart as (l1 & l2 & Hel & Hlt).
    destruct (Hafter o (list_elem_of_here _ _)) as [Hr Hc].
    destruct o as [y|k|]; simpl; [| |congruence].
    - exists l1, (l2 ++ [(nextId m1, y)]). rewrite Hel, <- app_assoc. simpl.
      split; [reflexivity | lia].
    - unfold remove. destruct (hasId m1 k); simpl; [|eauto].
      rewrite Hel, filter_app.
      rewrite filter_cons_True by (rewrite keeps_spec; simpl; congruence). eauto. }
  destruct Hin as (l1 & l2 & Hel & Hlt).
  destruct Hwf as [Hf Hnd Hc].
  assert (Hhas : hasId m id = true).
  { apply hasId_spec. rewrite Hel, map_app. apply elem_of_app. right. simpl. constructor. }
  rewrite Hel, map_app in Hnd. simpl in Hnd.
  apply NoDup_app in Hnd as (Hnd1 & Hdisj & Hnd2).
  apply NoDup_cons in Hnd2 as [Hid2 Hnd2].
  assert (Hid1 : id ∉ map fst l1).
  { intros Hin. apply (Hdisj id Hin). constructor. }
  assert (Hfilter : filter (fun e => negb (Nat.eqb (fst e) id)) (elements m) = l1 ++ l2).
  { rewrite Hel, filter_app.
    rewrite filter_cons_False by (rewrite keeps_spec; simpl; auto).
    now rewrite (filter_id_other l1 id Hid1), (filter_id_other l2 id Hid2). }
  exists (map snd l1), (map snd l2).
  split; [unfold fastForEach; rewrite Hel, map_app; reflexivity|].
  assert (Hrem : remove m id =
                 (Make (l1 ++ l2) (nextId m) (count m - 1), true)).
  { unfold remove. now rewrite Hhas, Hfilter. }
  rewrite Hrem. simpl. split; [reflexivity|]. split.
  - unfold fastForEach. simpl. now rewrite map_app.
  - unfold remove.
    assert (Hno : hasId (Make (l1 ++ l2) (nextId m) (count m - 1)) id = false).
    { apply not_true_is_false. intros Hh. apply hasId_spec in Hh. simpl in Hh.
      rewrite map_app in Hh. apply elem_of_app in Hh as [?|?]; contradiction. }
    now rewrite Hno.
Qed.

(** [add(7)] between other calls, then its remover twice. *)
Lemma remover_removes_once_witness :
  exists l1 l2,
    fastForEach (fold_left step [Add 8; Remove 0%nat]
                   (fst (add (fold_left step [Add 5; Add 6] empty) 7)))
      = l1 ++ 7 :: l2 /\
    remove (fold_left step [Add 8; Remove 0%nat]
              (fst (add (fold_left step [Add 5; Add 6] empty) 7))) 2
      = (fst (remove (fold_left step [Add 8; Remove 0%nat]
                        (fst (add (fold_left step [Add 5; Add 6] empty) 7))) 2), true) /\
    fastForEach (fst (remove (fold_left step [Add 8; Remove 0%nat]
                                (fst (add (fold_left step [Add 5; Add 6] empty) 7))) 2))
      = l1 ++ l2 /\
    remove (fst (remove (fold_left step [Add 8; Remove 0%nat]
                           (fst (add (fold_left step [Add 5; Add 6] empty) 7))) 2)) 2
      = (fst (remove (fold_left step [Add 8; Remove 0%nat]
                        (fst (add (fold_left step [Add 5; Add 6] empty) 7))) 2), false).
Proof.
  apply (remover_removes_once [Add 5; Add 6] [Add 8; Remove 0%nat] 7).
  intros o Ho. apply elem_of_cons in Ho as [->|Ho]; [split; discriminate|].
  apply list_elem_of_singleton in Ho. subst o. split; discriminate.
Defined.

End MultiSetUse.

(** ** Canvace.Matrix: cells and layers *)

Module MatrixUse.

Import Matrix.

(** A value [put] in a cell is read back, and [erase] takes it out again
    and restores every cell to what it was before an empty cell was
    filled; but the layer, once written to, stays in [layers]: [erase]
    never removes it, so [hasLayer] (and the enumeration of layers) keeps
    reporting a layer that has no cell left.  A second [erase] finds
    nothing. *)
Theorem put_erase_keeps_layer {V : Type} (m : t V) (i j k : Z) (v : V) :
  let m1 := put m i j k v in
  let m2 := fst (erase m1 i j k) in
  get m1 i j k = Some v /\ has m1 i j k = true /\
  (forall i' j' k', (i', j', k') <> (i, j, k) -> get m1 i' j' k' = get m i' j' k') /\
  erase m1 i j k = (m2, true) /\
  get m2 i j k = None /\ has m2 i j k = false /\
  (forall i' j' k', (i', j', k') <> (i, j, k) -> get m2 i' j' k' = get m i' j' k') /\
  hasLayer m2 k = true /\
  erase m2 i j k = (m2, false).
Proof.
  intros m1 m2.
  assert (Hget : get m1 i j k = Some v) by (unfold m1, get, put; simpl; apply lookup_insert_eq).
  assert (Herase : erase m1 i j k = (Make (delete (i, j, k) (data m1)) (layers m1), true)).
  { unfold erase. unfold get in Hget. now rewrite Hget. }
  assert (Hm2 : m2 = Make (delete (i, j, k) (data m1)) (layers m1))
    by (unfold m2; now rewrite Herase).
  assert (Hnone : get m2 i j k = None)
    by (rewrite Hm2; unfold get; simpl; apply lookup_delete_eq).
  split; [exact Hget|]. split.
  { unfold has. apply bool_decide_eq_true. unfold get in Hget. rewrite Hget. eauto. }
  split.
  { intros i' j' k' Hne. unfold m1, get, put. simpl. now apply lookup_insert_ne. }
  split; [now rewrite Hm2|]. split; [exact Hnone|]. split.
  { unfold has. apply bool_decide_eq_false. unfold get in Hnone. rewrite Hnone.
    intros [? [=]]. }
  split.
  { intros i' j' k' Hne. rewrite Hm2. unfold get, m1, put. simpl.
    rewrite lookup_delete_ne by congruence. now apply lookup_insert_ne. }
  split.
  { rewrite Hm2. unfold hasLayer, m1, put. simpl. apply bool_decide_eq_true.
    apply elem_of_union_l, elem_of_singleton. reflexivity. }
  unfold erase. unfold get in Hnone. now rewrite Hnone.
Qed.

End MatrixUse.

(** ** Canvace.FrameTable: the private [gcd] and the frames shown *)

Module FrameTableUse.

Import FrameTable FrameTableFacts.

Lemma gcd_loop_Zgcd (fuel : nat) : forall a b : Z,
  (Z.abs_nat b < fuel)%nat -> Z.abs (gcd_loop fuel a b) = Z.gcd a b.
Proof.
  induction fuel as [|fuel IH]; intros a b Hfuel; [lia|].
  simpl. destruct (Z.eqb_spec b 0) as [->|Hb].
  - now rewrite Z.gcd_0_r.
  - pose proof (Z.rem_bound_abs a b Hb) as Hrem.
    rewrite (IH b (Z.rem a b)) by lia.
    rewrite Z.gcd_comm, (Z.gcd_rem a b Hb). apply Z.gcd_comm.
Qed.

Lemma gcd_loop_sign (fuel : nat) : forall a b : Z,
  0 <= a -> 0 <= b -> 0 <= gcd_loop fuel a b.
Proof.
  induction fuel as [|fuel IH]; intros a b Ha Hb; simpl.
  - destruct (b =? 0); exact Ha.
  - destruct (Z.eqb_spec b 0) as [->|Hne]; [exact Ha|].
    apply IH; [exact Hb|]. apply Z.rem_nonneg; lia.
Qed.

Lemma gcd_Zgcd (a b : Z) : 0 <= a -> 0 <= b -> gcd a b = Z.gcd a b.
Proof.
  intros Ha Hb. rewrite <- (gcd_loop_Zgcd (S (Z.abs_nat b)) a b) by lia.
  symmetry. apply Z.abs_eq. now apply gcd_loop_sign.
Qed.

(** The private [gcd(a, b)] is the greatest common divisor: exactly for
    arguments that are not negative, and up to its sign for all integers
    (the remainder [%] takes the sign of the dividend). *)
Theorem gcd_is_greatest_common_divisor (a b : Z) :
  Z.abs (gcd a b) = Z.gcd a b /\ (0 <= a -> 0 <= b -> gcd a b = Z.gcd a b).
Proof.
  split; [apply gcd_loop_Zgcd; lia | apply gcd_Zgcd].
Qed.

(** *** Building and synchronizing an animation *)

(** Every declared duration is a non-negative integer. *)
Definition nonneg (f : frame) : Prop :=
  forall d, frame_duration f = Some d -> 0 <= d.

(** The frame [lastFrameId] names: the last one without a duration. *)
Definition last_untimed (fs : list frame) (acc : option Z) : option Z :=
  fold_left
    (fun a f => match frame_duration f with Some _ => a | None => Some (frame_id f) end)
    fs acc.

Lemma total_duration_app (l1 l2 : list frame) :
  total_duration (l1 ++ l2) = total_duration l1 + total_duration l2.
Proof. induction l1 as [|f l1 IH]; simpl; [reflexivity|]. rewrite IH. lia. Qed.

Lemma total_duration_nonneg' (fs : list frame) : Forall nonneg fs -> 0 <= total_duration fs.
Proof.
  induction 1 as [|f fs Hf _ IH]; simpl; [lia|].
  destruct (frame_duration f) as [d|] eqn:Hd; simpl; [|lia].
  specialize (Hf d Hd). lia.
Qed.

Lemma scan_frames_fold (fs : list frame) : forall acc,
  Forall nonneg fs ->
  let sc := fold_left
    (fun acc f =>
       match frame_duration f with
       | Some d => Scan (gcd (s_partialUnit acc) d) (s_fullDuration acc + d)
                        (s_looping acc) (s_lastFrameId acc)
       | None => Scan (s_partialUnit acc) (s_fullDuration acc) false
                      (Some (frame_id f))
       end) fs acc in
  0 <= s_partialUnit acc -> 0 <= s_fullDuration acc ->
  (s_partialUnit acc = 0 -> s_fullDuration acc = 0) ->
  s_fullDuration sc = s_fullDuration acc + total_duration fs /\
  0 <= s_partialUnit sc /\
  (s_partialUnit sc = 0 -> s_fullDuration sc = 0) /\
  s_lastFrameId sc = last_untimed fs (s_lastFrameId acc) /\
  (s_looping acc = false \/ (exists f, f ∈ fs /\ frame_duration f = None) ->
   s_looping sc = false).
Proof.
  induction fs as [|f fs IH]; intros acc Hall; simpl; intros Hp Hfull Hz.
  - repeat split; auto; try lia.
    intros [Hl|(f & Hin & _)]; [exact Hl | now apply elem_of_nil in Hin].
  - apply Forall_cons in Hall as [Hf Hall].
    destruct (frame_duration f) as [d|] eqn:Hd.
    + specialize (Hf d Hd).
      pose proof (gcd_Zgcd (s_partialUnit acc) d Hp Hf) as Hg.
      destruct (IH (Scan (gcd (s_partialUnit acc) d) (s_fullDuration acc + d)
                      (s_looping acc) (s_lastFrameId acc)) Hall)
        as (H1 & H2 & H3 & H4 & H5); simpl.
      * rewrite Hg. apply Z.gcd_nonneg.
      * lia.
      * rewrite Hg. intros H0. apply Z.gcd_eq_0 in H0 as [Ha Hb]. rewrite (Hz Ha). lia.
      * simpl in *. repeat split; auto; try lia.
        intros [Hl|(g & Hin & Hg')]; apply H5; [now left|].
        apply elem_of_cons in Hin as [->|Hin]; [congruence|]. right. eauto.
    + destruct (IH (Scan (s_partialUnit acc) (s_fullDuration acc) false
                      (Some (frame_id f))) Hall) as (H1 & H2 & H3 & H4 & H5);
        simpl; auto.
      repeat split; auto; intros _; apply H5; now left.
Qed.

(** The loop of [synchronize] ends, and never reads past the last frame,
    when the unit is positive. *)
Lemma sync_loop_returns (fs : list frame) (u : Z) :
  Forall nonneg fs -> 0 < u ->
  forall fuel time idx ft tbl,
    (Z.to_nat (total_duration fs - time) <= fuel)%nat ->
    (idx < length fs)%nat ->
    total_duration (take idx fs) + ft <= time ->
    exists tbl', sync_loop fuel fs (total_duration fs) u time idx ft tbl = Ok tbl'.
Proof.
  intros Hall Hu.
  induction fuel as [|fuel IH]; intros time idx ft tbl Hfuel Hidx Hinv.
  - simpl. destruct (Z.ltb_spec time (total_duration fs)); [lia | eauto].
  - simpl. destruct (Z.ltb_spec time (total_duration fs)) as [Hlt|]; [|eauto].
    destruct (lookup_lt_is_Some_2 fs idx Hidx) as [f Hf]. rewrite Hf.
    assert (Hsplit : total_duration (take (S idx) fs) =
                     total_duration (take idx fs) + default 0 (frame_duration f)).
    { rewrite (take_S_r fs idx f Hf), total_duration_app. simpl. lia. }
    assert (Hle : total_duration (take (S idx) fs) <= total_duration fs).
    { rewrite <- (take_drop (S idx) fs) at 2. rewrite total_duration_app.
      pose proof (total_duration_nonneg' (drop (S idx) fs)
                    (Forall_drop _ _ _ Hall)). lia. }
    destruct (frame_duration f) as [d|] eqn:Hd; simpl in Hsplit.
    + destruct (Z.ltb_spec d ft) as [Hadv|Hstay].
      * assert (Hidx' : (S idx < length fs)%nat).
        { destruct (Nat.lt_ge_cases (S idx) (length fs)) as [?|Hge]; [assumption|].
          rewrite take_ge in Hsplit by lia. lia. }
        destruct (lookup_lt_is_Some_2 fs (S idx) Hidx') as [f' Hf']. rewrite Hf'.
        apply IH; [lia | exact Hidx' | lia].
      * rewrite Hf. apply IH; [lia | exact Hidx | lia].
    + rewrite Hf. apply IH; [lia | exact Hidx | lia].
Qed.

(** What every animation function of a frame list of two or more frames
    keeps, however often it is synchronized. *)
Record shaped (fs : list frame) (a : animation) : Prop := {
  shaped_frames : frames a = fs;
  shaped_static : static a = false;
  shaped_full : fullDuration a = total_duration fs;
  shaped_partial : 0 <= partialUnit a;
  shaped_zero : partialUnit a = 0 -> fullDuration a = 0;
  shaped_last : lastFrameId a = last_untimed fs None;
  shaped_looping : (exists f, f ∈ fs /\ frame_duration f = None) -> looping a = false
}.

Lemma synchronize1_returns fs period a :
  Forall nonneg fs -> (0 < length fs)%nat -> shaped fs a -> 0 <= period ->
  exists a', synchronize1 period a = Ok a' /\ shaped fs a'.
Proof.
  intros Hall Hlen [Hf Hs Hfull Hp Hz Hl Hlp] Hperiod. unfold synchronize1.
  pose proof (gcd_Zgcd (partialUnit a) period Hp Hperiod) as Hg.
  assert (Hloop : exists tbl,
             sync_loop (Z.to_nat (fullDuration a)) (frames a) (fullDuration a)
               (gcd (partialUnit a) period) 0 0 0 ∅ = Ok tbl).
  { rewrite Hf, Hfull.
    destruct (Z_le_gt_dec (total_duration fs) 0) as [Hzero|Hpos].
    - exists ∅. destruct (Z.to_nat (total_duration fs)); simpl;
        destruct (Z.ltb_spec 0 (total_duration fs)); try lia; reflexivity.
    - apply sync_loop_returns; auto; [|lia|simpl; lia].
      rewrite Hg. pose proof (Z.gcd_nonneg (partialUnit a) period).
      destruct (Z.eq_dec (Z.gcd (partialUnit a) period) 0) as [H0|]; [|lia].
      apply Z.gcd_eq_0 in H0 as [Ha _]. specialize (Hz Ha). lia. }
  destruct Hloop as [tbl ->]. simpl. eexists. split; [reflexivity|].
  split; simpl; auto.
Qed.

Lemma Animation_returns (fs : list frame) :
  Forall nonneg fs -> (2 <= length fs)%nat ->
  exists a, Animation fs = Ok a /\ shaped fs a.
Proof.
  intros Hall Hlen. unfold Animation.
  destruct (Nat.ltb_spec (length fs) 2) as [?|_]; [lia|].
  destruct (scan_frames_fold fs (Scan 0 0 true None) Hall) as (H1 & H2 & H3 & H4 & H5);
    simpl; try lia.
  fold (scan_frames fs) in H1, H2, H3, H4, H5. simpl in H1, H4, H5.
  apply synchronize1_returns; auto; [lia|].
  split; simpl; auto.
Qed.

Lemma registered_shaped (fs : list frame) (a : animation) :
  Forall nonneg fs -> (2 <= length fs)%nat -> registered fs a -> shaped fs a.
Proof.
  intros Hall Hlen. induction 1 as [a Hnew|period a a' _ IH Hsync].
  - destruct (Animation_returns fs Hall Hlen) as (a0 & Ha0 & Hsh). congruence.
  - destruct IH as [Hf Hs Hfull Hp Hz Hl Hlp].
    unfold synchronize1 in Hsync. apply bind_Ok in Hsync as (tbl & _ & Ha').
    injection Ha' as <-. split; simpl; auto.
Qed.

(** [new Animation(frames)] returns for every list of frames whose
    declared durations are non-negative integers, and so does every
    later [synchronize(period)] with a non-negative period: the loop
    that fills the table ends and never reads past the last frame. *)
Theorem animation_is_built_and_synchronized (fs : list frame) :
  Forall nonneg fs ->
  (exists a, Animation fs = Ok a) /\
  (forall a period,
      registered fs a -> 0 <= period -> exists a', synchronize1 period a = Ok a').
Proof.
  intros Hall.
  destruct (Nat.lt_ge_cases (length fs) 2) as [Hshort|Hlen].
  - assert (Hnew : Animation fs = Ok (MkAnimation fs true 0 0 true None ∅ 0)).
    { unfold Animation. destruct (Nat.ltb_spec (length fs) 2); [reflexivity | lia]. }
    split; [eauto|].
    assert (Hreg : forall a, registered fs a -> fullDuration a = 0).
    { induction 1 as [a Ha|period a a' _ IH Hsync].
      - rewrite Hnew in Ha. now injection Ha as <-.
      - unfold synchronize1 in Hsync. apply bind_Ok in Hsync as (tbl & _ & Ha').
        now injection Ha' as <-. }
    intros a period Ha _. unfold synchronize1. rewrite (Hreg a Ha). simpl. eauto.
  - split.
    + destruct (Animation_returns fs Hall Hlen) as (a & Ha & _). eauto.
    + intros a period Ha Hperiod.
      destruct (synchronize1_returns fs period a Hall ltac:(lia)
                  (registered_shaped fs a Hall Hlen Ha) Hperiod) as (a' & Ha' & _).
      eauto.
Qed.

(** A walk cycle of three frames, one of them without a duration. *)
Definition steps : list frame :=
  [Frame 1 (Some 100); Frame 2 None; Frame 3 (Some 50)].

Lemma steps_nonneg : Forall nonneg steps.
Proof. repeat constructor; intros d [= <-]; lia. Qed.

Lemma animation_is_built_and_synchronized_witness :
  (exists a, Animation steps = Ok a) /\
  (forall a period,
      registered steps a -> 0 <= period -> exists a', synchronize1 period a = Ok a').
Proof. exact (animation_is_built_and_synchronized steps steps_nonneg). Defined.

(** An animation with a frame that declares no duration does not loop:
    from the sum of the declared durations on it shows the last frame
    that declares none, whatever the synchronization. *)
Theorem nonlooping_ends_on_last_untimed (l1 l2 : list frame) (f : frame) (a : animation) :
  Forall nonneg (l1 ++ f :: l2) -> (2 <= length (l1 ++ f :: l2))%nat ->
  frame_duration f = None -> Forall timed l2 ->
  registered (l1 ++ f :: l2) a ->
  forall t, (inject_Z (total_duration (l1 ++ f :: l2)) <= t)%Q ->
            getFrame a t = Ok (Some (frame_id f)).
Proof.
  intros Hall Hlen Hf Hl2 Hreg t Ht.
  destruct (registered_shaped _ a Hall Hlen Hreg) as [Hfr _ Hfull _ _ Hlast Hlp].
  assert (Hloop : looping a = false).
  { apply Hlp. exists f. split; [|exact Hf]. apply elem_of_app. right. constructor. }
  assert (Hid : lastFrameId a = Some (frame_id f)).
  { rewrite Hlast. unfold last_untimed. rewrite fold_left_app. simpl. rewrite Hf.
    clear -Hl2. induction Hl2 as [|g l2 (d & Hd & _) _ IH]; simpl; [reflexivity|].
    now rewrite Hd. }
  unfold getFrame. rewrite Hfr.
  destruct (Nat.ltb_spec (length (l1 ++ f :: l2)) 2) as [?|_]; [lia|].
  rewrite Hloop, Hfull.
  destruct (Qle_bool (inject_Z (total_duration (l1 ++ f :: l2))) t) eqn:Hle.
  - now rewrite Hid.
  - apply Qle_bool_iff in Ht. congruence.
Qed.

Lemma nonlooping_ends_on_last_untimed_witness :
  match Animation steps with
  | Ok a => forall t, (inject_Z 150 <= t)%Q -> getFrame a t = Ok (Some 2)
  | _ => False
  end.
Proof.
  destruct (Animation steps) as [a| |] eqn:Ha; try (vm_compute in Ha; discriminate).
  apply (nonlooping_ends_on_last_untimed [Frame 1 (Some 100)] [Frame 3 (Some 50)]
           (Frame 2 None) a steps_nonneg).
  - simpl. lia.
  - reflexivity.
  - repeat constructor. exists 50. split; [reflexivity | lia].
  - now constructor.
Defined.

(** *** Frames of equal duration *)

Section EqualDurations.

Variable fs : list frame.
Variable d : Z.
Hypothesis d_pos : 0 < d.
Hypothesis equal : Forall (fun f => frame_duration f = Some d) fs.

Let n : Z := Z.of_nat (length fs).

Lemma equal_timed : Forall timed fs.
Proof.
  eapply Forall_impl; [exact equal|]. intros f Hf. exists d. split; [exact Hf | lia].
Qed.

Lemma equal_total : total_duration fs = n * d.
Proof.
  unfold n. clear n. revert equal. generalize fs.
  induction 1 as [|f l Hf _ IH]; simpl; [lia|].
  rewrite Hf, IH. simpl. lia.
Qed.

Lemma equal_partialUnit : fs <> [] -> s_partialUnit (scan_frames fs) = d.
Proof.
  unfold scan_frames.
  assert (Hgen : forall acc,
             s_partialUnit acc = 0 \/ s_partialUnit acc = d ->
             let sc := fold_left
               (fun acc f =>
                  match frame_duration f with
                  | Some d => Scan (gcd (s_partialUnit acc) d) (s_fullDuration acc + d)
                                (s_looping acc) (s_lastFrameId acc)
                  | None => Scan (s_partialUnit acc) (s_fullDuration acc) false
                              (Some (frame_id f))
                  end) fs acc in
             s_partialUnit sc = 0 /\ fs = [] \/ s_partialUnit sc = d).
  { revert equal. generalize fs.
    induction 1 as [|f l Hf _ IH]; intros acc Hacc; simpl.
    - destruct Hacc; auto.
    - rewrite Hf. right.
      destruct (IH (Scan (gcd (s_partialUnit acc) d) (s_fullDuration acc + d)
                      (s_looping acc) (s_lastFrameId acc))) as [[Hz ->]|Hd]; simpl.
      + right. destruct Hacc as [-> | ->]; rewrite gcd_Zgcd by lia.
        * rewrite Z.gcd_0_l. lia.
        * rewrite Z.gcd_diag. lia.
      + simpl in Hz. destruct Hacc as [Ha|Ha]; rewrite Ha, gcd_Zgcd in Hz by lia.
        * rewrite Z.gcd_0_l in Hz. lia.
        * rewrite Z.gcd_diag in Hz. lia.
      + exact Hd. }
  intros Hne. destruct (Hgen (Scan 0 0 true None)) as [[_ ?]|?]; simpl; auto.
  contradiction.
Qed.

(** The loop of [synchronize] with the unit [d]: the turn for the time
    [m * d] finds the frame index and [frameTime] left by the turn
    before, which advanced only on every other turn. *)
Lemma sync_loop_equal (fuel : nat) : forall (m : Z) (idx : nat) (ft : Z) (tbl : gmap Z Z),
  0 <= m -> (Z.to_nat (n - m) <= fuel)%nat ->
  (m = 0 /\ idx = 0%nat /\ ft = 0) \/
  (m = 2 * Z.of_nat idx + 1 /\ ft = d) \/
  (m = 2 * Z.of_nat idx + 2 /\ ft = 2 * d) ->
  exists tbl',
    sync_loop fuel fs (n * d) d (m * d) idx ft tbl = Ok tbl' /\
    (forall s, m <= s < n -> tbl' !! (s * d) = frame_id <$> fs !! Z.to_nat (s / 2)) /\
    (forall key, key < m * d -> tbl' !! key = tbl !! key).
Proof.
  induction fuel as [|fuel IH]; intros m idx ft tbl Hm Hfuel Hstate.
  - simpl. destruct (Z.ltb_spec (m * d) (n * d)) as [Hlt|Hge]; [nia|].
    exists tbl. split; [reflexivity|]. split; [intros s Hs; nia | reflexivity].
  - simpl. destruct (Z.ltb_spec (m * d) (n * d)) as [Hlt|Hge].
    2:{ exists tbl. split; [reflexivity|]. split; [intros s Hs; nia | reflexivity]. }
    assert (Hmn : m < n) by nia.
    assert (Hidx : (idx < length fs)%nat) by (unfold n in Hmn; lia).
    destruct (lookup_lt_is_Some_2 fs idx Hidx) as [f Hf]. rewrite Hf.
    rewrite (proj1 (Forall_lookup _ _) equal idx f Hf).
    (* the index and the frame time after the test, and the next state *)
    assert (Hnext : exists idx' f',
               (if d <? ft then S idx else idx) = idx' /\ fs !! idx' = Some f' /\
               Z.of_nat idx' = m / 2 /\
               ((m + 1 = 2 * Z.of_nat idx' + 1 /\ (if d <? ft then 0 else ft) + d = d) \/
                (m + 1 = 2 * Z.of_nat idx' + 2 /\ (if d <? ft then 0 else ft) + d = 2 * d))).
    { destruct Hstate as [(-> & -> & ->)|[(-> & ->)|(-> & ->)]].
      - exists 0%nat, f. destruct (Z.ltb_spec d 0); [lia|].
        split; [reflexivity|]. split; [exact Hf|]. split; [reflexivity|]. left. lia.
      - exists idx, f. destruct (Z.ltb_spec d d); [lia|].
        split; [reflexivity|]. split; [exact Hf|]. split; [|right; lia].
        apply (Z.div_unique _ 2 _ 1); lia.
      - assert (Hidx' : (S idx < length fs)%nat) by (unfold n in Hmn; lia).
        destruct (lookup_lt_is_Some_2 fs (S idx) Hidx') as [f' Hf'].
        exists (S idx), f'. destruct (Z.ltb_spec d (2 * d)); [|lia].
        split; [reflexivity|]. split; [exact Hf'|]. split; [|left; lia].
        apply (Z.div_unique _ 2 _ 0); lia. }
    destruct Hnext as (idx' & f' & -> & Hf' & Hhalf & Hstate').
    rewrite Hf'.
    replace (m * d + d) with ((m + 1) * d) by ring.
    destruct (IH (m + 1) idx' ((if d <? ft then 0 else ft) + d)
                (<[m * d := frame_id f']> tbl)) as (tbl' & -> & Hnew & Hold).
    + lia.
    + lia.
    + destruct Hstate' as [[? ?]|[? ?]]; [right; left | right; right]; split; auto.
    + exists tbl'. split; [reflexivity|]. split.
      * intros s Hs. destruct (Z.eq_dec s m) as [->|Hne].
        -- rewrite Hold by nia. rewrite lookup_insert_eq.
           rewrite <- Hhalf, Nat2Z.id, Hf'. reflexivity.
        -- apply Hnew. lia.
      * intros key Hkey. rewrite Hold by nia. apply lookup_insert_ne. lia.
Qed.

(** An animation of two or more frames that all declare the same
    duration [d], as [new Animation(frames)] builds it, shows every frame
    for two units in a row and wraps around after [n] units: at the time
    [t] of the [k]-th unit it shows the frame of index
    [(k mod n) / 2], so the frames of the second half are never shown. *)
Theorem equal_durations_show_first_half :
  (2 <= length fs)%nat ->
  exists a,
    Animation fs = Ok a /\
    forall (k : Z) (t : Q),
      0 <= k ->
      (inject_Z k * inject_Z d <= t)%Q -> (t < inject_Z (k + 1) * inject_Z d)%Q ->
      getFrame a t = Ok (frame_id <$> fs !! Z.to_nat ((k mod n) / 2)).
Proof.
  intros Hlen.
  assert (Hne : fs <> []) by (intros ->; simpl in Hlen; lia).
  assert (Hn : 2 <= n) by (unfold n; lia).
  destruct (sync_loop_equal (Z.to_nat (n * d)) 0 0%nat 0 ∅) as (tbl & Hrun & Htbl & _);
    [lia | nia | now left |].
  assert (Hnew : Animation fs =
                 Ok (MkAnimation fs false d (n * d) (s_looping (scan_frames fs))
                       (s_lastFrameId (scan_frames fs)) tbl d)).
  { unfold Animation. destruct (Nat.ltb_spec (length fs) 2) as [?|_]; [lia|].
    unfold synchronize1. simpl.
    destruct (scan_frames_timed fs (Scan 0 0 true None) equal_timed) as (H1 & _ & _);
      [apply Z.divide_0_r|].
    fold (scan_frames fs) in H1. simpl in H1.
    rewrite H1, equal_total, (equal_partialUnit Hne), gcd_Zgcd, Z.gcd_diag by lia.
    rewrite Z.abs_eq by lia. rewrite !Z.add_0_l. rewrite Z.mul_0_l in Hrun.
    rewrite Hrun. reflexivity. }
  eexists. split; [exact Hnew|].
  intros k t Hk Hlo Hhi.
  rewrite (getFrame_interval fs _ k t equal_timed (registered_new fs _ Hnew) Hk Hlo Hhi).
  destruct (Nat.ltb_spec (length fs) 2) as [?|_]; [lia|].
  rewrite equal_total. destruct (Z.eqb_spec (n * d) 0) as [?|_]; [nia|].
  simpl. rewrite Z.div_mul by lia. f_equal. apply Htbl.
  apply Z.mod_pos_bound. lia.
Qed.

End EqualDurations.

(** Two frames of 100 ms each: frame 2 is never shown. *)
Lemma equal_durations_show_first_half_witness :
  exists a,
    Animation [Frame 1 (Some 100); Frame 2 (Some 100)] = Ok a /\
    forall (k : Z) (t : Q),
      0 <= k ->
      (inject_Z k * inject_Z 100 <= t)%Q -> (t < inject_Z (k + 1) * inject_Z 100)%Q ->
      getFrame a t =
      Ok (frame_id <$> [Frame 1 (Some 100); Frame 2 (Some 100)]
                         !! Z.to_nat ((k mod 2) / 2)).
Proof.
  apply (equal_durations_show_first_half [Frame 1 (Some 100); Frame 2 (Some 100)] 100).
  - lia.
  - repeat constructor.
  - simpl. lia.
Defined.

End FrameTableUse.

(** ** Canvace.Buckets: removing an element *)

Module BucketsUse.

Import Buckets BucketsFacts.

#[export] Instance remover_eq_dec : EqDecision remover.
Proof. solve_decision. Defined.

(** The members of the section [s] of the bucket [key], with their ids. *)
Definition elements_at (st : state) (key : Z * Z) (s : Z) : list (nat * entry) :=
  match sections (bucketAt st key) !! s with
  | Some ms => MultiSet.elements ms
  | None => []
  end.

(** The id the next member of that section gets. *)
Definition nextId_at (st : state) (key : Z * Z) (s : Z) : nat :=
  MultiSet.nextId (default MultiSet.empty (sections (bucketAt st key) !! s)).

(** The removers of the element at [a] are those of its registrations:
    a member of a section is an entry of the element exactly when one of
    the removers names it. *)
Definition linked (st : state) (a : nat) (el : element) : Prop :=
  forall key s x,
    x ∈ elements_at st key s ->
    (e_p (snd x) = a <-> Remover key s (fst x) ∈ el_removers el).

(** The ids in use in every section are below the next id. *)
Definition ids_below (st : state) : Prop :=
  forall key s x, x ∈ elements_at st key s -> (fst x < nextId_at st key s)%nat.

Lemma enumerateSection_elements (st : state) (key : Z * Z) (s : Z) :
  enumerateSection (bucketAt st key) s = map snd (elements_at st key s).
Proof.
  unfold enumerateSection, elements_at, MultiSet.fastForEach.
  now destruct (sections (bucketAt st key) !! s).
Qed.

Lemma remover_filter (ms : MultiSet.t entry) (id : nat) :
  MultiSet.elements (fst (MultiSet.remove ms id)) =
  filter (fun x => fst x <> id) (MultiSet.elements ms).
Proof.
  unfold MultiSet.remove. destruct (MultiSet.hasId ms id) eqn:Hhas; simpl.
  - apply list_filter_iff. intros x. apply MultiSetUse.keeps_spec.
  - assert (Hno : id ∉ map fst (MultiSet.elements ms)).
    { intros Hin. apply MultiSetUse.hasId_spec in Hin. congruence. }
    rewrite <- (MultiSetUse.filter_id_other _ id Hno) at 1.
    apply list_filter_iff. intros x. apply MultiSetUse.keeps_spec.
Qed.

Lemma filter_all {A : Type} (P : A -> Prop) `{forall x, Decision (P x)} (l : list A) :
  (forall x, x ∈ l -> P x) -> filter P l = l.
Proof.
  induction l as [|x l IH]; intros Hall; [reflexivity|].
  rewrite filter_cons_True by (apply Hall; constructor).
  f_equal. apply IH. intros y Hy. apply Hall. now constructor.
Qed.

Lemma filter_map {A B : Type} (f : A -> B) (P : B -> Prop) `{forall y, Decision (P y)}
    (l : list A) :
  filter P (map f l) = map f (filter (fun x => P (f x)) l).
Proof.
  induction l as [|x l IH]; [reflexivity|]. simpl.
  rewrite !filter_cons. destruct (decide (P (f x))); simpl; now rewrite IH.
Qed.

Lemma filter_iff_in {A : Type} (P Q : A -> Prop) `{forall x, Decision (P x)}
    `{forall x, Decision (Q x)} (l : list A) :
  (forall x, x ∈ l -> P x <-> Q x) -> filter P l = filter Q l.
Proof.
  induction l as [|x l IH]; intros Hall; [reflexivity|].
  rewrite !filter_cons.
  assert (Hx : P x <-> Q x) by (apply Hall; constructor).
  rewrite IH by (intros y Hy; apply Hall; now constructor).
  destruct (decide (P x)), (decide (Q x)); tauto.
Qed.

(** A remover takes the member of its id out of its section and touches
    nothing else. *)
Lemma call_remover_spec (r : remover) (st : state) :
  heap (call_remover r st) = heap st /\
  frameTable (call_remover r st) = frameTable st /\
  eraser (call_remover r st) = eraser st /\
  nextElement (call_remover r st) = nextElement st /\
  forall key s,
    elements_at (call_remover r st) key s =
    filter (fun x => Remover key s (fst x) <> r) (elements_at st key s).
Proof.
  unfold call_remover.
  destruct (buckets st !! r_key r) as [b|] eqn:Hb.
  2:{ repeat split. intros key s. symmetry. apply filter_all. intros x Hx Heq.
      subst r. simpl in Hb. unfold elements_at, bucketAt in Hx. rewrite Hb in Hx.
      simpl in Hx. rewrite lookup_empty in Hx. now apply elem_of_nil in Hx. }
  destruct (sections b !! r_section r) as [ms|] eqn:Hms.
  2:{ repeat split. intros key s. symmetry. apply filter_all. intros x Hx Heq.
      subst r. simpl in Hb, Hms. unfold elements_at, bucketAt in Hx. rewrite Hb in Hx.
      simpl in Hx. rewrite Hms in Hx. now apply elem_of_nil in Hx. }
  repeat split. intros key s. unfold elements_at, bucketAt. simpl.
  destruct (decide (key = r_key r)) as [->|Hkey].
  - rewrite lookup_insert_eq, Hb. simpl.
    destruct (decide (s = r_section r)) as [->|Hs].
    + rewrite lookup_insert_eq, Hms, remover_filter.
      apply list_filter_iff. intros x. destruct r as [k0 s0 i0]. simpl.
      split; [intros Hne [= ?]; contradiction | intros Hne Heq; apply Hne; congruence].
    + rewrite lookup_insert_ne by congruence. symmetry. apply filter_all.
      intros x _ Heq. apply Hs. now rewrite <- Heq.
  - rewrite lookup_insert_ne by congruence. symmetry. apply filter_all.
    intros x _ Heq. apply Hkey. now rewrite <- Heq.
Qed.

Lemma call_removers_spec (rs : list remover) : forall st,
  let st' := fold_left (fun s r => call_remover r s) rs st in
  heap st' = heap st /\ frameTable st' = frameTable st /\
  eraser st' = eraser st /\ nextElement st' = nextElement st /\
  forall key s,
    elements_at st' key s =
    filter (fun x => Remover key s (fst x) ∉ rs) (elements_at st key s).
Proof.
  induction rs as [|r rs IH]; intros st; simpl.
  - repeat split. intros key s. symmetry. apply filter_all.
    intros x _. apply not_elem_of_nil.
  - destruct (call_remover_spec r st) as (H1 & H2 & H3 & H4 & H5).
    destruct (IH (call_remover r st)) as (I1 & I2 & I3 & I4 & I5).
    split; [congruence|]. split; [congruence|]. split; [congruence|].
    split; [congruence|].
    intros key s. rewrite I5, H5, list_filter_filter.
    apply list_filter_iff. intros x. rewrite not_elem_of_cons. tauto.
Qed.

Section WithView.

Variable view : View.t.

(** What [remove] does to a linked element. *)
Lemma remove_linked (a : nat) (st : state) (el : element) :
  heap st !! a = Some el -> linked st a el ->
  exists st',
    remove a st = (Ok true, st') /\
    heap st' = <[a := set_removed true (set_removers [] el)]> (heap st) /\
    frameTable st' = frameTable st /\ eraser st' = eraser st /\
    nextElement st' = nextElement st /\
    (forall key s,
        enumerateSection (bucketAt st' key) s =
        filter (fun e => e_p e <> a) (enumerateSection (bucketAt st key) s)) /\
    remove a st' = (Ok true, st').
Proof.
  intros Ha Hlink.
  destruct (call_removers_spec (el_removers el) st) as (H1 & H2 & H3 & H4 & H5).
  cbv zeta in H1, H2, H3, H4, H5.
  set (st1 := fold_left (fun s r => call_remover r s) (el_removers el) st) in *.
  exists (set_heap (insert a (set_removed true (set_removers [] el))) st1).
  split.
  { unfold remove, bindM, this, modify, store, modify, ret. rewrite Ha. reflexivity. }
  split; [simpl; now rewrite H1|].
  split; [exact H2|]. split; [exact H3|]. split; [exact H4|]. split.
  - intros key s.
    change (bucketAt (set_heap (insert a (set_removed true (set_removers [] el))) st1) key)
      with (bucketAt st1 key).
    rewrite !enumerateSection_elements, H5, filter_map. f_equal.
    apply filter_iff_in. intros x Hx. rewrite (Hlink key s x Hx). tauto.
  - unfold remove, bindM, this, modify, store, modify, ret. simpl.
    rewrite lookup_insert_eq. simpl. unfold set_heap. simpl.
    now rewrite insert_insert_eq.
Qed.

(** [remove()] on an element whose removers are those of its
    registrations returns [true] and takes the element's entries, and no
    others, out of every section of every bucket; the element then
    reports [isRemoved()], and removing it again changes nothing. *)
Theorem remove_unregisters_everywhere (a : nat) (st : state) (el : element) :
  heap st !! a = Some el -> linked st a el ->
  exists st',
    remove a st = (Ok true, st') /\
    (forall key s,
        enumerateSection (bucketAt st' key) s =
        filter (fun e => e_p e <> a) (enumerateSection (bucketAt st key) s)) /\
    isRemoved a st' = (Ok true, st') /\
    remove a st' = (Ok true, st').
Proof.
  intros Ha Hlink.
  destruct (remove_linked a st el Ha Hlink)
    as (st' & Hrun & Hh & _ & _ & _ & Hsec & Hagain).
  exists st'. split; [exact Hrun|]. split; [exact Hsec|].
  split; [|exact Hagain].
  unfold isRemoved, bindM, this, ret. rewrite Hh, lookup_insert_eq. reflexivity.
Qed.

(** *** Registering: the removers collected *)

Lemma addToBucket_members a key st el an :
  heap st !! a = Some el ->
  FrameTable.animations (frameTable st) !! el_animation el = Some an ->
  exists st',
    addToBucket a key st = (Ok tt, st') /\
    heap st' =
      <[a := set_removers
               (el_removers el ++ [Remover key (pz (el_p el)) (nextId_at st key (pz (el_p el)))])
               el]> (heap st) /\
    frameTable st' = frameTable st /\ eraser st' = eraser st /\
    nextElement st' = nextElement st /\
    (forall key' s,
        elements_at st' key' s =
        elements_at st key' s ++
        (if decide (key' = key /\ s = pz (el_p el))
         then [(nextId_at st key (pz (el_p el)), entry_of a el an)] else [])) /\
    (forall key' s,
        nextId_at st' key' s =
        (nextId_at st key' s +
         (if decide (key' = key /\ s = pz (el_p el)) then 1 else 0))%nat).
Proof.
  intros Ha Han. unfold addToBucket, bindM.
  destruct (getBucket_spec key st) as (st1 & -> & Hh & Hf & He & Hn & Hb).
  unfold this, gets. rewrite Hh, Ha, Hf, Han.
  fold (entry_of a el an).
  unfold Bucket_add, MultiSet.add. unfold modify, store, modify. simpl.
  eexists. split; [reflexivity|]. simpl. rewrite Hh, Hf, He, Hn.
  split; [reflexivity|]. split; [reflexivity|]. split; [reflexivity|].
  split; [reflexivity|].
  assert (Hat : forall key',
             bucketAt
               (set_heap
                  (insert a
                     (set_removers
                        (el_removers el ++
                         [Remover key (pz (el_p el))
                            (MultiSet.nextId
                               (default MultiSet.empty
                                  (sections (bucketAt st key) !! pz (el_p el))))]) el))
                  (set_buckets
                     (insert key
                        (Bucket
                           (<[pz (el_p el) :=
                                MultiSet.Make
                                  (MultiSet.elements
                                     (default MultiSet.empty
                                        (sections (bucketAt st key) !! pz (el_p el))) ++
                                   [(MultiSet.nextId
                                       (default MultiSet.empty
                                          (sections (bucketAt st key) !! pz (el_p el))),
                                     entry_of a el an)])
                                  (S (MultiSet.nextId
                                        (default MultiSet.empty
                                           (sections (bucketAt st key) !! pz (el_p el)))))
                                  (MultiSet.count
                                     (default MultiSet.empty
                                        (sections (bucketAt st key) !! pz (el_p el))) + 1)]>
                              (sections (bucketAt st key)))
                           (Z.min (minS (bucketAt st key)) (pz (el_p el)))
                           (Z.max (maxS (bucketAt st key)) (pz (el_p el))))) st1)) key' =
             if decide (key' = key)
             then Bucket
                    (<[pz (el_p el) :=
                         MultiSet.Make
                           (MultiSet.elements
                              (default MultiSet.empty
                                 (sections (bucketAt st key) !! pz (el_p el))) ++
                            [(MultiSet.nextId
                                (default MultiSet.empty
                                   (sections (bucketAt st key) !! pz (el_p el))),
                              entry_of a el an)])
                           (S (MultiSet.nextId
                                 (default MultiSet.empty
                                    (sections (bucketAt st key) !! pz (el_p el)))))
                           (MultiSet.count
                              (default MultiSet.empty
                                 (sections (bucketAt st key) !! pz (el_p el))) + 1)]>
                       (sections (bucketAt st key)))
                    (Z.min (minS (bucketAt st key)) (pz (el_p el)))
                    (Z.max (maxS (bucketAt st key)) (pz (el_p el)))
             else bucketAt st key').
  { intros key'. unfold bucketAt at 1. simpl.
    destruct (decide (key' = key)) as [->|Hne].
    - now rewrite lookup_insert_eq.
    - rewrite lookup_insert_ne by congruence. apply Hb. }
  split.
  - intros key' s. unfold elements_at at 1. rewrite Hat. unfold nextId_at.
    destruct (decide (key' = key)) as [->|Hne].
    + simpl. destruct (decide (s = pz (el_p el))) as [->|Hs].
      * rewrite lookup_insert_eq, decide_True by tauto. simpl. unfold elements_at.
        now destruct (sections (bucketAt st key) !! pz (el_p el)).
      * rewrite lookup_insert_ne, decide_False by (try congruence; tauto).
        now rewrite app_nil_r.
    + rewrite decide_False by tauto. now rewrite app_nil_r.
  - intros key' s. unfold nextId_at at 1. rewrite Hat.
    destruct (decide (key' = key)) as [->|Hne].
    + simpl. destruct (decide (s = pz (el_p el))) as [->|Hs].
      * rewrite lookup_insert_eq, decide_True by tauto. simpl. unfold nextId_at. lia.
      * rewrite lookup_insert_ne, decide_False by (try congruence; tauto).
        unfold nextId_at. lia.
    + rewrite decide_False by tauto. unfold nextId_at. lia.
Qed.

Lemma add_all_members a (keys : list (Z * Z)) : forall st el an,
  NoDup keys ->
  heap st !! a = Some el ->
  FrameTable.animations (frameTable st) !! el_animation el = Some an ->
  exists st',
    add_all a keys st = (Ok tt, st') /\
    heap st' =
      <[a := set_removers
               (el_removers el ++
                map (fun key => Remover key (pz (el_p el)) (nextId_at st key (pz (el_p el))))
                  keys) el]> (heap st) /\
    frameTable st' = frameTable st /\ eraser st' = eraser st /\
    nextElement st' = nextElement st /\
    (forall key' s,
        elements_at st' key' s =
        elements_at st key' s ++
        (if decide (key' ∈ keys /\ s = pz (el_p el))
         then [(nextId_at st key' (pz (el_p el)), entry_of a el an)] else [])) /\
    (forall key' s,
        nextId_at st' key' s =
        (nextId_at st key' s +
         (if decide (key' ∈ keys /\ s = pz (el_p el)) then 1 else 0))%nat).
Proof.
  induction keys as [|key keys IH]; intros st el an Hnd Ha Han.
  - exists st. cbn [add_all]. unfold ret. split; [reflexivity|].
    split.
    { simpl. rewrite app_nil_r.
      replace (set_removers (el_removers el) el) with el by (now destruct el).
      symmetry. now apply insert_id. }
    split; [reflexivity|]. split; [reflexivity|]. split; [reflexivity|]. split.
    + intros key' s. rewrite decide_False; [now rewrite app_nil_r|].
      intros [Hin _]. now apply elem_of_nil in Hin.
    + intros key' s. rewrite decide_False; [lia|].
      intros [Hin _]. now apply elem_of_nil in Hin.
  - apply NoDup_cons in Hnd as [Hkey Hnd].
    destruct (addToBucket_members a key st el an Ha Han)
      as (st1 & Hrun1 & Hh1 & Hf1 & He1 & Hn1 & Hel1 & Hid1).
    set (el1 := set_removers
                  (el_removers el ++
                   [Remover key (pz (el_p el)) (nextId_at st key (pz (el_p el)))]) el) in *.
    assert (Ha1 : heap st1 !! a = Some el1) by (rewrite Hh1; apply lookup_insert_eq).
    assert (Han1 : FrameTable.animations (frameTable st1) !! el_animation el1 = Some an)
      by (rewrite Hf1; exact Han).
    destruct (IH st1 el1 an Hnd Ha1 Han1)
      as (st2 & Hrun2 & Hh2 & Hf2 & He2 & Hn2 & Hel2 & Hid2).
    exists st2. cbn [add_all]. unfold bindM. rewrite Hrun1. split; [exact Hrun2|].
    split.
    { rewrite Hh2, Hh1, insert_insert_eq. f_equal. unfold el1, set_removers. simpl.
      f_equal. rewrite <- app_assoc. simpl. f_equal. f_equal.
      apply map_ext_in. intros key' Hin. f_equal.
      rewrite Hid1, decide_False; [lia|].
      intros [-> _]. apply Hkey. now apply list_elem_of_In. }
    split; [congruence|]. split; [congruence|]. split; [congruence|]. split.
    + intros key' s. rewrite Hel2, Hel1.
      change (pz (el_p el1)) with (pz (el_p el)).
      change (entry_of a el1 an) with (entry_of a el an).
      rewrite <- app_assoc. f_equal.
      destruct (decide (key' = key /\ s = pz (el_p el))) as [[-> ->]|Hn].
      * rewrite decide_False by tauto.
        rewrite decide_True by (split; [constructor | reflexivity]). reflexivity.
      * destruct (decide (key' ∈ keys /\ s = pz (el_p el))) as [[Hin Hs]|Hn'].
        -- rewrite decide_True by (split; [now constructor | exact Hs]).
           simpl. rewrite Hid1, decide_False; [do 3 f_equal; lia|].
           intros [-> _]. contradiction.
        -- rewrite decide_False; [reflexivity|].
           intros [Hin Hs]. apply elem_of_cons in Hin as [?|?]; tauto.
    + intros key' s. rewrite Hid2, Hid1.
      change (pz (el_p el1)) with (pz (el_p el)).
      destruct (decide (key' = key /\ s = pz (el_p el))) as [[-> ->]|Hn].
      * rewrite decide_False by tauto.
        rewrite decide_True by (split; [constructor | reflexivity]). lia.
      * destruct (decide (key' ∈ keys /\ s = pz (el_p el))) as [[Hin Hs]|Hn'].
        -- rewrite decide_True by (split; [now constructor | exact Hs]). lia.
        -- rewrite decide_False; [lia|].
           intros [Hin Hs]. apply elem_of_cons in Hin as [?|?]; tauto.
Qed.

(** [new Element(...)] links the element it creates, and leaves every
    other entry where it was. *)
Lemma newElement_linked now d animation i j k st r st' :
  fresh st -> ids_below st ->
  newElement view now d animation i j k st = (Ok r, st') ->
  d_frames d <> [] ->
  exists el,
    r = Real (nextElement st) /\
    heap st' !! nextElement st = Some el /\
    linked st' (nextElement st) el /\
    eraser st' = eraser st /\
    (forall key s,
        filter (fun e => e_p e <> nextElement st) (enumerateSection (bucketAt st' key) s) =
        enumerateSection (bucketAt st key) s).
Proof.
  intros Hfresh Hbelow Hrun Hframes. unfold newElement in Hrun.
  destruct (Nat.eqb_spec (length (d_frames d)) 0) as [Hlen|_].
  { destruct (d_frames d); [contradiction | discriminate]. }
  unfold bindM, gets, modify, ret in Hrun.
  set (a := nextElement st) in *.
  set (p := View.projectElement view (d_offset d) i j k) in *.
  set (el0 := Element d animation i j k p (py p / View.height view) (px p / View.width view)
                [] false now) in *.
  set (st0 := State (frameTable st) (buckets st) (eraser st) (<[a := el0]> (heap st)) (S a))
    in *.
  assert (Ha0 : heap st0 !! a = Some el0) by apply lookup_insert_eq.
  rewrite (addToBuckets_add_all view a st0 el0 Ha0) in Hrun.
  destruct (FrameTable.animations (frameTable st0) !! el_animation el0) as [an|] eqn:Han.
  2:{ exfalso. destruct (target_keys view el0) as [|key keys] eqn:Hk;
        [unfold target_keys in Hk; discriminate|].
      simpl in Hrun. unfold bindM, addToBucket, bindM in Hrun.
      destruct (getBucket_spec key st0) as (st1 & Hg & Hh & Hf & _).
      rewrite Hg in Hrun. unfold this, gets in Hrun. rewrite Hh, Ha0, Hf, Han in Hrun.
      discriminate. }
  destruct (add_all_members a (target_keys view el0) st0 el0 an
              (target_keys_NoDup view el0) Ha0 Han)
    as (st1 & Hrun1 & Hh1 & _ & He1 & _ & Hel & _).
  rewrite Hrun1 in Hrun. injection Hrun as <- <-.
  assert (Hold : forall key s, elements_at st0 key s = elements_at st key s) by reflexivity.
  assert (Hnext : forall key s, nextId_at st0 key s = nextId_at st key s) by reflexivity.
  set (rs := map (fun key => Remover key (pz (el_p el0)) (nextId_at st0 key (pz (el_p el0))))
               (target_keys view el0)) in *.
  exists (set_removers rs el0).
  split; [reflexivity|]. split; [rewrite Hh1; apply lookup_insert_eq|].
  split; [|split; [exact He1|]].
  - intros key s x Hx. change (el_removers (set_removers rs el0)) with rs.
    rewrite Hel, Hold in Hx.
    apply elem_of_app in Hx as [Hx|Hx].
    + split.
      * intros Hp. exfalso. apply (Hfresh key s (snd x)); [|exact Hp].
        rewrite enumerateSection_elements. apply list_elem_of_fmap. eauto.
      * intros Hin. exfalso. apply list_elem_of_fmap in Hin as (key' & Heq & _).
        injection Heq as <- -> Hid. specialize (Hbelow key _ x Hx).
        rewrite Hnext in Hid. lia.
    + destruct (decide _) as [[Hin ->]|]; [|now apply elem_of_nil in Hx].
      apply list_elem_of_singleton in Hx. subst x.
      split; [intros _|reflexivity].
      apply list_elem_of_fmap. exists key. split; [reflexivity | exact Hin].
  - intros key s. rewrite !enumerateSection_elements, Hel, Hold, map_app, filter_app.
    rewrite filter_all.
    2:{ intros e He Hp. apply (Hfresh key s e); [|exact Hp].
        now rewrite enumerateSection_elements. }
    destruct (decide _); simpl; [|now rewrite app_nil_r].
    rewrite filter_cons_False by (simpl; tauto). now rewrite app_nil_r.
Qed.

Lemma addEntity_linked (data : stage_data) now id i j k st r st' entity :
  fresh st -> ids_below st ->
  entities data !! id = Some entity -> entity_frames entity <> [] ->
  addEntity view data now id i j k st = (Ok r, st') ->
  exists el,
    r = Real (nextElement st) /\
    heap st' !! nextElement st = Some el /\
    linked st' (nextElement st) el /\
    (forall key s,
        filter (fun e => e_p e <> nextElement st) (enumerateSection (bucketAt st' key) s) =
        enumerateSection (bucketAt st key) s).
Proof.
  intros Hfresh Hbelow Hid Hframes Hrun. unfold addEntity in Hrun. rewrite Hid in Hrun.
  unfold bindM, gets, modify in Hrun.
  destruct (FrameTable.getEntityAnimation (frameTable st) id) as [an|]; [|discriminate].
  destruct (newElement_linked now (of_entity entity) an i j k
              (set_frameTable (FrameTable.set_static an false) st) r st')
    as (el & -> & Hel & Hlink & _ & Hrest); auto.
  exists el. auto.
Qed.

(** An entity that was just added and is removed again leaves no trace
    in the buckets: every section of every bucket enumerates what it did
    before the entity was added. *)
Theorem addEntity_then_remove_restores (data : stage_data) now id i j k st r st1 entity :
  fresh st -> ids_below st ->
  entities data !! id = Some entity -> entity_frames entity <> [] ->
  addEntity view data now id i j k st = (Ok r, st1) ->
  exists a st2,
    r = Real a /\
    remove a st1 = (Ok true, st2) /\
    forall key s,
      enumerateSection (bucketAt st2 key) s = enumerateSection (bucketAt st key) s.
Proof.
  intros Hfresh Hbelow Hid Hframes Hrun.
  destruct (addEntity_linked data now id i j k st r st1 entity Hfresh Hbelow Hid Hframes Hrun)
    as (el & -> & Hel & Hlink & Hrest).
  destruct (remove_linked (nextElement st) st1 el Hel Hlink)
    as (st2 & Hrem & _ & _ & _ & _ & Hsec & _).
  exists (nextElement st), st2. split; [reflexivity|]. split; [exact Hrem|].
  intros key s. rewrite Hsec. apply Hrest.
Qed.

(** *** Mutable tiles *)

(** [addTile] for a mutable tile with frames stores in [eraser] the
    closure of the element it links. *)
Lemma addTile_mutable_linked (data : stage_data) now id i j k st r st' tile :
  fresh st -> ids_below st ->
  tiles data !! id = Some tile -> tile_mutable tile = true -> tile_frames tile <> [] ->
  addTile view data now id i j k st = (Ok r, st') ->
  exists el,
    r = None /\
    Matrix.get (eraser st') i j k = Some (Closure (Real (nextElement st)) false) /\
    heap st' !! nextElement st = Some el /\
    linked st' (nextElement st) el /\
    (forall key s,
        filter (fun e => e_p e <> nextElement st) (enumerateSection (bucketAt st' key) s) =
        enumerateSection (bucketAt st key) s).
Proof.
  intros Hfresh Hbelow Hid Hmut Hframes Hrun. unfold addTile in Hrun.
  rewrite Hid, Hmut in Hrun. unfold bindM, gets, modify, ret in Hrun.
  destruct (FrameTable.getTileAnimation (frameTable st) id) as [an|]; [|discriminate].
  match type of Hrun with
  | context [newElement ?v ?n ?d ?a ?x ?y ?z ?s] =>
      destruct (newElement v n d a x y z s) as [[el0| |] st1] eqn:Hnew; try discriminate
  end.
  injection Hrun as <- <-.
  destruct (newElement_linked _ _ _ _ _ _ _ _ _ (set_frameTable_fresh _ _ Hfresh) Hbelow
              Hnew Hframes) as (el & -> & Hel & Hlink & He & Hrest).
  exists el. split; [reflexivity|]. split.
  { unfold Matrix.get, Matrix.put. simpl. apply lookup_insert_eq. }
  split; [exact Hel|]. split; [exact Hlink | exact Hrest].
Qed.

(** [removeTile(i, j, k)] returns [false] and changes nothing when no
    mutable tile was added at that position; on the position of a
    mutable tile it returns [true], takes the tile's entries, and no
    others, out of every bucket and forgets the position, so that a
    second call returns [false]. *)
Theorem removeTile_removes_once (i j k : Z) (st : state) :
  (Matrix.get (eraser st) i j k = None -> removeTile i j k st = (Ok false, st)) /\
  (forall a el,
      Matrix.get (eraser st) i j k = Some (Closure (Real a) false) ->
      heap st !! a = Some el -> linked st a el ->
      exists st',
        removeTile i j k st = (Ok true, st') /\
        (forall key s,
            enumerateSection (bucketAt st' key) s =
            filter (fun e => e_p e <> a) (enumerateSection (bucketAt st key) s)) /\
        removeTile i j k st' = (Ok false, st')).
Proof.
  split.
  - intros Hnone. unfold removeTile, bindM, gets. now rewrite Hnone.
  - intros a el Hc Ha Hlink.
    destruct (remove_linked a st el Ha Hlink)
      as (st1 & Hrem & _ & _ & He & _ & Hsec & _).
    exists (set_eraser (fun e => fst (Matrix.erase e i j k)) st1).
    split; [|split].
    + unfold removeTile, bindM, gets. rewrite Hc.
      unfold call_eraser, bindM, ref_remove, bindM. simpl. rewrite Hrem. reflexivity.
    + intros key s. rewrite <- Hsec. reflexivity.
    + unfold removeTile, bindM, gets. simpl. rewrite He.
      unfold Matrix.erase. unfold Matrix.get in Hc. rewrite Hc. simpl.
      unfold Matrix.get. simpl. now rewrite lookup_delete_eq.
Qed.

End WithView.

Lemma buckets0_ids_below : ids_below Scene.buckets0.
Proof. intros key s x Hx. vm_compute in Hx. now apply elem_of_nil in Hx. Qed.

(** The sprite added at (5, 5) on the empty stage and removed again. *)
Lemma addEntity_then_remove_restores_witness :
  exists st1 a st2,
    addEntity Scene.view Scene.data 0 1 5 5 0 Scene.buckets0 = (Ok (Real a), st1) /\
    remove a st1 = (Ok true, st2) /\
    forall key s,
      enumerateSection (bucketAt st2 key) s =
      enumerateSection (bucketAt Scene.buckets0 key) s.
Proof.
  destruct (addEntity Scene.view Scene.data 0 1 5 5 0 Scene.buckets0) as [[r0| |] st1] eqn:Hadd;
    try (vm_compute in Hadd; discriminate).
  destruct (addEntity_then_remove_restores Scene.view Scene.data 0 1 5 5 0 Scene.buckets0
              r0 st1 _ buckets0_fresh buckets0_ids_below eq_refl ltac:(discriminate) Hadd)
    as (a & st2 & -> & Hrem & Hsec).
  exists st1, a, st2. split; [reflexivity|]. split; [exact Hrem | exact Hsec].
Defined.

(** The sprite of the small stage is linked, and is removed. *)
Lemma remove_unregisters_everywhere_witness :
  exists st1 st',
    addEntity Scene.view Scene.data 0 1 5 5 0 Scene.buckets0 = (Ok (Real 0), st1) /\
    remove 0 st1 = (Ok true, st') /\
    (forall key s,
        enumerateSection (bucketAt st' key) s =
        filter (fun e => e_p e <> 0%nat) (enumerateSection (bucketAt st1 key) s)) /\
    isRemoved 0 st' = (Ok true, st') /\
    remove 0 st' = (Ok true, st').
Proof.
  destruct (addEntity Scene.view Scene.data 0 1 5 5 0 Scene.buckets0) as [[r0| |] st1] eqn:Hadd;
    try (vm_compute in Hadd; discriminate).
  destruct (addEntity_linked Scene.view Scene.data 0 1 5 5 0 Scene.buckets0
              r0 st1 _ buckets0_fresh buckets0_ids_below eq_refl ltac:(discriminate) Hadd)
    as (el & -> & Hel & Hlink & _).
  change (nextElement Scene.buckets0) with 0%nat in Hel, Hlink.
  destruct (remove_unregisters_everywhere 0 st1 el Hel Hlink) as (st' & H1 & H2 & H3 & H4).
  exists st1, st'. repeat split; assumption.
Defined.

(** The mutable block (tile 3) added at cell (0, 0, 0) and removed. *)
Lemma removeTile_removes_once_witness :
  exists st1 st',
    addTile Scene.view Scene.data 0 3 0 0 0 Scene.buckets0 = (Ok None, st1) /\
    removeTile 0 0 0 st1 = (Ok true, st') /\
    (forall key s,
        enumerateSection (bucketAt st' key) s =
        filter (fun e => e_p e <> 0%nat) (enumerateSection (bucketAt st1 key) s)) /\
    removeTile 0 0 0 st' = (Ok false, st').
Proof.
  destruct (addTile Scene.view Scene.data 0 3 0 0 0 Scene.buckets0) as [[r0| |] st1] eqn:Hadd;
    try (vm_compute in Hadd; discriminate).
  destruct (addTile_mutable_linked Scene.view Scene.data 0 3 0 0 0 Scene.buckets0
              r0 st1 _ buckets0_fresh buckets0_ids_below eq_refl eq_refl
              ltac:(discriminate) Hadd)
    as (el & -> & Hc & Hel & Hlink & _).
  change (nextElement Scene.buckets0) with 0%nat in Hc, Hel, Hlink.
  destruct (proj2 (removeTile_removes_once 0 0 0 st1) 0%nat el Hc Hel Hlink)
    as (st' & H1 & H2 & H3).
  exists st1, st'. repeat split; assumption.
Defined.

End BucketsUse.

(** ** Canvace.TileMap: reading cells, loading a tile, translating a path *)

Module TileMapUse.

Import TileMap.

(** [getAt(i, j, k)]: the number in the cell, [None] for [false]. *)
Definition getAt (m : Matrix.t cell) (i j k : Z) : option Z :=
  match Matrix.get m i j k with
  | Some (TileId n) => Some n
  | _ => None
  end.

(** What [getAt2] returns: the value of a cell ([undefined] when the
    cell named by a reference is empty), or the object
    [{id: id, i: ..., j: ...}]. *)
Inductive at2 : Type :=
| Value (v : option cell)
| Reference (id : option cell) (i j : Z).

(** [getAt2(i, j, k, alwaysId)]; on an empty cell [value.split] raises
    [TypeError]. *)
Definition getAt2 (m : Matrix.t cell) (i j k : Z) (alwaysId : bool) : result at2 :=
  match Matrix.get m i j k with
  | Some (TileId n) => Ok (Value (Some (TileId n)))
  | Some (Ref i0 j0) =>
      let id := Matrix.get m i0 j0 k in
      if alwaysId then Ok (Value id) else Ok (Reference id i0 j0)
  | None => Throw TypeError
  end.

(** [Canvace.TileMap.translatePath(i, j, path)].  A label that is not an
    index of the two offset arrays reads [undefined], and the sums are
    [NaN] from there on: [None]. *)
Definition offsets_i : list Z := [-1; -1; -1; 0; 0; 0; 1; 1; 1].
Definition offsets_j : list Z := [-1; 0; 1; -1; 0; 1; -1; 0; 1].

Definition at_index (l : list Z) (index : Z) : option Z :=
  if 0 <=? index then l !! Z.to_nat index else None.

Definition plus (x y : option Z) : option Z :=
  match x, y with
  | Some a, Some b => Some (a + b)
  | _, _ => None
  end.

Fixpoint translatePath (i j : option Z) (path : list Z) : list (option Z * option Z) :=
  match path with
  | [] => []
  | label :: path' =>
      let i' := plus i (at_index offsets_i label) in
      let j' := plus j (at_index offsets_j label) in
      (i', j') :: translatePath i' j' path'
  end.

Section Map.

Variable data : stage_data.

(** *** Paths of the graph *)

(** A walk in the graph of [getGraphNode(..., k, i1, j1)] on the matrix
    [m]: the labels of its edges and the cells it goes through, from the
    node of a cell. *)
Inductive walk (m : Matrix.t cell) (k i1 j1 : Z) : Z * Z -> list Z -> list (Z * Z) -> Prop :=
| walk_nil c : walk m k i1 j1 c [] []
| walk_cons i j n label c labels cells :
    makeNode data m k i1 j1 i j = Ok n ->
    (label, c) ∈ neighbors n ->
    walk m k i1 j1 c labels cells ->
    walk m k i1 j1 (i, j) (label :: labels) (c :: cells).

Lemma offsets_agree (index : Z) :
  0 <= index <= 8 ->
  at_index offsets_i index = Some (offset_i index) /\
  at_index offsets_j index = Some (offset_j index).
Proof.
  intros Hr.
  assert (Hcases : index = 0 \/ index = 1 \/ index = 2 \/ index = 3 \/ index = 4 \/
                   index = 5 \/ index = 6 \/ index = 7 \/ index = 8) by lia.
  repeat (destruct Hcases as [->|Hcases]; [split; reflexivity|]).
  subst. split; reflexivity.
Qed.

(** [translatePath] turns the labels of any walk in the graph of
    [getGraphNode] back into the cells the walk goes through; each of
    them is walkable. *)
Theorem translatePath_follows_walk (m : Matrix.t cell) (k i1 j1 : Z) c labels cells :
  walk m k i1 j1 c labels cells ->
  translatePath (Some (fst c)) (Some (snd c)) labels =
    map (fun c' => (Some (fst c'), Some (snd c'))) cells /\
  Forall (fun c' => walkable data m k (fst c') (snd c') = Ok true) cells.
Proof.
  induction 1 as [c|i j n label c labels cells Hn Hin Hw [IH1 IH2]]; simpl.
  - split; [reflexivity | constructor].
  - unfold makeNode in Hn. cbv zeta in Hn.
    apply bind_Ok in Hn as (ns & Hns & Hn'). injection Hn' as <-. simpl in Hin.
    apply (TileMapFacts.neighbors_spec data m k i j ns Hns) in Hin as (Hr & Hok & ->).
    destruct (offsets_agree label Hr) as [-> ->]. simpl. simpl in IH1.
    rewrite IH1. split; [reflexivity|]. constructor; [|exact IH2].
    apply Hok.
Qed.

(** *** Loading a tile *)

Lemma covered_elem (l : layout) (i j a b : Z) :
  (a, b) ∈ covered l i j <->
  i - ref_i l <= a < i - ref_i l + span_i l /\ j - ref_j l <= b < j - ref_j l + span_j l.
Proof.
  unfold covered. rewrite list_elem_of_In, in_flat_map. split.
  - intros (x & Hx & Hab). apply list_elem_of_In in Hx. apply list_elem_of_In in Hab.
    apply list_elem_of_fmap in Hab as (y & [= -> ->] & Hy).
    apply BucketsFacts.range_elem in Hx, Hy. lia.
  - intros [Ha Hb]. exists a. split.
    + apply list_elem_of_In, BucketsFacts.range_elem. lia.
    + apply list_elem_of_In, list_elem_of_fmap. exists b. split; [reflexivity|].
      apply BucketsFacts.range_elem. lia.
Qed.

Lemma put_refs_get (k i j : Z) (cells : list (Z * Z)) : forall (m : Matrix.t cell) a b,
  Matrix.get
    (fold_left (fun m c => Matrix.put m (fst c) (snd c) k (Ref i j)) cells m) a b k =
  if decide ((a, b) ∈ cells) then Some (Ref i j) else Matrix.get m a b k.
Proof.
  induction cells as [|c cells IH]; intros m a b; cbn [fold_left].
  - rewrite decide_False by apply not_elem_of_nil. reflexivity.
  - rewrite IH. destruct (decide ((a, b) ∈ cells)) as [Hin|Hnin].
    + rewrite decide_True by (now constructor). reflexivity.
    + unfold Matrix.get, Matrix.put. simpl.
      destruct (decide ((a, b) = c)) as [<-|Hne].
      * rewrite decide_True by constructor. apply lookup_insert_eq.
      * rewrite decide_False by (rewrite not_elem_of_cons; tauto).
        apply lookup_insert_ne. destruct c as [c1 c2]. simpl.
        intros [= -> ->]. now apply Hne.
Qed.

Lemma put_refs_layer (k i j : Z) (cells : list (Z * Z)) : forall (m : Matrix.t cell) k',
  Matrix.hasLayer m k' = true ->
  Matrix.hasLayer
    (fold_left (fun m c => Matrix.put m (fst c) (snd c) k (Ref i j)) cells m) k' = true.
Proof.
  induction cells as [|c cells IH]; intros m k' Hl; simpl; [exact Hl|].
  apply IH. unfold Matrix.hasLayer, Matrix.put in *. simpl.
  apply bool_decide_eq_true. apply bool_decide_eq_true in Hl. now apply elem_of_union_r.
Qed.

Variable view : View.t.

(** One tile loaded by the constructor (the tile [id] of
    [data.map[k][i][j]]): every cell of its box answers as the tile,
    whichever cell of the box is asked; [getAt] gives the id at the
    reference cell [(i, j)] only and [false] at the other cells of the
    box; [getAt2(..., true)] gives the id at every cell of the box when
    the reference cell lies in the box; and no other cell changes. *)
Theorem load_tile_fills_box now (k i j id : Z) (t : tile) (st st' : state) :
  tiles data !! id = Some t ->
  load_tile view data now k i j id st = (Ok tt, st') ->
  let box := covered (tile_layout t) i j in
  getAt (matrix st') i j k = Some id /\
  (forall a b, (a, b) ∈ box ->
     tileAt data (matrix st') k a b = Ok t /\
     walkable data (matrix st') k a b = Ok (negb (tile_solid t)) /\
     ((a, b) <> (i, j) -> getAt (matrix st') a b k = None) /\
     ((i, j) ∈ box -> getAt2 (matrix st') a b k true = Ok (Value (Some (TileId id))))) /\
  (forall a b, (a, b) ∉ box -> (a, b) <> (i, j) ->
     Matrix.get (matrix st') a b k = Matrix.get (matrix st) a b k) /\
  (forall a b k', k' <> k ->
     Matrix.get (matrix st') a b k' = Matrix.get (matrix st) a b k') /\
  Matrix.hasLayer (matrix st') k = true.
Proof.
  intros Hid Hrun box. unfold load_tile in Hrun. rewrite Hid in Hrun.
  unfold bindM, set_matrix, modify, on_buckets, ret in Hrun. simpl in Hrun.
  destruct (Buckets.addTile view data now id i j k (buckets st)) as [[r| |] bs] eqn:Hadd;
    try discriminate.
  injection Hrun as <-. cbn [matrix].
  change (covered (tile_layout t) i j) with box.
  set (m1 := fold_left (fun m c => Matrix.put m (fst c) (snd c) k (Ref i j)) box (matrix st)).
  assert (Hget : forall a b,
             Matrix.get (Matrix.put m1 i j k (TileId id)) a b k =
             if decide ((a, b) = (i, j)) then Some (TileId id)
             else if decide ((a, b) ∈ box) then Some (Ref i j)
             else Matrix.get (matrix st) a b k).
  { intros a b. destruct (decide ((a, b) = (i, j))) as [[= -> ->]|Hne].
    - unfold Matrix.get, Matrix.put. simpl. apply lookup_insert_eq.
    - rewrite <- (put_refs_get k i j box (matrix st) a b). fold m1.
      unfold Matrix.get, Matrix.put. simpl. apply lookup_insert_ne. congruence. }
  assert (Href : Matrix.get (Matrix.put m1 i j k (TileId id)) i j k = Some (TileId id)).
  { rewrite Hget. now rewrite decide_True. }
  assert (Htile : forall a b, (a, b) ∈ box ->
             tileAt data (Matrix.put m1 i j k (TileId id)) k a b = Ok t).
  { intros a b Hin. unfold tileAt. rewrite Hget.
    destruct (decide ((a, b) = (i, j))); cbn [bind].
    - now rewrite Hid.
    - destruct (decide ((a, b) ∈ box)) as [_|?]; [|contradiction].
      cbn [bind]. rewrite Href. now rewrite Hid. }
  split; [unfold getAt; now rewrite Href|]. split; [|split; [|split]].
  - intros a b Hin. split; [now apply Htile|]. split; [|split].
    + unfold walkable. rewrite (Htile a b Hin).
      assert (Hhas : Matrix.has (Matrix.put m1 i j k (TileId id)) a b k = true).
      { unfold Matrix.has. apply bool_decide_eq_true.
        change (is_Some (Matrix.get (Matrix.put m1 i j k (TileId id)) a b k)).
        rewrite Hget. destruct (decide _); [eauto|].
        destruct (decide ((a, b) ∈ box)) as [_|?]; [eauto | contradiction]. }
      rewrite Hhas. reflexivity.
    + intros Hne. unfold getAt. rewrite Hget.
      destruct (decide ((a, b) = (i, j))); [contradiction|].
      destruct (decide ((a, b) ∈ box)) as [_|?]; [reflexivity | contradiction].
    + intros Hij. unfold getAt2. rewrite Hget.
      destruct (decide ((a, b) = (i, j))); [reflexivity|].
      destruct (decide ((a, b) ∈ box)) as [_|?]; [|contradiction]. now rewrite Href.
  - intros a b Hnin Hne. rewrite Hget.
    destruct (decide ((a, b) = (i, j))); [contradiction|].
    destruct (decide ((a, b) ∈ box)); [contradiction | reflexivity].
  - intros a b k' Hk. unfold Matrix.get, Matrix.put. simpl.
    rewrite lookup_insert_ne by congruence. unfold m1. clear -Hk.
    generalize (matrix st). induction box as [|c cells IH]; intros m; simpl; [reflexivity|].
    rewrite IH. unfold Matrix.put. simpl. apply lookup_insert_ne.
    intros [= _ _ ?]. congruence.
  - unfold Matrix.hasLayer, Matrix.put. simpl. apply bool_decide_eq_true.
    apply elem_of_union_l, elem_of_singleton. reflexivity.
Qed.

End Map.

(** The two-cell block (tile 4) loaded at cell (0, 0) of layer 0. *)
Lemma load_tile_fills_box_witness :
  exists st',
    load_tile Scene.view Scene.data 0 0 0 0 4 (State Matrix.empty Scene.buckets0)
      = (Ok tt, st') /\
    getAt (matrix st') 0 0 0 = Some 4 /\
    walkable Scene.data (matrix st') 0 0 1 = Ok false /\
    getAt (matrix st') 0 1 0 = None /\
    getAt2 (matrix st') 0 1 0 true = Ok (Value (Some (TileId 4))).
Proof.
  destruct (load_tile Scene.view Scene.data 0 0 0 0 4 (State Matrix.empty Scene.buckets0))
    as [[[]| |] st'] eqn:Hrun; try (vm_compute in Hrun; discriminate).
  destruct (load_tile_fills_box Scene.data Scene.view 0 0 0 0 4 _ _ st' eq_refl Hrun)
    as (H1 & H2 & _).
  assert (Hin : (0, 1) ∈ covered (Layout 1 2 0 0) 0 0) by (apply covered_elem; simpl; lia).
  assert (Hij : (0, 0) ∈ covered (Layout 1 2 0 0) 0 0) by (apply covered_elem; simpl; lia).
  destruct (H2 0 1 Hin) as (_ & Hw & Hg & Hg2).
  exists st'. split; [reflexivity|]. split; [exact H1|]. split; [exact Hw|].
  split; [apply Hg; discriminate | apply Hg2; exact Hij].
Defined.

(** Around the wall of the 2 x 2 patch: from (0, 0) to (0, 1), back, and
    on to (1, 0). *)
Lemma translatePath_follows_walk_witness :
  translatePath (Some 0) (Some 0) [5; 3; 7] =
    map (fun c' => (Some (fst c'), Some (snd c'))) [(0, 1); (0, 0); (1, 0)] /\
  Forall (fun c' => walkable TileMapFacts.corner_data TileMapFacts.corner_matrix 0
                      (fst c') (snd c') = Ok true)
    [(0, 1); (0, 0); (1, 0)].
Proof.
  apply (translatePath_follows_walk TileMapFacts.corner_data TileMapFacts.corner_matrix
           0 1 0 (0, 0) [5; 3; 7] [(0, 1); (0, 0); (1, 0)]).
  eapply walk_cons; [vm_compute; reflexivity | vm_compute; repeat constructor|].
  eapply walk_cons; [vm_compute; reflexivity | vm_compute; repeat constructor|].
  eapply walk_cons; [vm_compute; reflexivity | vm_compute; repeat constructor|].
  constructor.
Defined.

End TileMapUse.

(** ** Canvace.View: projection, its inverse and the camera

    Numbers are rationals here as in the rest of the development: the
    rounding of floating point arithmetic is not modelled. *)

From Stdlib Require Import Qminmax.

Module ViewUse.

Import View.

Definition m00 (v : t) : Q := fst (fst (fst (fst (mat v)))).
Definition m01 (v : t) : Q := snd (fst (fst (fst (mat v)))).
Definition m02 (v : t) : Q := snd (fst (fst (mat v))).
Definition m10 (v : t) : Q := fst (fst (snd (fst (mat v)))).
Definition m11 (v : t) : Q := snd (fst (snd (fst (mat v)))).
Definition m12 (v : t) : Q := snd (snd (fst (mat v))).
Definition m20 (v : t) : Q := fst (fst (snd (mat v))).
Definition m21 (v : t) : Q := snd (fst (snd (mat v))).
Definition m22 (v : t) : Q := snd (snd (mat v)).

(** The determinant the constructor computes. *)
Definition det (v : t) : Q :=
  (m00 v * m11 v * m22 v + m01 v * m12 v * m20 v + m02 v * m10 v * m21 v
   - m02 v * m11 v * m20 v - m01 v * m10 v * m22 v - m00 v * m12 v * m21 v)%Q.

(** The entries of [inv], for a determinant that is not zero. *)
Definition inv00 (v : t) : Q := ((m11 v * m22 v - m21 v * m12 v) / det v)%Q.
Definition inv01 (v : t) : Q := ((m02 v * m21 v - m22 v * m01 v) / det v)%Q.
Definition inv02 (v : t) : Q := ((m01 v * m12 v - m11 v * m02 v) / det v)%Q.
Definition inv10 (v : t) : Q := ((m12 v * m20 v - m22 v * m10 v) / det v)%Q.
Definition inv11 (v : t) : Q := ((m00 v * m22 v - m20 v * m02 v) / det v)%Q.
Definition inv12 (v : t) : Q := ((m02 v * m10 v - m12 v * m00 v) / det v)%Q.
Definition inv20 (v : t) : Q := ((m10 v * m21 v - m20 v * m11 v) / det v)%Q.
Definition inv21 (v : t) : Q := ((m01 v * m20 v - m21 v * m00 v) / det v)%Q.
Definition inv22 (v : t) : Q := ((m00 v * m11 v - m10 v * m01 v) / det v)%Q.

(** [project(i, j, k)]. *)
Definition project (v : t) (i j k : Q) : Q * Q * Z :=
  (m00 v * i + m01 v * j + m02 v * k,
   m10 v * i + m11 v * j + m12 v * k,
   round (m20 v * i + m21 v * j + m22 v * k))%Q.

(** The numbers of [unproject] and [getCell] are finite only when the
    determinant and [inv[2][2]] are not zero: with a zero determinant
    every entry of [inv] is infinite or [NaN] and so are [z], [i] and
    [j]; with [inv[2][2]] zero [z] is, and [i] and [j] with it. *)
Definition regular (v : t) : bool :=
  negb (Qeq_bool (det v) 0) && negb (Qeq_bool (inv22 v) 0).

(** [unproject(x, y, k)]; [None]: [i] and [j] are not finite numbers. *)
Definition unproject (v : t) (x y k : Q) : option (Q * Q * Q) :=
  if regular v then
    let z := ((k + inv20 v * (x0 v - x) + inv21 v * (y0 v - y)) / inv22 v)%Q in
    let i := (inv00 v * (x - x0 v) + inv01 v * (y - y0 v) + inv02 v * z)%Q in
    let j := (inv10 v * (x - x0 v) + inv11 v * (y - y0 v) + inv12 v * z)%Q in
    Some (i, j, k)
  else None.

(** [getCell(x, y, k)]; [None]: [i] and [j] are not finite numbers. *)
Definition getCell (v : t) (x y k : Q) : option (Z * Z * Q) :=
  if regular v then
    let z := ((k - inv20 v * (x - x0 v) - inv21 v * (y - y0 v)) / inv22 v)%Q in
    let i := Qfloor (inv00 v * (x - x0 v) + inv01 v * (y - y0 v) + inv02 v * z) in
    let j := Qfloor (inv10 v * (x - x0 v) + inv11 v * (y - y0 v) + inv12 v * z) in
    Some (i, j, k)
  else None.

(** [drag(dx, dy)] and [dragTo(x, y)]: the origin afterwards (the drag
    handlers are then called with it). *)
Definition drag (v : t) (dx dy : Q) : t :=
  Make (mat v) (x0 v + dx) (y0 v + dy) (width v) (height v).
Definition dragTo (v : t) (x y : Q) : t := Make (mat v) x y (width v) (height v).

(** [intersects(i, j, k, di, dj, dk)]. *)
Definition intersects (v : t) (i j k di dj dk : Q) : bool :=
  let x1 := (m00 v * i + m01 v * j + m02 v * k)%Q in
  let y1 := (m10 v * i + m11 v * j + m12 v * k)%Q in
  let x2 := (m00 v * (i + di) + m01 v * (j + dj) + m02 v * (k + dk))%Q in
  let y2 := (m10 v * (i + di) + m11 v * (j + dj) + m12 v * (k + dk))%Q in
  Buckets.ltQ (Qmin x1 x2) (inject_Z (width v) - x0 v)
  && Buckets.ltQ (- x0 v) (Qmax x1 x2)
  && Buckets.ltQ (Qmin y1 y2) (inject_Z (height v) - y0 v)
  && Buckets.ltQ (- y0 v) (Qmax y1 y2).

(** [new Synchronizer(targetAreaWidth, targetAreaHeight, delay).tick(target)]
    for a target whose [getProjectedRectangle()] is [(x, y, w, h)]: the
    view afterwards (the drag handlers are then called with its
    origin). *)
Definition tick (targetAreaWidth targetAreaHeight delay : Q) (v : t) (x y w h : Q) : t :=
  let frameWidth := ((inject_Z (width v) - targetAreaWidth) / 2)%Q in
  let frameHeight := ((inject_Z (height v) - targetAreaHeight) / 2)%Q in
  let x1 := x0 v in
  let y1 := y0 v in
  let x1 := if Buckets.ltQ (inject_Z (width v) - frameWidth) (x0 v + x + w)
            then (inject_Z (width v) - x - w - frameWidth)%Q else x1 in
  let x1 := if Buckets.ltQ (x0 v + x) frameWidth then (frameWidth - x)%Q else x1 in
  let y1 := if Buckets.ltQ (inject_Z (height v) - frameHeight) (y0 v + y + h)
            then (inject_Z (height v) - y - h - frameHeight)%Q else y1 in
  let y1 := if Buckets.ltQ (y0 v + y) frameHeight then (frameHeight - y)%Q else y1 in
  Make (mat v) (x0 v + (x1 - x0 v) * (1 - delay)) (y0 v + (y1 - y0 v) * (1 - delay))
    (width v) (height v).

Lemma regular_spec (v : t) : regular v = true <-> ~ (det v == 0)%Q /\ ~ (inv22 v == 0)%Q.
Proof.
  unfold regular. rewrite andb_true_iff, !negb_true_iff.
  split.
  - intros [H1 H2]. split; intros Heq; apply Qeq_bool_iff in Heq; congruence.
  - intros [H1 H2]. split; apply not_true_is_false; intros Heq;
      apply Qeq_bool_iff in Heq; contradiction.
Qed.

Lemma minor_nonzero (v : t) :
  ~ (det v == 0)%Q -> ~ (inv22 v == 0)%Q -> ~ (m00 v * m11 v - m10 v * m01 v == 0)%Q.
Proof.
  intros Hd Hi Hm. apply Hi. unfold inv22. rewrite Hm. unfold Qdiv. ring.
Qed.

(** The numbers [unproject] computes for the projection of a point. *)
Lemma unproject_numbers (v : t) (i j k : Q) :
  ~ (det v == 0)%Q -> ~ (inv22 v == 0)%Q ->
  let x := (m00 v * i + m01 v * j + m02 v * k + x0 v)%Q in
  let y := (m10 v * i + m11 v * j + m12 v * k + y0 v)%Q in
  let z := ((k + inv20 v * (x0 v - x) + inv21 v * (y0 v - y)) / inv22 v)%Q in
  (inv00 v * (x - x0 v) + inv01 v * (y - y0 v) + inv02 v * z == i)%Q /\
  (inv10 v * (x - x0 v) + inv11 v * (y - y0 v) + inv12 v * z == j)%Q /\
  ((k - inv20 v * (x - x0 v) - inv21 v * (y - y0 v)) / inv22 v == z)%Q.
Proof.
  intros Hd Hi. pose proof (minor_nonzero v Hd Hi) as Hm. cbv zeta.
  unfold inv00, inv01, inv02, inv10, inv11, inv12, inv20, inv21, inv22 in *.
  unfold det in *.
  set (a := m00 v) in *. set (b := m01 v) in *. set (c := m02 v) in *.
  set (d := m10 v) in *. set (e := m11 v) in *. set (f := m12 v) in *.
  set (g := m20 v) in *. set (h := m21 v) in *. set (l := m22 v) in *.
  repeat split; field; auto.
Qed.

(** [unproject] inverts the projection: for a view whose matrix has a
    determinant that is not zero (and [inv[2][2]] not zero), the point
    [(i, j, k)] is recovered from the screen position of its projection
    (the projected [x], [y] shifted by the origin) and its layer [k]. *)
Theorem unproject_inverts_project (v : t) (i j k : Q) :
  regular v = true ->
  exists i' j',
    unproject v (fst (fst (project v i j k)) + x0 v) (snd (fst (project v i j k)) + y0 v) k
      = Some (i', j', k) /\
    (i' == i)%Q /\ (j' == j)%Q.
Proof.
  intros Hreg. unfold unproject. rewrite Hreg. cbv zeta.
  apply regular_spec in Hreg as [Hd Hi].
  destruct (unproject_numbers v i j k Hd Hi) as (H1 & H2 & _).
  eexists _, _. split; [reflexivity|]. split; [exact H1 | exact H2].
Qed.

(** [getCell] finds the cell of a point from the screen position of its
    projection: for the point [(ci + a, cj + b, k)] with integers [ci],
    [cj] and [0 <= a, b < 1] it returns the cell [(ci, cj, k)]. *)
Theorem getCell_finds_cell (v : t) (ci cj : Z) (a b k : Q) :
  regular v = true ->
  (0 <= a)%Q -> (a < 1)%Q -> (0 <= b)%Q -> (b < 1)%Q ->
  let p := project v (inject_Z ci + a) (inject_Z cj + b) k in
  getCell v (fst (fst p) + x0 v) (snd (fst p) + y0 v) k = Some (ci, cj, k).
Proof.
  intros Hreg Ha0 Ha1 Hb0 Hb1 p. unfold getCell. rewrite Hreg. cbv zeta.
  assert (Hfloor : forall (n : Z) (r : Q), (0 <= r)%Q -> (r < 1)%Q ->
                                      Qfloor (inject_Z n + r) = n).
  { clear. intros n r Hr0 Hr1. apply FrameTableFacts.Qfloor_unique; [lra|].
    rewrite inject_Z_plus. change (inject_Z 1) with 1%Q. lra. }
  apply regular_spec in Hreg as [Hd Hi].
  destruct (unproject_numbers v (inject_Z ci + a) (inject_Z cj + b) k Hd Hi)
    as (H1 & H2 & H3).
  cbv zeta in H1, H2, H3. unfold p, project. simpl fst. simpl snd.
  rewrite H3, H1, H2.
  now rewrite !Hfloor.
Qed.

Lemma ltQ_true (x y : Q) : Buckets.ltQ x y = true <-> (x < y)%Q.
Proof. apply BucketsFacts.ltQ_spec. Qed.

(** The camera of [Synchronizer]: one [tick] moves the origin towards
    the nearest origin [(x1, y1)] that shows the target inside the
    central target area, and leaves the fraction [delay] of the way;
    with [delay = 0] the target, when it is no larger than the target
    area, lies inside the target area after the tick. *)
Theorem synchronizer_brings_target_in (taw tah delay : Q) (v : t) (x y w h : Q) :
  (w <= taw)%Q -> (h <= tah)%Q ->
  let fw := ((inject_Z (width v) - taw) / 2)%Q in
  let fh := ((inject_Z (height v) - tah) / 2)%Q in
  let v' := tick taw tah delay v x y w h in
  exists x1 y1,
    (fw <= x1 + x)%Q /\ (x1 + x + w <= inject_Z (width v) - fw)%Q /\
    (fh <= y1 + y)%Q /\ (y1 + y + h <= inject_Z (height v) - fh)%Q /\
    (x0 v' - x1 == delay * (x0 v - x1))%Q /\
    (y0 v' - y1 == delay * (y0 v - y1))%Q.
Proof.
  intros Hw Hh fw fh v'. unfold v', tick. cbv zeta. fold fw fh. simpl.
  set (xa := if Buckets.ltQ (inject_Z (width v) - fw) (x0 v + x + w)
             then (inject_Z (width v) - x - w - fw)%Q else x0 v).
  set (x1 := if Buckets.ltQ (x0 v + x) fw then (fw - x)%Q else xa).
  set (ya := if Buckets.ltQ (inject_Z (height v) - fh) (y0 v + y + h)
             then (inject_Z (height v) - y - h - fh)%Q else y0 v).
  set (y1 := if Buckets.ltQ (y0 v + y) fh then (fh - y)%Q else ya).
  assert (Hfw : (2 * fw == inject_Z (width v) - taw)%Q) by (unfold fw; field).
  assert (Hfh : (2 * fh == inject_Z (height v) - tah)%Q) by (unfold fh; field).
  exists x1, y1.
  assert (Hx : (fw <= x1 + x)%Q /\ (x1 + x + w <= inject_Z (width v) - fw)%Q).
  { unfold x1, xa.
    destruct (Buckets.ltQ (x0 v + x) fw) eqn:H2.
    - split; lra.
    - assert (~ (x0 v + x < fw)%Q) by (rewrite <- ltQ_true; congruence).
      destruct (Buckets.ltQ (inject_Z (width v) - fw) (x0 v + x + w)) eqn:H1.
      + split; lra.
      + assert (~ (inject_Z (width v) - fw < x0 v + x + w)%Q)
          by (rewrite <- ltQ_true; congruence).
        split; lra. }
  assert (Hy : (fh <= y1 + y)%Q /\ (y1 + y + h <= inject_Z (height v) - fh)%Q).
  { unfold y1, ya.
    destruct (Buckets.ltQ (y0 v + y) fh) eqn:H2.
    - split; lra.
    - assert (~ (y0 v + y < fh)%Q) by (rewrite <- ltQ_true; congruence).
      destruct (Buckets.ltQ (inject_Z (height v) - fh) (y0 v + y + h)) eqn:H1.
      + split; lra.
      + assert (~ (inject_Z (height v) - fh < y0 v + y + h)%Q)
          by (rewrite <- ltQ_true; congruence).
        split; lra. }
  destruct Hx as [Hx1 Hx2]. destruct Hy as [Hy1 Hy2].
  repeat split; auto; ring.
Qed.

(** The dimetric view of the demo: x' = 2 i - 2 j, y' = i + j - k,
    z' = i + j + k. *)
Definition dimetric : t :=
  Make ((2, -2, 0), (1, 1, -1), (1, 1, 1))%Q 10 20 800 600.

Lemma unproject_inverts_project_witness :
  exists i' j',
    unproject dimetric (fst (fst (project dimetric 3 4 1)) + 10)
      (snd (fst (project dimetric 3 4 1)) + 20) 1 = Some (i', j', 1%Q) /\
    (i' == 3)%Q /\ (j' == 4)%Q.
Proof. apply (unproject_inverts_project dimetric 3 4 1). vm_compute. reflexivity. Defined.

Lemma getCell_finds_cell_witness :
  getCell dimetric
    (fst (fst (project dimetric (inject_Z 3 + (1 # 2)) (inject_Z 4 + (1 # 4)) 1)) + 10)
    (snd (fst (project dimetric (inject_Z 3 + (1 # 2)) (inject_Z 4 + (1 # 4)) 1)) + 20) 1
  = Some (3, 4, 1%Q).
Proof.
  apply (getCell_finds_cell dimetric 3 4 (1 # 2) (1 # 4) 1);
    [vm_compute; reflexivity | lra | lra | lra | lra].
Defined.

Lemma synchronizer_brings_target_in_witness :
  exists x1 y1,
    ((inject_Z 800 - 200) / 2 <= x1 + 700)%Q /\
    (x1 + 700 + 32 <= inject_Z 800 - (inject_Z 800 - 200) / 2)%Q /\
    ((inject_Z 600 - 100) / 2 <= y1 + 50)%Q /\
    (y1 + 50 + 32 <= inject_Z 600 - (inject_Z 600 - 100) / 2)%Q /\
    (x0 (tick 200 100 (1 # 2) dimetric 700 50 32 32) - x1 == (1 # 2) * (10 - x1))%Q /\
    (y0 (tick 200 100 (1 # 2) dimetric 700 50 32 32) - y1 == (1 # 2) * (20 - y1))%Q.
Proof.
  apply (synchronizer_brings_target_in 200 100 (1 # 2) dimetric 700 50 32 32);
    vm_compute; discriminate.
Defined.

End ViewUse.

(** ** Canvace.List

    The doubly linked list.  Nodes are the object literals [addHead] and
    [addTail] allocate; a node is named by the order of its allocation
    and an [Accessor] by the node it wraps.  A node that left the list
    stays allocated: accessors still hold it. *)

Module LinkedList.

Section Elements.

Context {A : Type}.

Record node : Type := Node {
  element : A;
  previous : option nat;
  next : option nat;
  removed : bool
}.

Record t : Type := Make {
  nodes : list node;
  head : option nat;
  tail : option nat;
  count : Z
}.

Definition empty : t := Make [] None None 0.

Definition set_previous (p : option nat) (nd : node) : node :=
  Node (element nd) p (next nd) (removed nd).
Definition set_next (q : option nat) (nd : node) : node :=
  Node (element nd) (previous nd) q (removed nd).
Definition set_removed (nd : node) : node :=
  Node (element nd) (previous nd) (next nd) true.

(** [addHead(element)]: the new node, and the list afterwards. *)
Definition addHead (x : A) (l : t) : nat * t :=
  let n := length (nodes l) in
  let ns := nodes l ++ [Node x None (head l) false] in
  let hd := Some n in
  let tl := match tail l with None => hd | Some _ => tail l end in
  (n, Make ns hd tl (count l + 1)).

(** [addTail(element)]. *)
Definition addTail (x : A) (l : t) : nat * t :=
  let n := length (nodes l) in
  let ns := nodes l ++ [Node x (tail l) None false] in
  let tl := Some n in
  let hd := match head l with None => tl | Some _ => head l end in
  (n, Make ns hd tl (count l + 1)).

Definition getHead (l : t) : option nat := head l.
Definition getTail (l : t) : option nat := tail l.
Definition isEmpty (l : t) : bool := count l =? 0.
Definition clear (l : t) : t := Make (nodes l) None None 0.

(** An update of the node [n] of the store. *)
Definition update (n : nat) (f : node -> node) (ns : list node) : list node :=
  match ns !! n with
  | Some nd => <[n := f nd]> ns
  | None => ns
  end.

(** The methods of the accessor of the node [n]; [None]: [n] names no
    node. *)
Definition acc_element (n : nat) (l : t) : option A := element <$> nodes l !! n.

(** The object literals [previous] and [next] throw for a removed node,
    with its element. *)
Inductive thrown : Type :=
| NoPrevious (x : A)
| NoNext (x : A).

Definition acc_previous (n : nat) (l : t) : option (thrown + option nat) :=
  nd ← nodes l !! n;
  Some (if removed nd then inl (NoPrevious (element nd)) else inr (previous nd)).

Definition acc_next (n : nat) (l : t) : option (thrown + option nat) :=
  nd ← nodes l !! n;
  Some (if removed nd then inl (NoNext (element nd)) else inr (next nd)).

Definition same (a : option nat) (n : nat) : bool :=
  match a with Some m => Nat.eqb m n | None => false end.

Definition acc_remove (n : nat) (l : t) : option (bool * t) :=
  nd ← nodes l !! n;
  if removed nd then Some (false, l)
  else
    let ns1 := match previous nd with
               | Some p => update p (set_next (next nd)) (nodes l)
               | None => nodes l
               end in
    nd1 ← ns1 !! n;
    let ns2 := match next nd1 with
               | Some q => update q (set_previous (previous nd1)) ns1
               | None => ns1
               end in
    nd2 ← ns2 !! n;
    let hd := if same (head l) n then next nd2 else head l in
    let tl := if same (tail l) n then previous nd2 else tail l in
    Some (true, Make (update n set_removed ns2) hd tl (count l)).

(** The loops of [forEach] and [forEachReverse]: the elements [action]
    was called with, and whether it stopped the loop by returning
    [false].  [link] is the field the loop follows.  A chain without a
    cycle has at most as many nodes as were allocated, which is the
    number of steps [forEach] grants: [Diverges] is a cyclic chain. *)
Fixpoint each (fuel : nat) (link : node -> option nat) (action : A -> bool)
    (ns : list node) (cur : option nat) : result (list A * bool) :=
  match cur with
  | None => Ok ([], false)
  | Some n =>
    match fuel with
    | O => Diverges
    | S fuel' =>
      match ns !! n with
      | None => Ok ([], false)
      | Some nd =>
        if action (element nd)
        then match each fuel' link action ns (link nd) with
             | Ok (xs, r) => Ok (element nd :: xs, r)
             | other => other
             end
        else Ok ([element nd], true)
      end
    end
  end.

Definition forEach (action : A -> bool) (l : t) : result (list A * bool) :=
  each (length (nodes l)) next action (nodes l) (head l).

Definition forEachReverse (action : A -> bool) (l : t) : result (list A * bool) :=
  each (length (nodes l)) previous action (nodes l) (tail l).

(** The calls a program makes on a list. *)
Inductive op : Type :=
| AddHead (x : A)
| AddTail (x : A)
| Remove (n : nat)
| Clear.

Definition step (l : t) (o : op) : t :=
  match o with
  | AddHead x => snd (addHead x l)
  | AddTail x => snd (addTail x l)
  | Remove n => match acc_remove n l with Some (_, l') => l' | None => l end
  | Clear => clear l
  end.

Definition run (os : list op) : t := fold_left step os empty.

Definition is_add (o : op) : bool :=
  match o with AddHead _ | AddTail _ => true | _ => false end.

End Elements.

Arguments node A : clear implicits.
Arguments t A : clear implicits.
Arguments op A : clear implicits.

End LinkedList.


Module LinkedListFacts.

Import LinkedList.

Section Elements.

Context {A : Type}.

Implicit Types (l : t A) (nd : node A) (ns : list (node A)).

(** What holds of every node of a list a program builds: its links name
    nodes allocated before it, and one of them at least is [null]. *)
Definition good (n : nat) nd : Prop :=
  (forall p, previous nd = Some p -> (p < n)%nat) /\
  (forall q, next nd = Some q -> (q < n)%nat) /\
  (previous nd = None \/ next nd = None).

Definition all_good ns : Prop := forall n nd, ns !! n = Some nd -> good n nd.

Record wf l : Prop := {
  wf_nodes : all_good (nodes l);
  wf_head : forall h, head l = Some h -> (h < length (nodes l))%nat;
  wf_tail : forall h, tail l = Some h -> (h < length (nodes l))%nat
}.

Lemma update_length (m : nat) (f : node A -> node A) ns :
  length (update m f ns) = length ns.
Proof. unfold update. destruct (ns !! m); [apply length_insert | reflexivity]. Qed.

Lemma update_lookup (m : nat) (f : node A -> node A) ns (n : nat) :
  update m f ns !! n = if Nat.eqb n m then f <$> ns !! n else ns !! n.
Proof.
  unfold update. destruct (Nat.eqb_spec n m) as [->|Hne].
  - destruct (ns !! m) eqn:Hm; [|now rewrite Hm].
    rewrite list_lookup_insert_eq; [reflexivity|]. now apply lookup_lt_Some in Hm.
  - destruct (ns !! m); [|reflexivity]. now rewrite list_lookup_insert_ne.
Qed.

Lemma all_good_update (m : nat) (f : node A -> node A) ns :
  all_good ns -> (forall nd, ns !! m = Some nd -> good m (f nd)) ->
  all_good (update m f ns).
Proof.
  intros Hg Hf n nd. rewrite update_lookup.
  destruct (Nat.eqb_spec n m) as [->|Hne]; [|apply Hg].
  destruct (ns !! m) eqn:Hm; simpl; [|discriminate].
  intros [= <-]. now apply Hf.
Qed.

Lemma list_wf_empty : wf (@empty A).
Proof. split; simpl; [intros n nd Hn; now rewrite lookup_nil in Hn | discriminate..]. Qed.

Lemma all_good_snoc ns nd : all_good ns -> good (length ns) nd -> all_good (ns ++ [nd]).
Proof.
  intros Hg Hnd n nd'. intros Hn.
  apply lookup_app_Some in Hn as [Hn | [Hle Hn]]; [now apply Hg|].
  destruct (n - length ns)%nat eqn:Hd; simpl in Hn; [|now rewrite lookup_nil in Hn].
  injection Hn as <-. replace n with (length ns) by lia. exact Hnd.
Qed.

Lemma wf_addHead (x : A) l : wf l -> wf (snd (addHead x l)).
Proof.
  intros [Hg Hh Ht]. split; simpl.
  - apply all_good_snoc; [assumption|]. repeat split; simpl; [discriminate | | now left].
    intros q Hq. now apply Hh.
  - intros h [= <-]. rewrite length_app. simpl. lia.
  - intros h Hh'. rewrite length_app. simpl.
    destruct (tail l) eqn:Htl; [|injection Hh' as <-; lia].
    specialize (Ht h Hh'). lia.
Qed.

Lemma wf_addTail (x : A) l : wf l -> wf (snd (addTail x l)).
Proof.
  intros [Hg Hh Ht]. split; simpl.
  - apply all_good_snoc; [assumption|]. repeat split; simpl; [ | discriminate | now right].
    intros q Hq. now apply Ht.
  - intros h Hh'. rewrite length_app. simpl.
    destruct (head l) eqn:Hhd; [|injection Hh' as <-; lia].
    specialize (Hh h Hh'). lia.
  - intros h [= <-]. rewrite length_app. simpl. lia.
Qed.

Lemma good_unlink_next (n : nat) nd q :
  good n nd -> (forall q', q = Some q' -> False) -> good n (set_next q nd).
Proof.
  intros (Hp & Hq & Hn) Hnone. repeat split; simpl; [exact Hp | | right].
  - intros q' ->. now destruct (Hnone q').
  - destruct q as [q'|]; [now destruct (Hnone q') | reflexivity].
Qed.

Lemma good_unlink_previous (n : nat) nd p :
  good n nd -> (forall p', p = Some p' -> False) -> good n (set_previous p nd).
Proof.
  intros (Hp & Hq & Hn) Hnone. repeat split; simpl; [ | exact Hq | left].
  - intros p' ->. now destruct (Hnone p').
  - destruct p as [p'|]; [now destruct (Hnone p') | reflexivity].
Qed.

Lemma wf_remove (n : nat) l b l' : wf l -> acc_remove n l = Some (b, l') -> wf l'.
Proof.
  intros [Hg Hh Ht] Hrm. unfold acc_remove in Hrm.
  destruct (nodes l !! n) as [nd|] eqn:Hn; simpl in Hrm; [|discriminate].
  destruct (removed nd); [injection Hrm as <- <-; now split|].
  set (ns1 := match previous nd with
              | Some p => update p (set_next (next nd)) (nodes l)
              | None => nodes l
              end) in Hrm.
  assert (Hg1 : all_good ns1).
  { unfold ns1. destruct (previous nd) as [p|] eqn:Hp; [|assumption].
    apply all_good_update; [assumption|]. intros ndp Hndp.
    apply good_unlink_next; [now apply Hg|].
    intros q' Hq'. destruct (Hg n nd Hn) as (_ & _ & [Hc | Hc]); congruence. }
  assert (Hl1 : length ns1 = length (nodes l)).
  { unfold ns1. destruct (previous nd); [apply update_length | reflexivity]. }
  destruct (ns1 !! n) as [nd1|] eqn:Hn1; simpl in Hrm; [|discriminate].
  set (ns2 := match next nd1 with
              | Some q => update q (set_previous (previous nd1)) ns1
              | None => ns1
              end) in Hrm.
  assert (Hg2 : all_good ns2).
  { unfold ns2. destruct (next nd1) as [q|] eqn:Hq; [|assumption].
    apply all_good_update; [assumption|]. intros ndq Hndq.
    apply good_unlink_previous; [now apply Hg1|].
    intros p' Hp'. destruct (Hg1 n nd1 Hn1) as (_ & _ & [Hc | Hc]); congruence. }
  assert (Hl2 : length ns2 = length (nodes l)).
  { unfold ns2. destruct (next nd1); [rewrite update_length|]; exact Hl1. }
  destruct (ns2 !! n) as [nd2|] eqn:Hn2; simpl in Hrm; [|discriminate].
  injection Hrm as <- <-.
  pose proof (lookup_lt_Some _ _ _ Hn2) as Hlt. rewrite Hl2 in Hlt.
  destruct (Hg2 n nd2 Hn2) as (Hp2 & Hq2 & _).
  split; simpl.
  - apply all_good_update; [assumption|]. intros nd' Hnd'.
    destruct (Hg2 n nd' Hnd') as (? & ? & ?). now repeat split.
  - rewrite update_length, Hl2. intros h.
    destruct (same (head l) n); [|apply Hh]. intros Hq. specialize (Hq2 h Hq). lia.
  - rewrite update_length, Hl2. intros h.
    destruct (same (tail l) n); [|apply Ht]. intros Hq. specialize (Hp2 h Hq). lia.
Qed.

Lemma list_wf_step l (o : op A) : wf l -> wf (step l o).
Proof.
  intros Hwf. destruct o as [x | x | n |]; simpl.
  - now apply wf_addHead.
  - now apply wf_addTail.
  - destruct (acc_remove n l) as [[b l']|] eqn:Hrm; [|assumption].
    now apply (wf_remove n l b l').
  - destruct Hwf as [Hg _ _]. split; simpl; [assumption | discriminate..].
Qed.

Lemma list_wf_fold (os : list (op A)) l : wf l -> wf (fold_left step os l).
Proof.
  revert l. induction os as [|o os IH]; intros l Hwf; simpl; [assumption|].
  apply IH. now apply list_wf_step.
Qed.

Lemma list_wf_run (os : list (op A)) : wf (run os).
Proof. apply list_wf_fold, list_wf_empty. Qed.

(** A chain of links that name ever older nodes ends. *)
Lemma each_returns (link : node A -> option nat) (action : A -> bool) ns :
  (forall n nd m, ns !! n = Some nd -> link nd = Some m -> (m < n)%nat) ->
  forall (fuel : nat) (cur : option nat),
    (forall c, cur = Some c -> (c < fuel)%nat) ->
    exists xs r, each fuel link action ns cur = Ok (xs, r).
Proof.
  intros Hlink. induction fuel as [|fuel IH]; intros cur Hcur.
  - destruct cur as [c|]; [specialize (Hcur c eq_refl); lia|].
    simpl. now eexists _, _.
  - destruct cur as [c|]; simpl; [|now eexists _, _].
    destruct (ns !! c) as [nd|] eqn:Hc; [|now eexists _, _].
    destruct (action (element nd)); [|now eexists _, _].
    destruct (IH (link nd)) as (xs & r & Heach).
    { intros m Hm. specialize (Hlink c nd m Hc Hm). specialize (Hcur c eq_refl). lia. }
    rewrite Heach. now eexists _, _.
Qed.

(** [forEach] and [forEachReverse] return on every list a program can
    build with [addHead], [addTail], [remove] and [clear]: no sequence
    of calls makes a cycle of links. *)
Theorem forEach_returns (os : list (op A)) (action : A -> bool) :
  (exists xs r, forEach action (run os) = Ok (xs, r)) /\
  (exists xs r, forEachReverse action (run os) = Ok (xs, r)).
Proof.
  destruct (list_wf_run os) as [Hg Hh Ht]. split.
  - apply each_returns; [|exact Hh].
    intros n nd m Hn Hm. destruct (Hg n nd Hn) as (_ & Hq & _). now apply Hq.
  - apply each_returns; [|exact Ht].
    intros n nd m Hn Hm. destruct (Hg n nd Hn) as (Hp & _ & _). now apply Hp.
Qed.

(** [remove] leaves [count] alone. *)
Lemma count_step l (o : op A) :
  o <> Clear -> count (step l o) = count l + (if is_add o then 1 else 0).
Proof.
  intros Hne. destruct o as [x | x | n |]; simpl; [reflexivity.. | | congruence].
  rewrite Z.add_0_r. unfold acc_remove.
  destruct (nodes l !! n) as [nd|]; simpl; [|reflexivity].
  destruct (removed nd); [reflexivity|].
  destruct (_ !! n) as [nd1|]; simpl; [|reflexivity].
  destruct (_ !! n) as [nd2|]; simpl; reflexivity.
Qed.

Lemma count_fold (os : list (op A)) l :
  Forall (fun o => o <> Clear) os ->
  count (fold_left step os l) = count l + Z.of_nat (length (List.filter is_add os)).
Proof.
  intros Hos. revert l. induction Hos as [|o os Ho Hos IH]; intros l; simpl; [lia|].
  rewrite IH, count_step by assumption. destruct (is_add o); simpl length; lia.
Qed.

(** [count()] counts the calls of [addHead] and [addTail], not the
    elements of the list: [remove] never decreases it.  After any calls
    with no [clear] among them it is the number of additions, whatever
    was removed. *)
Theorem count_ignores_remove (os : list (op A)) :
  Forall (fun o => o <> Clear) os ->
  count (run os) = Z.of_nat (length (List.filter is_add os)).
Proof. intros Hos. unfold run. now rewrite count_fold. Qed.

(** Chains: the nodes [0 .. length xs - 1] hold the elements [xs] and
    the link of each names the node before it. *)
Definition before (i : nat) : option nat :=
  match i with O => None | S j => Some j end.

Lemma each_chain (link : node A -> option nat) (xs : list A) ns :
  (forall i x, xs !! i = Some x ->
     exists nd, ns !! i = Some nd /\ element nd = x /\ link nd = before i) ->
  forall (k fuel : nat), (k < length xs)%nat -> (k < fuel)%nat ->
    each fuel link (fun _ => true) ns (Some k) = Ok (rev (take (S k) xs), false).
Proof.
  intros Hch. induction k as [|k IH]; intros fuel Hk Hfuel.
  - destruct fuel as [|fuel]; [lia|]. destruct xs as [|x xs]; [simpl in Hk; lia|].
    destruct (Hch O x eq_refl) as (nd & Hnd & He & Hl). simpl. rewrite Hnd, Hl, He.
    destruct fuel; reflexivity.
  - destruct fuel as [|fuel]; [lia|].
    destruct (lookup_lt_is_Some_2 xs (S k) Hk) as [x Hx].
    destruct (Hch (S k) x Hx) as (nd & Hnd & He & Hl).
    cbn [each]. rewrite Hnd, Hl, He. cbn [before].
    rewrite IH by lia.
    rewrite (take_S_r xs (S k) x Hx), rev_app_distr. reflexivity.
Qed.

(** The list built by [addTail] alone. *)
Lemma addTail_nodes (xs : list A) :
  let l := run (map AddTail xs) in
  nodes l = imap (fun i x => Node x (before i) None false) xs /\
  head l = (if xs is [] then None else Some O) /\
  tail l = before (length xs) /\
  count l = Z.of_nat (length xs).
Proof.
  induction xs as [|x xs IH] using rev_ind; [now repeat split|].
  cbv zeta in *. unfold run in *. rewrite map_app, fold_left_app. simpl.
  destruct IH as (Hn & Hh & Ht & Hc).
  rewrite Hn, Hh, Ht, Hc, length_imap, imap_app, length_app. simpl.
  rewrite Nat.add_0_r, Nat.add_1_r. repeat split.
  - destruct xs; reflexivity.
  - lia.
Qed.

(** The list built by [addHead] alone. *)
Lemma addHead_nodes (xs : list A) :
  let l := run (map AddHead xs) in
  nodes l = imap (fun i x => Node x None (before i) false) xs /\
  head l = before (length xs) /\
  tail l = (if xs is [] then None else Some O) /\
  count l = Z.of_nat (length xs).
Proof.
  induction xs as [|x xs IH] using rev_ind; [now repeat split|].
  cbv zeta in *. unfold run in *. rewrite map_app, fold_left_app. simpl.
  destruct IH as (Hn & Hh & Ht & Hc).
  rewrite Hn, Hh, Ht, Hc, length_imap, imap_app, length_app. simpl.
  rewrite Nat.add_0_r, Nat.add_1_r. repeat split.
  - destruct xs; reflexivity.
  - lia.
Qed.

(** Of a list built with [addTail] alone, [forEach] visits the first
    element that was added and no other, while [forEachReverse] visits
    them all, the newest first. *)
Lemma addTail_forEach_first_only (x : A) (xs : list A) :
  let l := run (map AddTail (x :: xs)) in
  forEach (fun _ => true) l = Ok ([x], false) /\
  forEachReverse (fun _ => true) l = Ok (rev (x :: xs), false) /\
  count l = Z.of_nat (length (x :: xs)).
Proof.
  destruct (addTail_nodes (x :: xs)) as (Hn & Hh & Ht & Hc). cbv zeta in *.
  unfold forEach, forEachReverse. rewrite Hh, Ht, Hc, Hn, length_imap.
  split; [simpl; now destruct (length xs)|]. split; [|reflexivity].
  cbn [length before].
  rewrite (each_chain previous (x :: xs)).
  - change (S (length xs)) with (length (x :: xs)). now rewrite firstn_all.
  - intros i y Hy. eexists. rewrite list_lookup_imap, Hy. simpl. now repeat split.
  - simpl. lia.
  - simpl. lia.
Qed.

(** Of a list built with [addHead] alone, [forEachReverse] visits the
    first element that was added and no other, while [forEach] visits
    them all, the newest first. *)
Lemma addHead_forEachReverse_first_only (x : A) (xs : list A) :
  let l := run (map AddHead (x :: xs)) in
  forEachReverse (fun _ => true) l = Ok ([x], false) /\
  forEach (fun _ => true) l = Ok (rev (x :: xs), false) /\
  count l = Z.of_nat (length (x :: xs)).
Proof.
  destruct (addHead_nodes (x :: xs)) as (Hn & Hh & Ht & Hc). cbv zeta in *.
  unfold forEach, forEachReverse. rewrite Hh, Ht, Hc, Hn, length_imap.
  split; [simpl; now destruct (length xs)|]. split; [|reflexivity].
  cbn [length before].
  rewrite (each_chain next (x :: xs)).
  - change (S (length xs)) with (length (x :: xs)). now rewrite firstn_all.
  - intros i y Hy. eexists. rewrite list_lookup_imap, Hy. simpl. now repeat split.
  - simpl. lia.
  - simpl. lia.
Qed.

(** The list is linked in one direction only: [addTail] does not link
    the old tail forward to the new node and [addHead] does not link the
    old head back to it.  Of a list built with [addTail] alone,
    [forEach] visits the first element added and no other, while
    [forEachReverse] visits them all, the newest first; of a list built
    with [addHead] alone it is [forEachReverse] that visits the first
    element added and no other, and [forEach] that visits them all, the
    newest first.  [count()] is the number of elements added in both
    cases. *)
Theorem one_sided_list_half_linked (x : A) (xs : list A) :
  (forEach (fun _ => true) (run (map AddTail (x :: xs))) = Ok ([x], false) /\
   forEachReverse (fun _ => true) (run (map AddTail (x :: xs))) = Ok (rev (x :: xs), false) /\
   count (run (map AddTail (x :: xs))) = Z.of_nat (length (x :: xs))) /\
  (forEachReverse (fun _ => true) (run (map AddHead (x :: xs))) = Ok ([x], false) /\
   forEach (fun _ => true) (run (map AddHead (x :: xs))) = Ok (rev (x :: xs), false) /\
   count (run (map AddHead (x :: xs))) = Z.of_nat (length (x :: xs))).
Proof.
  split; [apply addTail_forEach_first_only | apply addHead_forEachReverse_first_only].
Qed.

End Elements.

Lemma count_ignores_remove_witness :
  count (run [AddTail 7; Remove 0%nat]) = 1 /\
  forEach (fun _ => true) (run [AddTail 7; Remove 0%nat]) = Ok ([], false).
Proof.
  split; [|reflexivity].
  apply (count_ignores_remove [AddTail 7; Remove 0%nat]).
  repeat constructor; discriminate.
Defined.

End LinkedListFacts.


(** ** Canvace.Stage: the physics of an instance

    [Instance] keeps the five vectors of its [instance] object; the
    bounding box is the [box] of its entity. *)

Module Instance.

Import TileMap.

Record vec3 : Type := Vec3 { vi : Q; vj : Q; vk : Q }.

Record box : Type := Box { box_i0 : Q; box_j0 : Q; iSpan : Q; jSpan : Q }.

Record t : Type := Make {
  position : vec3;
  previousPosition : vec3;
  velocity : vec3;
  uniformVelocity : vec3;
  acceleration : vec3
}.

(** [createInstance(i, j, k)]: the vectors of a new instance. *)
Definition createInstance (i j k : Q) : t :=
  Make (Vec3 i j k) (Vec3 i j k) (Vec3 0 0 0) (Vec3 0 0 0) (Vec3 0 0 0).

(** [tick(dt)]. *)
Definition tick (dt : Q) (s : t) : t :=
  let dt2 := (dt * dt * (1 # 2))%Q in
  let p := position s in
  let v := velocity s in
  let u := uniformVelocity s in
  let a := acceleration s in
  Make (Vec3 (vi p + ((vi v + vi u) * dt + vi a * dt2))
             (vj p + ((vj v + vj u) * dt + vj a * dt2))
             (vk p + ((vk v + vk u) * dt + vk a * dt2)))
       p
       (Vec3 (vi v + vi a * dt) (vj v + vj a * dt) (vk v + vk a * dt))
       u a.

(** [getFullVelocity()]. *)
Definition getFullVelocity (s : t) : vec3 :=
  Vec3 (vi (velocity s) + vi (uniformVelocity s))
       (vj (velocity s) + vj (uniformVelocity s))
       (vk (velocity s) + vk (uniformVelocity s)).

Definition ltQ := Buckets.ltQ.

(** The vector [rectangleCollision] holds before its last two tests. *)
Definition overlap (bx : box) (s : t) (i j di dj : Q) : vec :=
  let bi := (vi (position s) + box_i0 bx)%Q in
  let bj := (vj (position s) + box_j0 bx)%Q in
  if ltQ i bi then
    if ltQ bi (i + di) then
      if ltQ j bj then
        if ltQ bj (j + dj) then
          Vec (if ltQ (i + di) (bi + iSpan bx) then bi - i - di else 0)
              (if ltQ (j + dj) (bj + jSpan bx) then bj - j - dj else 0)
        else Vec 0 0
      else if ltQ j (bj + jSpan bx) then
        Vec (if ltQ (i + di) (bi + iSpan bx) then bi - i - di else 0)
            (if ltQ (bj + jSpan bx) (j + dj) then bj - j - dj else 0)
      else Vec 0 0
    else Vec 0 0
  else if ltQ i (bi + iSpan bx) then
    if ltQ j bj then
      if ltQ bj (j + dj) then
        Vec (bi + iSpan bx - i)
            (if ltQ (j + dj) (bj + jSpan bx) then bj - j - dj else 0)
      else Vec 0 0
    else if ltQ j (bj + jSpan bx) then
      Vec (if ltQ (bi + iSpan bx) (i + di) then bi + iSpan bx - i else 0)
          (if ltQ (bj + jSpan bx) (j + dj) then bj + jSpan bx - j else 0)
    else Vec 0 0
  else Vec 0 0.

(** [rectangleCollision(i, j, di, dj, Di, Dj)]. *)
Definition rectangleCollision (bx : box) (s : t) (i j di dj Di Dj : Q) : vec :=
  let v := overlap bx s i j di dj in
  let p := position s in
  let q := previousPosition s in
  Vec (if ltQ (Qabs (vi p - vi q - Di) + (1 # 1000)) (Qabs (vec_i v)) then 0 else vec_i v)
      (if ltQ (Qabs (vj p - vj q - Dj) + (1 # 1000)) (Qabs (vec_j v)) then 0 else vec_j v).

(** [testCollision(otherInstance)], for this instance [s] of box [bx]
    and the other instance [s'] of box [bx']. *)
Definition testCollision (bx : box) (s : t) (bx' : box) (s' : t) : vec :=
  rectangleCollision bx' s'
    (vi (position s) + box_i0 bx) (vj (position s) + box_j0 bx) (iSpan bx) (jSpan bx)
    (vi (position s) - vi (previousPosition s))
    (vj (position s) - vj (previousPosition s)).

(** The reaction to a vector [v], shared by [collision],
    [collidesWithInstance], [tileCollision] and [collidesWithTiles]. *)
Definition react (v : vec) (s : t) : t :=
  let p := position s in
  let w := velocity s in
  let stop (c x : Q) : Q :=
    if ltQ 0 c && ltQ x 0 then 0%Q
    else if ltQ c 0 && ltQ 0 x then 0%Q else x in
  Make (Vec3 (vi p + vec_i v) (vj p + vec_j v) (vk p))
       (previousPosition s)
       (Vec3 (stop (vec_i v) (vi w)) (stop (vec_j v) (vj w)) (vk w))
       (uniformVelocity s) (acceleration s).

(** [collision(otherInstance)]: the vector, and this instance
    afterwards. *)
Definition collision (bx : box) (s : t) (bx' : box) (s' : t) : vec * t :=
  let v := testCollision bx s bx' s' in (v, react v s).

End Instance.

(** ** Canvace.RenderLoop: the steps of a frame *)

Module RenderLoop.

(** [period]: [Math.floor(1000 / rate)], for a rate that is not zero. *)
Definition period (rate : Q) : Z := Qfloor (1000 / rate).

(** The loop [while (delta > period) { step(period / 1000); delta -= period; }]:
    the arguments of [step] in order, and [delta] at the exit. *)
Fixpoint stepping (fuel : nat) (period : Z) (delta : Q) : result (list Q * Q) :=
  if Buckets.ltQ (inject_Z period) delta then
    match fuel with
    | O => Diverges
    | S fuel' =>
      match stepping fuel' period (delta - inject_Z period) with
      | Ok (steps, d) => Ok ((inject_Z period / 1000)%Q :: steps, d)
      | other => other
      end
    end
  else Ok ([], delta).

(** [updateLoop(delta, elapsed)]: the arguments of the calls of [step].
    The loop runs less than [delta / period] turns unless
    [period <= 0], in which case it has no exit. *)
Definition updateLoop (period : Z) (maxPeriod : Q) (delta : Q) : result (list Q) :=
  let delta := Qmin delta maxPeriod in
  match stepping (Z.to_nat (Qceiling (delta / inject_Z period))) period delta with
  | Ok (steps, d) => Ok (steps ++ [(d / 1000)%Q])
  | Throw e => Throw e
  | Diverges => Diverges
  end.

End RenderLoop.

Module InstanceFacts.

Import TileMap Instance.

Definition veq (a b : vec3) : Prop :=
  (vi a == vi b)%Q /\ (vj a == vj b)%Q /\ (vk a == vk b)%Q.

Definition Qsum (l : list Q) : Q := fold_right Qplus 0%Q l.

Definition ticks (steps : list Q) (s : t) : t := fold_left (fun s dt => tick dt s) steps s.

(** Where uniformly accelerated motion is after the time [T]. *)
Definition moved (s : t) (T : Q) : vec3 :=
  let p := position s in
  let v := velocity s in
  let u := uniformVelocity s in
  let a := acceleration s in
  Vec3 (vi p + (vi v + vi u) * T + vi a * T * T * (1 # 2))
       (vj p + (vj v + vj u) * T + vj a * T * T * (1 # 2))
       (vk p + (vk v + vk u) * T + vk a * T * T * (1 # 2)).

Definition sped (s : t) (T : Q) : vec3 :=
  let v := velocity s in
  let a := acceleration s in
  Vec3 (vi v + vi a * T) (vj v + vj a * T) (vk v + vk a * T).

Lemma ticks_closed_form (steps : list Q) : forall s : t,
  veq (position (ticks steps s)) (moved s (Qsum steps)) /\
  veq (velocity (ticks steps s)) (sped s (Qsum steps)) /\
  uniformVelocity (ticks steps s) = uniformVelocity s /\
  acceleration (ticks steps s) = acceleration s.
Proof.
  induction steps as [|dt steps IH]; intros s.
  - unfold veq, moved, sped. simpl. repeat split; ring.
  - destruct (IH (tick dt s)) as ((Hpi & Hpj & Hpk) & (Hvi & Hvj & Hvk) & Hu & Ha).
    change (ticks (dt :: steps) s) with (ticks steps (tick dt s)).
    rewrite Hu, Ha. unfold veq, moved, sped in *. simpl in *.
    repeat split; try reflexivity.
    + rewrite Hpi. ring.
    + rewrite Hpj. ring.
    + rewrite Hpk. ring.
    + rewrite Hvi. ring.
    + rewrite Hvj. ring.
    + rewrite Hvk. ring.
Qed.

(** Steps add up: ticking through the steps [dt1, .., dtn] leaves the
    position and the velocity that one tick of [dt1 + .. + dtn] leaves.
    The integration of [tick] is exact for the constant acceleration it
    assumes, so the result does not depend on how a span of time is cut
    into steps. *)
Theorem ticks_add_up (steps : list Q) (s : t) :
  veq (position (ticks steps s)) (position (tick (Qsum steps) s)) /\
  veq (velocity (ticks steps s)) (velocity (tick (Qsum steps) s)).
Proof.
  destruct (ticks_closed_form steps s) as ((Hpi & Hpj & Hpk) & (Hvi & Hvj & Hvk) & _).
  unfold veq, moved, sped in *. simpl in *.
  repeat split.
  - rewrite Hpi. ring.
  - rewrite Hpj. ring.
  - rewrite Hpk. ring.
  - rewrite Hvi. ring.
  - rewrite Hvj. ring.
  - rewrite Hvk. ring.
Qed.

Lemma ltQ_lt (x y : Q) : ltQ x y = true <-> (x < y)%Q.
Proof. apply BucketsFacts.ltQ_spec. Qed.

Lemma ltQ_false (x y : Q) : ltQ x y = false <-> (y <= x)%Q.
Proof.
  split.
  - intros H. destruct (Qlt_le_dec x y) as [Hlt|Hle]; [|assumption].
    apply ltQ_lt in Hlt. congruence.
  - intros H. apply not_true_is_false. intros Hlt. apply ltQ_lt in Hlt. lra.
Qed.

Ltac cases_ltQ :=
  repeat match goal with
  | |- context [ltQ ?x ?y] =>
      let H := fresh "H" in
      destruct (ltQ x y) eqn:H; [apply ltQ_lt in H | apply ltQ_false in H]
  end.

(** A rectangle apart from the bounding box is not pushed. *)
Lemma rectangleCollision_apart_zero (bx : box) (s : t) (i j di dj Di Dj : Q) :
  (0 < di)%Q -> (0 < dj)%Q -> (0 <= iSpan bx)%Q -> (0 <= jSpan bx)%Q ->
  (i + di <= vi (position s) + box_i0 bx)%Q \/
  (vi (position s) + box_i0 bx + iSpan bx <= i)%Q \/
  (j + dj <= vj (position s) + box_j0 bx)%Q \/
  (vj (position s) + box_j0 bx + jSpan bx <= j)%Q ->
  rectangleCollision bx s i j di dj Di Dj = Vec 0 0.
Proof.
  intros Hdi Hdj Hsi Hsj Hapart.
  assert (Hov : overlap bx s i j di dj = Vec 0 0).
  { unfold overlap.
    set (bi := (vi (position s) + box_i0 bx)%Q) in *.
    set (bj := (vj (position s) + box_j0 bx)%Q) in *.
    cases_ltQ; try reflexivity; exfalso; lra. }
  unfold rectangleCollision. rewrite Hov. simpl.
  now destruct (ltQ _ _), (ltQ _ _).
Qed.

(** A push ends on an edge of the box. *)
Lemma rectangleCollision_pushes_out (bx : box) (s : t) (i j di dj Di Dj : Q) :
  let v := rectangleCollision bx s i j di dj Di Dj in
  let bi := (vi (position s) + box_i0 bx)%Q in
  let bj := (vj (position s) + box_j0 bx)%Q in
  ((vec_i v == 0)%Q \/ (i + vec_i v + di == bi)%Q \/ (i + vec_i v == bi + iSpan bx)%Q) /\
  ((vec_j v == 0)%Q \/ (j + vec_j v + dj == bj)%Q \/ (j + vec_j v == bj + jSpan bx)%Q).
Proof.
  intros v bi bj. unfold v, rectangleCollision. cbn [vec_i vec_j].
  assert (Hov :
    ((vec_i (overlap bx s i j di dj) == 0)%Q \/
     (i + vec_i (overlap bx s i j di dj) + di == bi)%Q \/
     (i + vec_i (overlap bx s i j di dj) == bi + iSpan bx)%Q) /\
    ((vec_j (overlap bx s i j di dj) == 0)%Q \/
     (j + vec_j (overlap bx s i j di dj) + dj == bj)%Q \/
     (j + vec_j (overlap bx s i j di dj) == bj + jSpan bx)%Q)).
  { unfold overlap. fold bi bj.
    repeat match goal with
    | |- context [ltQ ?x ?y] => destruct (ltQ x y)
    end; cbn [vec_i vec_j];
    (split; [first [left; reflexivity | right; left; ring | right; right; ring]
            | first [left; reflexivity | right; left; ring | right; right; ring]]). }
  destruct Hov as [Hi Hj].
  split.
  - destruct (ltQ _ (Qabs (vec_i _))); [now left | exact Hi].
  - destruct (ltQ _ (Qabs (vec_j _))); [now left | exact Hj].
Qed.

(** The vector of [rectangleCollision] of an instance.  A rectangle
    apart from the bounding box is not pushed: for a proper rectangle
    ([di], [dj] positive) and a box of spans that are not negative, the
    vector is zero when the rectangle lies wholly to one side of the
    box.  And a push ends on an edge of the box: a component that is
    not zero moves the rectangle, along its axis, to where one of its
    edges lies on the left or top edge of the box, or its origin on the
    right or bottom edge. *)
Theorem rectangleCollision_response (bx : box) (s : t) (i j di dj Di Dj : Q) :
  ((0 < di)%Q -> (0 < dj)%Q -> (0 <= iSpan bx)%Q -> (0 <= jSpan bx)%Q ->
   (i + di <= vi (position s) + box_i0 bx)%Q \/
   (vi (position s) + box_i0 bx + iSpan bx <= i)%Q \/
   (j + dj <= vj (position s) + box_j0 bx)%Q \/
   (vj (position s) + box_j0 bx + jSpan bx <= j)%Q ->
   rectangleCollision bx s i j di dj Di Dj = Vec 0 0) /\
  ((vec_i (rectangleCollision bx s i j di dj Di Dj) == 0)%Q \/
   (i + vec_i (rectangleCollision bx s i j di dj Di Dj) + di
    == vi (position s) + box_i0 bx)%Q \/
   (i + vec_i (rectangleCollision bx s i j di dj Di Dj)
    == vi (position s) + box_i0 bx + iSpan bx)%Q) /\
  ((vec_j (rectangleCollision bx s i j di dj Di Dj) == 0)%Q \/
   (j + vec_j (rectangleCollision bx s i j di dj Di Dj) + dj
    == vj (position s) + box_j0 bx)%Q \/
   (j + vec_j (rectangleCollision bx s i j di dj Di Dj)
    == vj (position s) + box_j0 bx + jSpan bx)%Q).
Proof.
  split; [apply rectangleCollision_apart_zero|].
  exact (rectangleCollision_pushes_out bx s i j di dj Di Dj).
Qed.

(** A box of side 1 at (5, 5) that moved there from (4, 5), and a
    rectangle of side 1 at (4.5, 5) that did not move: the rectangle is
    pushed back by half a cell. *)
Lemma rectangleCollision_response_witness :
  rectangleCollision (Box 0 0 1 1) (createInstance 5 5 0) 2 5 1 1 0 0 = Vec 0 0 /\
  rectangleCollision (Box 0 0 1 1)
    (Make (Vec3 5 5 0) (Vec3 4 5 0) (Vec3 0 0 0) (Vec3 0 0 0) (Vec3 0 0 0))
    (9 # 2) 5 1 1 0 0 = Vec (- (1 # 2)) 0.
Proof.
  split; [|reflexivity].
  apply (proj1 (rectangleCollision_response (Box 0 0 1 1) (createInstance 5 5 0)
                  2 5 1 1 0 0));
    [reflexivity | reflexivity | discriminate | discriminate |].
  left. simpl. discriminate.
Defined.

End InstanceFacts.

Module RenderLoopFacts.

Import RenderLoop Instance InstanceFacts.

Lemma stepping_spec (p : Z) : (0 < p)%Z ->
  forall (fuel : nat) (delta : Q),
    (delta <= inject_Z p * inject_Z (Z.of_nat fuel + 1))%Q ->
    exists steps d,
      stepping fuel p delta = Ok (steps, d) /\
      (Qsum steps + d / 1000 == delta / 1000)%Q /\
      (d <= inject_Z p)%Q /\
      Forall (fun dt => dt == inject_Z p / 1000)%Q steps.
Proof.
  intros Hp.
  assert (HpQ : (0 < inject_Z p)%Q)
    by (change 0%Q with (inject_Z 0); now rewrite <- Zlt_Qlt).
  induction fuel as [|fuel IH]; intros delta Hd.
  - change (inject_Z (Z.of_nat 0 + 1)) with 1%Q in Hd.
    assert (Hle : (delta <= inject_Z p)%Q) by lra.
    pose proof Hle as Hle'. apply ltQ_false in Hle'. unfold ltQ in Hle'.
    cbn [stepping]. rewrite Hle'.
    exists [], delta. repeat split; [simpl; ring | exact Hle | constructor].
  - cbn [stepping].
    destruct (Buckets.ltQ (inject_Z p) delta) eqn:Hlt.
    + destruct (IH (delta - inject_Z p)%Q) as (steps & d & Hrun & Hsum & Hle & Hall).
      { rewrite Nat2Z.inj_succ in Hd. unfold Z.succ in Hd.
        rewrite !inject_Z_plus in *. change (inject_Z 1) with 1%Q in *. lra. }
      rewrite Hrun. exists ((inject_Z p / 1000)%Q :: steps), d.
      repeat split; [| exact Hle | constructor; [reflexivity | exact Hall]].
      simpl. rewrite <- Qplus_assoc, Hsum. field.
    + exists [], delta. apply ltQ_false in Hlt.
      repeat split; [simpl; ring | exact Hlt | constructor].
Qed.

Lemma Qsum_app (l1 l2 : list Q) : (Qsum (l1 ++ l2) == Qsum l1 + Qsum l2)%Q.
Proof. induction l1 as [|x l1 IH]; simpl; [ring | rewrite IH; ring]. Qed.

Lemma updateLoop_spec (p : Z) (maxPeriod delta : Q) : (0 < p)%Z ->
  exists steps,
    updateLoop p maxPeriod delta = Ok steps /\
    (Qsum steps == Qmin delta maxPeriod / 1000)%Q /\
    Forall (fun dt => dt <= inject_Z p / 1000)%Q steps.
Proof.
  intros Hp. unfold updateLoop. set (d0 := Qmin delta maxPeriod).
  assert (HpQ : (0 < inject_Z p)%Q)
    by (change 0%Q with (inject_Z 0); now rewrite <- Zlt_Qlt).
  destruct (stepping_spec p Hp (Z.to_nat (Qceiling (d0 / inject_Z p))) d0)
    as (steps & d & Hrun & Hsum & Hle & Hall).
  { pose proof (Qle_ceiling (d0 / inject_Z p)) as Hc.
    set (c := Qceiling (d0 / inject_Z p)) in *.
    assert (Hc' : (inject_Z c <= inject_Z (Z.of_nat (Z.to_nat c)))%Q)
      by (rewrite <- Zle_Qle; lia).
    rewrite inject_Z_plus. change (inject_Z 1) with 1%Q.
    assert (Hd0 : (d0 == inject_Z p * (d0 / inject_Z p))%Q) by (field; lra).
    rewrite Hd0 at 1. apply Qmult_le_l; [assumption | lra]. }
  rewrite Hrun. exists (steps ++ [(d / 1000)%Q]). split; [reflexivity|]. split.
  - rewrite Qsum_app. simpl. rewrite Qplus_0_r. exact Hsum.
  - apply Forall_app. split.
    + eapply Forall_impl; [exact Hall|]. intros dt Hdt. simpl in Hdt. rewrite Hdt. lra.
    + constructor; [|constructor]. apply Qmult_le_r; [reflexivity | exact Hle].
Qed.

(** A frame advances the physics by the time that passed: for a period
    that is positive, [updateLoop] returns, its steps are no longer than
    the period and add up to [min(delta, maxPeriod) / 1000] seconds,
    and an instance ticked through them (by [Stage.tick], with nothing
    else changing its vectors) has the position and the velocity of one
    tick of that time. *)
Theorem frame_advances_by_delta (p : Z) (maxPeriod delta : Q) (s : Instance.t) :
  (0 < p)%Z ->
  exists steps,
    updateLoop p maxPeriod delta = Ok steps /\
    Forall (fun dt => dt <= inject_Z p / 1000)%Q steps /\
    veq (position (ticks steps s)) (moved s (Qmin delta maxPeriod / 1000)) /\
    veq (velocity (ticks steps s)) (sped s (Qmin delta maxPeriod / 1000)).
Proof.
  intros Hp. destruct (updateLoop_spec p maxPeriod delta Hp) as (steps & Hrun & Hsum & Hall).
  exists steps. split; [exact Hrun|]. split; [exact Hall|].
  destruct (ticks_closed_form steps s) as ((Hpi & Hpj & Hpk) & (Hvi & Hvj & Hvk) & _).
  unfold veq, moved, sped in *. cbn [vi vj vk] in *.
  rewrite Hpi, Hpj, Hpk, Hvi, Hvj, Hvk, Hsum. repeat split; reflexivity.
Qed.

(** A rate above 1000 makes the period zero, and then a frame never
    ends: [updateLoop] subtracts zero from a positive [delta] for
    ever. *)
Theorem updateLoop_zero_period_diverges (rate maxPeriod delta : Q) :
  (1000 < rate)%Q -> (0 < delta)%Q -> (0 < maxPeriod)%Q ->
  period rate = 0 /\
  updateLoop (period rate) maxPeriod delta = Diverges /\
  forall fuel : nat, stepping fuel (period rate) (Qmin delta maxPeriod) = Diverges.
Proof.
  intros Hrate Hdelta Hmax.
  assert (Hp : period rate = 0).
  { unfold period. apply FrameTableFacts.Qfloor_unique.
    - change (inject_Z 0) with 0%Q. apply Qle_shift_div_l; lra.
    - change (inject_Z (0 + 1)) with 1%Q. apply Qlt_shift_div_r; lra. }
  assert (Hmin : (0 < Qmin delta maxPeriod)%Q) by (apply Q.min_glb_lt; assumption).
  assert (Hall : forall (fuel : nat) (d : Q), (0 < d)%Q -> stepping fuel 0 d = Diverges).
  { induction fuel as [|fuel IH]; intros d Hd; cbn [stepping].
    - apply ltQ_lt in Hd. unfold ltQ in Hd. change (inject_Z 0) with 0%Q. now rewrite Hd.
    - pose proof Hd as Hd'. apply ltQ_lt in Hd'. unfold ltQ in Hd'.
      change (inject_Z 0) with 0%Q. rewrite Hd'. rewrite IH; [reflexivity | lra]. }
  split; [exact Hp|]. rewrite Hp. split.
  - unfold updateLoop. now rewrite Hall.
  - intros fuel. now apply Hall.
Qed.

Lemma frame_advances_by_delta_witness :
  exists steps,
    updateLoop 16 5000 40 = Ok steps /\
    Forall (fun dt => dt <= inject_Z 16 / 1000)%Q steps /\
    veq (position (ticks steps (Make (Vec3 0 0 0) (Vec3 0 0 0) (Vec3 1 0 0) (Vec3 0 0 0)
                                   (Vec3 0 (-10) 0))))
        (moved (Make (Vec3 0 0 0) (Vec3 0 0 0) (Vec3 1 0 0) (Vec3 0 0 0) (Vec3 0 (-10) 0))
               (Qmin 40 5000 / 1000)) /\
    veq (velocity (ticks steps (Make (Vec3 0 0 0) (Vec3 0 0 0) (Vec3 1 0 0) (Vec3 0 0 0)
                                   (Vec3 0 (-10) 0))))
        (sped (Make (Vec3 0 0 0) (Vec3 0 0 0) (Vec3 1 0 0) (Vec3 0 0 0) (Vec3 0 (-10) 0))
              (Qmin 40 5000 / 1000)).
Proof.
  apply (frame_advances_by_delta 16 5000 40
           (Make (Vec3 0 0 0) (Vec3 0 0 0) (Vec3 1 0 0) (Vec3 0 0 0) (Vec3 0 (-10) 0))).
  reflexivity.
Defined.

Lemma updateLoop_zero_period_diverges_witness :
  period 2000 = 0 /\
  updateLoop (period 2000) 5000 16 = Diverges /\
  forall fuel : nat, stepping fuel (period 2000) (Qmin 16 5000) = Diverges.
Proof.
  apply (updateLoop_zero_period_diverges 2000 5000 16); reflexivity.
Defined.

End RenderLoopFacts.


(** ** Canvace.TileMap: collisions in free space *)

Module CollisionUse.

Import TileMap.

Lemma for_count_fixed {St : Type} (body : Z -> St -> result St) (s : St) :
  forall (n : nat) (x : Z),
    (forall y, x <= y < x + Z.of_nat n -> body y s = Ok s) ->
    for_count n x body s = Ok s.
Proof.
  induction n as [|n IH]; intros x Hbody; simpl; [reflexivity|].
  rewrite Hbody by lia. simpl. apply IH. intros y Hy. apply Hbody. lia.
Qed.

Lemma for_range_fixed {St : Type} (body : Z -> St -> result St) (s : St) (lo hi : Z) :
  (forall y, lo <= y <= hi -> body y s = Ok s) -> for_range lo hi body s = Ok s.
Proof.
  intros Hbody. unfold for_range. apply for_count_fixed. intros y Hy. apply Hbody. lia.
Qed.

Lemma proper_cells (x d : Q) : (0 < d)%Q -> Qfloor x <= Qceiling (x + d) - 1.
Proof.
  intros Hd. pose proof (Qfloor_le x) as Hf. pose proof (Qle_ceiling (x + d)) as Hc.
  assert (Hlt : (inject_Z (Qfloor x) < inject_Z (Qceiling (x + d)))%Q) by lra.
  rewrite <- Zlt_Qlt in Hlt. lia.
Qed.

(** A rectangle over no solid tile is not pushed: for a proper
    rectangle ([di], [dj] positive), when no cell it covers holds a tile
    that counts as solid, [rectangleCollision] returns the zero vector,
    whatever the displacement. *)
Theorem rectangleCollision_free_space (data : stage_data) (m : Matrix.t cell) (k : Z)
    (collides : option (bool -> properties -> bool)) (i j di dj Di Dj : Q) :
  (0 < di)%Q -> (0 < dj)%Q ->
  (forall a b : Z, i0 i <= a <= i1 i di -> j0 j <= b <= j1 j dj ->
     solidTileAt data m k collides a b = Ok false) ->
  rectangleCollision data m k collides i j di dj Di Dj = Ok (Vec 0 0).
Proof.
  intros Hdi Hdj Hfree.
  pose proof (proper_cells i di Hdi) as Hi. pose proof (proper_cells j dj Hdj) as Hj.
  fold (i0 i) (i1 i di) in Hi. fold (j0 j) (j1 j dj) in Hj.
  unfold rectangleCollision.
  assert (Hc : (if Matrix.hasLayer m k
                then let* c := for_range (j0 j) (j1 j dj)
                                 (scan_j data m k collides i di) (Corr 0 0 0 0) in
                     for_range (i0 i) (i1 i di) (scan_i data m k collides j dj) c
                else Ok (Corr 0 0 0 0)) = Ok (Corr 0 0 0 0)).
  { destruct (Matrix.hasLayer m k); [|reflexivity].
    rewrite for_range_fixed.
    - simpl. apply for_range_fixed. intros i2 Hi2. unfold scan_i.
      rewrite (Hfree i2 (j0 j)) by lia. cbn [bind].
      rewrite (Hfree i2 (j1 j dj)) by lia. reflexivity.
    - intros j2 Hj2. unfold scan_j.
      rewrite (Hfree (i0 i) j2) by lia. cbn [bind].
      rewrite (Hfree (i1 i di) j2) by lia. reflexivity. }
  rewrite Hc. simpl. unfold clamp, pick. simpl.
  now destruct (gtQ _ _), (gtQ _ _).
Qed.

Lemma rectangleCollision_free_space_witness :
  rectangleCollision TileMapFacts.one_tile_data TileMapFacts.one_tile_matrix 0 None
    (3 # 2) (1 # 2) 1 1 (1 # 10) 0 = Ok (Vec 0 0).
Proof.
  apply (rectangleCollision_free_space TileMapFacts.one_tile_data
           TileMapFacts.one_tile_matrix 0 None (3 # 2) (1 # 2) 1 1 (1 # 10) 0);
    [reflexivity | reflexivity |].
  intros a b Ha Hb.
  change (i0 (3 # 2)) with 1 in Ha. change (i1 (3 # 2) 1) with 2 in Ha.
  change (j0 (1 # 2)) with 0 in Hb. change (j1 (1 # 2) 1) with 1 in Hb.
  assert (Ha' : a = 1 \/ a = 2) by lia. assert (Hb' : b = 0 \/ b = 1) by lia.
  destruct Ha' as [-> | ->], Hb' as [-> | ->]; vm_compute; reflexivity.
Defined.

End CollisionUse.


(** ** Canvace.Animator: interpolations *)

Module Animator.

Import Instance.

(** The easing functions of [Canvace.Animator.Easing] that are
    polynomials ([harmonic], which calls [Math.sin], is left out). *)
Inductive easing : Type :=
| linear
| acceleration
| deceleration
| backAndForth.

Definition ease (e : easing) (x : Q) : Q :=
  match e with
  | linear => x
  | acceleration => x * x
  | deceleration => 1 - (x - 1) * (x - 1)
  | backAndForth => (2 * x - 1) * (2 * x - 1) * (2 * x - 1) - x + 1
  end.

(** The [stop] object: the components it has. *)
Record target : Type := Target {
  stop_i : option Q;
  stop_j : option Q;
  stop_k : option Q
}.

(** What [new Animation(object, stop, duration, easing, callback)]
    captures at the time [now]; a difference is read only for a
    component [stop] has. *)
Record animation : Type := MkAnimation {
  a_i0 : Q; a_j0 : Q; a_k0 : Q;
  a_stop : target;
  startTime : Q;
  duration : Q;
  a_easing : easing
}.

Definition Animation (now : Q) (object : vec3) (stop : target) (duration : Q)
    (e : easing) : animation :=
  MkAnimation (vi object) (vj object) (vk object) stop now duration e.

Definition endTime (a : animation) : Q := (startTime a + duration a)%Q.

(** [tick(timestamp)]: the animated object afterwards, and whether the
    animation goes on. *)
Definition tick (a : animation) (timestamp : Q) (object : vec3) : vec3 * bool :=
  let progress := ease (a_easing a) ((timestamp - startTime a) / duration a) in
  let set (x0 : Q) (stop : option Q) (old : Q) : Q :=
    match stop with
    | Some x => (x0 + (x - x0) * progress)%Q
    | None => old
    end in
  (Vec3 (set (a_i0 a) (stop_i (a_stop a)) (vi object))
        (set (a_j0 a) (stop_j (a_stop a)) (vj object))
        (set (a_k0 a) (stop_k (a_stop a)) (vk object)),
   Buckets.ltQ timestamp (endTime a)).

End Animator.

Module AnimatorFacts.

Import Instance Animator.

(** Whether a component is where [stop] wants it. *)
Definition arrived (stop : option Q) (x old : Q) : Prop :=
  match stop with
  | Some y => (x == y)%Q
  | None => x = old
  end.

Lemma ease_ends (e : easing) : (ease e 0 == 0)%Q /\ (ease e 1 == 1)%Q.
Proof. destruct e; split; reflexivity. Qed.

Lemma ease_proper (e : easing) (x y : Q) : (x == y)%Q -> (ease e x == ease e y)%Q.
Proof. intros H. destruct e; simpl; rewrite H; reflexivity. Qed.

(** An interpolation ends on its target when it is ticked at its end
    time: with any of the polynomial easings and a duration that is not
    zero, the tick at [startTime + duration] puts every component that
    [stop] has on the value of [stop], leaves the others alone, and
    reports the animation as over. *)
Theorem animation_ends_on_target (now dur : Q) (object cur : vec3) (stop : target)
    (e : easing) :
  ~ (dur == 0)%Q ->
  let a := Animation now object stop dur e in
  let r := tick a (endTime a) cur in
  arrived (stop_i stop) (vi (fst r)) (vi cur) /\
  arrived (stop_j stop) (vj (fst r)) (vj cur) /\
  arrived (stop_k stop) (vk (fst r)) (vk cur) /\
  snd r = false.
Proof.
  intros Hdur a r. unfold r, tick, a, Animation, endTime. cbn -[ease Qdiv].
  assert (Hx : ((now + dur - now) / dur == 1)%Q) by (field; assumption).
  assert (He : (ease e ((now + dur - now) / dur) == 1)%Q).
  { rewrite (ease_proper e _ 1 Hx). apply ease_ends. }
  repeat split.
  - destruct (stop_i stop); simpl; [rewrite He; ring | reflexivity].
  - destruct (stop_j stop); simpl; [rewrite He; ring | reflexivity].
  - destruct (stop_k stop); simpl; [rewrite He; ring | reflexivity].
  - apply InstanceFacts.ltQ_false. lra.
Qed.

(** The last tick is not clamped: the animator drops an animation at
    the first tick that is not before its end time, and with the linear
    easing that tick leaves the object past the target by the share of
    the way that corresponds to the lateness of the tick. *)
Theorem linear_animation_overshoots (now dur timestamp x : Q) (object cur : vec3)
    (sj sk : option Q) :
  (0 < dur)%Q -> (now + dur <= timestamp)%Q ->
  let a := Animation now object (Target (Some x) sj sk) dur linear in
  let r := tick a timestamp cur in
  snd r = false /\
  (vi (fst r) - x == (x - vi object) * ((timestamp - endTime a) / dur))%Q.
Proof.
  intros Hdur Hlate a r. unfold r, tick, a, Animation, endTime. cbn -[Qdiv].
  split; [apply InstanceFacts.ltQ_false; lra|]. field. lra.
Qed.

Lemma animation_ends_on_target_witness :
  arrived (Some 10%Q) (vi (fst (tick (Animation 100 (Vec3 0 0 0) (Target (Some 10%Q) None None)
                                        500 backAndForth)
                                   (endTime (Animation 100 (Vec3 0 0 0)
                                               (Target (Some 10%Q) None None)
                                               500 backAndForth))
                                   (Vec3 3 4 5)))) 3 /\
  arrived None (vj (fst (tick (Animation 100 (Vec3 0 0 0) (Target (Some 10%Q) None None)
                                 500 backAndForth)
                            (endTime (Animation 100 (Vec3 0 0 0)
                                        (Target (Some 10%Q) None None) 500 backAndForth))
                            (Vec3 3 4 5)))) 4 /\
  arrived None (vk (fst (tick (Animation 100 (Vec3 0 0 0) (Target (Some 10%Q) None None)
                                 500 backAndForth)
                            (endTime (Animation 100 (Vec3 0 0 0)
                                        (Target (Some 10%Q) None None) 500 backAndForth))
                            (Vec3 3 4 5)))) 5 /\
  snd (tick (Animation 100 (Vec3 0 0 0) (Target (Some 10%Q) None None) 500 backAndForth)
         (endTime (Animation 100 (Vec3 0 0 0) (Target (Some 10%Q) None None)
                     500 backAndForth))
         (Vec3 3 4 5)) = false.
Proof.
  apply (animation_ends_on_target 100 500 (Vec3 0 0 0) (Vec3 3 4 5)
           (Target (Some 10%Q) None None) backAndForth).
  discriminate.
Defined.

Lemma linear_animation_overshoots_witness :
  snd (tick (Animation 100 (Vec3 0 0 0) (Target (Some 10%Q) None None) 500 linear)
         616 (Vec3 0 0 0)) = false /\
  (vi (fst (tick (Animation 100 (Vec3 0 0 0) (Target (Some 10%Q) None None) 500 linear)
              616 (Vec3 0 0 0))) - 10
   == (10 - 0) * ((616 - endTime (Animation 100 (Vec3 0 0 0)
                                    (Target (Some 10%Q) None None) 500 linear)) / 500))%Q.
Proof.
  apply (linear_animation_overshoots 100 500 616 10 (Vec3 0 0 0) (Vec3 0 0 0) None None);
    [reflexivity | discriminate].
Defined.

End AnimatorFacts.
